(** * Shortest-path graph searches: a shallow embedding of
      [scipy/sparse/graph/graph_shortest_path.pyx]

    The development follows the source file top to bottom: the numeric
    domain, the dense and compressed-row matrix views, the Floyd-Warshall
    relaxation, the Fibonacci nodes and heap (an arena of records indexed
    by vertex, with optional indices for the C pointers), the two
    single-source searches, the two public entry points and the
    dispatcher.

    Numbers.  [DTYPE_t] is float64 in the source.  The model covers the
    arrays whose cells are integers: a cell is the integer the float
    holds.  The one arithmetic operation of the source, the addition of
    two distances, is float64 addition ([f64_add]): the sum is rounded to
    the nearest float, ties to even, and a sum that rounds to a magnitude
    of 2^1024 or more is infinite.  The dense relaxation works on weights extended with the
    sentinel [Inf] ([np.inf]); in the node values and the result of the
    sparse search the integer 2^1024 stands for [np.inf].  Sums are exact
    below 2^53.  Not modelled: cells that are no integers, and the
    infinity of negative sign (with its NaN), which only weights below
    -2^1023 can produce.

    Undefined behaviour.  The heap code dereferences raw pointers and
    indexes a fixed table of 100 buckets.  A dereference of NULL, an index
    outside an array and a loop that runs more than [fuel] times all yield
    [None]; [fuel] bounds every loop separately ([steps] counts the
    iterations left of the loop at hand).  The theorems below show when a
    result [Some _] is produced. *)

From Stdlib Require Import QArith.
From stdpp Require Import numbers strings.
From stdpp Require Import base option list relations.

Open Scope Z_scope.

(** ** Numeric domain *)

(** A float64 cell of the dense work matrix: a finite weight or [np.inf]. *)
Inductive DTYPE_t : Type :=
  | Fin (z : Z)
  | Inf.

#[global] Instance DTYPE_eq_dec : EqDecision DTYPE_t.
Proof. solve_decision. Defined.

(** The float64 nearest to the integer [z], as an integer: 53 significant
    bits, ties to even; 2^1024 and -2^1024 stand for the infinities. *)
Definition f64_round (z : Z) : Z :=
  let a := Z.abs z in
  let s := Z.log2 a - 52 in
  let r := if bool_decide (s <= 0) then a
           else
             let q := a / 2 ^ s in
             let rest := a mod 2 ^ s in
             let half := 2 ^ (s - 1) in
             let q' := if bool_decide (rest < half) then q
                       else if bool_decide (half < rest) then q + 1
                       else if Z.even q then q else q + 1 in
             q' * 2 ^ s in
  Z.sgn z * Z.min r (2 ^ 1024).

(** The integer is a float64 (or stands for an infinity). *)
Definition is_f64 (z : Z) : bool := bool_decide (f64_round z = z).

(** [x + y] on [DTYPE_t].  The operands of the source are floats; on an
    integer that no float holds the sum is left exact. *)
Definition f64_add (x y : Z) : Z :=
  if is_f64 x && is_f64 y then f64_round (x + y) else x + y.

(** [a + b] on the cells of the work matrix: float64 addition, infinite
    when an operand is or when the sum overflows. *)
Definition dadd (a b : DTYPE_t) : DTYPE_t :=
  match a, b with
  | Fin x, Fin y =>
      let sum := f64_add x y in
      if bool_decide (2 ^ 1024 <= sum) then Inf else Fin sum
  | _, _ => Inf
  end.

Definition dltb (a b : DTYPE_t) : bool :=
  match a, b with
  | Fin x, Fin y => bool_decide (x < y)
  | Fin _, Inf => true
  | Inf, _ => false
  end.

Definition dleb (a b : DTYPE_t) : bool :=
  match a, b with
  | Fin x, Fin y => bool_decide (x <= y)
  | _, Inf => true
  | Inf, Fin _ => false
  end.

Definition isinf (a : DTYPE_t) : bool :=
  match a with Inf => true | Fin _ => false end.

(** [unsigned int] arithmetic of the C code wraps modulo 2^32. *)
Definition wrap32 (z : Z) : Z := z mod 2 ^ 32.

(** ** Dense matrices *)

(** A two-dimensional array as the list of its rows. *)
Abbreviation matrix A := (list (list A)).

Definition nrows {A} (g : matrix A) : nat := length g.

(** [shape[0] == shape[1]]: every row is as long as the list of rows. *)
Definition is_square {A} (g : matrix A) : bool :=
  forallb (fun r => bool_decide (length r = length g)) g.

(** [g[i, j]]; the relaxation never reads outside the array, the default
    is what an absent cell counts as. *)
Definition mget {A} (d : A) (g : matrix A) (i j : nat) : A :=
  match g !! i with
  | Some r => match r !! j with Some x => x | None => d end
  | None => d
  end.

(** [g[i, j] = v]. *)
Definition mset {A} (g : matrix A) (i j : nat) (v : A) : matrix A :=
  alter (fun r => <[j := v]> r) i g.

Definition zeros (n m : nat) : matrix Z := replicate n (replicate m 0).

(** ** Floyd-Warshall on a dense matrix ([_floyd_warshall]) *)

Section FloydWarshall.

Notation "g [[ i , j ]]" := (mget Inf g i j) (at level 1, format "g [[ i ,  j ]]").

(** [graph[np.where(graph == 0)] = infinity] *)
Definition zeros_to_inf (g : matrix Z) : matrix DTYPE_t :=
  map (map (fun z => if bool_decide (z = 0) then Inf else Fin z)) g.

(** [graph.flat[::N + 1] = 0] *)
Definition zero_diagonal (N : nat) (g : matrix DTYPE_t) : matrix DTYPE_t :=
  foldl (fun g i => mset g i i (Fin 0)) g (seq 0 N).

(** The body of the two symmetrizing loops. *)
Definition symmetrize_cell (g : matrix DTYPE_t) (i j : nat) : matrix DTYPE_t :=
  if dleb g[[j, i]] g[[i, j]]
  then mset g i j g[[j, i]]
  else mset g j i g[[i, j]].

Definition symmetrize_row (N : nat) (g : matrix DTYPE_t) (i : nat) : matrix DTYPE_t :=
  foldl (fun g j => symmetrize_cell g i j) g (seq (S i) (N - S i)).

Definition symmetrize (N : nat) (g : matrix DTYPE_t) : matrix DTYPE_t :=
  foldl (symmetrize_row N) g (seq 0 N).

(** The innermost statement: relax [i -> j] through [k]. *)
Definition relax_cell (k i : nat) (g : matrix DTYPE_t) (j : nat) : matrix DTYPE_t :=
  let sum_ijk := dadd g[[i, k]] g[[k, j]] in
  if dltb sum_ijk g[[i, j]] then mset g i j sum_ijk else g.

(** One row [i] for a fixed [k]; rows with no path to [k] are skipped. *)
Definition relax_row (N k : nat) (g : matrix DTYPE_t) (i : nat) : matrix DTYPE_t :=
  if isinf g[[i, k]] then g
  else foldl (relax_cell k i) g (seq 0 N).

Definition relax_through (N : nat) (g : matrix DTYPE_t) (k : nat) : matrix DTYPE_t :=
  foldl (relax_row N k) g (seq 0 N).

Definition relax_all (N : nat) (g : matrix DTYPE_t) : matrix DTYPE_t :=
  foldl (relax_through N) g (seq 0 N).

(** [graph[np.where(np.isinf(graph))] = 0] *)
Definition inf_to_zeros (g : matrix DTYPE_t) : matrix Z :=
  map (map (fun c => match c with Fin z => z | Inf => 0 end)) g.

Definition _floyd_warshall (graph : matrix Z) (directed : bool) : matrix Z :=
  let N := nrows graph in
  let g := zeros_to_inf graph in
  let g := zero_diagonal N g in
  let g := if directed then g else symmetrize N g in
  let g := relax_all N g in
  inf_to_zeros g.

End FloydWarshall.

(** ** Compressed sparse row view *)

(** The triple exposed by a [csr_matrix]: [data] (weights), [indices]
    (destination columns) and [indptr] (row pointers), with its shape.  The
    edges leaving row [i] occupy [indptr[i] <= k < indptr[i+1]]. *)
Record csr : Type := mkCsr {
  data : list Z;
  indices : list nat;
  indptr : list nat;
  shape : nat * nat
}.

(** The stored entries [(column, weight)] of row [i]. *)
Definition csr_row (m : csr) (i : nat) : list (nat * Z) :=
  match indptr m !! i, indptr m !! S i with
  | Some lo, Some hi =>
      omap (fun k => c ← indices m !! k; w ← data m !! k; Some (c, w))
           (seq lo (hi - lo))
  | _, _ => []
  end.

(** Row pointers for rows of the given lengths, starting at [start]. *)
Fixpoint row_pointers (start : nat) (lens : list nat) : list nat :=
  match lens with
  | [] => [start]
  | n :: lens' => start :: row_pointers (start + n) lens'
  end.

Definition of_rows (sh : nat * nat) (rows : list (list (nat * Z))) : csr :=
  {| data := concat (map (map snd) rows);
     indices := concat (map (map fst) rows);
     indptr := row_pointers 0 (map length rows);
     shape := sh |}.

Definition ncols {A} (g : matrix A) : nat :=
  match g with
  | r :: _ => length r
  | [] => 0
  end.

(** Modelled from the spec: [csr_matrix(dense)] of [scipy.sparse], which is
    not part of the source file.  Compressed row form stores, per row,
    only the nonzero entries as (value, column-index) pairs, with a
    row-pointer array delimiting each row's slice. *)
Definition dense_row_entries (r : list Z) : list (nat * Z) :=
  filter (fun cw => cw.2 ≠ 0) (imap (fun j w => (j, w)) r).

Definition csr_matrix (g : matrix Z) : csr :=
  of_rows (nrows g, ncols g) (map dense_row_entries g).

(** Modelled from the spec: [m.toarray()] of [scipy.sparse]: the dense
    matrix of a compressed-row view; entries stored twice for one cell are
    added up, cells with no entry are 0. *)
Definition cell_sum (es : list (nat * Z)) (j : nat) : Z :=
  foldr Z.add 0 (map snd (filter (fun cw => cw.1 = j) es)).

Definition toarray (m : csr) : matrix Z :=
  map (fun i => map (cell_sum (csr_row m i)) (seq 0 (shape m).2))
      (seq 0 (shape m).1).

(** Modelled from the spec: [m.T.tocsr()] of [scipy.sparse], the derived
    transposed view: row [j] of the result lists the edges into [j], by
    increasing source row and in stored order within a row. *)
Definition column_entries (m : csr) (j : nat) : list (nat * Z) :=
  concat (map (fun i => omap (fun cw => if bool_decide (cw.1 = j)
                                        then Some (i, cw.2) else None)
                             (csr_row m i))
              (seq 0 (shape m).1)).

Definition transpose_csr (m : csr) : csr :=
  of_rows ((shape m).2, (shape m).1)
          (map (column_entries m) (seq 0 (shape m).2)).

(** A view is well formed when the row pointers delimit the two parallel
    arrays and every column index is inside the matrix. *)
Definition csr_wf (m : csr) : Prop :=
  length (indptr m) = S (shape m).1
  ∧ length (indices m) = length (data m)
  ∧ (∀ i lo hi, indptr m !! i = Some lo → indptr m !! S i = Some hi →
       (lo ≤ hi)%nat ∧ (hi ≤ length (data m))%nat)
  ∧ Forall (fun c => (c < (shape m).2)%nat) (indices m).

(** ** FibonacciNode structure *)

(** A C pointer into the node array: the index of the node, or NULL. *)
Abbreviation pFibonacciNode := (option nat).

Record FibonacciNode : Type := mkNode {
  index : nat;
  rank : Z;
  state : nat;
  val : Z;
  parent : pFibonacciNode;
  left_sibling : pFibonacciNode;
  right_sibling : pFibonacciNode;
  children : pFibonacciNode
}.

Definition set_rank (r : Z) (n : FibonacciNode) : FibonacciNode :=
  mkNode (index n) r (state n) (val n)
         (parent n) (left_sibling n) (right_sibling n) (children n).
Definition set_state (s : nat) (n : FibonacciNode) : FibonacciNode :=
  mkNode (index n) (rank n) s (val n)
         (parent n) (left_sibling n) (right_sibling n) (children n).
Definition set_val (v : Z) (n : FibonacciNode) : FibonacciNode :=
  mkNode (index n) (rank n) (state n) v
         (parent n) (left_sibling n) (right_sibling n) (children n).
Definition set_parent (p : pFibonacciNode) (n : FibonacciNode) : FibonacciNode :=
  mkNode (index n) (rank n) (state n) (val n)
         p (left_sibling n) (right_sibling n) (children n).
Definition set_left_sibling (p : pFibonacciNode) (n : FibonacciNode) : FibonacciNode :=
  mkNode (index n) (rank n) (state n) (val n)
         (parent n) p (right_sibling n) (children n).
Definition set_right_sibling (p : pFibonacciNode) (n : FibonacciNode) : FibonacciNode :=
  mkNode (index n) (rank n) (state n) (val n)
         (parent n) (left_sibling n) p (children n).
Definition set_children (p : pFibonacciNode) (n : FibonacciNode) : FibonacciNode :=
  mkNode (index n) (rank n) (state n) (val n)
         (parent n) (left_sibling n) (right_sibling n) p.

(** The node array [nodes]; [nodes !! p] reads through a pointer and
    [store] writes through it.  Both are undefined outside the array. *)
Abbreviation arena := (list FibonacciNode).

Definition store (nodes : arena) (p : nat)
    (f : FibonacciNode → FibonacciNode) : option arena :=
  n ← nodes !! p; Some (<[p := f n]> nodes).

(** The state 0 is NOT_IN_HEAP, 1 is IN_HEAP, 2 is SCANNED. *)
Definition fresh_node (i : nat) (v : Z) : FibonacciNode :=
  mkNode i 0 0 v None None None None.

Definition initialize_node (nodes : arena) (node : nat) (i : nat) (v : Z)
    : option arena :=
  store nodes node (fun _ => fresh_node i v).

Fixpoint rightmost_sibling (fuel : nat) (nodes : arena) (node : nat)
    : option nat :=
  match fuel with
  | O => None
  | S fuel' =>
      temp ← nodes !! node;
      match right_sibling temp with
      | Some r => rightmost_sibling fuel' nodes r
      | None => Some node
      end
  end.

Fixpoint leftmost_sibling (fuel : nat) (nodes : arena) (node : nat)
    : option nat :=
  match fuel with
  | O => None
  | S fuel' =>
      temp ← nodes !! node;
      match left_sibling temp with
      | Some l => leftmost_sibling fuel' nodes l
      | None => Some node
      end
  end.

Definition add_sibling (fuel : nat) (nodes : arena) (node new_sibling : nat)
    : option arena :=
  temp ← rightmost_sibling fuel nodes node;
  nodes ← store nodes temp (set_right_sibling (Some new_sibling));
  nodes ← store nodes new_sibling (set_left_sibling (Some temp));
  nodes ← store nodes new_sibling (set_right_sibling None);
  n ← nodes !! node;
  nodes ← store nodes new_sibling (set_parent (parent n));
  s ← nodes !! new_sibling;
  match parent s with
  | Some p => store nodes p (fun x => set_rank (wrap32 (rank x + 1)) x)
  | None => Some nodes
  end.

Definition add_child (fuel : nat) (nodes : arena) (node new_child : nat)
    : option arena :=
  nodes ← store nodes new_child (set_parent (Some node));
  n ← nodes !! node;
  match children n with
  | Some c => add_sibling fuel nodes c new_child
  | None =>
      nodes ← store nodes node (set_children (Some new_child));
      nodes ← store nodes new_child (set_right_sibling None);
      nodes ← store nodes new_child (set_left_sibling None);
      store nodes node (set_rank 1)
  end.

Definition remove (nodes : arena) (node : nat) : option arena :=
  n ← nodes !! node;
  nodes ← match parent n with
          | Some p =>
              nodes ← store nodes p (fun x => set_rank (wrap32 (rank x - 1)) x);
              n ← nodes !! node;
              match left_sibling n, right_sibling n with
              | Some l, _ => store nodes p (set_children (Some l))
              | None, Some r => store nodes p (set_children (Some r))
              | None, None => store nodes p (set_children None)
              end
          | None => Some nodes
          end;
  n ← nodes !! node;
  nodes ← match left_sibling n with
          | Some l => store nodes l (set_right_sibling (right_sibling n))
          | None => Some nodes
          end;
  n ← nodes !! node;
  nodes ← match right_sibling n with
          | Some r => store nodes r (set_left_sibling (left_sibling n))
          | None => Some nodes
          end;
  nodes ← store nodes node (set_left_sibling None);
  nodes ← store nodes node (set_right_sibling None);
  store nodes node (set_parent None).

(** ** FibonacciHeap structure *)

Record FibonacciHeap : Type := mkHeap {
  min_node : pFibonacciNode;
  roots_by_rank : list pFibonacciNode
}.

(** [pFibonacciNode[100] roots_by_rank] *)
Definition max_rank : nat := 100.

Definition set_min_node (p : pFibonacciNode) (heap : FibonacciHeap) : FibonacciHeap :=
  mkHeap p (roots_by_rank heap).

(** [heap.roots_by_rank[r] = p]; undefined outside the table. *)
Definition set_root_by_rank (r : Z) (p : pFibonacciNode) (heap : FibonacciHeap)
    : option FibonacciHeap :=
  _ ← roots_by_rank heap !! Z.to_nat r;
  Some (mkHeap (min_node heap) (<[Z.to_nat r := p]> (roots_by_rank heap))).

(** The heap and the node array it points into are threaded together. *)
Abbreviation heap_state := (FibonacciHeap * arena)%type.

Definition insert_node (fuel : nat) (st : heap_state) (node : nat)
    : option heap_state :=
  let '(heap, nodes) := st in
  match min_node heap with
  | Some m =>
      nodes ← add_sibling fuel nodes m node;
      n ← nodes !! node;
      mn ← nodes !! m;
      if bool_decide (val n < val mn)
      then Some (set_min_node (Some node) heap, nodes)
      else Some (heap, nodes)
  | None => Some (set_min_node (Some node) heap, nodes)
  end.

Definition decrease_val (fuel : nat) (st : heap_state) (node : nat) (newval : Z)
    : option heap_state :=
  let '(heap, nodes) := st in
  nodes ← store nodes node (set_val newval);
  n ← nodes !! node;
  match parent n with
  | Some p =>
      pn ← nodes !! p;
      if bool_decide (val pn >= newval)
      then nodes ← remove nodes node; insert_node fuel (heap, nodes) node
      else Some (heap, nodes)
  | None => Some (heap, nodes)
  end.

(** The two branches of [link] that merge the incoming [node] with the
    root [linknode] found in its bucket; the result is the node that
    stays a root, with the updated array. *)
Definition link_pair (fuel : nat) (heap : FibonacciHeap) (nodes : arena)
    (node linknode : nat) : option (nat * arena) :=
  n ← nodes !! node;
  ln ← nodes !! linknode;
  if bool_decide (val n < val ln) || bool_decide (min_node heap = Some node)
  then
    nodes ← remove nodes linknode;
    nodes ← add_child fuel nodes node linknode;
    Some (node, nodes)
  else
    nodes ← remove nodes node;
    nodes ← add_child fuel nodes linknode node;
    Some (linknode, nodes).

Fixpoint link (steps fuel : nat) (st : heap_state) (node : nat)
    : option heap_state :=
  match steps with
  | O => None
  | S steps' =>
      let '(heap, nodes) := st in
      n ← nodes !! node;
      slot ← roots_by_rank heap !! Z.to_nat (rank n);
      match slot with
      | None =>
          heap ← set_root_by_rank (rank n) (Some node) heap;
          Some (heap, nodes)
      | Some linknode =>
          heap ← set_root_by_rank (rank n) None heap;
          '(top, nodes) ← link_pair fuel heap nodes node linknode;
          link steps' fuel (heap, nodes) top
      end
  end.

(** The first loop of [remove_min]: every child of the minimum, from the
    leftmost on, is cut and appended to the roots. *)
Fixpoint promote_children (steps fuel : nat) (nodes : arena) (m : nat)
    (temp : pFibonacciNode) : option arena :=
  match temp with
  | None => Some nodes
  | Some t =>
      match steps with
      | O => None
      | S steps' =>
          tn ← nodes !! t;
          let temp_right := right_sibling tn in
          nodes ← remove nodes t;
          nodes ← add_sibling fuel nodes m t;
          promote_children steps' fuel nodes m temp_right
      end
  end.

(** The last loop of [remove_min]: walk the roots, track the minimum and
    link each root into the bucket table. *)
Fixpoint relink (steps fuel : nat) (st : heap_state) (temp : pFibonacciNode)
    : option heap_state :=
  match temp with
  | None => Some st
  | Some t =>
      match steps with
      | O => None
      | S steps' =>
          let '(heap, nodes) := st in
          tn ← nodes !! t;
          m ← min_node heap;
          mn ← nodes !! m;
          let heap := if bool_decide (val tn < val mn)
                      then set_min_node (Some t) heap else heap in
          let temp_right := right_sibling tn in
          st ← link fuel fuel (heap, nodes) t;
          relink steps' fuel st temp_right
      end
  end.

Definition remove_min (fuel : nat) (st : heap_state)
    : option (nat * heap_state) :=
  let '(heap, nodes) := st in
  m ← min_node heap;
  mn ← nodes !! m;
  nodes ← match children mn with
          | Some c =>
              temp ← leftmost_sibling fuel nodes c;
              nodes ← promote_children fuel fuel nodes m (Some temp);
              store nodes m (set_children None)
          | None => Some nodes
          end;
  temp ← leftmost_sibling fuel nodes m;
  mn ← nodes !! m;
  let rest := if bool_decide (temp = m) then right_sibling mn else Some temp in
  match rest with
  | None => Some (m, (set_min_node None heap, nodes))
  | Some temp =>
      nodes ← remove nodes m;
      let heap := mkHeap (Some temp) (replicate max_rank None) in
      st ← relink fuel fuel (heap, nodes) (Some temp);
      Some (m, st)
  end.

(** ** Single-source searches *)

(** [for i from lo <= i < hi: body], in the option monad. *)
Fixpoint for_each {St : Type} (body : St → nat → option St) (l : list nat) (s : St)
    : option St :=
  match l with
  | [] => Some s
  | i :: l' => s' ← body s i; for_each body l' s'
  end.

Definition for_range {St : Type} (lo hi : nat) (body : St → nat → option St) (s : St)
    : option St :=
  for_each body (seq lo (hi - lo)) s.

(** [graph[i, j] = v] on the result matrix; undefined outside it. *)
Definition write_cell (graph : matrix Z) (i j : nat) (v : Z) : option (matrix Z) :=
  r ← graph !! i;
  _ ← r !! j;
  Some (mset graph i j v).

(** The body of the loop over the edges of the scanned node [v]: the
    relaxation of the edge stored at position [i]. *)
Definition relax_edge (fuel : nat) (neighbors : list nat) (distances : list Z)
    (v : nat) (st : heap_state) (i : nat) : option heap_state :=
  let '(heap, nodes) := st in
  nb ← neighbors !! i;
  current_neighbor ← nodes !! nb;
  if bool_decide (state current_neighbor ≠ 2%nat) then
    dist ← distances !! i;
    vn ← nodes !! v;
    if bool_decide (state current_neighbor = 0%nat) then
      nodes ← store nodes nb (set_state 1);
      vn ← nodes !! v;
      nodes ← store nodes nb (set_val (f64_add (val vn) dist));
      insert_node fuel (heap, nodes) nb
    else if bool_decide (val current_neighbor > f64_add (val vn) dist) then
      decrease_val fuel (heap, nodes) nb (f64_add (val vn) dist)
    else Some (heap, nodes)
  else Some (heap, nodes).

(** All edges of the row [indptr[v.index] <= i < indptr[v.index + 1]]. *)
Definition relax_edges (fuel : nat) (neighbors : list nat) (distances : list Z)
    (indptr : list nat) (v : nat) (st : heap_state) : option heap_state :=
  vn ← st.2 !! v;
  lo ← indptr !! index vn;
  hi ← indptr !! S (index vn);
  for_range lo hi (relax_edge fuel neighbors distances v) st.

Abbreviation search_state := (matrix Z * heap_state)%type.

(** [while heap.min_node: ...] of [_dijkstra_directed_one_row]. *)
Fixpoint directed_loop (steps fuel : nat) (i_node : nat)
    (neighbors : list nat) (distances : list Z) (indptr : list nat)
    (s : search_state) : option search_state :=
  let '(graph, (heap, nodes)) := s in
  match min_node heap with
  | None => Some s
  | Some _ =>
      match steps with
      | O => None
      | S steps' =>
          '(v, (heap, nodes)) ← remove_min fuel (heap, nodes);
          nodes ← store nodes v (set_state 2);
          st ← relax_edges fuel neighbors distances indptr v (heap, nodes);
          vn ← st.2 !! v;
          graph ← write_cell graph i_node (index vn) (val vn);
          directed_loop steps' fuel i_node neighbors distances indptr (graph, st)
      end
  end.

Definition _dijkstra_directed_one_row (fuel : nat) (i_node : nat)
    (neighbors : list nat) (distances : list Z) (indptr : list nat)
    (s : search_state) : option search_state :=
  let '(graph, (heap, nodes)) := s in
  let N := ncols graph in
  nodes ← for_range 0 N (fun nodes i => initialize_node nodes i i 0) nodes;
  let heap := set_min_node None heap in
  st ← insert_node fuel (heap, nodes) i_node;
  directed_loop fuel fuel i_node neighbors distances indptr (graph, st).

(** [while heap.min_node: ...] of [_dijkstra_one_row]: the edges out of
    [v] and then the edges into [v]. *)
Fixpoint undirected_loop (steps fuel : nat) (i_node : nat)
    (neighbors1 : list nat) (distances1 : list Z) (indptr1 : list nat)
    (neighbors2 : list nat) (distances2 : list Z) (indptr2 : list nat)
    (s : search_state) : option search_state :=
  let '(graph, (heap, nodes)) := s in
  match min_node heap with
  | None => Some s
  | Some _ =>
      match steps with
      | O => None
      | S steps' =>
          '(v, (heap, nodes)) ← remove_min fuel (heap, nodes);
          nodes ← store nodes v (set_state 2);
          st ← relax_edges fuel neighbors1 distances1 indptr1 v (heap, nodes);
          st ← relax_edges fuel neighbors2 distances2 indptr2 v st;
          vn ← st.2 !! v;
          graph ← write_cell graph i_node (index vn) (val vn);
          undirected_loop steps' fuel i_node neighbors1 distances1 indptr1
                          neighbors2 distances2 indptr2 (graph, st)
      end
  end.

(** The abbreviated reset of [_dijkstra_one_row]: only [state] and [val]. *)
Definition reset_node (nodes : arena) (i : nat) : option arena :=
  nodes ← store nodes i (set_state 0);
  store nodes i (set_val 0).

Definition _dijkstra_one_row (fuel : nat) (i_node : nat)
    (neighbors1 : list nat) (distances1 : list Z) (indptr1 : list nat)
    (neighbors2 : list nat) (distances2 : list Z) (indptr2 : list nat)
    (s : search_state) : option search_state :=
  let '(graph, (heap, nodes)) := s in
  let N := ncols graph in
  nodes ← for_range 0 N reset_node nodes;
  st ← insert_node fuel (heap, nodes) i_node;
  undirected_loop fuel fuel i_node neighbors1 distances1 indptr1
                  neighbors2 distances2 indptr2 (graph, st).

(** ** Arrays in memory, arguments and outcomes *)

(** What a call produces: a value, a Python [ValueError] with its message,
    or no defined result (undefined behaviour of the C code, or a loop out
    of fuel). *)
Inductive outcome (A : Type) : Type :=
  | Return (a : A)
  | ValueError (msg : string)
  | Undefined.
Arguments Return {A} a.
Arguments ValueError {A} msg.
Arguments Undefined {A}.

Definition defined {A} (o : option A) : outcome A :=
  match o with
  | Some a => Return a
  | None => Undefined
  end.

Inductive dtype : Type := float64 | other_dtype.
Inductive layout : Type := C_order | F_order.

#[global] Instance dtype_eq_dec : EqDecision dtype.
Proof. solve_decision. Defined.
#[global] Instance layout_eq_dec : EqDecision layout.
Proof. solve_decision. Defined.

(** A dense numpy array owned by somebody: element type, memory order and
    cells.  Arrays live in a [memory] and are passed by reference, so that
    writing through one reference is seen through every other. *)
Record ndarray : Type := mkArray {
  nd_dtype : dtype;
  nd_order : layout;
  nd_cells : matrix Z
}.

Abbreviation memory := (list ndarray).

Definition alloc (mem : memory) (a : ndarray) : memory * nat :=
  (mem ++ [a], length mem).

(** [np.asarray(a, dtype=DTYPE, order='C')]: the array itself when it is
    already float64 and C-ordered, a converted copy otherwise. *)
Definition np_asarray (mem : memory) (a : nat) : option (memory * nat) :=
  arr ← mem !! a;
  if bool_decide (nd_dtype arr = float64) && bool_decide (nd_order arr = C_order)
  then Some (mem, a)
  else Some (alloc mem (mkArray float64 C_order (nd_cells arr))).

(** [np.array(a, dtype=DTYPE, order='C')]: always a copy. *)
Definition np_array (mem : memory) (a : nat) : option (memory * nat) :=
  arr ← mem !! a;
  Some (alloc mem (mkArray float64 C_order (nd_cells arr))).

Inductive sparse_format : Type := CSR | CSC.

(** The [dist_matrix] argument: a sparse matrix (a value; for [CSC] the
    triple is the column-oriented one) or a reference to a dense array. *)
Inductive dist_matrix_t : Type :=
  | Sparse (fmt : sparse_format) (m : csr)
  | Array (a : nat).

(** [m.T] of a column-oriented matrix: the same triple read row-wise. *)
Definition csc_T (m : csr) : csr :=
  mkCsr (data m) (indices m) (indptr m) ((shape m).2, (shape m).1).

Definition tocsr (fmt : sparse_format) (m : csr) : csr :=
  match fmt with
  | CSR => m
  | CSC => transpose_csr (csc_T m)
  end.

(** ** The sparse entry point *)

Definition initial_nodes (N : nat) : arena :=
  map (fun i => fresh_node i 0) (seq 0 N).

(** The loops of [_dijkstra] over the requested sources: one search per
    entry of [compute_ind], all on the same heap and node array. *)
Definition search_rows (fuel : nat) (dist_matrix : csr) (directed : bool)
    (compute_ind : list nat) (s : search_state) : option search_state :=
  if directed then
    for_each (fun s i =>
                _dijkstra_directed_one_row fuel i
                  (indices dist_matrix) (data dist_matrix)
                  (indptr dist_matrix) s)
             compute_ind s
  else
    let dist_matrix_T := transpose_csr dist_matrix in
    for_each (fun s i =>
                _dijkstra_one_row fuel i
                  (indices dist_matrix) (data dist_matrix)
                  (indptr dist_matrix)
                  (indices dist_matrix_T) (data dist_matrix_T)
                  (indptr dist_matrix_T) s)
             compute_ind s.

Definition _dijkstra (fuel : nat) (dist_matrix : csr) (graph : matrix Z)
    (compute_ind : list nat) (directed : bool) : option (matrix Z) :=
  let N := ncols graph in
  let nodes := initial_nodes N in
  let heap := mkHeap None (replicate max_rank None) in
  s ← search_rows fuel dist_matrix directed compute_ind (graph, (heap, nodes));
  Some s.1.

(** The first statements of [dijkstra]: the argument as a compressed-row
    view.  A column-oriented matrix is read row-wise as its transpose when
    the graph is undirected and converted otherwise. *)
Definition dijkstra_view (mem : memory) (dist_matrix : dist_matrix_t)
    (directed : bool) : option csr :=
  match dist_matrix with
  | Sparse CSR m => Some m
  | Sparse CSC m => if directed then Some (tocsr CSC m) else Some (csc_T m)
  | Array a => arr ← mem !! a; Some (csr_matrix (nd_cells arr))
  end.

Definition dijkstra (fuel : nat) (mem : memory) (dist_matrix : dist_matrix_t)
    (directed : bool) (indices : option (list nat)) : outcome (memory * nat) :=
  match dijkstra_view mem dist_matrix directed with
  | None => Undefined
  | Some dist_matrix =>
      if existsb (fun w => bool_decide (w < 0)) (data dist_matrix)
      then ValueError "Negative distances are not supported"
      else if negb (bool_decide ((shape dist_matrix).1 = (shape dist_matrix).2))
      then ValueError "dist_matrix must have shape (N, N)"
      else
        let N := (shape dist_matrix).1 in
        let indices := match indices with
                       | None => seq 0 N
                       | Some l => l
                       end in
        let graph := zeros (length indices) N in
        defined (graph ← _dijkstra fuel dist_matrix graph indices directed;
                 Some (alloc mem (mkArray float64 C_order graph)))
  end.

(** ** The dense entry point *)

Definition dense_of (fmt : sparse_format) (m : csr) : matrix Z :=
  toarray (tocsr fmt m).

Definition floyd_warshall (mem : memory) (dist_matrix : dist_matrix_t)
    (directed overwrite : bool) : outcome (memory * nat) :=
  let located :=
    match dist_matrix with
    | Sparse fmt m =>
        Some (alloc mem (mkArray float64 C_order (dense_of fmt m)))
    | Array a =>
        if overwrite then np_asarray mem a else np_array mem a
    end in
  match located with
  | None => Undefined
  | Some (mem, graph) =>
      match mem !! graph with
      | None => Undefined
      | Some arr =>
          if negb (is_square (nd_cells arr))
          then ValueError "dist_matrix must have shape (N, N)"
          else
            let result := _floyd_warshall (nd_cells arr) directed in
            Return (<[graph := mkArray float64 C_order result]> mem, graph)
      end
  end.

(** ** The dispatcher *)

(** [N * N / 4] is computed by the [/] of the Python the module is built
    for: floor division on integers before Python 3, true division from
    Python 3 on. *)
Inductive division : Type := floor_division | true_division.

(** [Nk < N * N / 4] *)
Definition below_quarter (d : division) (Nk N : nat) : bool :=
  match d with
  | floor_division => bool_decide (Z.of_nat Nk < (Z.of_nat N * Z.of_nat N) `div` 4)
  | true_division =>
      negb (Qle_bool (Qdiv (inject_Z (Z.of_nat N * Z.of_nat N)) (inject_Z 4))
                     (inject_Z (Z.of_nat Nk)))
  end.

(** [if not isspmatrix(dist_matrix): dist_matrix = csr_matrix(dist_matrix)] *)
Definition as_sparse (mem : memory) (dist_matrix : dist_matrix_t)
    : option (sparse_format * csr) :=
  match dist_matrix with
  | Sparse fmt m => Some (fmt, m)
  | Array a => arr ← mem !! a; Some (CSR, csr_matrix (nd_cells arr))
  end.

(** [if method == 'auto': ...] *)
Definition choose_method (d : division) (Nk N : nat) (method : string) : string :=
  if bool_decide (method = "auto")
  then (if below_quarter d Nk N then "D" else "FW")
  else method.

Definition graph_shortest_path (d : division) (fuel : nat) (mem : memory)
    (dist_matrix : dist_matrix_t) (directed : bool) (method : string)
    (overwrite : bool) : outcome (memory * nat) :=
  match as_sparse mem dist_matrix with
  | None => Undefined
  | Some (fmt, m) =>
      let N := (shape m).1 in
      let Nk := length (data m) in
      let method := choose_method d Nk N method in
      if bool_decide (method = "FW")
      then floyd_warshall mem (Sparse fmt m) directed overwrite
      else if bool_decide (method = "D")
      then dijkstra fuel mem (Sparse fmt m) directed None
      else ValueError ("unrecognized method '" +:+ method +:+ "'")
  end.

(** The cells of the array a call returned. *)
Definition result_cells (o : outcome (memory * nat)) : option (matrix Z) :=
  match o with
  | Return (mem, a) => nd_cells <$> mem !! a
  | _ => None
  end.

Definition in_memory (cells : matrix Z) : memory := [mkArray float64 C_order cells].

(** ** A standalone heap harness *)

(** The operations of the priority queue as a client drives them:
    [insert] initialises the node with its value and inserts it,
    [decrease_value] lowers the value of a node of the heap and
    [extract_min] removes the minimum and reports its value. *)
Inductive heap_op : Type :=
  | op_insert (node : nat) (v : Z)
  | op_decrease_value (node : nat) (newval : Z)
  | op_extract_min.

Abbreviation harness_state := (heap_state * list Z)%type.

Definition harness_step (fuel : nat) (h : harness_state) (op : heap_op)
    : option harness_state :=
  let '((heap, nodes), extracted) := h in
  match op with
  | op_insert node v =>
      nodes ← initialize_node nodes node node v;
      st ← insert_node fuel (heap, nodes) node;
      Some (st, extracted)
  | op_decrease_value node newval =>
      st ← decrease_val fuel (heap, nodes) node newval;
      Some (st, extracted)
  | op_extract_min =>
      '(m, st) ← remove_min fuel (heap, nodes);
      n ← st.2 !! m;
      Some (st, extracted ++ [val n])
  end.

Fixpoint harness_run (fuel : nat) (h : harness_state) (ops : list heap_op)
    : option harness_state :=
  match ops with
  | [] => Some h
  | op :: ops' => h' ← harness_step fuel h op; harness_run fuel h' ops'
  end.

(** An empty heap over an array of [N] nodes. *)
Definition empty_heap (N : nat) : heap_state :=
  (mkHeap None (replicate max_rank None), initial_nodes N).

(** The values reported by the [extract_min] operations of a run. *)
Definition extracted_values (fuel N : nat) (ops : list heap_op) : option (list Z) :=
  snd <$> harness_run fuel (empty_heap N, []) ops.

(** ** Inputs of the examples and stated conditions *)

(** The edge count is below a quarter of [N * N], with the quotient as
    the division in force computes it. *)
Definition sparse_enough (d : division) (Nk N : nat) : Prop :=
  match d with
  | true_division => 4 * Z.of_nat Nk < Z.of_nat N * Z.of_nat N
  | floor_division => Z.of_nat Nk < (Z.of_nat N * Z.of_nat N) `div` 4
  end.

(** Five vertices; edges 0->1 (1), 0->2 (10), 0->3 (20), 0->4 (30),
    1->4 (1) and 4->2 (1).  The shortest path from 0 to 2 is 0->1->4->2,
    of length 3. *)
Definition detour_graph : matrix Z :=
  [[0; 1; 10; 20; 30];
   [0; 0;  0;  0;  1];
   [0; 0;  0;  0;  0];
   [0; 0;  0;  0;  0];
   [0; 0;  1;  0;  0]].

(** The same edges with the same weight in both directions. *)
Definition symmetric_detour_graph : matrix Z :=
  [[ 0; 1; 10; 20; 30];
   [ 1; 0;  0;  0;  1];
   [10; 0;  0;  0;  1];
   [20; 0;  0;  0;  0];
   [30; 1;  1;  0;  0]].

(** Node 0 (value 0) is extracted from the roots 0, 1, 2, 3, 4 with the
    values 0, 1, 5, 5, 5.  The walk links 1, then 2 (under 1), then 3,
    then 4: the incoming root 4 meets root 3 in bucket 0, with the same
    value, while the heap's minimum is node 1. *)
Definition tie_ops : list heap_op :=
  [op_insert 0 0; op_insert 1 1; op_insert 2 5; op_insert 3 5; op_insert 4 5;
   op_extract_min].

(** * Reachability, invariants and ghost state of the proofs *)

Open Scope nat_scope.

(** Neighbours in a list without duplicates. *)
Definition hd_or (next : option nat) (l : list nat) : option nat :=
  match l with
  | [] => next
  | j :: _ => Some j
  end.

Fixpoint last_or (prev : option nat) (l : list nat) : option nat :=
  match l with
  | [] => prev
  | j :: l' => last_or (Some j) l'
  end.

Fixpoint prev_from (p : option nat) (l : list nat) (i : nat) : option nat :=
  match l with
  | [] => None
  | a :: l' => if decide (a = i) then p else prev_from (Some a) l' i
  end.

Fixpoint next_to (nx : option nat) (l : list nat) (i : nat) : option nat :=
  match l with
  | [] => None
  | a :: l' => if decide (a = i) then hd_or nx l' else next_to nx l' i
  end.

Definition fld {A} (f : FibonacciNode → A) (nodes : arena) (i : nat) : option A :=
  f <$> nodes !! i.

Definition payload (n : FibonacciNode) : nat * nat * Z := (index n, state n, val n).

Class Unaffected {A} (f : FibonacciNode → A) (g : FibonacciNode → FibonacciNode) : Prop :=
  unaffected : ∀ n, f (g n) = f n.
#[global] Hint Extern 0 (Unaffected _ _) => (intros ?; reflexivity) : typeclass_instances.

Class Assigns {A} (f : FibonacciNode → A) (g : FibonacciNode → FibonacciNode) (v : A) : Prop :=
  assigns : ∀ n, f (g n) = v.
#[global] Hint Extern 0 (Assigns _ _ _) => (red; intros ?; cbn; reflexivity) : typeclass_instances.

Definition remove_children (l r : option nat) : option nat :=
  match l, r with
  | Some l, _ => Some l
  | None, Some r => Some r
  | None, None => None
  end.

Record remove_post (nodes nodes' : arena) (x : nat) (par l r : option nat) : Prop := {
  rm_length : length nodes' = length nodes;
  rm_parent : ∀ j, fld parent nodes' j
                   = if decide (j = x) then Some None else fld parent nodes j;
  rm_left : ∀ j, fld left_sibling nodes' j
                 = if decide (j = x) then Some None
                   else if decide (r = Some j) then Some l
                   else fld left_sibling nodes j;
  rm_right : ∀ j, fld right_sibling nodes' j
                 = if decide (j = x) then Some None
                   else if decide (l = Some j) then Some r
                   else fld right_sibling nodes j;
  rm_rank : ∀ j, fld rank nodes' j
                 = if decide (par = Some j)
                   then (λ k, wrap32 (k - 1)) <$> fld rank nodes j
                   else fld rank nodes j;
  rm_children : ∀ j, fld children nodes' j
                 = if decide (par = Some j) then Some (remove_children l r)
                   else fld children nodes j;
  rm_payload : ∀ j, fld payload nodes' j = fld payload nodes j
}.

(** An optional store: [if p: p.field = v]. *)
Definition store_opt (nodes : arena) (o : option nat)
    (g : FibonacciNode → FibonacciNode) : option arena :=
  match o with
  | Some a => store nodes a g
  | None => Some nodes
  end.

Record add_sibling_post (nodes nodes' : arena) (temp new_sibling : nat)
    (par : option nat) : Prop := {
  as_length : length nodes' = length nodes;
  as_parent : ∀ j, fld parent nodes' j
                   = if decide (j = new_sibling) then Some par else fld parent nodes j;
  as_left : ∀ j, fld left_sibling nodes' j
                 = if decide (j = new_sibling) then Some (Some temp)
                   else fld left_sibling nodes j;
  as_right : ∀ j, fld right_sibling nodes' j
                 = if decide (j = new_sibling) then Some None
                   else if decide (j = temp) then Some (Some new_sibling)
                   else fld right_sibling nodes j;
  as_rank : ∀ j, fld rank nodes' j
                 = if decide (par = Some j)
                   then (λ k, wrap32 (k + 1)) <$> fld rank nodes j
                   else fld rank nodes j;
  as_children : ∀ j, fld children nodes' j = fld children nodes j;
  as_payload : ∀ j, fld payload nodes' j = fld payload nodes j
}.

Record add_child_post (nodes nodes' : arena) (node new_child : nat)
    (last : option nat) : Prop := {
  ac_length : length nodes' = length nodes;
  ac_parent : ∀ j, fld parent nodes' j
                   = if decide (j = new_child) then Some (Some node)
                     else fld parent nodes j;
  ac_left : ∀ j, fld left_sibling nodes' j
                 = if decide (j = new_child) then Some last
                   else fld left_sibling nodes j;
  ac_right : ∀ j, fld right_sibling nodes' j
                 = if decide (j = new_child) then Some None
                   else if decide (last = Some j) then Some (Some new_child)
                   else fld right_sibling nodes j;
  ac_rank : ∀ j, fld rank nodes' j
                 = if decide (j = node)
                   then match last with
                        | None => Some 1%Z
                        | Some _ => (λ k, wrap32 (k + 1)) <$> fld rank nodes j
                        end
                   else fld rank nodes j;
  ac_children : ∀ j, fld children nodes' j
                 = if decide (j = node ∧ last = None) then Some (Some new_child)
                   else fld children nodes j;
  ac_payload : ∀ j, fld payload nodes' j = fld payload nodes j
}.

Record forest : Type := mkForest {
  roots : list nat;
  kids : nat → list nat
}.

Definition sibs (F : forest) (par : option nat) : list nat :=
  match par with
  | None => roots F
  | Some p => kids F p
  end.

Definition set_sibs (F : forest) (par : option nat) (l : list nat) : forest :=
  match par with
  | None => mkForest l (kids F)
  | Some p => mkForest (roots F) (λ q, if decide (q = p) then l else kids F q)
  end.

Inductive rooted (nodes : arena) : nat → Prop :=
  | rooted_root i :
      fld parent nodes i = Some None → rooted nodes i
  | rooted_child i p :
      fld parent nodes i = Some (Some p) → rooted nodes p → rooted nodes i.

Record heap_shape (nodes : arena) (F : forest) : Prop := {
  hs_links : ∀ par i, i ∈ sibs F par →
    fld parent nodes i = Some par
    ∧ fld left_sibling nodes i = Some (prev_from None (sibs F par) i)
    ∧ fld right_sibling nodes i = Some (next_to None (sibs F par) i);
  hs_nodup : ∀ par, NoDup (sibs F par);
  hs_complete : ∀ i p, fld parent nodes i = Some (Some p) → i ∈ kids F p;
  hs_rank : ∀ i r, fld rank nodes i = Some r →
    r = wrap32 (Z.of_nat (length (kids F i)));
  hs_children : ∀ i c, fld children nodes i = Some c →
    match c with
    | None => kids F i = []
    | Some c => c ∈ kids F i
    end;
  hs_detached : ∀ i, fld parent nodes i = Some None → i ∉ roots F →
    fld left_sibling nodes i = Some None ∧ fld right_sibling nodes i = Some None;
  hs_rooted : ∀ i, i < length nodes → rooted nodes i
}.

Definition in_forest (F : forest) (i : nat) : Prop :=
  i ∈ roots F ∨ ∃ p, i ∈ kids F p.

Definition clean_free (F : forest) : Prop :=
  ∀ i, ¬ in_forest F i → kids F i = [].

Definition min_ok (heap : FibonacciHeap) (F : forest) : Prop :=
  match min_node heap with
  | None => roots F = []
  | Some m => m ∈ roots F
  end.

Record heap_inv (st : heap_state) (F : forest) : Prop := {
  hi_shape : heap_shape st.2 F;
  hi_clean : clean_free F;
  hi_min : min_ok st.1 F
}.

(** The structural fields of two arrays agree. *)
Record same_links (nodes nodes' : arena) : Prop := {
  sl_length : length nodes' = length nodes;
  sl_parent : ∀ j, fld parent nodes' j = fld parent nodes j;
  sl_left : ∀ j, fld left_sibling nodes' j = fld left_sibling nodes j;
  sl_right : ∀ j, fld right_sibling nodes' j = fld right_sibling nodes j;
  sl_rank : ∀ j, fld rank nodes' j = fld rank nodes j;
  sl_children : ∀ j, fld children nodes' j = fld children nodes j
}.

(** The forest after the root [loser] is made the last child of the root
    [top]. *)
Definition graft (F : forest) (top loser : nat) : forest :=
  set_sibs (set_sibs F None (filter (λ y, y ≠ loser) (roots F)))
           (Some top) (kids F top ++ [loser]).

Definition le_val (nodes : arena) (a b : nat) : Prop :=
  ∃ va vb, fld val nodes a = Some va ∧ fld val nodes b = Some vb ∧ (va ≤ vb)%Z.

Definition bucket_of (F : forest) (y : nat) : nat :=
  Z.to_nat (wrap32 (Z.of_nat (length (kids F y)))).

(** The bucket table during the walk over the roots: every entry is a
    processed root, stored at the index of its rank. *)
Definition table_ok (F : forest) (P : list nat) (excl : option nat)
    (table : list pFibonacciNode) : Prop :=
  length table = max_rank
  ∧ ∀ r y, table !! r = Some (Some y) →
      y ∈ P ∧ excl ≠ Some y ∧ bucket_of F y = r.

Definition ok_or_big {A} (o : option A) (N : nat) (Post : A → Prop) : Prop :=
  match o with
  | Some a => Post a
  | None => max_rank < N
  end.

Record link_post (nodes : arena) (F : forest) (P R : list nat) (m : nat)
    (F' : forest) (P' : list nat) (st' : heap_state) : Prop := {
  lp_shape : heap_shape st'.2 F';
  lp_roots : roots F' = P' ++ R;
  lp_sub : ∀ y, y ∈ P' → y ∈ P;
  lp_min_in : m ∈ P';
  lp_min : min_node st'.1 = Some m;
  lp_table : table_ok F' P' None (roots_by_rank st'.1);
  lp_length : length st'.2 = length nodes;
  lp_payload : ∀ j, fld payload st'.2 j = fld payload nodes j;
  lp_forest : ∀ i, in_forest F' i ↔ in_forest F i;
  lp_clean : clean_free F → clean_free F'
}.

Record relink_post (nodes : arena) (F : forest) (F' : forest) (st' : heap_state)
    : Prop := {
  rl_shape : heap_shape st'.2 F';
  rl_min : min_ok st'.1 F';
  rl_roots : ∀ y, y ∈ roots F' → y ∈ roots F;
  rl_length : length st'.2 = length nodes;
  rl_payload : ∀ j, fld payload st'.2 j = fld payload nodes j;
  rl_forest : ∀ i, in_forest F' i ↔ in_forest F i;
  rl_clean : clean_free F → clean_free F'
}.

Record remove_min_post (nodes : arena) (F : forest) (m : nat)
    (F' : forest) (res : nat * heap_state) : Prop := {
  rmin_out : res.1 = m;
  rmin_inv : heap_inv res.2 F';
  rmin_forest : ∀ i, in_forest F' i ↔ in_forest F i ∧ i ≠ m;
  rmin_length : length res.2.2 = length nodes;
  rmin_payload : ∀ j, fld payload res.2.2 j = fld payload nodes j
}.

(** The edges of a compressed-row triple: [v] is stored in the slice of
    row [u]. *)
Definition edge_of (neighbors indptr : list nat) (u v : nat) : Prop :=
  ∃ lo hi k, indptr !! u = Some lo ∧ indptr !! S u = Some hi
             ∧ lo ≤ k < hi ∧ neighbors !! k = Some v.

(** Row [v] of the triple can be read: its slice is inside the arrays and
    its columns are vertices. *)
Definition row_ok (neighbors : list nat) (distances : list Z) (indptr : list nat)
    (N v : nat) : Prop :=
  ∃ lo hi, indptr !! v = Some lo ∧ indptr !! S v = Some hi
           ∧ ∀ k, lo ≤ k < hi →
               ∃ nb, neighbors !! k = Some nb ∧ nb < N ∧ is_Some (distances !! k).

Definition rows_ok (neighbors : list nat) (distances : list Z) (indptr : list nat)
    (N : nat) : Prop :=
  ∀ v, v < N → row_ok neighbors distances indptr N v.

(** The invariant of a search from [s] along the edges [E]: the heap is
    well formed, the nodes of the heap are those in state 1 (IN_HEAP), and
    every node that left state 0 is reachable from [s]. *)
Record search_inv (E : relation nat) (s : nat) (st : heap_state) (F : forest)
    : Prop := {
  si_heap : heap_inv st F;
  si_index : ∀ i, i < length st.2 → fld index st.2 i = Some i;
  si_state : ∀ i, in_forest F i ↔ fld state st.2 i = Some 1;
  si_reach : ∀ i k, fld state st.2 i = Some k → k ≠ 0 → rtc E s i
}.

(** Nonzero cells of the result are distances to reachable vertices. *)
Definition graph_inv (E : relation nat) (graph : matrix Z) : Prop :=
  ∀ i j, mget 0%Z graph i j ≠ 0%Z → rtc E i j.

Definition row_ready (graph : matrix Z) (i_node N : nat) : Prop :=
  ∃ row, graph !! i_node = Some row ∧ length row = N.

(** The state of a search relative to the array [nodes0] at the start of a
    scan: well formed, as long, with the same scanned nodes. *)
Definition scan_inv (E : relation nat) (s : nat) (nodes0 : arena)
    (st : heap_state) : Prop :=
  ∃ F, search_inv E s st F
       ∧ length st.2 = length nodes0
       ∧ (∀ j, fld state st.2 j = Some 2 ↔ fld state nodes0 j = Some 2).

(** [remove_min] followed by [v.state = 2]. *)
(** The state at the head of the loop of a search: as [search_inv], except
    that the minimum [m] may still carry the state of a node outside the
    heap.  The source of the search is inserted in that state. *)
Record start_inv (E : relation nat) (s : nat) (st : heap_state) (F : forest)
    (m : nat) : Prop := {
  st_heap : heap_inv st F;
  st_index : ∀ i, i < length st.2 → fld index st.2 i = Some i;
  st_state : ∀ i, i ≠ m → (in_forest F i ↔ fld state st.2 i = Some 1);
  st_reach : ∀ i k, i ≠ m → fld state st.2 i = Some k → k ≠ 0 → rtc E s i;
  st_min : fld state st.2 m ≠ Some 2 ∧ rtc E s m
}.

Definition loop_inv (E : relation nat) (s : nat) (st : heap_state) (F : forest)
    : Prop :=
  match min_node st.1 with
  | Some m => start_inv E s st F m
  | None => search_inv E s st F
  end.

(** What the loop of a search produces. *)
Definition loop_post (E : relation nat) (i_node : nat) (graph : matrix Z)
    (nodes : arena) (res : search_state) : Prop :=
  (∃ F', search_inv E i_node res.2 F')
  ∧ min_node res.2.1 = None
  ∧ graph_inv E res.1
  ∧ length res.2.2 = length nodes
  ∧ length res.1 = length graph
  ∧ (∀ i, length <$> res.1 !! i = length <$> graph !! i).

(** A node as [initialize_node] leaves it, up to [state] and [val]. *)
Definition clean_node (i : nat) (n : FibonacciNode) : Prop :=
  index n = i ∧ rank n = 0%Z ∧ parent n = None ∧ left_sibling n = None
  ∧ right_sibling n = None ∧ children n = None.

Definition all_clean (nodes : arena) : Prop :=
  ∀ i n, nodes !! i = Some n → clean_node i n.

Definition empty_forest : forest := mkForest [] (λ _, []).

(** The array after either reset: clean, and every node in state 0. *)
Definition all_reset (nodes : arena) : Prop :=
  all_clean nodes ∧ ∀ i, i < length nodes → fld state nodes i = Some 0.

(** What one search leaves behind. *)
Definition row_post (E : relation nat) (graph : matrix Z) (nodes : arena)
    (res : search_state) : Prop :=
  min_node res.2.1 = None ∧ all_clean res.2.2 ∧ graph_inv E res.1
  ∧ length res.2.2 = length nodes ∧ length res.1 = length graph
  ∧ (∀ i, length <$> res.1 !! i = length <$> graph !! i).

(** The edges a search follows: the stored entries of the rows, and of the
    columns as well when the graph is undirected. *)
Definition graph_edges (dist_matrix : csr) (directed : bool) : relation nat :=
  λ u v, edge_of (indices dist_matrix) (indptr dist_matrix) u v
         ∨ (directed = false
            ∧ edge_of (indices (transpose_csr dist_matrix))
                      (indptr (transpose_csr dist_matrix)) u v).

(** The compressed rows are readable for [N] vertices. *)
Definition inputs_ok (dist_matrix : csr) (directed : bool) (N : nat) : Prop :=
  rows_ok (indices dist_matrix) (data dist_matrix) (indptr dist_matrix) N
  ∧ (directed = false →
     rows_ok (indices (transpose_csr dist_matrix)) (data (transpose_csr dist_matrix))
             (indptr (transpose_csr dist_matrix)) N).

(** What holds between two searches. *)
Definition rows_inv (E : relation nat) (N : nat) (graph0 : matrix Z)
    (s : search_state) : Prop :=
  min_node s.2.1 = None ∧ all_clean s.2.2 ∧ graph_inv E s.1
  ∧ length s.2.2 = N
  ∧ (∀ i, length <$> s.1 !! i = length <$> graph0 !! i).

(** The edges of a dense matrix: the nonzero cells, in either direction
    when the graph is undirected.  A cell outside the matrix is no edge. *)
Definition edge (graph : matrix Z) (directed : bool) : relation nat :=
  λ u v, mget 0%Z graph u v ≠ 0%Z
         ∨ (directed = false ∧ mget 0%Z graph v u ≠ 0%Z).

Definition reachable (graph : matrix Z) (directed : bool) : relation nat :=
  rtc (edge graph directed).

(** Finite cells of the work matrix join reachable vertices. *)
Definition reach_inv (E : relation nat) (g : matrix DTYPE_t) : Prop :=
  ∀ i j, mget Inf g i j ≠ Inf → rtc E i j.

(** The edges of a compressed-row matrix: the stored entries, in either
    direction when the graph is undirected. *)
Definition row_edge (m : csr) (directed : bool) : relation nat :=
  λ u v, edge_of (indices m) (indptr m) u v
         ∨ (directed = false ∧ edge_of (indices m) (indptr m) v u).

(** Two roots side by side, as two insertions leave them. *)
Definition two_roots (v0 v1 : Z) : arena :=
  [mkNode 0 0 0 v0 None None (Some 1) None;
   mkNode 1 0 0 v1 None (Some 0) None None].

Definition two_roots_forest : forest := mkForest [0; 1] (λ _, []).

(** The pass of [remove_min] over [two_roots], at its second root: root 0
    is the heap's minimum and sits in the bucket of rank 0. *)
Definition two_roots_heap : FibonacciHeap :=
  mkHeap (Some 0) (<[0 := Some 0]> (replicate max_rank None)).

(** The matrix [graph'] differs from [graph] in row [i_node] at most, and
    has the same shape. *)
Definition same_but_row (i_node : nat) (graph graph' : matrix Z) : Prop :=
  length graph' = length graph
  ∧ (∀ i, i ≠ i_node → graph' !! i = graph !! i)
  ∧ (∀ i, length <$> graph' !! i = length <$> graph !! i).

(** One step of a walk: an edge of the dense matrix with its weight; an
    undirected graph is walked in either direction. *)
Definition step (graph : matrix Z) (directed : bool) (u v : nat) (w : Z) : Prop :=
  (mget 0%Z graph u v = w ∧ w ≠ 0%Z)
  ∨ (directed = false ∧ mget 0%Z graph v u = w ∧ w ≠ 0%Z).

(** [walk graph directed i j z]: a walk from [i] to [j] of total weight
    [z]. *)
Inductive walk (graph : matrix Z) (directed : bool) : nat → nat → Z → Prop :=
  | walk_here i : walk graph directed i i 0
  | walk_step u v j w z :
      step graph directed u v w → walk graph directed v j z →
      walk graph directed u j (w + z).

(** [a <= b] on the cells of the work matrix. *)
Definition dle (a b : DTYPE_t) : Prop := dleb a b = true.

(** A matrix of [N] rows of [N] cells. *)
Definition square {A} (N : nat) (g : matrix A) : Prop :=
  length g = N ∧ ∀ i r, g !! i = Some r → length r = N.

Definition nonnegative (graph : matrix Z) : Prop :=
  Forall (Forall (λ w, 0 ≤ w)%Z) graph.

(** The exact sum of two weights, in which the weights of walks are
    measured. *)
Definition xadd (a b : DTYPE_t) : DTYPE_t :=
  match a, b with
  | Fin x, Fin y => Fin (x + y)
  | _, _ => Inf
  end.

(** The weight of the walk from [i] to [j] through the vertices [l], read
    in the work matrix [g]. *)
Fixpoint wweight (g : matrix DTYPE_t) (i : nat) (l : list nat) (j : nat) : DTYPE_t :=
  match l with
  | [] => mget Inf g i j
  | x :: l' => xadd (mget Inf g i x) (wweight g x l' j)
  end.

(** The work matrix before the relaxation. *)
Definition work_matrix (graph : matrix Z) (directed : bool) : matrix DTYPE_t :=
  let g := zero_diagonal (nrows graph) (zeros_to_inf graph) in
  if directed then g else symmetrize (nrows graph) g.

(** Every cell of [g'] is at most the cell of [g]. *)
Definition below (g' g : matrix DTYPE_t) : Prop :=
  ∀ a b, dle (mget Inf g' a b) (mget Inf g a b).

(** The state of a pass over the cells: the shape is kept, no cell has
    grown since the matrix [g] the pass started from, and the cells
    [Done] are within the bound [B]. *)
Definition pass_inv (N : nat) (g : matrix DTYPE_t) (B : nat → nat → DTYPE_t)
    (Done : nat → nat → Prop) (gt : matrix DTYPE_t) : Prop :=
  square N gt ∧ below gt g
  ∧ ∀ a b, Done a b → dle (mget Inf gt a b) (B a b).

Definition nonneg_cells (g : matrix DTYPE_t) : Prop :=
  ∀ i j z, mget Inf g i j = Fin z → (0 ≤ z)%Z.

(** The cell [(i, j)] after the pass through [k], from the matrix [g] the
    pass starts on. *)
Definition relaxed (g : matrix DTYPE_t) (k i j : nat) : DTYPE_t :=
  let sum_ijk := dadd (mget Inf g i k) (mget Inf g k j) in
  if dltb sum_ijk (mget Inf g i j) then sum_ijk else mget Inf g i j.

(** A square matrix with a zero diagonal and no negative cell. *)
Definition good (N : nat) (g : matrix DTYPE_t) : Prop :=
  square N g ∧ (∀ i, i < N → mget Inf g i i = Fin 0) ∧ nonneg_cells g.

(** No finite cell above [M]. *)
Definition bounded (M : Z) (g : matrix DTYPE_t) : Prop :=
  ∀ i j z, mget Inf g i j = Fin z → (z ≤ M)%Z.

(** After the passes through the vertices below [k], every cell is at most
    the weight of every walk whose inner vertices are below [k]. *)
Definition opt (W : matrix DTYPE_t) (k : nat) (g : matrix DTYPE_t) : Prop :=
  ∀ i j l, (∀ x, x ∈ l → x < k) → dle (mget Inf g i j) (wweight W i l j).

(** Every finite cell is the weight of a walk whose inner vertices are
    below [k] and distinct. *)
Definition realised (W : matrix DTYPE_t) (k : nat) (g : matrix DTYPE_t) : Prop :=
  ∀ i j z, mget Inf g i j = Fin z →
    ∃ l, NoDup l ∧ (∀ x, x ∈ l → x < k) ∧ wweight W i l j = Fin z.

(** The three facts that the passes keep where the sums are exact. *)
Definition exact_inv (N : nat) (W : matrix DTYPE_t) (k : nat) (g : matrix DTYPE_t) : Prop :=
  good N g ∧ opt W k g ∧ realised W k g.

Definition sound (graph : matrix Z) (directed : bool) (g : matrix DTYPE_t) : Prop :=
  ∀ i j z, mget Inf g i j = Fin z → walk graph directed i j z.

(** No weight of the graph above [M]. *)
Definition at_most (M : Z) (graph : matrix Z) : Prop :=
  Forall (Forall (λ w, (w ≤ M)%Z)) graph.

(** The weights are at most [M], and a walk through all vertices weighs at
    most 2^52: every sum of two distances is then a float64 exactly. *)
Definition in_exact_range (M : Z) (graph : matrix Z) : Prop :=
  at_most M graph ∧ ((Z.of_nat (nrows graph) + 1) * M ≤ 2 ^ 52)%Z.

(** A stored entry with its weight: [v] is stored in the slice of row [u]
    with the weight [w]. *)
Definition wedge (neighbors : list nat) (distances : list Z) (indptr : list nat)
    (u v : nat) (w : Z) : Prop :=
  ∃ lo hi k, indptr !! u = Some lo ∧ indptr !! S u = Some hi
             ∧ lo ≤ k < hi ∧ neighbors !! k = Some v ∧ distances !! k = Some w.

(** The node has left the state NOT_IN_HEAP. *)
Definition seen (nodes : arena) (j : nat) : Prop :=
  ∃ k, fld state nodes j = Some k ∧ k ≠ 0.

(** The value of every node that has been seen satisfies [R]. *)
Definition val_inv (R : nat → Z → Prop) (nodes : arena) : Prop :=
  ∀ j x, seen nodes j → fld val nodes j = Some x → R j x.

(** What the scan of a node does to the node array: scanned nodes keep
    state and value, seen nodes stay seen, and the values stay within
    [R]. *)
Definition scan_effect (R : nat → Z → Prop) (nodes nodes' : arena) : Prop :=
  (∀ j, fld state nodes j = Some 2 →
        fld state nodes' j = Some 2 ∧ fld val nodes' j = fld val nodes j)
  ∧ (∀ j, seen nodes j → seen nodes' j)
  ∧ (val_inv R nodes → val_inv R nodes')
  ∧ (∀ j k, fld state nodes' j = Some k → k = 1 ∨ fld state nodes j = Some k).

(** No relation is assumed between the vertices of a search. *)
Definition anywhere : relation nat := λ _ _, True.

(** The values at the head of the loop of a search from [s]: [R] holds of
    the values of the seen nodes and of the minimum, the row [s] of the
    result holds values within [R], the cell of a scanned node is its
    value, the edges [We] out of scanned nodes lead to seen nodes, and the
    source is scanned or about to be. *)
Record head_vals (R Rrow : nat → Z → Prop) (We : relation nat) (s : nat)
    (graph : matrix Z) (heap : FibonacciHeap) (nodes : arena) : Prop := {
  hv_vals : val_inv R nodes;
  hv_min : ∀ m x, min_node heap = Some m → fld val nodes m = Some x → R m x;
  hv_row : ∀ j, mget 0%Z graph s j ≠ 0%Z → Rrow j (mget 0%Z graph s j);
  hv_cell : ∀ j x, fld state nodes j = Some 2 → fld val nodes j = Some x →
                   mget 0%Z graph s j = x;
  hv_closed : ∀ u v, fld state nodes u = Some 2 → We u v → seen nodes v;
  hv_source : fld state nodes s = Some 2 ∨ min_node heap = Some s;
  hv_zero : fld val nodes s = Some 0%Z;
  hv_states : ∀ j k, fld state nodes j = Some k → k ≤ 2
}.

(** The vertices that have been scanned. *)
Definition scanned (nodes : arena) : nat → Prop :=
  λ v, fld state nodes v = Some 2.

(** The relation kept on the values may depend on the set of scanned
    vertices; it grows with the set. *)
Definition grows (R : (nat → Prop) → nat → Z → Prop) : Prop :=
  ∀ (S S' : nat → Prop) j x, (∀ v, S v → S' v) → R S j x → R S' j x.

(** The row of the source [s] after its search: nonzero cells hold values
    within [R], the cell of every vertex reachable along [We] holds a value
    within [R], and the cell of the source is 0. *)
Definition row_done (R : nat → Z → Prop) (We : relation nat) (s : nat)
    (graph : matrix Z) : Prop :=
  (∀ j, mget 0%Z graph s j ≠ 0%Z → R j (mget 0%Z graph s j))
  ∧ (∀ j, rtc We s j → R j (mget 0%Z graph s j))
  ∧ mget 0%Z graph s s = 0%Z.

(** The weighted stored entries a search follows. *)
Definition graph_wedges (dist_matrix : csr) (directed : bool)
    (u v : nat) (w : Z) : Prop :=
  wedge (indices dist_matrix) (data dist_matrix) (indptr dist_matrix) u v w
  ∨ (directed = false
     ∧ wedge (indices (transpose_csr dist_matrix)) (data (transpose_csr dist_matrix))
             (indptr (transpose_csr dist_matrix)) u v w).

(** The result between two searches: every nonzero cell holds a value
    within [Rw], and the rows of the sources [finished] are complete. *)
Definition rows_done (Rw : nat → nat → Z → Prop) (We : relation nat)
    (finished : list nat) (graph : matrix Z) : Prop :=
  (∀ i j, mget 0%Z graph i j ≠ 0%Z → Rw i j (mget 0%Z graph i j))
  ∧ (∀ s, s ∈ finished →
       (∀ j, rtc We s j → Rw s j (mget 0%Z graph s j))
       ∧ mget 0%Z graph s s = 0%Z).

(** A walk from [i] to [j] through the inner vertices [l], of weight
    [z]. *)
Fixpoint chain (graph : matrix Z) (directed : bool) (i : nat) (l : list nat)
    (j : nat) (z : Z) : Prop :=
  match l with
  | [] => step graph directed i j z
  | v :: l' => ∃ w z', step graph directed i v w ∧ chain graph directed v l' j z'
                       ∧ z = (w + z')%Z
  end.

(** The values of a search from [s] while the vertices [S] have been
    scanned: 0 at the source, elsewhere the weight of a walk from the
    source through distinct scanned vertices. *)
Definition along (graph : matrix Z) (directed : bool) (s : nat) (S : nat → Prop)
    (j : nat) (x : Z) : Prop :=
  (j = s ∧ x = 0%Z)
  ∨ ∃ l, NoDup l ∧ (∀ v, v ∈ l → S v ∧ v < nrows graph)
         ∧ chain graph directed s l j x.

(** Every node with a parent has a value at least that of its parent. *)
Definition ordered (nodes : arena) : Prop :=
  ∀ i p, fld parent nodes i = Some (Some p) → le_val nodes p i.

(** A well-formed heap whose values are ordered along the parent links and
    whose [min_node] has the least value of all its nodes. *)
Record queue_inv (st : heap_state) (F : forest) : Prop := {
  qi_heap : heap_inv st F;
  qi_ordered : ordered st.2;
  qi_least : ∀ m y, min_node st.1 = Some m → in_forest F y → le_val st.2 m y
}.

(** The heap holds exactly the nodes of [l], each with its value [v]. *)
Definition holds (v : nat → Z) (st : heap_state) (F : forest) (l : list nat) : Prop :=
  queue_inv st F ∧ NoDup l ∧ (∀ i, in_forest F i ↔ i ∈ l)
  ∧ ∀ y, y ∈ l → fld val st.2 y = Some (v y).

Definition ascending (l : list Z) : Prop :=
  ∀ i j a b, i ≤ j → l !! i = Some a → l !! j = Some b → (a ≤ b)%Z.

(** The values of the nodes after [decrease_value] of [d.1] to [d.2]. *)
Definition set_value (v : nat → Z) (d : nat * Z) : nat → Z :=
  λ y, if decide (y = d.1) then d.2 else v y.

(** The heap is well formed and holds exactly the nodes of [l], each with
    its value [v]. *)
Definition contains (v : nat → Z) (st : heap_state) (F : forest) (l : list nat)
    : Prop :=
  heap_inv st F ∧ NoDup l ∧ (∀ i, in_forest F i ↔ i ∈ l)
  ∧ ∀ y, y ∈ l → fld val st.2 y = Some (v y).

(** The path 0, 1, 2, 3 with the weights 2^53, 3 and 3: its sums leave the
    range in which float64 addition is exact. *)
Definition long_path_graph : matrix Z :=
  [[0; 2 ^ 53; 0; 0];
   [0; 0; 3; 0];
   [0; 0; 0; 3];
   [0; 0; 0; 0]]%Z.

(** The path 0, 2, 1, 3 with the weights 1, 2^53 and 2. *)
Definition late_long_edge_graph : matrix Z :=
  [[0; 0; 1; 0];
   [0; 0; 0; 2];
   [0; 2 ^ 53; 0; 0];
   [0; 0; 0; 0]]%Z.

Close Scope nat_scope.

(** * Properties *)

(** ** The heap is well formed *)

Open Scope nat_scope.

Lemma last_or_app p l1 l2 : last_or p (l1 ++ l2) = last_or (last_or p l1) l2.
Proof. revert p. induction l1 as [|a l1 IH]; intros p; simpl; [ done | apply IH ]. Qed.

Lemma last_or_snoc p l x : last_or p (l ++ [x]) = Some x.
Proof. by rewrite last_or_app. Qed.

Lemma last_or_elem p l : l ≠ [] → ∃ x, last_or p l = Some x ∧ x ∈ l.
Proof.
  revert p. induction l as [|a l IH]; intros p Hne; [ done | ].
  destruct l as [|b l].
  - exists a. split; [ done | constructor ].
  - destruct (IH (Some a)) as (x & Hx & Hin); [ done | ].
    exists x. split; [ done | by constructor ].
Qed.

Lemma prev_from_notin p l i : i ∉ l → prev_from p l i = None.
Proof.
  revert p. induction l as [|a l IH]; intros p Hni; simpl; [ done | ].
  apply not_elem_of_cons in Hni as [Hne Hni]. case_decide; [ congruence | by apply IH ].
Qed.

Lemma next_to_notin nx l i : i ∉ l → next_to nx l i = None.
Proof.
  induction l as [|a l IH]; intros Hni; simpl; [ done | ].
  apply not_elem_of_cons in Hni as [Hne Hni]. case_decide; [ congruence | by apply IH ].
Qed.

Lemma prev_from_app_l p l1 l2 i :
  i ∈ l1 → prev_from p (l1 ++ l2) i = prev_from p l1 i.
Proof.
  revert p. induction l1 as [|a l1 IH]; intros p Hin; simpl.
  - by apply elem_of_nil in Hin.
  - case_decide; [ done | ]. apply IH. apply elem_of_cons in Hin as [?|?]; congruence.
Qed.

Lemma prev_from_app_r p l1 l2 i :
  i ∉ l1 → prev_from p (l1 ++ l2) i = prev_from (last_or p l1) l2 i.
Proof.
  revert p. induction l1 as [|a l1 IH]; intros p Hni; simpl; [ done | ].
  apply not_elem_of_cons in Hni as [Hne Hni]. case_decide; [ congruence | by apply IH ].
Qed.

Lemma next_to_app_l nx l1 l2 i :
  i ∈ l1 → next_to nx (l1 ++ l2) i = next_to (hd_or nx l2) l1 i.
Proof.
  induction l1 as [|a l1 IH]; intros Hin; simpl.
  - by apply elem_of_nil in Hin.
  - case_decide.
    + destruct l1; simpl; done.
    + apply IH. apply elem_of_cons in Hin as [?|?]; congruence.
Qed.

Lemma next_to_app_r nx l1 l2 i :
  i ∉ l1 → next_to nx (l1 ++ l2) i = next_to nx l2 i.
Proof.
  induction l1 as [|a l1 IH]; intros Hni; simpl; [ done | ].
  apply not_elem_of_cons in Hni as [Hne Hni]. case_decide; [ congruence | by apply IH ].
Qed.

(** The result of [prev_from] is the boundary or an element. *)
Lemma prev_from_elem p l i y :
  prev_from p l i = Some y → p = Some y ∨ y ∈ l.
Proof.
  revert p. induction l as [|a l IH]; intros p; simpl; [ done | ].
  case_decide.
  - intros ->. by left.
  - intros H'. apply IH in H' as [[= ->]|?]; right; [ constructor | by constructor ].
Qed.

Lemma next_to_elem nx l i y :
  next_to nx l i = Some y → nx = Some y ∨ y ∈ l.
Proof.
  induction l as [|a l IH]; simpl; [ done | ].
  case_decide.
  - destruct l as [|b l]; simpl; [ by left | ].
    intros [= ->]. right. constructor. constructor.
  - intros H'. apply IH in H' as [?|?]; [ by left | right; by constructor ].
Qed.

(** Positions. *)
Lemma prev_from_lookup p l k i :
  NoDup l → l !! k = Some i →
  prev_from p l i = match k with O => p | S k' => l !! k' end.
Proof.
  revert p k. induction l as [|a l IH]; intros p k Hnd Hk; [ done | ].
  apply NoDup_cons in Hnd as [Hni Hnd]. simpl. destruct k as [|k]; simpl in Hk.
  - injection Hk as ->. by rewrite decide_True.
  - rewrite decide_False.
    + rewrite (IH (Some a) k Hnd Hk). by destruct k.
    + intros ->. apply Hni. by eapply list_elem_of_lookup_2.
Qed.

Lemma next_to_lookup nx l k i :
  NoDup l → l !! k = Some i →
  next_to nx l i = match l !! S k with Some j => Some j | None => nx end.
Proof.
  revert k. induction l as [|a l IH]; intros k Hnd Hk; [ done | ].
  apply NoDup_cons in Hnd as [Hni Hnd]. simpl. destruct k as [|k]; simpl in Hk.
  - injection Hk as ->. rewrite decide_True by done. by destruct l.
  - rewrite decide_False.
    + by rewrite (IH k Hnd Hk).
    + intros ->. apply Hni. by eapply list_elem_of_lookup_2.
Qed.

(** Removing [x] from the list. *)
Lemma prev_from_delete p l1 x l2 i :
  NoDup (l1 ++ x :: l2) → p ≠ Some x → i ≠ x →
  prev_from p (l1 ++ l2) i
  = if decide (prev_from p (l1 ++ x :: l2) i = Some x)
    then prev_from p (l1 ++ x :: l2) x
    else prev_from p (l1 ++ x :: l2) i.
Proof.
  intros Hnd Hp Hix.
  apply NoDup_app in Hnd as (Hnd1 & Hdisj & Hnd2).
  apply NoDup_cons in Hnd2 as [Hx2 Hnd2].
  assert (Hx1 : x ∉ l1).
  { intros Hin. apply (Hdisj _ Hin). constructor. }
  destruct (decide (i ∈ l1)) as [Hi1|Hi1].
  - rewrite !prev_from_app_l by done.
    rewrite decide_False; [ done | ].
    intros Heq. apply prev_from_elem in Heq as [?|?]; done.
  - rewrite !prev_from_app_r by done. simpl.
    rewrite (decide_True (P := x = x)) by done.
    rewrite (decide_False (P := x = i)) by congruence.
    destruct l2 as [|b l2]; simpl; [ done | ].
    case_decide as Hb.
    + by rewrite decide_True.
    + rewrite decide_False; [ done | ].
      intros Heq. apply prev_from_elem in Heq as [[= ->]|Hin].
      * apply Hx2. constructor.
      * apply Hx2. by constructor.
Qed.

Lemma next_to_change_boundary x l i nx :
  x ∉ l → i ∈ l →
  next_to nx l i
  = if decide (next_to (Some x) l i = Some x) then nx else next_to (Some x) l i.
Proof.
  induction l as [|a l IH]; intros Hx Hi; [ by apply elem_of_nil in Hi | ].
  apply not_elem_of_cons in Hx as [Hxa Hx]. simpl.
  destruct (decide (a = i)) as [->|Hai].
  - destruct l as [|b l]; simpl.
    + by rewrite decide_True.
    + rewrite decide_False; [ done | ].
      intros [= ->]. apply Hx. constructor.
  - apply IH; [ done | ]. apply elem_of_cons in Hi as [?|?]; congruence.
Qed.

Lemma next_to_delete nx l1 x l2 i :
  NoDup (l1 ++ x :: l2) → nx ≠ Some x → i ≠ x →
  next_to nx (l1 ++ l2) i
  = if decide (next_to nx (l1 ++ x :: l2) i = Some x)
    then next_to nx (l1 ++ x :: l2) x
    else next_to nx (l1 ++ x :: l2) i.
Proof.
  intros Hnd Hp Hix.
  apply NoDup_app in Hnd as (Hnd1 & Hdisj & Hnd2).
  apply NoDup_cons in Hnd2 as [Hx2 Hnd2].
  assert (Hx1 : x ∉ l1).
  { intros Hin. apply (Hdisj _ Hin). constructor. }
  rewrite (next_to_app_r _ l1 (x :: l2) x) by done. simpl.
  rewrite (decide_True (P := x = x)) by done.
  destruct (decide (i ∈ l1)) as [Hi1|Hi1].
  - rewrite !next_to_app_l by done. simpl.
    by apply next_to_change_boundary.
  - rewrite !next_to_app_r by done. simpl.
    rewrite (decide_False (P := x = i)) by congruence.
    rewrite decide_False; [ done | ].
    intros Heq. apply next_to_elem in Heq as [?|?]; done.
Qed.

(** [i] follows [x] exactly when [x] precedes [i]. *)
Lemma next_prev l x i :
  NoDup l → x ∈ l →
  next_to None l x = Some i ↔ i ∈ l ∧ prev_from None l i = Some x.
Proof.
  intros Hnd Hx. apply list_elem_of_lookup in Hx as [k Hk].
  rewrite (next_to_lookup None l k x Hnd Hk).
  split.
  - destruct (l !! S k) as [j|] eqn:Ej; [ | done ]. intros [= ->].
    split; [ by eapply list_elem_of_lookup_2 | ].
    by rewrite (prev_from_lookup None l (S k) i Hnd Ej).
  - intros [Hi Hp]. apply list_elem_of_lookup in Hi as [k' Hk'].
    rewrite (prev_from_lookup None l k' i Hnd Hk') in Hp.
    destruct k' as [|k']; [ done | ].
    assert (k' = k) as -> by (eapply NoDup_lookup; eauto).
    by rewrite Hk'.
Qed.

Lemma NoDup_delete_mid (l1 l2 : list nat) x : NoDup (l1 ++ x :: l2) → NoDup (l1 ++ l2).
Proof.
  rewrite !NoDup_app. intros (H1 & Hd & H2). apply NoDup_cons in H2 as [Hx H2].
  repeat split; try done. intros y Hy Hy2. apply (Hd y Hy). by constructor.
Qed.

Lemma NoDup_bounded_length (l : list nat) (n : nat) :
  NoDup l → (∀ i, i ∈ l → i < n) → length l ≤ n.
Proof.
  intros Hnd Hlt.
  assert (Hsub : l ⊆+ seq 0 n).
  { apply NoDup_submseteq; [ done | ].
    intros i Hi. apply elem_of_seq. specialize (Hlt i Hi). lia. }
  apply submseteq_length in Hsub. by rewrite length_seq in Hsub.
Qed.

Lemma prev_from_mid p l1 x l2 :
  x ∉ l1 → prev_from p (l1 ++ x :: l2) x = last_or p l1.
Proof. intros Hx. rewrite prev_from_app_r by done. simpl. by rewrite decide_True. Qed.

Lemma next_to_mid nx l1 x l2 :
  x ∉ l1 → next_to nx (l1 ++ x :: l2) x = hd_or nx l2.
Proof. intros Hx. rewrite next_to_app_r by done. simpl. by rewrite decide_True. Qed.

Lemma NoDup_mid_notin (l1 l2 : list nat) x :
  NoDup (l1 ++ x :: l2) → (x ∉ l1) ∧ (x ∉ l2).
Proof.
  intros Hnd. apply NoDup_app in Hnd as (Hnd1 & Hdisj & Hnd2).
  apply NoDup_cons in Hnd2 as [Hx2 Hnd2]. split; [ | done ].
  intros Hin. apply (Hdisj _ Hin). constructor.
Qed.

Lemma last_or_None l : last_or None l = None → l = [].
Proof.
  destruct l as [|a l]; [ done | ]. intros H.
  destruct (last_or_elem None (a :: l)) as (x & Hx & _); [ done | congruence ].
Qed.

Lemma last_or_Some_elem l x : last_or None l = Some x → x ∈ l.
Proof.
  destruct l as [|a l]; [ done | ]. intros H.
  destruct (last_or_elem None (a :: l)) as (y & Hy & Hin); [ done | ].
  congruence.
Qed.

Lemma hd_or_Some_elem l x : hd_or None l = Some x → x ∈ l.
Proof. destruct l as [|a l]; [ done | ]. intros [= ->]. constructor. Qed.

Lemma wrap32_pred (n : nat) :
  wrap32 (wrap32 (Z.of_nat (S n)) - 1) = wrap32 (Z.of_nat n).
Proof.
  unfold wrap32. rewrite Zminus_mod_idemp_l. f_equal. lia.
Qed.

Lemma wrap32_succ (n : nat) :
  wrap32 (wrap32 (Z.of_nat n) + 1) = wrap32 (Z.of_nat (S n)).
Proof.
  unfold wrap32. rewrite Zplus_mod_idemp_l. f_equal. lia.
Qed.

(** Appending [x]: only the last element sees a new right neighbour. *)
Lemma next_to_snoc l x i :
  NoDup l → i ∈ l →
  next_to None (l ++ [x]) i
  = if decide (last_or None l = Some i) then Some x else next_to None l i.
Proof.
  intros Hnd Hi. rewrite next_to_app_l by done. simpl.
  induction l as [|a l IH]; [ by apply elem_of_nil in Hi | ].
  apply NoDup_cons in Hnd as [Ha Hnd]. simpl.
  destruct (decide (a = i)) as [->|Hai].
  - destruct l as [|b l]; simpl.
    + by rewrite decide_True.
    + rewrite decide_False; [ done | ].
      intros Hl. apply Ha. simpl in Hl.
      destruct (last_or_elem (Some i) (b :: l)) as (y & Hy & Hin); [ done | ].
      simpl in Hy. congruence.
  - apply elem_of_cons in Hi as [?|Hi]; [ congruence | ].
    rewrite IH by done.
    destruct l as [|b l]; [ by apply elem_of_nil in Hi | ]. done.
Qed.

Lemma prev_from_snoc_new l x :
  x ∉ l → prev_from None (l ++ [x]) x = last_or None l.
Proof. apply prev_from_mid. Qed.

Lemma next_to_snoc_new l x :
  x ∉ l → next_to None (l ++ [x]) x = None.
Proof. intros. by rewrite next_to_mid. Qed.

Lemma NoDup_snoc_2 (l : list nat) x : NoDup l → x ∉ l → NoDup (l ++ [x]).
Proof.
  intros Hnd Hx. apply NoDup_app. repeat split; [ done | | apply NoDup_singleton ].
  intros y Hy Hyx. apply list_elem_of_singleton in Hyx. congruence.
Qed.

Lemma last_or_lookup l : last_or None l = l !! pred (length l).
Proof.
  destruct l as [|a l]; [ done | ]. simpl.
  revert a. induction l as [|b l IH]; intros a; [ done | ]. simpl. apply IH.
Qed.

Local Open Scope Z_scope.

(** ** Float64 addition on integers *)

Lemma f64_round_abs_pos (a : Z) :
  0 < a →
  0 < (if bool_decide (Z.log2 a - 52 <= 0) then a
       else
         let q := a / 2 ^ (Z.log2 a - 52) in
         let rest := a mod 2 ^ (Z.log2 a - 52) in
         let half := 2 ^ (Z.log2 a - 52 - 1) in
         let q' := if bool_decide (rest < half) then q
                   else if bool_decide (half < rest) then q + 1
                   else if Z.even q then q else q + 1 in
         q' * 2 ^ (Z.log2 a - 52)).
Proof.
  intros Ha. case_bool_decide as Hs; [ done | ]. cbn zeta.
  set (s := Z.log2 a - 52) in *.
  assert (Hs0 : 0 < s) by lia.
  assert (Hp : 0 < 2 ^ s) by (apply Z.pow_pos_nonneg; lia).
  assert (Hq : 0 < a / 2 ^ s).
  { apply Z.div_str_pos. split; [ done | ].
    pose proof (Z.log2_spec a Ha) as [Hlo _].
    transitivity (2 ^ Z.log2 a); [ | done ].
    apply Z.pow_le_mono_r; lia. }
  repeat case_bool_decide; try destruct (Z.even _); nia.
Qed.

Lemma f64_round_0 : f64_round 0 = 0.
Proof. reflexivity. Qed.

Lemma f64_round_pos z : 0 < z → 0 < f64_round z.
Proof.
  intros Hz. unfold f64_round. cbn zeta.
  rewrite (Z.abs_eq z) by lia. rewrite (Z.sgn_pos z) by lia.
  pose proof (f64_round_abs_pos z Hz) as Hr. cbn zeta in Hr.
  assert (0 < 2 ^ 1024) by (apply Z.pow_pos_nonneg; lia).
  lia.
Qed.

Lemma f64_round_nonneg z : 0 <= z → 0 <= f64_round z.
Proof.
  intros Hz. destruct (decide (z = 0)) as [->|Hne]; [ done | ].
  pose proof (f64_round_pos z). lia.
Qed.

Lemma f64_round_small z : 0 <= z <= 2 ^ 53 → f64_round z = z.
Proof.
  intros [Hlo Hhi]. destruct (decide (z = 0)) as [->|Hne]; [ done | ].
  unfold f64_round. cbn zeta.
  rewrite (Z.abs_eq z) by lia. rewrite (Z.sgn_pos z) by lia.
  assert (Hbig : z <= 2 ^ 1024).
  { transitivity (2 ^ 53); [ done | ]. apply Z.pow_le_mono_r; lia. }
  destruct (decide (z = 2 ^ 53)) as [->|Hlt].
  - vm_compute. reflexivity.
  - assert (Hl : Z.log2 z < 53) by (apply Z.log2_lt_pow2; lia).
    rewrite bool_decide_eq_true_2 by lia. lia.
Qed.

Lemma is_f64_small z : 0 <= z <= 2 ^ 53 → is_f64 z = true.
Proof. intros H. unfold is_f64. by rewrite (f64_round_small z H), bool_decide_eq_true_2. Qed.

Lemma f64_add_comm x y : f64_add x y = f64_add y x.
Proof. unfold f64_add. by rewrite andb_comm, Z.add_comm. Qed.

Lemma f64_add_0_r x : f64_add x 0 = x.
Proof.
  unfold f64_add. rewrite Z.add_0_r. destruct (is_f64 x) eqn:Hx; simpl; [ | done ].
  unfold is_f64 in Hx. by apply bool_decide_eq_true in Hx.
Qed.

Lemma f64_add_0_l x : f64_add 0 x = x.
Proof. by rewrite f64_add_comm, f64_add_0_r. Qed.

Lemma f64_add_nonneg x y : 0 <= x → 0 <= y → 0 <= f64_add x y.
Proof.
  intros Hx Hy. unfold f64_add. destruct (is_f64 x && is_f64 y); [ | lia ].
  apply f64_round_nonneg. lia.
Qed.

Lemma f64_add_pos x y : 0 <= x → 0 < y → 0 < f64_add x y.
Proof.
  intros Hx Hy. unfold f64_add. destruct (is_f64 x && is_f64 y); [ | lia ].
  apply f64_round_pos. lia.
Qed.

Lemma f64_add_exact x y : 0 <= x → 0 <= y → x + y <= 2 ^ 53 → f64_add x y = x + y.
Proof.
  intros Hx Hy Hxy. unfold f64_add. destruct (is_f64 x && is_f64 y); [ | done ].
  apply f64_round_small. lia.
Qed.

Local Open Scope nat_scope.

Lemma store_Some nodes a g nodes' :
  store nodes a g = Some nodes' ↔ ∃ n, nodes !! a = Some n ∧ nodes' = <[a := g n]> nodes.
Proof.
  unfold store. destruct (nodes !! a) as [n|] eqn:E; simpl.
  - split; [ intros [= <-]; eauto | intros (n' & [= <-] & ->); done ].
  - split; [ done | intros (n' & ? & _); done ].
Qed.

Lemma store_fld {A} (f : FibonacciNode → A) nodes a g nodes' j :
  store nodes a g = Some nodes' →
  fld f nodes' j = if decide (j = a) then (λ n, f (g n)) <$> nodes !! a else fld f nodes j.
Proof.
  intros (n & Hn & ->)%store_Some. unfold fld.
  pose proof (lookup_lt_Some _ _ _ Hn).
  case_decide as Hj.
  - subst. rewrite list_lookup_insert_eq by done. by rewrite Hn.
  - by rewrite list_lookup_insert_ne.
Qed.

Lemma store_fld_other {A} (f : FibonacciNode → A) g `{!Unaffected f g} nodes a nodes' j :
  store nodes a g = Some nodes' → fld f nodes' j = fld f nodes j.
Proof.
  intros H. rewrite (store_fld f _ _ _ _ j H). case_decide; [ subst | done ].
  unfold fld. destruct (nodes !! a); simpl; [ by rewrite unaffected | done ].
Qed.

Lemma store_fld_same {A} (f : FibonacciNode → A) g v `{!Assigns f g v} nodes a nodes' j :
  store nodes a g = Some nodes' →
  fld f nodes' j = if decide (j = a) then Some v else fld f nodes j.
Proof.
  intros H. rewrite (store_fld f _ _ _ _ j H). case_decide; [ subst | done ].
  apply store_Some in H as (n & Hn & _). rewrite Hn. simpl. by rewrite assigns.
Qed.

Lemma store_length nodes a g nodes' :
  store nodes a g = Some nodes' → length nodes' = length nodes.
Proof. intros (n & Hn & ->)%store_Some. apply length_insert. Qed.

Lemma store_defined nodes a g : a < length nodes → is_Some (store nodes a g).
Proof.
  intros H. apply lookup_lt_is_Some in H as [n Hn]. unfold store. rewrite Hn. eauto.
Qed.

Lemma fld_Some {A} (f : FibonacciNode → A) nodes i n :
  nodes !! i = Some n → fld f nodes i = Some (f n).
Proof. unfold fld. by intros ->. Qed.

Lemma fld_is_Some {A} (f : FibonacciNode → A) nodes i :
  is_Some (fld f nodes i) ↔ i < length nodes.
Proof. unfold fld. rewrite fmap_is_Some. apply lookup_lt_is_Some. Qed.

Ltac inv_bind H :=
  repeat match type of H with
  | (_ ≫= _) = Some _ =>
      let x := fresh "v" in let H1 := fresh "Hb" in
      apply bind_Some in H as (x & H1 & H); cbn beta in H
  end.

Lemma store_opt_other {A} (f : FibonacciNode → A) g `{!Unaffected f g} nodes o nodes' j :
  store_opt nodes o g = Some nodes' → fld f nodes' j = fld f nodes j.
Proof.
  destruct o; simpl; [ apply store_fld_other; done | by intros [= <-] ].
Qed.

Lemma store_opt_same {A} (f : FibonacciNode → A) g v `{!Assigns f g v} nodes o nodes' j :
  store_opt nodes o g = Some nodes' →
  fld f nodes' j = if decide (o = Some j) then Some v else fld f nodes j.
Proof.
  destruct o as [a|]; simpl.
  - intros H. rewrite (store_fld_same f g v _ _ _ j H).
    repeat case_decide; congruence.
  - intros [= <-]. try case_decide; done.
Qed.

Lemma store_opt_length nodes o g nodes' :
  store_opt nodes o g = Some nodes' → length nodes' = length nodes.
Proof. destruct o; simpl; [ apply store_length | by intros [= <-] ]. Qed.

Lemma fld_inj {A} (f : FibonacciNode → A) nodes i n v :
  nodes !! i = Some n → fld f nodes i = Some v → f n = v.
Proof. unfold fld. intros ->. by intros [= <-]. Qed.

Lemma remove_effect nodes x nodes' nx :
  remove nodes x = Some nodes' → nodes !! x = Some nx →
  remove_post nodes nodes' x (parent nx) (left_sibling nx) (right_sibling nx).
Proof.
  unfold remove. intros H Hx. rewrite Hx in H. cbn [mbind option_bind] in H.
  inv_bind H.
  (* the parent's rank and child pointer *)
  assert (Hv : (∀ j, fld parent v j = fld parent nodes j)
             ∧ (∀ j, fld left_sibling v j = fld left_sibling nodes j)
             ∧ (∀ j, fld right_sibling v j = fld right_sibling nodes j)
             ∧ (∀ j, fld payload v j = fld payload nodes j)
             ∧ length v = length nodes
             ∧ (∀ j, fld rank v j = if decide (parent nx = Some j)
                       then (λ k, wrap32 (k - 1)) <$> fld rank nodes j
                       else fld rank nodes j)
             ∧ (∀ j, fld children v j = if decide (parent nx = Some j)
                       then Some (remove_children (left_sibling nx) (right_sibling nx))
                       else fld children nodes j)).
  { destruct (parent nx) as [p|]; [ | injection Hb as <-; repeat split; intros; try case_decide; try done ].
    inv_bind Hb.
    assert (Hl : left_sibling v7 = left_sibling nx).
    { apply (fld_inj _ _ _ _ _ Hb7). rewrite (store_fld_other _ _ _ _ _ _ Hb6).
      by apply fld_Some. }
    assert (Hr : right_sibling v7 = right_sibling nx).
    { apply (fld_inj _ _ _ _ _ Hb7). rewrite (store_fld_other _ _ _ _ _ _ Hb6).
      by apply fld_Some. }
    rewrite Hl, Hr in Hb.
    assert (Hc : store v6 p (set_children (remove_children (left_sibling nx)
                                                  (right_sibling nx))) = Some v).
    { by destruct (left_sibling nx), (right_sibling nx). }
    clear Hb.
    repeat split; intros.
    - rewrite (store_fld_other _ _ _ _ _ _ Hc). by rewrite (store_fld_other _ _ _ _ _ _ Hb6).
    - rewrite (store_fld_other _ _ _ _ _ _ Hc). by rewrite (store_fld_other _ _ _ _ _ _ Hb6).
    - rewrite (store_fld_other _ _ _ _ _ _ Hc). by rewrite (store_fld_other _ _ _ _ _ _ Hb6).
    - rewrite (store_fld_other _ _ _ _ _ _ Hc). by rewrite (store_fld_other _ _ _ _ _ _ Hb6).
    - rewrite (store_length _ _ _ _ Hc). by rewrite (store_length _ _ _ _ Hb6).
    - rewrite (store_fld_other _ _ _ _ _ _ Hc). rewrite (store_fld _ _ _ _ _ j Hb6).
      repeat case_decide; try congruence. simplify_eq. unfold fld. destruct (nodes !! p); reflexivity.
    - rewrite (store_fld_same _ _ _ _ _ _ _ Hc). rewrite (store_fld_other _ _ _ _ _ _ Hb6).
      repeat case_decide; simplify_eq; done. }
  destruct Hv as (Hvp & Hvl & Hvr & Hvpay & Hvlen & Hvrank & Hvch).
  clear Hb.
  assert (Hl0 : left_sibling v0 = left_sibling nx).
  { apply (fld_inj _ _ _ _ _ Hb0). rewrite Hvl. by apply fld_Some. }
  assert (Hr0 : right_sibling v0 = right_sibling nx).
  { apply (fld_inj _ _ _ _ _ Hb0). rewrite Hvr. by apply fld_Some. }
  rewrite Hl0, Hr0 in Hb1.
  change (store_opt v (left_sibling nx) (set_right_sibling (right_sibling nx)) = Some v1)
    in Hb1.
  assert (Hl2 : left_sibling v2 = left_sibling nx).
  { apply (fld_inj _ _ _ _ _ Hb2). rewrite (store_opt_other _ _ _ _ _ _ Hb1).
    rewrite Hvl. by apply fld_Some. }
  assert (Hr2 : right_sibling v2 = right_sibling nx).
  { apply (fld_inj _ _ _ _ _ Hb2). rewrite (store_opt_same _ _ _ _ _ _ _ Hb1).
    case_decide; [ done | ]. rewrite Hvr. by apply fld_Some. }
  rewrite Hl2, Hr2 in Hb3.
  change (store_opt v1 (right_sibling nx) (set_left_sibling (left_sibling nx)) = Some v3)
    in Hb3.
  split; intros.
  - rewrite (store_length _ _ _ _ H), (store_length _ _ _ _ Hb5),
      (store_length _ _ _ _ Hb4), (store_opt_length _ _ _ _ Hb3),
      (store_opt_length _ _ _ _ Hb1). done.
  - rewrite (store_fld_same _ _ _ _ _ _ _ H). case_decide; [ done | ].
    rewrite (store_fld_other _ _ _ _ _ _ Hb5), (store_fld_other _ _ _ _ _ _ Hb4),
      (store_opt_other _ _ _ _ _ _ Hb3), (store_opt_other _ _ _ _ _ _ Hb1). done.
  - rewrite (store_fld_other _ _ _ _ _ _ H), (store_fld_other _ _ _ _ _ _ Hb5),
      (store_fld_same _ _ _ _ _ _ _ Hb4). case_decide; [ done | ].
    rewrite (store_opt_same _ _ _ _ _ _ _ Hb3). case_decide; [ done | ].
    rewrite (store_opt_other _ _ _ _ _ _ Hb1). done.
  - rewrite (store_fld_other _ _ _ _ _ _ H), (store_fld_same _ _ _ _ _ _ _ Hb5).
    case_decide; [ done | ].
    rewrite (store_fld_other _ _ _ _ _ _ Hb4), (store_opt_other _ _ _ _ _ _ Hb3),
      (store_opt_same _ _ _ _ _ _ _ Hb1). case_decide; done.
  - rewrite (store_fld_other _ _ _ _ _ _ H), (store_fld_other _ _ _ _ _ _ Hb5),
      (store_fld_other _ _ _ _ _ _ Hb4), (store_opt_other _ _ _ _ _ _ Hb3),
      (store_opt_other _ _ _ _ _ _ Hb1). done.
  - rewrite (store_fld_other _ _ _ _ _ _ H), (store_fld_other _ _ _ _ _ _ Hb5),
      (store_fld_other _ _ _ _ _ _ Hb4), (store_opt_other _ _ _ _ _ _ Hb3),
      (store_opt_other _ _ _ _ _ _ Hb1). done.
  - rewrite (store_fld_other _ _ _ _ _ _ H), (store_fld_other _ _ _ _ _ _ Hb5),
      (store_fld_other _ _ _ _ _ _ Hb4), (store_opt_other _ _ _ _ _ _ Hb3),
      (store_opt_other _ _ _ _ _ _ Hb1). done.
Qed.

Lemma remove_defined nodes x nx :
  nodes !! x = Some nx →
  (∀ p, parent nx = Some p → p < length nodes) →
  (∀ l, left_sibling nx = Some l → l < length nodes) →
  (∀ r, right_sibling nx = Some r → r < length nodes) →
  is_Some (remove nodes x).
Proof.
  intros Hx Hp Hl Hr. unfold remove. rewrite Hx. cbn [mbind option_bind].
  pose proof (lookup_lt_Some _ _ _ Hx) as Hlt.
  assert (H1 : ∃ v, match parent nx with
    | Some p =>
        store nodes p (λ x : FibonacciNode, set_rank (wrap32 (rank x - 1)) x)
        ≫= λ nodes : arena,
             nodes !! x
             ≫= λ n : FibonacciNode,
                  match left_sibling n with
                  | Some l => store nodes p (set_children (Some l))
                  | None =>
                      match right_sibling n with
                      | Some r => store nodes p (set_children (Some r))
                      | None => store nodes p (set_children None)
                      end
                  end
    | None => Some nodes
    end = Some v ∧ length v = length nodes
       ∧ fld left_sibling v x = Some (left_sibling nx)
       ∧ fld right_sibling v x = Some (right_sibling nx)).
  { destruct (parent nx) as [p|]; [ | exists nodes; repeat split; by apply fld_Some ].
    destruct (store_defined nodes p (λ x, set_rank (wrap32 (rank x - 1)) x))
      as [v1 Hv1]; [ by apply Hp | ].
    rewrite Hv1. cbn [mbind option_bind].
    pose proof (store_length _ _ _ _ Hv1) as Hlen1.
    destruct (lookup_lt_is_Some_2 v1 x) as [n1 Hn1]; [ lia | ].
    rewrite Hn1. cbn [mbind option_bind].
    assert (∃ g, (match left_sibling n1 with
                  | Some l => store v1 p (set_children (Some l))
                  | None =>
                      match right_sibling n1 with
                      | Some r => store v1 p (set_children (Some r))
                      | None => store v1 p (set_children None)
                      end
                  end) = store v1 p (set_children g)) as [g ->].
    { destruct (left_sibling n1), (right_sibling n1); eauto. }
    destruct (store_defined v1 p (set_children g)) as [v2 Hv2]; [ rewrite Hlen1; by apply Hp | ].
    exists v2. split; [ done | ]. split; [ | split ].
    - rewrite (store_length _ _ _ _ Hv2). done.
    - rewrite (store_fld_other _ _ _ _ _ _ Hv2), (store_fld_other _ _ _ _ _ _ Hv1).
      by apply fld_Some.
    - rewrite (store_fld_other _ _ _ _ _ _ Hv2), (store_fld_other _ _ _ _ _ _ Hv1).
      by apply fld_Some. }
  destruct H1 as (v & -> & Hlen & Hl0 & Hr0). cbn [mbind option_bind].
  destruct (lookup_lt_is_Some_2 v x) as [n0 Hn0]; [ lia | ].
  rewrite Hn0. cbn [mbind option_bind].
  rewrite (fld_inj _ _ _ _ _ Hn0 Hl0), (fld_inj _ _ _ _ _ Hn0 Hr0).
  change (match left_sibling nx with
          | Some l => store v l (set_right_sibling (right_sibling nx))
          | None => Some v end)
    with (store_opt v (left_sibling nx) (set_right_sibling (right_sibling nx))).
  assert (Hso : ∀ w o g, length w = length nodes →
            (∀ a, o = Some a → a < length nodes) → is_Some (store_opt w o g)).
  { intros w [a|] g Hw Ha; simpl; [ | eauto ].
    apply store_defined. rewrite Hw. by apply Ha. }
  destruct (Hso v (left_sibling nx) (set_right_sibling (right_sibling nx)) Hlen Hl)
    as [v1 Hv1].
  rewrite Hv1. cbn [mbind option_bind].
  pose proof (store_opt_length _ _ _ _ Hv1) as Hlen1.
  destruct (lookup_lt_is_Some_2 v1 x) as [n1 Hn1]; [ lia | ].
  rewrite Hn1. cbn [mbind option_bind].
  assert (Hl1 : left_sibling n1 = left_sibling nx).
  { apply (fld_inj _ _ _ _ _ Hn1). by rewrite (store_opt_other _ _ _ _ _ _ Hv1). }
  assert (Hr1 : right_sibling n1 = right_sibling nx).
  { apply (fld_inj _ _ _ _ _ Hn1). rewrite (store_opt_same _ _ _ _ _ _ _ Hv1).
    by case_decide. }
  rewrite Hl1, Hr1.
  change (match right_sibling nx with
          | Some r => store v1 r (set_left_sibling (left_sibling nx))
          | None => Some v1 end)
    with (store_opt v1 (right_sibling nx) (set_left_sibling (left_sibling nx))).
  destruct (Hso v1 (right_sibling nx) (set_left_sibling (left_sibling nx)))
    as [v2 Hv2]; [ lia | done | ].
  rewrite Hv2. cbn [mbind option_bind].
  pose proof (store_opt_length _ _ _ _ Hv2) as Hlen2.
  destruct (store_defined v2 x (set_left_sibling None)) as [v3 Hv3]; [ lia | ].
  rewrite Hv3. cbn [mbind option_bind].
  pose proof (store_length _ _ _ _ Hv3) as Hlen3.
  destruct (store_defined v3 x (set_right_sibling None)) as [v4 Hv4]; [ lia | ].
  rewrite Hv4. cbn [mbind option_bind].
  pose proof (store_length _ _ _ _ Hv4) as Hlen4.
  apply store_defined. lia.
Qed.

Tactic Notation "run_store" ident(v) ident(H) :=
  match goal with
  | |- context [store ?w ?a ?g] =>
      destruct (store_defined w a g) as [v H];
      [ try lia
      | rewrite H; cbn [mbind option_bind];
        pose proof (store_length _ _ _ _ H) ]
  end.

Tactic Notation "run_read" ident(v) ident(H) :=
  match goal with
  | |- context [(?w !! ?a) ≫= _] =>
      destruct (lookup_lt_is_Some_2 w a) as [v H];
      [ try lia | rewrite H; cbn [mbind option_bind] ]
  end.

Lemma add_sibling_spec fuel nodes node new_sibling temp nn :
  rightmost_sibling fuel nodes node = Some temp →
  nodes !! node = Some nn →
  temp < length nodes → new_sibling < length nodes →
  (∀ p, parent nn = Some p → p < length nodes) →
  ∃ nodes', add_sibling fuel nodes node new_sibling = Some nodes'
    ∧ add_sibling_post nodes nodes' temp new_sibling (parent nn).
Proof.
  intros Hrm Hnode Htemp Hnew Hpar. unfold add_sibling. rewrite Hrm.
  cbn [mbind option_bind].
  pose proof (lookup_lt_Some _ _ _ Hnode) as Hlt.
  run_store w Hw. run_store w0 Hw0. run_store w1 Hw1. run_read n Hn.
  assert (Hpn : parent n = parent nn).
  { apply (fld_inj _ _ _ _ _ Hn).
    rewrite (store_fld_other _ _ _ _ _ _ Hw1), (store_fld_other _ _ _ _ _ _ Hw0),
      (store_fld_other _ _ _ _ _ _ Hw). by apply fld_Some. }
  rewrite Hpn. run_store w3 Hw3. run_read n0 Hn0.
  assert (Hps : parent n0 = parent nn).
  { apply (fld_inj _ _ _ _ _ Hn0). rewrite (store_fld_same _ _ _ _ _ _ _ Hw3).
    by case_decide. }
  rewrite Hps.
  change (match parent nn with
          | Some p => store w3 p (λ x, set_rank (wrap32 (rank x + 1)) x)
          | None => Some w3 end)
    with (store_opt w3 (parent nn) (λ x, set_rank (wrap32 (rank x + 1)) x)).
  assert (Hlast : is_Some (store_opt w3 (parent nn)
                    (λ x, set_rank (wrap32 (rank x + 1)) x))).
  { destruct (parent nn) as [p|] eqn:E; simpl; [ | eauto ].
    apply store_defined. specialize (Hpar p eq_refl). lia. }
  destruct Hlast as [nodes' Hlast]. exists nodes'. split; [ done | ].
  split; intros.
  - rewrite (store_opt_length _ _ _ _ Hlast). lia.
  - rewrite (store_opt_other _ _ _ _ _ _ Hlast), (store_fld_same _ _ _ _ _ _ _ Hw3).
    case_decide; [ done | ].
    rewrite (store_fld_other _ _ _ _ _ _ Hw1), (store_fld_other _ _ _ _ _ _ Hw0),
      (store_fld_other _ _ _ _ _ _ Hw). done.
  - rewrite (store_opt_other _ _ _ _ _ _ Hlast), (store_fld_other _ _ _ _ _ _ Hw3),
      (store_fld_other _ _ _ _ _ _ Hw1), (store_fld_same _ _ _ _ _ _ _ Hw0).
    case_decide; [ done | ].
    rewrite (store_fld_other _ _ _ _ _ _ Hw). done.
  - rewrite (store_opt_other _ _ _ _ _ _ Hlast), (store_fld_other _ _ _ _ _ _ Hw3),
      (store_fld_same _ _ _ _ _ _ _ Hw1).
    case_decide; [ done | ].
    rewrite (store_fld_other _ _ _ _ _ _ Hw0), (store_fld_same _ _ _ _ _ _ _ Hw). done.
  - destruct (parent nn) as [p|] eqn:E; simpl in Hlast.
    + rewrite (store_fld _ _ _ _ _ j Hlast).
      assert (Hrk : ∀ i, fld rank w3 i = fld rank nodes i).
      { intros i. rewrite (store_fld_other _ _ _ _ _ _ Hw3),
          (store_fld_other _ _ _ _ _ _ Hw1), (store_fld_other _ _ _ _ _ _ Hw0),
          (store_fld_other _ _ _ _ _ _ Hw). done. }
      repeat case_decide; simplify_eq; try done.
      * rewrite <- Hrk. unfold fld. destruct (w3 !! p); reflexivity.
    + injection Hlast as <-. case_decide; [ done | ].
      rewrite (store_fld_other _ _ _ _ _ _ Hw3),
          (store_fld_other _ _ _ _ _ _ Hw1), (store_fld_other _ _ _ _ _ _ Hw0),
          (store_fld_other _ _ _ _ _ _ Hw). done.
  - rewrite (store_opt_other _ _ _ _ _ _ Hlast), (store_fld_other _ _ _ _ _ _ Hw3),
      (store_fld_other _ _ _ _ _ _ Hw1), (store_fld_other _ _ _ _ _ _ Hw0),
      (store_fld_other _ _ _ _ _ _ Hw). done.
  - rewrite (store_opt_other _ _ _ _ _ _ Hlast), (store_fld_other _ _ _ _ _ _ Hw3),
      (store_fld_other _ _ _ _ _ _ Hw1), (store_fld_other _ _ _ _ _ _ Hw0),
      (store_fld_other _ _ _ _ _ _ Hw). done.
Qed.

Lemma rightmost_sibling_ext fuel nodes1 nodes x :
  (∀ j, fld right_sibling nodes1 j = fld right_sibling nodes j) →
  rightmost_sibling fuel nodes1 x = rightmost_sibling fuel nodes x.
Proof.
  intros Hext. revert x. induction fuel as [|fuel IH]; intros x; [ done | ].
  simpl. specialize (Hext x). unfold fld in Hext.
  destruct (nodes1 !! x) as [n1|], (nodes !! x) as [n|]; simplify_eq/=; try done.
  rewrite Hext. destruct (right_sibling n); [ apply IH | done ].
Qed.

Lemma leftmost_sibling_ext fuel nodes1 nodes x :
  (∀ j, fld left_sibling nodes1 j = fld left_sibling nodes j) →
  leftmost_sibling fuel nodes1 x = leftmost_sibling fuel nodes x.
Proof.
  intros Hext. revert x. induction fuel as [|fuel IH]; intros x; [ done | ].
  simpl. specialize (Hext x). unfold fld in Hext.
  destruct (nodes1 !! x) as [n1|], (nodes !! x) as [n|]; simplify_eq/=; try done.
  rewrite Hext. destruct (left_sibling n); [ apply IH | done ].
Qed.

Lemma add_child_spec fuel nodes node new_child nn last :
  nodes !! node = Some nn → new_child < length nodes →
  match children nn with
  | None => last = None
  | Some c => ∃ temp, last = Some temp
                ∧ rightmost_sibling fuel nodes c = Some temp
                ∧ temp < length nodes
                ∧ fld parent nodes c = Some (Some node) ∧ c ≠ new_child
  end →
  ∃ nodes', add_child fuel nodes node new_child = Some nodes'
    ∧ add_child_post nodes nodes' node new_child last.
Proof.
  intros Hnode Hnew Hcase. unfold add_child.
  pose proof (lookup_lt_Some _ _ _ Hnode) as Hlt.
  run_store w Hw. run_read n Hn.
  assert (Hch : children n = children nn).
  { apply (fld_inj _ _ _ _ _ Hn). rewrite (store_fld_other _ _ _ _ _ _ Hw).
    by apply fld_Some. }
  rewrite Hch. destruct (children nn) as [c|] eqn:Ec.
  - destruct Hcase as (temp & -> & Hrm & Htemp & Hpc & Hcn).
    assert (Hc : is_Some (w !! c)).
    { apply lookup_lt_is_Some.
      assert (c < length nodes) by (apply (fld_is_Some parent); rewrite Hpc; eauto).
      lia. }
    destruct Hc as [nc Hnc].
    assert (Hpar : parent nc = Some node).
    { apply (fld_inj _ _ _ _ _ Hnc). rewrite (store_fld_same _ _ _ _ _ _ _ Hw).
      by case_decide. }
    destruct (add_sibling_spec fuel w c new_child temp nc) as (nodes' & Hrun & Hpost);
      try done; try lia.
    { rewrite <- Hrm. apply rightmost_sibling_ext. intros j.
      by rewrite (store_fld_other _ _ _ _ _ _ Hw). }
    { rewrite Hpar. intros p [= <-]. lia. }
    exists nodes'. split; [ done | ]. destruct Hpost. rewrite Hpar in *.
    split; intros.
    + lia.
    + rewrite as_parent0. case_decide; [ done | ].
      rewrite (store_fld_same _ _ _ _ _ _ _ Hw). by case_decide.
    + rewrite as_left0. case_decide; [ done | ].
      by rewrite (store_fld_other _ _ _ _ _ _ Hw).
    + rewrite as_right0. repeat case_decide; simplify_eq; try done.
      by rewrite (store_fld_other _ _ _ _ _ _ Hw).
    + rewrite as_rank0. rewrite (store_fld_other _ _ _ _ _ _ Hw).
      repeat case_decide; simplify_eq; done.
    + rewrite as_children0. rewrite (store_fld_other _ _ _ _ _ _ Hw).
      case_decide as Hd; [ by destruct Hd | done ].
    + rewrite as_payload0. by rewrite (store_fld_other _ _ _ _ _ _ Hw).
  - subst last. run_store w1 Hw1. run_store w2 Hw2. run_store w3 Hw3.
    destruct (store_defined w3 node (set_rank 1)) as [nodes' Hlast]; [ lia | ].
    exists nodes'. split; [ done | ].
    split; intros.
    + rewrite (store_length _ _ _ _ Hlast). lia.
    + rewrite (store_fld_other _ _ _ _ _ _ Hlast), (store_fld_other _ _ _ _ _ _ Hw3),
        (store_fld_other _ _ _ _ _ _ Hw2), (store_fld_other _ _ _ _ _ _ Hw1),
        (store_fld_same _ _ _ _ _ _ _ Hw). done.
    + rewrite (store_fld_other _ _ _ _ _ _ Hlast), (store_fld_same _ _ _ _ _ _ _ Hw3).
      case_decide; [ done | ].
      rewrite (store_fld_other _ _ _ _ _ _ Hw2), (store_fld_other _ _ _ _ _ _ Hw1),
        (store_fld_other _ _ _ _ _ _ Hw). done.
    + rewrite (store_fld_other _ _ _ _ _ _ Hlast), (store_fld_other _ _ _ _ _ _ Hw3),
        (store_fld_same _ _ _ _ _ _ _ Hw2).
      case_decide; [ done | ]. case_decide; [ done | ].
      rewrite (store_fld_other _ _ _ _ _ _ Hw1), (store_fld_other _ _ _ _ _ _ Hw). done.
    + rewrite (store_fld_same _ _ _ _ _ _ _ Hlast). case_decide; [ done | ].
      rewrite (store_fld_other _ _ _ _ _ _ Hw3),
        (store_fld_other _ _ _ _ _ _ Hw2), (store_fld_other _ _ _ _ _ _ Hw1),
        (store_fld_other _ _ _ _ _ _ Hw). done.
    + rewrite (store_fld_other _ _ _ _ _ _ Hlast), (store_fld_other _ _ _ _ _ _ Hw3),
        (store_fld_other _ _ _ _ _ _ Hw2), (store_fld_same _ _ _ _ _ _ _ Hw1).
      case_decide as Hd1; case_decide as Hd2; try done.
      * exfalso. apply Hd2. done.
      * by destruct Hd2.
      * by rewrite (store_fld_other _ _ _ _ _ _ Hw).
    + rewrite (store_fld_other _ _ _ _ _ _ Hlast), (store_fld_other _ _ _ _ _ _ Hw3),
        (store_fld_other _ _ _ _ _ _ Hw2), (store_fld_other _ _ _ _ _ _ Hw1),
        (store_fld_other _ _ _ _ _ _ Hw). done.
Qed.

Lemma sibs_set_sibs_eq F par l : sibs (set_sibs F par l) par = l.
Proof. destruct par; simpl; [ by rewrite decide_True | done ]. Qed.

Lemma sibs_set_sibs_ne F par l par' :
  par' ≠ par → sibs (set_sibs F par l) par' = sibs F par'.
Proof.
  intros Hne. destruct par as [p|], par' as [q|]; simpl; try done.
  rewrite decide_False; [ done | congruence ].
Qed.

Lemma rooted_valid nodes i : rooted nodes i → i < length nodes.
Proof.
  intros [j Hj|j p Hj _]; apply (fld_is_Some parent); rewrite Hj; eauto.
Qed.

Lemma hs_valid nodes F par i :
  heap_shape nodes F → i ∈ sibs F par → i < length nodes.
Proof.
  intros HS Hi. destruct (hs_links _ _ HS par i Hi) as (Hp & _).
  apply (fld_is_Some parent). rewrite Hp. eauto.
Qed.

Lemma hs_parent_valid nodes F i p :
  heap_shape nodes F → fld parent nodes i = Some (Some p) → p < length nodes.
Proof.
  intros HS Hp.
  assert (Hi : i < length nodes) by (apply (fld_is_Some parent); rewrite Hp; eauto).
  destruct (hs_rooted _ _ HS i Hi) as [j Hj|j q Hj Hq]; [ congruence | ].
  rewrite Hp in Hj. injection Hj as <-. by apply rooted_valid.
Qed.

(** Cutting nodes from their parents keeps every node rooted. *)
Lemma rooted_cut nodes nodes' :
  (∀ j, fld parent nodes' j = fld parent nodes j ∨ fld parent nodes' j = Some None) →
  ∀ i, rooted nodes i → rooted nodes' i.
Proof.
  intros Hpar i Hr. induction Hr as [i Hi|i p Hi Hp IH].
  - apply rooted_root. destruct (Hpar i) as [-> | ->]; done.
  - destruct (Hpar i) as [Heq|Heq].
    + eapply rooted_child; [ by rewrite Heq | done ].
    + by apply rooted_root.
Qed.

Lemma filter_delete_mid (l1 l2 : list nat) x :
  NoDup (l1 ++ x :: l2) → filter (λ y, y ≠ x) (l1 ++ x :: l2) = l1 ++ l2.
Proof.
  intros Hnd. apply NoDup_app in Hnd as (Hnd1 & Hdisj & Hnd2).
  apply NoDup_cons in Hnd2 as [Hx2 Hnd2].
  assert (Hx1 : x ∉ l1).
  { intros Hin. apply (Hdisj _ Hin). constructor. }
  assert (Hid : ∀ l : list nat, x ∉ l → filter (λ y, y ≠ x) l = l).
  { intros l Hl. induction l as [|a l IH]; [ done | ].
    apply not_elem_of_cons in Hl as [Hxa Hl].
    rewrite filter_cons_True by congruence. by rewrite IH. }
  rewrite filter_app, filter_cons_False by (intros ?; done).
  by rewrite !Hid.
Qed.

Lemma rooted_not_self nodes x :
  rooted nodes x → fld parent nodes x ≠ Some (Some x).
Proof.
  intros Hr. induction Hr as [i Hi|i p Hi Hp IH]; [ congruence | ].
  intros Heq. rewrite Heq in Hi. injection Hi as <-. done.
Qed.

Lemma remove_shape nodes F x nx :
  heap_shape nodes F → nodes !! x = Some nx → x ∈ sibs F (parent nx) →
  ∃ nodes', remove nodes x = Some nodes'
    ∧ heap_shape nodes'
        (set_sibs F (parent nx) (filter (λ y, y ≠ x) (sibs F (parent nx))))
    ∧ length nodes' = length nodes
    ∧ fld parent nodes' x = Some None
    ∧ (∀ j, fld payload nodes' j = fld payload nodes j).
Proof.
  intros HS Hx Hin.
  set (par := parent nx) in *. set (L := sibs F par) in *.
  pose proof (hs_nodup _ _ HS par) as Hnd. fold L in Hnd.
  destruct (hs_links _ _ HS par x Hin) as (Hp & Hl & Hr). fold L in Hl, Hr.
  destruct (list_elem_of_split _ _ Hin) as (l1 & l2 & HL).
  rewrite HL in Hnd, Hl, Hr.
  destruct (NoDup_mid_notin _ _ _ Hnd) as [Hx1 Hx2].
  rewrite prev_from_mid in Hl by done. rewrite next_to_mid in Hr by done.
  apply (fld_inj _ _ _ _ _ Hx) in Hl. apply (fld_inj _ _ _ _ _ Hx) in Hr.
  assert (HinL : ∀ i, i ∈ l1 ++ l2 → i ∈ L ∧ i ≠ x).
  { intros i Hi. rewrite HL. apply elem_of_app in Hi as [Hi|Hi].
    - split; [ apply elem_of_app; by left | congruence ].
    - split; [ apply elem_of_app; right; by constructor | congruence ]. }
  destruct (remove_defined nodes x nx Hx) as [nodes' Hrun].
  { intros p Hpar. eapply (hs_parent_valid _ _ x); [ done | ].
    rewrite (fld_Some _ _ _ _ Hx). by rewrite Hpar. }
  { intros l Hleft. rewrite Hl in Hleft. apply last_or_Some_elem in Hleft.
    apply (hs_valid _ _ par _ HS). fold L. rewrite HL. apply elem_of_app. by left. }
  { intros r Hright. rewrite Hr in Hright. apply hd_or_Some_elem in Hright.
    apply (hs_valid _ _ par _ HS). fold L. rewrite HL. apply elem_of_app.
    right. by constructor. }
  exists nodes'. split; [ done | ].
  destruct (remove_effect _ _ _ _ Hrun Hx) as [Elen Epar Eleft Eright Erank Echild Epay].
  fold par in Erank, Echild. rewrite Hl, Hr in *.
  rewrite HL at 1. rewrite (filter_delete_mid _ _ _ Hnd).
  split; [ | repeat split; [ done | | done ] ].
  2: { rewrite Epar. by rewrite decide_True. }
  split.
  - (* links *)
    intros par' i Hi. destruct (decide (par' = par)) as [->|Hne].
    + rewrite sibs_set_sibs_eq in *. destruct (HinL i Hi) as [HiL Hix].
      destruct (hs_links _ _ HS par i HiL) as (Hp' & Hl' & Hr'). fold L in Hl', Hr'.
      rewrite HL in Hl', Hr'.
      rewrite Epar, Eleft, Eright. rewrite !(decide_False (P := i = x)) by done.
      split; [ done | ]. split.
      * rewrite (prev_from_delete None l1 x l2 i) by done.
        rewrite Hl'.
        destruct (decide (hd_or None l2 = Some i)) as [Hhd|Hhd].
        -- rewrite decide_True.
           ++ by rewrite prev_from_mid.
           ++ assert (Hnx : next_to None (l1 ++ x :: l2) x = Some i)
                by (by rewrite next_to_mid).
              apply next_prev in Hnx as [_ ?]; [ done | done | by rewrite <- HL ].
        -- rewrite decide_False; [ done | ].
           intros Hpx. apply Hhd. rewrite <- (next_to_mid None l1 x l2 Hx1).
           apply next_prev; [ done | by rewrite <- HL | ]. split; [ by rewrite <- HL | done ].
      * rewrite (next_to_delete None l1 x l2 i) by done.
        rewrite Hr'.
        destruct (decide (last_or None l1 = Some i)) as [Hla|Hla].
        -- rewrite decide_True.
           ++ by rewrite next_to_mid.
           ++ apply next_prev; [ done | by rewrite <- HL | ].
              split; [ by rewrite <- HL | by rewrite prev_from_mid ].
        -- rewrite decide_False; [ done | ].
           intros Hnx. apply Hla. rewrite <- (prev_from_mid None l1 x l2 Hx1).
           apply next_prev in Hnx as [_ ?]; [ done | done | by rewrite <- HL ].
    + rewrite sibs_set_sibs_ne in * by done.
      destruct (hs_links _ _ HS par' i Hi) as (Hp' & Hl' & Hr').
      assert (Hix : i ≠ x) by (intros ->; congruence).
      assert (HiL : i ∉ L).
      { intros HiL. destruct (hs_links _ _ HS par i HiL) as (Hp'' & _). congruence. }
      rewrite Epar, Eleft, Eright. rewrite !(decide_False (P := i = x)) by done.
      rewrite decide_False, decide_False; [ done | | ].
      * intros Hla. apply HiL. rewrite HL. apply elem_of_app. left.
        by apply last_or_Some_elem.
      * intros Hhd. apply HiL. rewrite HL. apply elem_of_app. right. constructor.
        by apply hd_or_Some_elem.
  - (* nodup *)
    intros par'. destruct (decide (par' = par)) as [->|Hne].
    + rewrite sibs_set_sibs_eq. by eapply NoDup_delete_mid.
    + rewrite sibs_set_sibs_ne by done. apply (hs_nodup _ _ HS).
  - (* complete *)
    intros i p. rewrite Epar. case_decide as Hix; [ done | ]. intros Hpi.
    pose proof (hs_complete _ _ HS i p Hpi) as Hik.
    change (i ∈ sibs (set_sibs F par (l1 ++ l2)) (Some p)).
    destruct (decide (Some p = par)) as [<-|Hne].
    + rewrite sibs_set_sibs_eq. change (i ∈ L) in Hik. rewrite HL in Hik.
      apply elem_of_app in Hik as [?|Hik]; apply elem_of_app; [ by left | ].
      apply elem_of_cons in Hik as [?|?]; [ done | by right ].
    + by rewrite sibs_set_sibs_ne.
  - (* rank *)
    intros i r. rewrite Erank.
    change (kids (set_sibs F par (l1 ++ l2)) i) with (sibs (set_sibs F par (l1 ++ l2)) (Some i)).
    case_decide as Hpi.
    + rewrite Hpi, sibs_set_sibs_eq.
      destruct (fld rank nodes i) as [r0|] eqn:Er0; [ | done ]. simpl. intros [= <-].
      rewrite (hs_rank _ _ HS i r0 Er0).
      change (kids F i) with (sibs F (Some i)). rewrite <- Hpi. fold L. rewrite HL.
      rewrite !length_app. simpl. rewrite Nat.add_succ_r. apply wrap32_pred.
    + rewrite sibs_set_sibs_ne by congruence. apply (hs_rank _ _ HS).
  - (* children *)
    intros i c. rewrite Echild.
    change (kids (set_sibs F par (l1 ++ l2)) i) with (sibs (set_sibs F par (l1 ++ l2)) (Some i)).
    case_decide as Hpi.
    + rewrite Hpi, sibs_set_sibs_eq. intros [= <-].
      destruct (last_or None l1) as [l|] eqn:El; simpl.
      * apply elem_of_app. left. by apply last_or_Some_elem.
      * apply last_or_None in El as ->.
        destruct l2 as [|r l2]; simpl; [ done | constructor ].
    + rewrite sibs_set_sibs_ne by congruence. apply (hs_children _ _ HS).
  - (* detached *)
    intros i. rewrite Epar, Eleft, Eright. case_decide as Hix; [ done | ].
    intros Hpi Hnr.
    assert (Hnr' : i ∉ roots F).
    { intros Hir. apply Hnr. change (i ∈ sibs (set_sibs F par (l1 ++ l2)) None).
      destruct (decide (None = par)) as [<-|Hne].
      - rewrite sibs_set_sibs_eq. change (i ∈ L) in Hir. rewrite HL in Hir.
        apply elem_of_app in Hir as [?|Hir]; apply elem_of_app; [ by left | ].
        apply elem_of_cons in Hir as [?|?]; [ done | by right ].
      - by rewrite sibs_set_sibs_ne. }
    destruct (hs_detached _ _ HS i Hpi Hnr') as [Hli Hri].
    assert (HiL : i ∉ l1 ++ l2).
    { intros Hi. destruct (HinL i Hi) as [HiL _].
      destruct (hs_links _ _ HS par i HiL) as (Hp'' & _).
      assert (par = None) as Hpn by congruence.
      apply Hnr. change (i ∈ sibs (set_sibs F par (l1 ++ l2)) None).
      rewrite <- Hpn. by rewrite sibs_set_sibs_eq. }
    rewrite decide_False, decide_False; [ done | | ].
    + intros Hla. apply HiL. apply elem_of_app. left. by apply last_or_Some_elem.
    + intros Hhd. apply HiL. apply elem_of_app. right. by apply hd_or_Some_elem.
  - (* rooted *)
    intros i Hi. rewrite Elen in Hi.
    apply (rooted_cut nodes); [ | by apply (hs_rooted _ _ HS) ].
    intros j. rewrite Epar. case_decide; [ by right | by left ].
Qed.

(** Walking right along a sibling list ends on its last element. *)
Lemma rightmost_sibling_chain nodes (L : list nat) fuel k i :
  NoDup L →
  (∀ j, j ∈ L → fld right_sibling nodes j = Some (next_to None L j)) →
  L !! k = Some i → length L - k ≤ fuel →
  ∃ t, rightmost_sibling fuel nodes i = Some t ∧ last_or None L = Some t.
Proof.
  intros Hnd Hright. revert k i. induction fuel as [|fuel IH]; intros k i Hk Hfuel.
  { apply lookup_lt_Some in Hk. lia. }
  simpl. pose proof (Hright i (list_elem_of_lookup_2 _ _ _ Hk)) as Hr.
  rewrite (next_to_lookup None L k i Hnd Hk) in Hr.
  unfold fld in Hr. destruct (nodes !! i) as [n|]; [ | done ].
  simpl in Hr. injection Hr as Hr. simpl. rewrite Hr.
  destruct (L !! S k) as [j|] eqn:Ej.
  - apply (IH (S k) j Ej). lia.
  - exists i. split; [ done | ]. rewrite last_or_lookup.
    apply lookup_ge_None in Ej. apply lookup_lt_Some in Hk as Hlt.
    replace (pred (length L)) with k by lia. done.
Qed.

Lemma leftmost_sibling_chain nodes (L : list nat) fuel k i :
  NoDup L →
  (∀ j, j ∈ L → fld left_sibling nodes j = Some (prev_from None L j)) →
  L !! k = Some i → k < fuel →
  leftmost_sibling fuel nodes i = head L.
Proof.
  intros Hnd Hleft. revert k i. induction fuel as [|fuel IH]; intros k i Hk Hfuel.
  { lia. }
  simpl. pose proof (Hleft i (list_elem_of_lookup_2 _ _ _ Hk)) as Hl.
  rewrite (prev_from_lookup None L k i Hnd Hk) in Hl.
  unfold fld in Hl. destruct (nodes !! i) as [n|]; [ | done ].
  simpl in Hl. injection Hl as Hl. simpl. rewrite Hl.
  destruct k as [|k].
  - destruct L; simpl in *; congruence.
  - destruct (L !! k) as [j|] eqn:Ej.
    + apply (IH k j Ej). lia.
    + apply lookup_ge_None in Ej. apply lookup_lt_Some in Hk. lia.
Qed.

Lemma rightmost_sibling_shape nodes F par fuel i :
  heap_shape nodes F → i ∈ sibs F par → length (sibs F par) ≤ fuel →
  ∃ t, rightmost_sibling fuel nodes i = Some t
       ∧ last_or None (sibs F par) = Some t ∧ t ∈ sibs F par.
Proof.
  intros HS Hi Hfuel. apply list_elem_of_lookup in Hi as [k Hk].
  destruct (rightmost_sibling_chain nodes (sibs F par) fuel k i) as (t & Ht & Hlast);
    [ apply (hs_nodup _ _ HS) | | done | lia | ].
  - intros j Hj. by destruct (hs_links _ _ HS par j Hj) as (_ & _ & ?).
  - exists t. repeat split; [ done | done | by apply last_or_Some_elem ].
Qed.

Lemma leftmost_sibling_shape nodes F par fuel i :
  heap_shape nodes F → i ∈ sibs F par → length (sibs F par) ≤ fuel →
  leftmost_sibling fuel nodes i = head (sibs F par).
Proof.
  intros HS Hi Hfuel. apply list_elem_of_lookup in Hi as [k Hk].
  apply (leftmost_sibling_chain nodes (sibs F par) fuel k i);
    [ apply (hs_nodup _ _ HS) | | done | apply lookup_lt_Some in Hk; lia ].
  intros j Hj. by destruct (hs_links _ _ HS par j Hj) as (_ & ? & _).
Qed.

(** Appending a detached node to the roots. *)
Lemma add_sibling_root_shape fuel nodes F node x :
  heap_shape nodes F → node ∈ roots F →
  fld parent nodes x = Some None → x ∉ roots F →
  length (roots F) ≤ fuel →
  ∃ nodes', add_sibling fuel nodes node x = Some nodes'
    ∧ heap_shape nodes' (set_sibs F None (roots F ++ [x]))
    ∧ length nodes' = length nodes
    ∧ (∀ j, fld payload nodes' j = fld payload nodes j).
Proof.
  intros HS Hnode Hpx Hxr Hfuel.
  destruct (rightmost_sibling_shape nodes F None fuel node HS Hnode Hfuel)
    as (temp & Hrm & Hlast & Htemp). simpl in Hlast, Htemp.
  destruct (hs_links _ _ HS None node Hnode) as (Hpn & _).
  assert (Hn : is_Some (nodes !! node)).
  { apply lookup_lt_is_Some. by apply (hs_valid _ _ None _ HS). }
  destruct Hn as [nn Hn]. apply (fld_inj _ _ _ _ _ Hn) in Hpn.
  destruct (add_sibling_spec fuel nodes node x temp nn Hrm Hn)
    as (nodes' & Hrun & [Elen Epar Eleft Eright Erank Echild Epay]).
  { by apply (hs_valid _ _ None _ HS). }
  { apply (fld_is_Some parent). rewrite Hpx. eauto. }
  { rewrite Hpn. done. }
  rewrite Hpn in *.
  assert (Epar' : ∀ j, fld parent nodes' j = fld parent nodes j).
  { intros j. rewrite Epar. case_decide; [ by subst | done ]. }
  assert (Erank' : ∀ j, fld rank nodes' j = fld rank nodes j).
  { intros j. rewrite Erank. by rewrite decide_False. }
  pose proof (hs_nodup _ _ HS None) as Hnd. simpl in Hnd.
  exists nodes'. split; [ done | ]. split; [ | by split ]. constructor.
  - (* links *)
    intros par' i Hi. destruct par' as [p|].
    + simpl in Hi. destruct (hs_links _ _ HS (Some p) i Hi) as (Hp' & Hl' & Hr').
      simpl in *. rewrite Epar', Eleft, Eright.
      assert (i ≠ x) by (intros ->; congruence).
      assert (i ≠ temp).
      { intros ->. destruct (hs_links _ _ HS None temp Htemp) as (Hp'' & _). congruence. }
      by rewrite !decide_False.
    + simpl in Hi. rewrite Epar', Eleft, Eright. simpl.
      apply elem_of_app in Hi as [Hi|Hi].
      * destruct (hs_links _ _ HS None i Hi) as (Hp' & Hl' & Hr'). simpl in *.
        assert (i ≠ x) by (intros ->; done).
        rewrite !(decide_False (P := i = x)) by done.
        split; [ done | ]. split.
        -- by rewrite prev_from_app_l.
        -- rewrite next_to_snoc by done. rewrite Hlast.
           destruct (decide (i = temp)) as [->|Hne].
           ++ by rewrite decide_True.
           ++ rewrite decide_False by congruence. done.
      * apply list_elem_of_singleton in Hi as ->.
        rewrite !(decide_True (P := x = x)) by done.
        split; [ done | ]. split.
        -- rewrite prev_from_snoc_new by done. by rewrite Hlast.
        -- by rewrite next_to_snoc_new.
  - (* nodup *)
    intros [p|]; simpl; [ apply (hs_nodup _ _ HS (Some p)) | by apply NoDup_snoc_2 ].
  - (* complete *)
    intros i p. rewrite Epar'. apply (hs_complete _ _ HS).
  - (* rank *)
    intros i r. rewrite Erank'. apply (hs_rank _ _ HS).
  - (* children *)
    intros i c. rewrite Echild. apply (hs_children _ _ HS).
  - (* detached *)
    intros i. rewrite Epar'. simpl. intros Hpi Hni.
    apply not_elem_of_app in Hni as [Hni Hix].
    assert (i ≠ x). { intros ->. apply Hix. constructor. }
    assert (i ≠ temp) by (intros ->; done).
    destruct (hs_detached _ _ HS i Hpi Hni) as [Hl' Hr'].
    rewrite Eleft, Eright. by rewrite !decide_False.
  - (* rooted *)
    intros i Hi. rewrite Elen in Hi.
    apply (rooted_cut nodes); [ | by apply (hs_rooted _ _ HS) ].
    intros j. left. apply Epar'.
Qed.

(** Grafting a detached node under a node keeps every node rooted. *)
Lemma rooted_graft nodes nodes' node x :
  node ≠ x →
  fld parent nodes node = Some None →
  (∀ j, fld parent nodes' j
        = if decide (j = x) then Some (Some node) else fld parent nodes j) →
  ∀ i, rooted nodes i → rooted nodes' i.
Proof.
  intros Hne Hnode Hpar.
  assert (Hroot : rooted nodes' node).
  { apply rooted_root. rewrite Hpar. by rewrite decide_False. }
  intros i Hr. induction Hr as [i Hi|i p Hi Hp IH].
  - destruct (decide (i = x)) as [->|Hix].
    + eapply rooted_child; [ | done ]. rewrite Hpar. by rewrite decide_True.
    + apply rooted_root. rewrite Hpar. by rewrite decide_False.
  - destruct (decide (i = x)) as [->|Hix].
    + eapply rooted_child; [ | exact Hroot ]. rewrite Hpar. by rewrite decide_True.
    + eapply rooted_child; [ | exact IH ]. rewrite Hpar. by rewrite decide_False.
Qed.

(** Making a detached node the last child of a root. *)
Lemma add_child_shape fuel nodes F node x :
  heap_shape nodes F → node ∈ roots F →
  fld parent nodes x = Some None → x ∉ roots F →
  length (kids F node) ≤ fuel →
  ∃ nodes', add_child fuel nodes node x = Some nodes'
    ∧ heap_shape nodes' (set_sibs F (Some node) (kids F node ++ [x]))
    ∧ length nodes' = length nodes
    ∧ (∀ j, fld payload nodes' j = fld payload nodes j).
Proof.
  intros HS Hnode Hpx Hxr Hfuel.
  set (K := kids F node) in *.
  destruct (hs_links _ _ HS None node Hnode) as (Hpn & _).
  assert (Hn : is_Some (nodes !! node)).
  { apply lookup_lt_is_Some. by apply (hs_valid _ _ None _ HS). }
  destruct Hn as [nn Hn].
  assert (Hxv : x < length nodes).
  { apply (fld_is_Some parent). rewrite Hpx. eauto. }
  assert (Hne : node ≠ x) by (intros ->; done).
  assert (HxK : x ∉ K).
  { intros Hin. destruct (hs_links _ _ HS (Some node) x Hin) as (Hp' & _). congruence. }
  pose proof (hs_nodup _ _ HS (Some node)) as Hnd. simpl in Hnd. fold K in Hnd.
  pose proof (hs_children _ _ HS node (children nn) (fld_Some _ _ _ _ Hn)) as Hch.
  fold K in Hch.
  destruct (add_child_spec fuel nodes node x nn (last_or None K) Hn Hxv)
    as (nodes' & Hrun & [Elen Epar Eleft Eright Erank Echild Epay]).
  { destruct (children nn) as [c|] eqn:Ec.
    - destruct (rightmost_sibling_shape nodes F (Some node) fuel c HS Hch Hfuel)
        as (temp & Hrm & Hlast & Htemp). simpl in Hlast, Htemp. fold K in Hlast.
      exists temp. repeat split; try done.
      + by apply (hs_valid _ _ (Some node) _ HS).
      + by destruct (hs_links _ _ HS (Some node) c Hch) as (? & _).
      + intros ->. done.
    - by rewrite Hch. }
  assert (HlastK : ∀ t, last_or None K = Some t → t ∈ K ∧ t ≠ x).
  { intros t Ht. apply last_or_Some_elem in Ht. split; [ done | congruence ]. }
  exists nodes'. split; [ done | ]. split; [ | by split ]. constructor.
  - (* links *)
    intros par' i Hi. destruct (decide (par' = Some node)) as [->|Hpar'].
    + rewrite sibs_set_sibs_eq in *. rewrite Epar, Eleft, Eright.
      apply elem_of_app in Hi as [Hi|Hi].
      * destruct (hs_links _ _ HS (Some node) i Hi) as (Hp' & Hl' & Hr').
        simpl in Hl', Hr'. fold K in Hl', Hr'.
        assert (i ≠ x) by congruence.
        rewrite !(decide_False (P := i = x)) by done.
        split; [ done | ]. split.
        -- by rewrite prev_from_app_l.
        -- rewrite next_to_snoc by done. by case_decide.
      * apply list_elem_of_singleton in Hi as ->.
        rewrite !(decide_True (P := x = x)) by done.
        split; [ done | ]. split.
        -- by rewrite prev_from_snoc_new.
        -- by rewrite next_to_snoc_new.
    + rewrite sibs_set_sibs_ne in * by done.
      destruct (hs_links _ _ HS par' i Hi) as (Hp' & Hl' & Hr').
      assert (i ≠ x).
      { intros ->. destruct par'; [ congruence | done ]. }
      assert (last_or None K ≠ Some i).
      { intros Ht. destruct (HlastK i Ht) as [HiK _].
        destruct (hs_links _ _ HS (Some node) i HiK) as (Hp'' & _). congruence. }
      rewrite Epar, Eleft, Eright. by rewrite !decide_False.
  - (* nodup *)
    intros par'. destruct (decide (par' = Some node)) as [->|Hpar'].
    + rewrite sibs_set_sibs_eq. by apply NoDup_snoc_2.
    + rewrite sibs_set_sibs_ne by done. apply (hs_nodup _ _ HS).
  - (* complete *)
    intros i p. rewrite Epar.
    change (kids (set_sibs F (Some node) (K ++ [x])) p)
      with (sibs (set_sibs F (Some node) (K ++ [x])) (Some p)).
    case_decide as Hix.
    + intros [= <-]. rewrite sibs_set_sibs_eq. subst. apply elem_of_app. right. constructor.
    + intros Hpi. pose proof (hs_complete _ _ HS i p Hpi) as Hik.
      destruct (decide (p = node)) as [->|Hpn'].
      * rewrite sibs_set_sibs_eq. apply elem_of_app. by left.
      * rewrite sibs_set_sibs_ne by congruence. done.
  - (* rank *)
    intros i r. rewrite Erank.
    change (kids (set_sibs F (Some node) (K ++ [x])) i)
      with (sibs (set_sibs F (Some node) (K ++ [x])) (Some i)).
    case_decide as Hin.
    + subst i. rewrite sibs_set_sibs_eq. rewrite length_app. simpl.
      rewrite Nat.add_1_r.
      destruct (last_or None K) as [t|] eqn:Et.
      * destruct (fld rank nodes node) as [r0|] eqn:Er0; [ | done ]. simpl.
        intros [= <-]. rewrite (hs_rank _ _ HS node r0 Er0). fold K.
        apply wrap32_succ.
      * apply last_or_None in Et. rewrite Et. intros [= <-]. done.
    + rewrite sibs_set_sibs_ne by congruence. apply (hs_rank _ _ HS).
  - (* children *)
    intros i c. rewrite Echild.
    change (kids (set_sibs F (Some node) (K ++ [x])) i)
      with (sibs (set_sibs F (Some node) (K ++ [x])) (Some i)).
    case_decide as Hd.
    + destruct Hd as [-> _]. intros [= <-]. rewrite sibs_set_sibs_eq.
      apply elem_of_app. right. constructor.
    + intros Hci. pose proof (hs_children _ _ HS i c Hci) as Hold.
      destruct (decide (i = node)) as [->|Hin].
      * rewrite sibs_set_sibs_eq. fold K in Hold. destruct c as [c|].
        -- apply elem_of_app. by left.
        -- exfalso. apply Hd. split; [ done | ]. by rewrite Hold.
      * rewrite sibs_set_sibs_ne by congruence. done.
  - (* detached *)
    intros i. rewrite Epar, Eleft, Eright. case_decide as Hix; [ done | ].
    simpl. intros Hpi Hni.
    destruct (hs_detached _ _ HS i Hpi Hni) as [Hl' Hr'].
    rewrite decide_False; [ done | ].
    intros Ht. destruct (HlastK i Ht) as [HiK _].
    destruct (hs_links _ _ HS (Some node) i HiK) as (Hp'' & _). congruence.
  - (* rooted *)
    intros i Hi. rewrite Elen in Hi.
    apply (rooted_graft nodes nodes' node x); try done.
    by apply (hs_rooted _ _ HS).
Qed.

Lemma rooted_ext nodes nodes' :
  (∀ j, fld parent nodes' j = fld parent nodes j) →
  ∀ i, rooted nodes i → rooted nodes' i.
Proof. intros H. apply rooted_cut. intros j. by left. Qed.

Lemma heap_shape_ext nodes nodes' F :
  same_links nodes nodes' → heap_shape nodes F → heap_shape nodes' F.
Proof.
  intros [Elen Epar Eleft Eright Erank Echild] HS. constructor.
  - intros par i Hi. rewrite Epar, Eleft, Eright. by apply (hs_links _ _ HS).
  - apply (hs_nodup _ _ HS).
  - intros i p. rewrite Epar. apply (hs_complete _ _ HS).
  - intros i r. rewrite Erank. apply (hs_rank _ _ HS).
  - intros i c. rewrite Echild. apply (hs_children _ _ HS).
  - intros i. rewrite Epar, Eleft, Eright. apply (hs_detached _ _ HS).
  - intros i Hi. rewrite Elen in Hi. apply (rooted_ext nodes); [ done | ].
    by apply (hs_rooted _ _ HS).
Qed.

Lemma store_same_links nodes a g nodes' :
  Unaffected parent g → Unaffected left_sibling g → Unaffected right_sibling g →
  Unaffected rank g → Unaffected children g →
  store nodes a g = Some nodes' → same_links nodes nodes'.
Proof.
  intros ????? H. split; intros.
  - by apply store_length in H.
  - by rewrite (store_fld_other _ _ _ _ _ _ H).
  - by rewrite (store_fld_other _ _ _ _ _ _ H).
  - by rewrite (store_fld_other _ _ _ _ _ _ H).
  - by rewrite (store_fld_other _ _ _ _ _ _ H).
  - by rewrite (store_fld_other _ _ _ _ _ _ H).
Qed.

Lemma fld_payload_index nodes nodes' j :
  fld payload nodes' j = fld payload nodes j → fld index nodes' j = fld index nodes j.
Proof.
  unfold fld, payload. destruct (nodes' !! j), (nodes !! j); simpl; congruence.
Qed.
Lemma fld_payload_state nodes nodes' j :
  fld payload nodes' j = fld payload nodes j → fld state nodes' j = fld state nodes j.
Proof.
  unfold fld, payload. destruct (nodes' !! j), (nodes !! j); simpl; congruence.
Qed.
Lemma fld_payload_val nodes nodes' j :
  fld payload nodes' j = fld payload nodes j → fld val nodes' j = fld val nodes j.
Proof.
  unfold fld, payload. destruct (nodes' !! j), (nodes !! j); simpl; congruence.
Qed.

(** Members of the forest. *)
Lemma in_forest_sibs F i : in_forest F i ↔ ∃ par, i ∈ sibs F par.
Proof.
  split.
  - intros [H|[p H]]; [ by exists None | by exists (Some p) ].
  - intros [[p|] H]; [ right; by exists p | by left ].
Qed.

Lemma shape_member_parent nodes F i :
  heap_shape nodes F → i < length nodes → ¬ in_forest F i →
  fld parent nodes i = Some None.
Proof.
  intros HS Hi Hni. apply (fld_is_Some parent) in Hi as [[p|] Hp]; [ | done ].
  exfalso. apply Hni. right. exists p. by apply (hs_complete _ _ HS).
Qed.

Lemma shape_length_le nodes F par :
  heap_shape nodes F → length (sibs F par) ≤ length nodes.
Proof.
  intros HS. apply NoDup_bounded_length; [ apply (hs_nodup _ _ HS) | ].
  intros i Hi. by apply (hs_valid _ _ par _ HS).
Qed.

(** A detached node becomes the only root of an empty root list. *)
Lemma shape_single_root nodes F x :
  heap_shape nodes F → roots F = [] → fld parent nodes x = Some None →
  heap_shape nodes (set_sibs F None [x]).
Proof.
  intros HS Hr Hpx.
  assert (Hxr : x ∉ roots F) by (rewrite Hr; apply not_elem_of_nil).
  destruct (hs_detached _ _ HS x Hpx Hxr) as [Hl Hrr].
  constructor.
  - intros [p|] i Hi; simpl in Hi.
    + apply (hs_links _ _ HS (Some p) i Hi).
    + apply list_elem_of_singleton in Hi as ->. simpl.
      rewrite decide_True by done. done.
  - intros [p|]; simpl; [ apply (hs_nodup _ _ HS (Some p)) | apply NoDup_singleton ].
  - apply (hs_complete _ _ HS).
  - apply (hs_rank _ _ HS).
  - apply (hs_children _ _ HS).
  - intros i Hpi Hni. simpl in Hni. apply (hs_detached _ _ HS i Hpi).
    rewrite Hr. apply not_elem_of_nil.
  - apply (hs_rooted _ _ HS).
Qed.

Lemma insert_node_shape fuel heap nodes F x :
  heap_shape nodes F → min_ok heap F →
  fld parent nodes x = Some None → x ∉ roots F →
  length nodes ≤ fuel →
  ∃ heap' nodes', insert_node fuel (heap, nodes) x = Some (heap', nodes')
    ∧ heap_shape nodes' (set_sibs F None (roots F ++ [x]))
    ∧ min_ok heap' (set_sibs F None (roots F ++ [x]))
    ∧ roots_by_rank heap' = roots_by_rank heap
    ∧ length nodes' = length nodes
    ∧ (∀ j, fld payload nodes' j = fld payload nodes j).
Proof.
  intros HS Hmin Hpx Hxr Hfuel. unfold insert_node, min_ok in *.
  destruct (min_node heap) as [m|] eqn:Em.
  - destruct (add_sibling_root_shape fuel nodes F m x HS Hmin Hpx Hxr)
      as (nodes' & Hrun & HS' & Hlen & Hpay).
    { pose proof (shape_length_le nodes F None HS). simpl in *. lia. }
    rewrite Hrun. cbn [mbind option_bind].
    assert (Hx : is_Some (nodes' !! x)).
    { apply lookup_lt_is_Some. rewrite Hlen. apply (fld_is_Some parent).
      rewrite Hpx. eauto. }
    assert (Hm : is_Some (nodes' !! m)).
    { apply lookup_lt_is_Some. rewrite Hlen. by apply (hs_valid _ _ None _ HS). }
    destruct Hx as [n ->], Hm as [mn ->]. cbn [mbind option_bind].
    case_bool_decide.
    + eexists _, _. split; [ done | ]. split_and!; try done.
      simpl. apply elem_of_app. right. constructor.
    + eexists _, _. split; [ done | ]. split_and!; try done.
      rewrite Em. simpl. apply elem_of_app. by left.
  - eexists _, _. split; [ done | ]. rewrite Hmin. simpl.
    split_and!; try done.
    + by apply shape_single_root.
    + constructor.
Qed.

Lemma graft_shape fuel nodes F top loser :
  heap_shape nodes F → top ∈ roots F → loser ∈ roots F → top ≠ loser →
  length nodes ≤ fuel →
  ∃ nodes1 nodes',
    remove nodes loser = Some nodes1
    ∧ add_child fuel nodes1 top loser = Some nodes'
    ∧ heap_shape nodes' (graft F top loser)
    ∧ length nodes' = length nodes
    ∧ (∀ j, fld payload nodes' j = fld payload nodes j).
Proof.
  intros HS Htop Hloser Hne Hfuel.
  destruct (hs_links _ _ HS None loser Hloser) as (Hpl & _).
  assert (Hl : is_Some (nodes !! loser)).
  { apply lookup_lt_is_Some. by apply (hs_valid _ _ None _ HS). }
  destruct Hl as [nl Hnl]. apply (fld_inj _ _ _ _ _ Hnl) in Hpl as Hpl'.
  destruct (remove_shape nodes F loser nl HS Hnl) as (nodes1 & Hrm & HS1 & Hlen1 & Hp1 & Hpay1).
  { by rewrite Hpl'. }
  rewrite Hpl' in HS1. simpl in HS1.
  set (F1 := set_sibs F None (filter (λ y, y ≠ loser) (roots F))) in *.
  destruct (add_child_shape fuel nodes1 F1 top loser HS1) as (nodes' & Hac & HS' & Hlen' & Hpay').
  { simpl. apply list_elem_of_filter. done. }
  { done. }
  { simpl. intros Hin. apply list_elem_of_filter in Hin as [? _]. done. }
  { simpl. pose proof (shape_length_le nodes F (Some top) HS). simpl in *. lia. }
  exists nodes1, nodes'. split_and!; try done.
  - lia.
  - intros j. by rewrite Hpay'.
Qed.

Lemma in_forest_graft F top loser i :
  top ∈ roots F → loser ∈ roots F → top ≠ loser →
  in_forest (graft F top loser) i ↔ in_forest F i.
Proof.
  intros Htop Hloser Hne. unfold in_forest, graft. simpl. split.
  - intros [Hi|[p Hi]].
    + left. apply list_elem_of_filter in Hi as [_ ?]. done.
    + case_decide as Hp.
      * subst p. apply elem_of_app in Hi as [Hi|Hi].
        -- right. by exists top.
        -- apply list_elem_of_singleton in Hi as ->. by left.
      * right. by exists p.
  - intros [Hi|[p Hi]].
    + destruct (decide (i = loser)) as [->|Hil].
      * right. exists top. rewrite decide_True by done.
        apply elem_of_app. right. constructor.
      * left. by apply list_elem_of_filter.
    + right. exists p. case_decide; [ subst; apply elem_of_app; by left | done ].
Qed.

Lemma clean_free_graft F top loser :
  top ∈ roots F → loser ∈ roots F → top ≠ loser →
  clean_free F → clean_free (graft F top loser).
Proof.
  intros Htop Hloser Hne Hc i Hi.
  rewrite in_forest_graft in Hi by done.
  unfold graft. simpl. case_decide as Hit.
  - subst. exfalso. apply Hi. by left.
  - by apply Hc.
Qed.

Lemma link_pair_spec fuel heap nodes F node linknode :
  heap_shape nodes F → node ∈ roots F → linknode ∈ roots F → node ≠ linknode →
  length nodes ≤ fuel →
  ∃ top loser nodes',
    link_pair fuel heap nodes node linknode = Some (top, nodes')
    ∧ ((top = node ∧ loser = linknode
        ∧ (¬ le_val nodes linknode node ∨ min_node heap = Some node))
       ∨ (top = linknode ∧ loser = node
          ∧ le_val nodes linknode node ∧ min_node heap ≠ Some node))
    ∧ heap_shape nodes' (graft F top loser)
    ∧ length nodes' = length nodes
    ∧ (∀ j, fld payload nodes' j = fld payload nodes j).
Proof.
  intros HS Hnode Hlink Hne Hfuel. unfold link_pair.
  assert (Hn : is_Some (nodes !! node)).
  { apply lookup_lt_is_Some. by apply (hs_valid _ _ None _ HS). }
  assert (Hl : is_Some (nodes !! linknode)).
  { apply lookup_lt_is_Some. by apply (hs_valid _ _ None _ HS). }
  destruct Hn as [n Hn], Hl as [ln Hl]. rewrite Hn, Hl. cbn [mbind option_bind].
  destruct (bool_decide (val n < val ln)%Z || bool_decide (min_node heap = Some node))
    eqn:Ecmp.
  - destruct (graft_shape fuel nodes F node linknode HS Hnode Hlink Hne Hfuel)
      as (nodes1 & nodes' & -> & Hac & HS' & Hlen & Hpay).
    cbn [mbind option_bind]. rewrite Hac. cbn [mbind option_bind].
    exists node, linknode, nodes'. split_and!; try done.
    left. split_and!; try done.
    apply orb_true_iff in Ecmp as [Hc|Hc]; apply bool_decide_eq_true in Hc; [ | by right ].
    left. intros (va & vb & Ha & Hb & Hle).
    rewrite (fld_Some _ _ _ _ Hl) in Ha. rewrite (fld_Some _ _ _ _ Hn) in Hb.
    simplify_eq. lia.
  - destruct (graft_shape fuel nodes F linknode node HS Hlink Hnode (not_eq_sym Hne) Hfuel)
      as (nodes1 & nodes' & -> & Hac & HS' & Hlen & Hpay).
    cbn [mbind option_bind]. rewrite Hac. cbn [mbind option_bind].
    exists linknode, node, nodes'. split_and!; try done.
    right. apply orb_false_iff in Ecmp as [Hc1 Hc2].
    apply bool_decide_eq_false in Hc1. apply bool_decide_eq_false in Hc2.
    split_and!; try done.
    exists (val ln), (val n). split_and!; [ by apply fld_Some | by apply fld_Some | lia ].
Qed.

(** ** Consolidation *)

Lemma filter_ne_id (l : list nat) x : x ∉ l → filter (λ y, y ≠ x) l = l.
Proof.
  intros Hl. induction l as [|a l IH]; [ done | ].
  apply not_elem_of_cons in Hl as [Hxa Hl].
  rewrite filter_cons_True by congruence. by rewrite IH.
Qed.

Lemma bucket_of_lt nodes F node :
  heap_shape nodes F → node ∈ roots F → bucket_of F node < length nodes.
Proof.
  intros HS Hnode.
  assert (Hlen : length (node :: kids F node) ≤ length nodes).
  { apply NoDup_bounded_length.
    - apply NoDup_cons. split; [ | apply (hs_nodup _ _ HS (Some node)) ].
      intros Hin. destruct (hs_links _ _ HS (Some node) node Hin) as (Hp & _).
      destruct (hs_links _ _ HS None node Hnode) as (Hp' & _). congruence.
    - intros i Hi. apply elem_of_cons in Hi as [->|Hi].
      + by apply (hs_valid _ _ None _ HS).
      + by apply (hs_valid _ _ (Some node) _ HS). }
  simpl in Hlen. unfold bucket_of, wrap32.
  pose proof (Z.mod_le (Z.of_nat (length (kids F node))) (2 ^ 32)) as Hle.
  assert (0 <= Z.of_nat (length (kids F node)) `mod` 2 ^ 32)%Z
    by (apply Z.mod_pos_bound; lia).
  lia.
Qed.

Lemma le_val_ext nodes nodes' a b :
  (∀ j, fld payload nodes' j = fld payload nodes j) →
  le_val nodes a b → le_val nodes' a b.
Proof.
  intros Hpay (va & vb & Ha & Hb & Hle). exists va, vb.
  rewrite !(fld_payload_val nodes nodes') by done. done.
Qed.

Lemma link_spec steps fuel : ∀ heap nodes F P R node m,
  heap_shape nodes F → roots F = P ++ R → node ∈ P →
  table_ok F P (Some node) (roots_by_rank heap) →
  min_node heap = Some m → m ∈ P → (∀ y, y ∈ P → le_val nodes m y) →
  length P ≤ steps → length nodes ≤ fuel →
  ok_or_big (link steps fuel (heap, nodes) node) (length nodes)
    (λ st', ∃ F' P', link_post nodes F P R m F' P' st').
Proof.
  induction steps as [|steps IH];
    intros heap nodes F P R node m HS Hroots Hnode [Htlen Htab] Hmin HmP Hle Hsteps Hfuel.
  { destruct P; [ by apply elem_of_nil in Hnode | simpl in Hsteps; lia ]. }
  assert (HnodeR : node ∈ roots F) by (rewrite Hroots; apply elem_of_app; by left).
  assert (Hn : is_Some (nodes !! node)).
  { apply lookup_lt_is_Some. by apply (hs_valid _ _ None _ HS). }
  destruct Hn as [n Hn]. cbn [link]. rewrite Hn. cbn [mbind option_bind].
  pose proof (hs_rank _ _ HS node (rank n) (fld_Some _ _ _ _ Hn)) as Hrank.
  assert (Hidx : Z.to_nat (rank n) = bucket_of F node) by (by rewrite Hrank).
  rewrite Hidx.
  destruct (roots_by_rank heap !! bucket_of F node) as [slot|] eqn:Eslot;
    cbn [mbind option_bind].
  2: { simpl. apply lookup_ge_None in Eslot. rewrite Htlen in Eslot.
       pose proof (bucket_of_lt nodes F node HS HnodeR). lia. }
  unfold set_root_by_rank. rewrite Hidx, Eslot. cbn [mbind option_bind].
  pose proof (lookup_lt_Some _ _ _ Eslot) as Hlt.
  destruct slot as [linknode|].
  - (* the bucket is taken: merge and go on with the winner *)
    destruct (Htab _ _ Eslot) as (HlP & Hln & Hlb).
    assert (Hne : node ≠ linknode) by congruence.
    assert (HlinkR : linknode ∈ roots F) by (rewrite Hroots; apply elem_of_app; by left).
    set (heap1 := mkHeap (min_node heap) (<[bucket_of F node := None]> (roots_by_rank heap))).
    destruct (link_pair_spec fuel heap1 nodes F node linknode HS HnodeR HlinkR Hne Hfuel)
      as (top & loser & nodes' & -> & Hcase & HS' & Hlen & Hpay).
    cbn [mbind option_bind].
    assert (Htl : top ∈ P ∧ loser ∈ P ∧ top ≠ loser ∧ loser ≠ m
                  ∧ (∀ y, y ≠ node → y ≠ linknode → y ≠ top ∧ y ≠ loser)).
    { destruct Hcase as [(-> & -> & Hc)|(-> & -> & Hc1 & Hc2)].
      - assert (linknode ≠ m).
        { intros <-. destruct Hc as [Hc|Hc].
          - apply Hc. by apply Hle.
          - simpl in Hc. congruence. }
        split_and!; done.
      - assert (node ≠ m).
        { intros <-. simpl in Hc2. congruence. }
        split_and!; try done; congruence. }
    destruct Htl as (HtopP & HloserP & Htne & Hlm & Hothers).
    assert (HtopR : top ∈ roots F) by (rewrite Hroots; apply elem_of_app; by left).
    assert (HloserR : loser ∈ roots F) by (rewrite Hroots; apply elem_of_app; by left).
    pose proof (hs_nodup _ _ HS None) as Hnd. simpl in Hnd. rewrite Hroots in Hnd.
    assert (HloserNotR : loser ∉ R).
    { apply NoDup_app in Hnd as (_ & Hd & _). by apply Hd. }
    set (P1 := filter (λ y, y ≠ loser) P).
    assert (Hroots1 : roots (graft F top loser) = P1 ++ R).
    { simpl. rewrite Hroots, filter_app. by rewrite (filter_ne_id R). }
    specialize (IH heap1 nodes' (graft F top loser) P1 R top m HS' Hroots1).
    assert (Hpost : ok_or_big (link steps fuel (heap1, nodes') top) (length nodes')
              (λ st', ∃ F' P', link_post nodes' (graft F top loser) P1 R m F' P' st')).
    { apply IH.
      - by apply list_elem_of_filter.
      - split; [ simpl; by rewrite length_insert | ].
        intros r y Hy. simpl in Hy.
        destruct (decide (r = bucket_of F node)) as [->|Hr].
        { rewrite list_lookup_insert_eq in Hy by done. done. }
        rewrite list_lookup_insert_ne in Hy by done.
        destruct (Htab _ _ Hy) as (HyP & Hyn & Hyb).
        assert (y ≠ linknode) by (intros ->; congruence).
        destruct (Hothers y) as [Hyt Hyl]; [ congruence | done | ].
        split_and!.
        + by apply list_elem_of_filter.
        + congruence.
        + unfold bucket_of, graft in *. simpl. by rewrite decide_False.
      - done.
      - by apply list_elem_of_filter.
      - intros y Hy. apply list_elem_of_filter in Hy as [_ Hy].
        apply (le_val_ext nodes); [ done | by apply Hle ].
      - pose proof (length_filter_lt (λ y, y ≠ loser) P loser HloserP) as Hlt'.
        fold P1 in Hlt'. assert (length P1 < length P) by (apply Hlt'; tauto). lia.
      - lia. }
    rewrite Hlen in Hpost.
    destruct (link steps fuel (heap1, nodes') top) as [st'|]; simpl in *; [ | done ].
    destruct Hpost as (F' & P' & [? ? ? ? ? ? ? ? ? ?]).
    exists F', P'. split; try done.
    + intros y Hy. by eapply list_elem_of_filter, lp_sub0.
    + lia.
    + intros j. by rewrite lp_payload0.
    + intros i. rewrite lp_forest0. by apply in_forest_graft.
    + intros Hc. apply lp_clean0. by apply clean_free_graft.
  - (* the bucket is free *)
    simpl. exists F, P. split; simpl; try done.
    split; [ by rewrite length_insert | ].
    intros r y Hy.
    destruct (decide (r = bucket_of F node)) as [->|Hr].
    + rewrite list_lookup_insert_eq in Hy by done. injection Hy as <-. done.
    + rewrite list_lookup_insert_ne in Hy by done.
      destruct (Htab _ _ Hy) as (HyP & Hyn & Hyb). done.
Qed.

Lemma le_val_refl nodes a : a < length nodes → le_val nodes a a.
Proof.
  intros Ha. apply (fld_is_Some val) in Ha as [v Hv]. exists v, v. split_and!; [ done | done | lia ].
Qed.

Lemma relink_spec steps fuel : ∀ heap nodes F P R m,
  heap_shape nodes F → roots F = P ++ R →
  table_ok F P None (roots_by_rank heap) →
  min_node heap = Some m → (m ∈ P ∨ hd_or None R = Some m) →
  (∀ y, y ∈ P → le_val nodes m y) →
  length R ≤ steps → length nodes ≤ fuel →
  ok_or_big (relink steps fuel (heap, nodes) (hd_or None R)) (length nodes)
    (λ st', ∃ F', relink_post nodes F F' st').
Proof.
  induction steps as [|steps IH];
    intros heap nodes F P R m HS Hroots [Htlen Htab] Hmin Hm Hle Hsteps Hfuel.
  { destruct R; [ | simpl in Hsteps; lia ]. simpl.
    destruct Hm as [Hm|Hm]; [ | done ].
    exists F. split; simpl; try done.
    unfold min_ok. rewrite Hmin, Hroots. apply elem_of_app. by left. }
  destruct R as [|t R'].
  { simpl. destruct Hm as [Hm|Hm]; [ | done ].
    exists F. split; simpl; try done.
    unfold min_ok. rewrite Hmin, Hroots. apply elem_of_app. by left. }
  cbn [hd_or relink].
  pose proof (hs_nodup _ _ HS None) as Hnd. simpl in Hnd. rewrite Hroots in Hnd.
  destruct (NoDup_mid_notin _ _ _ Hnd) as [HtP HtR].
  assert (HtR' : t ∈ roots F).
  { rewrite Hroots. apply elem_of_app. right. constructor. }
  assert (HmR : m ∈ roots F).
  { destruct Hm as [Hm|[= ->]]; [ | done ]. rewrite Hroots. apply elem_of_app. by left. }
  assert (Ht : is_Some (nodes !! t)).
  { apply lookup_lt_is_Some. by apply (hs_valid _ _ None _ HS). }
  assert (Hmv : is_Some (nodes !! m)).
  { apply lookup_lt_is_Some. by apply (hs_valid _ _ None _ HS). }
  destruct Ht as [tn Ht], Hmv as [mn Hmn].
  rewrite Ht. cbn [mbind option_bind]. rewrite Hmin. cbn [mbind option_bind].
  rewrite Hmn. cbn [mbind option_bind].
  set (heap1 := if bool_decide (val tn < val mn)%Z
                then set_min_node (Some t) heap else heap).
  set (m1 := if bool_decide (val tn < val mn)%Z then t else m).
  assert (Hmin1 : min_node heap1 = Some m1).
  { unfold heap1, m1. by case_bool_decide. }
  assert (Htab1 : roots_by_rank heap1 = roots_by_rank heap).
  { unfold heap1. by case_bool_decide. }
  assert (Hroots1 : roots F = (P ++ [t]) ++ R').
  { by rewrite <- app_assoc. }
  assert (Hm1P : m1 ∈ P ++ [t]).
  { unfold m1. case_bool_decide.
    - apply elem_of_app. right. constructor.
    - destruct Hm as [Hm|[= ->]]; apply elem_of_app; [ by left | right; constructor ]. }
  assert (Hle1 : ∀ y, y ∈ P ++ [t] → le_val nodes m1 y).
  { intros y Hy. unfold m1. case_bool_decide as Hlt.
    - apply elem_of_app in Hy as [Hy|Hy].
      + destruct (Hle y Hy) as (va & vb & Ha & Hb & Hab).
        rewrite (fld_Some _ _ _ _ Hmn) in Ha. injection Ha as <-.
        exists (val tn), vb. split_and!; [ by apply fld_Some | done | lia ].
      + apply list_elem_of_singleton in Hy as ->. apply le_val_refl.
        by apply (hs_valid _ _ None _ HS).
    - apply elem_of_app in Hy as [Hy|Hy]; [ by apply Hle | ].
      apply list_elem_of_singleton in Hy as ->.
      exists (val mn), (val tn). split_and!; [ by apply fld_Some | by apply fld_Some | lia ]. }
  assert (Hright : right_sibling tn = hd_or None R').
  { destruct (hs_links _ _ HS None t HtR') as (_ & _ & Hr). simpl in Hr.
    rewrite Hroots, next_to_mid in Hr by done.
    by apply (fld_inj _ _ _ _ _ Ht) in Hr. }
  rewrite Hright.
  pose proof (link_spec fuel fuel heap1 nodes F (P ++ [t]) R' t m1 HS Hroots1) as Hlink.
  assert (Hpost : ok_or_big (link fuel fuel (heap1, nodes) t) (length nodes)
            (λ st', ∃ F' P', link_post nodes F (P ++ [t]) R' m1 F' P' st')).
  { apply Hlink; try done.
    - apply elem_of_app. right. constructor.
    - rewrite Htab1. split; [ done | ]. intros r y Hy.
      destruct (Htab _ _ Hy) as (HyP & _ & Hyb). split_and!; [ | | done ].
      + apply elem_of_app. by left.
      + intros [= ->]. done.
    - transitivity (length (roots F)).
      + rewrite Hroots1, !length_app. lia.
      + pose proof (shape_length_le nodes F None HS). simpl in *. lia. }
  destruct (link fuel fuel (heap1, nodes) t) as [[heap2 nodes2]|];
    cbn [mbind option_bind]; [ | done ].
  simpl in Hpost. destruct Hpost as (F2 & P2 & [? ? ? ? ? ? ? ? ? ?]). simpl in *.
  assert (Hrec : ok_or_big (relink steps fuel (heap2, nodes2) (hd_or None R'))
                   (length nodes2) (λ st', ∃ F', relink_post nodes2 F2 F' st')).
  { apply (IH heap2 nodes2 F2 P2 R' m1); try done.
    - by left.
    - intros y Hy. apply (le_val_ext nodes); [ done | ]. apply Hle1. by apply lp_sub0.
    - lia.
    - lia. }
  rewrite lp_length0 in Hrec.
  destruct (relink steps fuel (heap2, nodes2) (hd_or None R')) as [st'|]; simpl in *;
    [ | done ].
  destruct Hrec as (F' & [? ? ? ? ? ? ?]). exists F'. split; try done.
  - intros y Hy. apply rl_roots0 in Hy. rewrite lp_roots0 in Hy. rewrite Hroots1.
    apply elem_of_app in Hy as [Hy|Hy]; apply elem_of_app; [ left; by apply lp_sub0 | by right ].
  - lia.
  - intros j. by rewrite rl_payload0.
  - intros i. by rewrite rl_forest0.
  - intros Hc. by apply rl_clean0, lp_clean0.
Qed.

(** ** Extracting the minimum *)

Lemma promote_children_spec steps fuel : ∀ nodes F m K,
  heap_shape nodes F → m ∈ roots F → kids F m = K →
  length K ≤ steps → length nodes ≤ fuel →
  ∃ nodes' F',
    promote_children steps fuel nodes m (hd_or None K) = Some nodes'
    ∧ heap_shape nodes' F'
    ∧ roots F' = roots F ++ K
    ∧ kids F' m = []
    ∧ (∀ q, q ≠ m → kids F' q = kids F q)
    ∧ length nodes' = length nodes
    ∧ (∀ j, fld payload nodes' j = fld payload nodes j).
Proof.
  induction steps as [|steps IH]; intros nodes F m K HS Hm HK Hsteps Hfuel.
  { destruct K; [ | simpl in Hsteps; lia ]. simpl.
    exists nodes, F. split_and!; try done. by rewrite app_nil_r. }
  destruct K as [|t K'].
  { simpl. exists nodes, F. split_and!; try done. by rewrite app_nil_r. }
  cbn [hd_or promote_children].
  assert (HtK : t ∈ sibs F (Some m)) by (simpl; rewrite HK; constructor).
  pose proof (hs_nodup _ _ HS (Some m)) as Hnd. simpl in Hnd. rewrite HK in Hnd.
  apply NoDup_cons in Hnd as [HtK' Hnd'].
  destruct (hs_links _ _ HS (Some m) t HtK) as (Hpt & _ & Hrt). simpl in Hrt.
  rewrite HK in Hrt. simpl in Hrt. rewrite decide_True in Hrt by done.
  assert (Ht : is_Some (nodes !! t)).
  { apply lookup_lt_is_Some. by apply (hs_valid _ _ (Some m) _ HS). }
  destruct Ht as [tn Ht]. rewrite Ht. cbn [mbind option_bind].
  apply (fld_inj _ _ _ _ _ Ht) in Hpt as Hpt'. apply (fld_inj _ _ _ _ _ Ht) in Hrt as Hrt'.
  rewrite Hrt'.
  destruct (remove_shape nodes F t tn HS Ht) as (nodes1 & -> & HS1 & Hlen1 & Hp1 & Hpay1).
  { by rewrite Hpt'. }
  cbn [mbind option_bind]. rewrite Hpt' in HS1. simpl in HS1. rewrite HK in HS1.
  rewrite filter_cons_False in HS1 by (intros ?; done).
  rewrite (filter_ne_id K' t HtK') in HS1.
  set (F1 := set_sibs F (Some m) K') in *.
  assert (HtR : t ∉ roots F).
  { intros Hin. destruct (hs_links _ _ HS None t Hin) as (Hp' & _). congruence. }
  destruct (add_sibling_root_shape fuel nodes1 F1 m t HS1) as (nodes2 & -> & HS2 & Hlen2 & Hpay2);
    try done.
  { simpl. pose proof (shape_length_le nodes F None HS). simpl in *. lia. }
  cbn [mbind option_bind]. simpl in HS2.
  set (F2 := set_sibs F1 None (roots F ++ [t])) in *.
  destruct (IH nodes2 F2 m K' HS2) as (nodes' & F' & Hrun & HS' & Hr' & Hk' & Hq' & Hlen' & Hpay').
  { simpl. apply elem_of_app. by left. }
  { simpl. by rewrite decide_True. }
  { simpl in Hsteps. lia. }
  { lia. }
  exists nodes', F'. split_and!; try done.
  - rewrite Hr'. simpl. by rewrite <- app_assoc.
  - intros q Hq. rewrite (Hq' q Hq). simpl. by rewrite decide_False.
  - lia.
  - intros j. by rewrite Hpay', Hpay2.
Qed.

Lemma shape_clear_children nodes nodes' F m :
  heap_shape nodes F → kids F m = [] →
  store nodes m (set_children None) = Some nodes' →
  heap_shape nodes' F.
Proof.
  intros HS Hk Hst. destruct HS as [Hlinks Hnd Hcomp Hrank Hchild Hdet Hroot].
  constructor; try done.
  - intros par i Hi. rewrite !(store_fld_other _ _ _ _ _ _ Hst). by apply Hlinks.
  - intros i p. rewrite (store_fld_other _ _ _ _ _ _ Hst). apply Hcomp.
  - intros i r. rewrite (store_fld_other _ _ _ _ _ _ Hst). apply Hrank.
  - intros i c. rewrite (store_fld_same _ _ _ _ _ _ _ Hst). case_decide.
    + intros [= <-]. by subst.
    + apply Hchild.
  - intros i. rewrite !(store_fld_other _ _ _ _ _ _ Hst). apply Hdet.
  - intros i Hi. rewrite (store_length _ _ _ _ Hst) in Hi.
    apply (rooted_ext nodes); [ | by apply Hroot ].
    intros j. by rewrite (store_fld_other _ _ _ _ _ _ Hst).
Qed.

Lemma shape_drop_single_root nodes F m :
  heap_shape nodes F → roots F = [m] → heap_shape nodes (set_sibs F None []).
Proof.
  intros HS Hr. destruct HS as [Hlinks Hnd Hcomp Hrank Hchild Hdet Hroot].
  constructor; try done.
  - intros [p|] i Hi; simpl in Hi; [ by apply (Hlinks (Some p)) | by apply elem_of_nil in Hi ].
  - intros [p|]; simpl; [ apply (Hnd (Some p)) | apply NoDup_nil; done ].
  - intros i Hpi _. destruct (decide (i = m)) as [->|Hne].
    + destruct (Hlinks None m) as (_ & Hl & Hrr); [ simpl; rewrite Hr; constructor | ].
      simpl in Hl, Hrr. rewrite Hr in Hl, Hrr. simpl in Hl, Hrr.
      rewrite decide_True in Hl, Hrr by done. done.
    + apply Hdet; [ done | ]. rewrite Hr. intros Hin.
      apply list_elem_of_singleton in Hin. done.
Qed.

Lemma table_ok_empty F : table_ok F [] None (replicate max_rank None).
Proof.
  split; [ apply length_replicate | ].
  intros r y Hy. apply lookup_replicate in Hy as [? _]. done.
Qed.

Lemma remove_min_spec fuel heap nodes F m :
  heap_inv (heap, nodes) F → min_node heap = Some m → length nodes ≤ fuel →
  ok_or_big (remove_min fuel (heap, nodes)) (length nodes)
    (λ res, ∃ F', remove_min_post nodes F m F' res).
Proof.
  intros [HS Hclean Hmin] Hm Hfuel. simpl in HS, Hmin.
  unfold min_ok in Hmin. rewrite Hm in Hmin.
  unfold remove_min. rewrite Hm. cbn [mbind option_bind].
  assert (Hmv : m < length nodes) by (by apply (hs_valid _ _ None _ HS)).
  destruct (lookup_lt_is_Some_2 nodes m Hmv) as [mn Hmn].
  rewrite Hmn. cbn [mbind option_bind].
  (* the children of the minimum become roots *)
  assert (Hphase1 : ∃ nodes2 F1,
    match children mn with
    | Some c =>
        leftmost_sibling fuel nodes c
        ≫= λ temp, promote_children fuel fuel nodes m (Some temp)
        ≫= λ nodes, store nodes m (set_children None)
    | None => Some nodes
    end = Some nodes2
    ∧ heap_shape nodes2 F1
    ∧ roots F1 = roots F ++ kids F m
    ∧ kids F1 m = []
    ∧ (∀ q, q ≠ m → kids F1 q = kids F q)
    ∧ length nodes2 = length nodes
    ∧ (∀ j, fld payload nodes2 j = fld payload nodes j)).
  { pose proof (hs_children _ _ HS m (children mn) (fld_Some _ _ _ _ Hmn)) as Hch.
    destruct (children mn) as [c|].
    - rewrite (leftmost_sibling_shape nodes F (Some m) fuel c HS Hch).
      2: { pose proof (shape_length_le nodes F (Some m) HS). lia. }
      simpl. destruct (kids F m) as [|t K'] eqn:EK; [ by apply elem_of_nil in Hch | ].
      simpl.
      destruct (promote_children_spec fuel fuel nodes F m (t :: K') HS Hmin EK)
        as (nodes1 & F1 & Hrun & HS1 & Hr1 & Hk1 & Hq1 & Hlen1 & Hpay1).
      { pose proof (shape_length_le nodes F (Some m) HS) as Hl. simpl in Hl.
        rewrite EK in Hl. lia. }
      { done. }
      simpl in Hrun. rewrite Hrun. cbn [mbind option_bind].
      destruct (store_defined nodes1 m (set_children None)) as [nodes2 Hst]; [ lia | ].
      exists nodes2, F1. split_and!; try done.
      + by apply (shape_clear_children nodes1 nodes2 F1 m).
      + rewrite (store_length _ _ _ _ Hst). done.
      + intros j. by rewrite (store_fld_other _ _ _ _ _ _ Hst).
    - exists nodes, F. rewrite Hch. split_and!; try done. by rewrite app_nil_r. }
  destruct Hphase1 as (nodes2 & F1 & -> & HS1 & Hr1 & Hk1 & Hq1 & Hlen1 & Hpay1).
  cbn [mbind option_bind].
  assert (Hm1 : m ∈ roots F1) by (rewrite Hr1; apply elem_of_app; by left).
  assert (Hforest1 : ∀ i, in_forest F1 i ↔ in_forest F i).
  { intros i. unfold in_forest. rewrite Hr1. split.
    - intros [Hi|[p Hi]].
      + apply elem_of_app in Hi as [Hi|Hi]; [ by left | right; by exists m ].
      + destruct (decide (p = m)) as [->|Hp].
        * rewrite Hk1 in Hi. by apply elem_of_nil in Hi.
        * rewrite Hq1 in Hi by done. right. by exists p.
    - intros [Hi|[p Hi]].
      + left. apply elem_of_app. by left.
      + destruct (decide (p = m)) as [->|Hp].
        * left. apply elem_of_app. by right.
        * right. exists p. by rewrite Hq1. }
  assert (Hclean1 : clean_free F1).
  { intros i Hi. destruct (decide (i = m)) as [->|Hne]; [ done | ].
    rewrite Hq1 by done. apply Hclean. by rewrite <- Hforest1. }
  rewrite (leftmost_sibling_shape nodes2 F1 None fuel m HS1 Hm1).
  2: { pose proof (shape_length_le nodes2 F1 None HS1). lia. }
  simpl. destruct (roots F1) as [|h L] eqn:ER; [ by apply elem_of_nil in Hm1 | ].
  simpl.
  assert (Hm1s : m ∈ sibs F1 None) by (simpl; by rewrite ER).
  destruct (lookup_lt_is_Some_2 nodes2 m) as [mn2 Hmn2]; [ lia | ].
  rewrite Hmn2. cbn [mbind option_bind].
  pose proof (hs_nodup _ _ HS1 None) as Hnd. simpl in Hnd. rewrite ER in Hnd.
  assert (Hrest : ∃ rest,
    (if bool_decide (h = m) then right_sibling mn2 else Some h) = rest
    ∧ rest = hd_or None (filter (λ y, y ≠ m) (h :: L))).
  { eexists. split; [ done | ].
    destruct (hs_links _ _ HS1 None m Hm1s) as (_ & _ & Hr). simpl in Hr.
    rewrite ER in Hr. apply (fld_inj _ _ _ _ _ Hmn2) in Hr.
    case_bool_decide as Hhm.
    - subst h. rewrite Hr. simpl. rewrite decide_True by done.
      rewrite filter_cons_False by (intros ?; done).
      apply NoDup_cons in Hnd as [HmL _]. by rewrite (filter_ne_id L m HmL).
    - rewrite filter_cons_True by done. done. }
  destruct Hrest as (rest & -> & Hrest).
  destruct rest as [temp|].
  - (* other roots remain: unlink the minimum and walk the roots *)
    assert (Hmn2p : parent mn2 = None).
    { destruct (hs_links _ _ HS1 None m Hm1s) as (Hp & _).
      by apply (fld_inj _ _ _ _ _ Hmn2) in Hp. }
    destruct (remove_shape nodes2 F1 m mn2 HS1 Hmn2) as (nodes3 & -> & HS3 & Hlen3 & Hp3 & Hpay3).
    { by rewrite Hmn2p. }
    cbn [mbind option_bind]. rewrite Hmn2p in HS3. simpl in HS3. rewrite ER in HS3.
    set (F3 := set_sibs F1 None (filter (λ y, y ≠ m) (h :: L))) in *.
    pose proof (relink_spec fuel fuel (mkHeap (Some temp) (replicate max_rank None))
                  nodes3 F3 [] (filter (λ y, y ≠ m) (h :: L)) temp HS3) as Hrl.
    rewrite <- Hrest in Hrl.
    assert (Hpost : ok_or_big
              (relink fuel fuel (mkHeap (Some temp) (replicate max_rank None), nodes3)
                      (Some temp)) (length nodes3)
              (λ st', ∃ F', relink_post nodes3 F3 F' st')).
    { apply Hrl; try done.
      - apply table_ok_empty.
      - by right.
      - intros y Hy. by apply elem_of_nil in Hy.
      - transitivity (length (h :: L)); [ apply length_filter | ].
        pose proof (shape_length_le nodes2 F1 None HS1) as Hl. simpl in Hl.
        rewrite ER in Hl. lia.
      - lia. }
    rewrite Hlen3, Hlen1 in Hpost.
    destruct (relink fuel fuel _ (Some temp)) as [st'|]; cbn [mbind option_bind];
      simpl in *; [ | done ].
    destruct Hpost as (F' & [? ? ? ? ? ? ?]).
    assert (Hforest3 : ∀ i, in_forest F3 i ↔ in_forest F1 i ∧ i ≠ m).
    { intros i. unfold in_forest, F3. simpl. rewrite ER. split.
      - intros [Hi|[p Hi]].
        + apply list_elem_of_filter in Hi as [? ?]. split; [ by left | done ].
        + split; [ right; by exists p | ].
          intros ->. destruct (hs_links _ _ HS1 (Some p) m Hi) as (Hp' & _).
          destruct (hs_links _ _ HS1 None m Hm1s) as (Hp'' & _). congruence.
      - intros [[Hi|[p Hi]] Hne].
        + left. by apply list_elem_of_filter.
        + right. by exists p. }
    exists F'. split; simpl; try done.
    + split; simpl; try done.
      apply rl_clean0. intros i Hi. rewrite Hforest3 in Hi.
      unfold F3. simpl.
      destruct (decide (i = m)) as [->|Hne]; [ done | ].
      apply Hclean1. tauto.
    + intros i. rewrite rl_forest0, Hforest3, Hforest1. done.
    + lia.
    + intros j. by rewrite rl_payload0, Hpay3.
  - (* the minimum was the only root *)
    simpl.
    assert (HL : h = m ∧ L = []).
    { destruct (decide (h = m)) as [->|Hne].
      - rewrite filter_cons_False in Hrest by (intros ?; done).
        apply NoDup_cons in Hnd as [HmL _]. rewrite (filter_ne_id L m HmL) in Hrest.
        destruct L; done.
      - rewrite filter_cons_True in Hrest by done. done. }
    destruct HL as [-> ->].
    exists (set_sibs F1 None []). split; simpl; try done.
    + split; simpl.
      * by apply (shape_drop_single_root nodes2 F1 m).
      * intros i Hi. simpl. destruct (decide (i = m)) as [->|Hne]; [ done | ].
        apply Hclean1. intros [Hin|[p Hin]].
        -- rewrite ER in Hin. apply list_elem_of_singleton in Hin. done.
        -- apply Hi. right. by exists p.
      * done.
    + intros i. rewrite <- Hforest1. unfold in_forest. simpl. rewrite ER. split.
      * intros [Hi|[p Hi]]; [ by apply elem_of_nil in Hi | ].
        split; [ right; by exists p | ].
        intros ->. destruct (hs_links _ _ HS1 (Some p) m Hi) as (Hp' & _).
        destruct (hs_links _ _ HS1 None m Hm1s) as (Hp'' & _). congruence.
      * intros [[Hi|[p Hi]] Hne].
        -- apply list_elem_of_singleton in Hi. done.
        -- right. by exists p.
Qed.

(** ** Insertion and decrease on a well-formed heap *)

Lemma insert_node_spec fuel heap nodes F x :
  heap_inv (heap, nodes) F → x < length nodes → ¬ in_forest F x →
  length nodes ≤ fuel →
  ∃ st' F', insert_node fuel (heap, nodes) x = Some st'
    ∧ heap_inv st' F'
    ∧ (∀ i, in_forest F' i ↔ in_forest F i ∨ i = x)
    ∧ length st'.2 = length nodes
    ∧ (∀ j, fld payload st'.2 j = fld payload nodes j).
Proof.
  intros [HS Hclean Hmin] Hx Hnf Hfuel. simpl in *.
  assert (Hxr : x ∉ roots F) by (intros ?; apply Hnf; by left).
  pose proof (shape_member_parent nodes F x HS Hx Hnf) as Hpx.
  destruct (insert_node_shape fuel heap nodes F x HS Hmin Hpx Hxr Hfuel)
    as (heap' & nodes' & Hrun & HS' & Hmin' & _ & Hlen & Hpay).
  exists (heap', nodes'), (set_sibs F None (roots F ++ [x])).
  assert (Hforest : ∀ i, in_forest (set_sibs F None (roots F ++ [x])) i
                         ↔ in_forest F i ∨ i = x).
  { intros i. unfold in_forest. simpl. rewrite elem_of_app, list_elem_of_singleton. tauto. }
  split_and!; try done.
  split; simpl; try done.
  intros i Hi. rewrite Hforest in Hi. simpl. apply Hclean. tauto.
Qed.

Lemma decrease_val_spec fuel heap nodes F x newval :
  heap_inv (heap, nodes) F → x < length nodes → length nodes ≤ fuel →
  ∃ st' F', decrease_val fuel (heap, nodes) x newval = Some st'
    ∧ heap_inv st' F'
    ∧ (∀ i, in_forest F' i ↔ in_forest F i)
    ∧ length st'.2 = length nodes
    ∧ (∀ j, fld index st'.2 j = fld index nodes j)
    ∧ (∀ j, fld state st'.2 j = fld state nodes j)
    ∧ (∀ j, fld val st'.2 j = if decide (j = x) then Some newval else fld val nodes j).
Proof.
  intros [HS Hclean Hmin] Hx Hfuel. simpl in *. unfold decrease_val.
  destruct (store_defined nodes x (set_val newval)) as [nodes1 Hst]; [ done | ].
  rewrite Hst. cbn [mbind option_bind].
  pose proof (store_length _ _ _ _ Hst) as Hlen1.
  assert (HS1 : heap_shape nodes1 F).
  { apply (heap_shape_ext nodes); [ | done ]. by eapply store_same_links; [ .. | exact Hst ]. }
  destruct (lookup_lt_is_Some_2 nodes1 x) as [n Hn]; [ lia | ].
  rewrite Hn. cbn [mbind option_bind].
  assert (Hbase : heap_inv (heap, nodes1) F
    ∧ (∀ i, in_forest F i ↔ in_forest F i)
    ∧ length nodes1 = length nodes
    ∧ (∀ j, fld index nodes1 j = fld index nodes j)
    ∧ (∀ j, fld state nodes1 j = fld state nodes j)
    ∧ (∀ j, fld val nodes1 j = if decide (j = x) then Some newval else fld val nodes j)).
  { split_and!; try done.
    - intros j. by rewrite (store_fld_other _ _ _ _ _ _ Hst).
    - intros j. by rewrite (store_fld_other _ _ _ _ _ _ Hst).
    - intros j. by rewrite (store_fld_same _ _ _ _ _ _ _ Hst). }
  destruct (parent n) as [p|] eqn:Ep; [ | by exists (heap, nodes1), F ].
  assert (Hpx : fld parent nodes1 x = Some (Some p)).
  { rewrite (fld_Some _ _ _ _ Hn). by rewrite Ep. }
  pose proof (hs_parent_valid _ _ _ _ HS1 Hpx) as Hpv.
  destruct (lookup_lt_is_Some_2 nodes1 p Hpv) as [pn Hpn].
  rewrite Hpn. cbn [mbind option_bind].
  case_bool_decide; [ | by exists (heap, nodes1), F ].
  pose proof (hs_complete _ _ HS1 x p Hpx) as HxK.
  destruct (remove_shape nodes1 F x n HS1 Hn) as (nodes2 & -> & HS2 & Hlen2 & Hp2 & Hpay2).
  { by rewrite Ep. }
  cbn [mbind option_bind]. rewrite Ep in HS2. simpl in HS2.
  set (F1 := set_sibs F (Some p) (filter (λ y, y ≠ x) (kids F p))) in *.
  assert (HxR : x ∉ roots F).
  { intros Hin. destruct (hs_links _ _ HS1 None x Hin) as (Hp' & _). congruence. }
  destruct (insert_node_shape fuel heap nodes2 F1 x HS2) as
    (heap' & nodes' & Hrun & HS' & Hmin' & _ & Hlen' & Hpay'); try done.
  { lia. }
  unfold insert_node in Hrun. rewrite Hrun. simpl in HS', Hmin'.
  set (F2 := set_sibs F1 None (roots F ++ [x])) in *.
  assert (Hforest : ∀ i, in_forest F2 i ↔ in_forest F i).
  { intros i. unfold in_forest, F2, F1. simpl. split.
    - intros [Hi|[q Hi]].
      + apply elem_of_app in Hi as [Hi|Hi]; [ by left | ].
        apply list_elem_of_singleton in Hi as ->. right. by exists p.
      + case_decide.
        * subst q. apply list_elem_of_filter in Hi as [_ Hi]. right. by exists p.
        * right. by exists q.
    - intros [Hi|[q Hi]].
      + left. apply elem_of_app. by left.
      + destruct (decide (i = x)) as [->|Hne].
        * left. apply elem_of_app. right. constructor.
        * right. exists q. case_decide; [ subst; by apply list_elem_of_filter | done ]. }
  exists (heap', nodes'), F2. destruct Hbase as (_ & _ & Hl & Hi & Hs & Hv).
  split_and!; try done.
  - split; simpl; try done.
    intros i Hif. rewrite Hforest in Hif. unfold F2, F1. simpl.
    case_decide; [ subst; by rewrite (Hclean p Hif) | by apply Hclean ].
  - simpl. lia.
  - intros j. simpl. rewrite (fld_payload_index nodes2 nodes') by done.
    rewrite (fld_payload_index nodes1 nodes2) by done. done.
  - intros j. simpl. rewrite (fld_payload_state nodes2 nodes') by done.
    rewrite (fld_payload_state nodes1 nodes2) by done. done.
  - intros j. simpl. rewrite (fld_payload_val nodes2 nodes') by done.
    rewrite (fld_payload_val nodes1 nodes2) by done. done.
Qed.

#[local] Arguments insert_node : simpl never.
#[local] Arguments decrease_val : simpl never.
#[local] Arguments remove_min : simpl never.
#[local] Arguments relax_edges : simpl never.
#[local] Arguments relax_edge : simpl never.
#[local] Arguments write_cell : simpl never.

Lemma mget_mset_eq {A} (d : A) (g : matrix A) i j v r :
  g !! i = Some r → j < length r → mget d (mset g i j v) i j = v.
Proof.
  intros Hr Hj. unfold mget, mset. rewrite list_lookup_alter_eq, Hr. simpl.
  by rewrite list_lookup_insert_eq.
Qed.

Lemma mget_mset_ne {A} (d : A) (g : matrix A) i j v i' j' :
  i ≠ i' ∨ j ≠ j' → mget d (mset g i j v) i' j' = mget d g i' j'.
Proof.
  intros Hne. unfold mget, mset. destruct (decide (i = i')) as [->|Hi].
  - rewrite list_lookup_alter_eq. destruct (g !! i') as [r|]; simpl; [ | done ].
    rewrite list_lookup_insert_ne; [ done | ]. destruct Hne; congruence.
  - by rewrite list_lookup_alter_ne.
Qed.

Lemma mset_row_length {A} (g : matrix A) i j v i' :
  length <$> mset g i j v !! i' = length <$> g !! i'.
Proof.
  unfold mset. destruct (decide (i = i')) as [->|Hi].
  - rewrite list_lookup_alter_eq. destruct (g !! i'); simpl; [ | done ].
    by rewrite length_insert.
  - by rewrite list_lookup_alter_ne.
Qed.

Lemma fld_state_set_state nodes a s nodes' j :
  store nodes a (set_state s) = Some nodes' →
  fld state nodes' j = if decide (j = a) then Some s else fld state nodes j.
Proof. intros H. by rewrite (store_fld_same _ _ _ _ _ _ _ H). Qed.

Lemma relax_edge_spec E s fuel neighbors distances v heap nodes F k :
  search_inv E s (heap, nodes) F →
  fld state nodes v = Some 2 → rtc E s v →
  (∀ nb, neighbors !! k = Some nb → E v nb) →
  length nodes ≤ fuel →
  match relax_edge fuel neighbors distances v (heap, nodes) k with
  | Some st' =>
      ∃ F', search_inv E s st' F'
        ∧ length st'.2 = length nodes
        ∧ (∀ j, fld state st'.2 j = Some 2 ↔ fld state nodes j = Some 2)
  | None =>
      ¬ ∃ nb, neighbors !! k = Some nb ∧ nb < length nodes
              ∧ is_Some (distances !! k)
  end.
Proof.
  intros [Hheap Hidx Hst Hreach] Hv Hrv HE Hfuel. simpl in *.
  unfold relax_edge.
  destruct (neighbors !! k) as [nb|] eqn:Enb; cbn [mbind option_bind].
  2: { intros (nb & ? & _). done. }
  destruct (nodes !! nb) as [cn|] eqn:Ecn; cbn [mbind option_bind].
  2: { intros (nb' & [= <-] & Hlt & _). apply lookup_ge_None in Ecn. lia. }
  pose proof (lookup_lt_Some _ _ _ Ecn) as Hnbv.
  assert (Hsame : ∃ F', search_inv E s (heap, nodes) F'
        ∧ length nodes = length nodes
        ∧ (∀ j, fld state nodes j = Some 2 ↔ fld state nodes j = Some 2)).
  { exists F. split_and!; done. }
  case_bool_decide as Hs2; [ | done ].
  destruct (distances !! k) as [dist|] eqn:Ed; cbn [mbind option_bind].
  2: { intros (nb' & _ & _ & [? ?]). done. }
  assert (Hvv : v < length nodes) by (apply (fld_is_Some state); rewrite Hv; eauto).
  destruct (lookup_lt_is_Some_2 nodes v Hvv) as [vn Hvn].
  rewrite Hvn. cbn [mbind option_bind].
  case_bool_decide as Hs0.
  - (* NOT_IN_HEAP: the neighbour enters the heap *)
    destruct (store_defined nodes nb (set_state 1)) as [nodes1 Hst1]; [ done | ].
    rewrite Hst1. cbn [mbind option_bind].
    pose proof (store_length _ _ _ _ Hst1) as Hlen1.
    destruct (lookup_lt_is_Some_2 nodes1 v) as [vn1 Hvn1]; [ lia | ].
    rewrite Hvn1. cbn [mbind option_bind].
    destruct (store_defined nodes1 nb (set_val (f64_add (val vn1) dist))) as [nodes2 Hst2]; [ lia | ].
    rewrite Hst2. cbn [mbind option_bind].
    pose proof (store_length _ _ _ _ Hst2) as Hlen2.
    assert (Hinv2 : heap_inv (heap, nodes2) F).
    { destruct Hheap as [HS Hc Hm]. split; simpl; try done.
      apply (heap_shape_ext nodes1).
      { by eapply store_same_links; [ .. | exact Hst2 ]. }
      apply (heap_shape_ext nodes); [ | done ].
      by eapply store_same_links; [ .. | exact Hst1 ]. }
    assert (Hnf : ¬ in_forest F nb).
    { rewrite Hst. rewrite (fld_Some _ _ _ _ Ecn). congruence. }
    destruct (insert_node_spec fuel heap nodes2 F nb Hinv2) as
      (st' & F' & -> & Hinv' & Hforest' & Hlen' & Hpay'); [ lia | done | lia | ].
    assert (Hstate' : ∀ j, fld state st'.2 j
                           = if decide (j = nb) then Some 1 else fld state nodes j).
    { intros j. rewrite (fld_payload_state nodes2 st'.2) by done.
      rewrite (store_fld_other _ _ _ _ _ _ Hst2).
      by rewrite (fld_state_set_state _ _ _ _ _ Hst1). }
    exists F'. split_and!.
    + split; try done.
      * intros i Hi. rewrite (fld_payload_index nodes2 st'.2) by done.
        rewrite (store_fld_other _ _ _ _ _ _ Hst2), (store_fld_other _ _ _ _ _ _ Hst1).
        apply Hidx. lia.
      * intros i. rewrite Hforest', Hstate', Hst. case_decide as Hin.
        -- split; [ done | intros _; by right ].
        -- split; [ by intros [?|?] | by left ].
      * intros i st0. rewrite Hstate'. case_decide.
        -- subst. intros _ _. eapply rtc_r; [ exact Hrv | by apply HE ].
        -- apply Hreach.
    + lia.
    + intros j. rewrite Hstate'. case_decide; [ | done ]. subst.
      rewrite (fld_Some _ _ _ _ Ecn). split; congruence.
  - case_bool_decide; [ | done ].
    destruct (decrease_val_spec fuel heap nodes F nb (f64_add (val vn) dist) Hheap Hnbv Hfuel)
      as (st' & F' & -> & Hinv' & Hforest' & Hlen' & Hidx' & Hstate' & Hval').
    exists F'. split_and!; try done.
    + split; try done.
      * intros i Hi. rewrite Hidx'. apply Hidx. lia.
      * intros i. by rewrite Hforest', Hstate'.
      * intros i st0. rewrite Hstate'. apply Hreach.
    + intros j. by rewrite Hstate'.
Qed.

Lemma for_each_relax_edge E s fuel neighbors distances v nodes0 lo hi l : ∀ st,
  (∀ k, k ∈ l → lo ≤ k < hi) →
  (∀ k nb, lo ≤ k < hi → neighbors !! k = Some nb → E v nb) →
  scan_inv E s nodes0 st →
  fld state nodes0 v = Some 2 → rtc E s v → length nodes0 ≤ fuel →
  match for_each (relax_edge fuel neighbors distances v) l st with
  | Some st' => scan_inv E s nodes0 st'
  | None =>
      ¬ ∀ k, lo ≤ k < hi →
          ∃ nb, neighbors !! k = Some nb ∧ nb < length nodes0
                ∧ is_Some (distances !! k)
  end.
Proof.
  induction l as [|k l IH]; intros [heap nodes] Hl HE (F & Hinv & Hlen & Hsc) Hv Hrv Hfuel.
  { simpl. by exists F. }
  simpl in Hlen, Hsc. cbn [for_each].
  assert (Hk : lo ≤ k < hi) by (apply Hl; constructor).
  pose proof (relax_edge_spec E s fuel neighbors distances v heap nodes F k Hinv) as Hstep.
  destruct (relax_edge fuel neighbors distances v (heap, nodes) k) as [st'|];
    cbn [mbind option_bind].
  - destruct Hstep as (F' & Hinv' & Hlen' & Hsc'); try done.
    { by apply Hsc. }
    { intros nb. by apply HE. }
    { lia. }
    apply IH; try done.
    + intros k' Hk'. apply Hl. by constructor.
    + exists F'. split_and!; [ done | lia | ]. intros j. by rewrite Hsc'.
  - intros Hall. apply Hstep; try done.
    + by apply Hsc.
    + intros nb. by apply HE.
    + lia.
    + rewrite Hlen. by apply Hall.
Qed.

Lemma relax_edges_spec E s fuel neighbors distances indptr v nodes0 st :
  (∀ u w, edge_of neighbors indptr u w → E u w) →
  scan_inv E s nodes0 st →
  fld state nodes0 v = Some 2 → rtc E s v → length nodes0 ≤ fuel →
  match relax_edges fuel neighbors distances indptr v st with
  | Some st' => scan_inv E s nodes0 st'
  | None => ¬ row_ok neighbors distances indptr (length nodes0) v
  end.
Proof.
  intros HE Hinv Hv Hrv Hfuel. unfold relax_edges.
  destruct Hinv as (F & Hinv & Hlen & Hsc).
  assert (Hvv : v < length st.2).
  { apply (fld_is_Some state). destruct (Hsc v) as [_ ->]; eauto. }
  destruct (lookup_lt_is_Some_2 _ _ Hvv) as [vn Hvn].
  rewrite Hvn. cbn [mbind option_bind].
  assert (Hiv : index vn = v).
  { apply (fld_inj _ _ _ _ _ Hvn). by apply (si_index _ _ _ _ Hinv). }
  rewrite Hiv.
  destruct (indptr !! v) as [lo|] eqn:Elo; cbn [mbind option_bind].
  2: { intros (lo & hi & ? & _). congruence. }
  destruct (indptr !! S v) as [hi|] eqn:Ehi; cbn [mbind option_bind].
  2: { intros (lo' & hi & _ & ? & _). congruence. }
  unfold for_range.
  pose proof (for_each_relax_edge E s fuel neighbors distances v nodes0 lo hi
                (seq lo (hi - lo)) st) as Hloop.
  destruct (for_each _ (seq lo (hi - lo)) st) as [st'|].
  - apply Hloop; try done.
    + intros k Hk. apply elem_of_seq in Hk. lia.
    + intros k nb Hk Hnb. apply HE. by exists lo, hi, k.
    + by exists F.
  - intros (lo' & hi' & Hlo' & Hhi' & Hall).
    assert (lo' = lo) as -> by congruence. assert (hi' = hi) as -> by congruence.
    apply Hloop; try done.
    + intros k Hk. apply elem_of_seq in Hk. lia.
    + intros k nb Hk Hnb. apply HE. by exists lo, hi, k.
    + by exists F.
Qed.

Lemma search_loop_inv E s st F : search_inv E s st F → loop_inv E s st F.
Proof.
  intros Hinv. unfold loop_inv. destruct (min_node st.1) as [m|] eqn:Em; [ | done ].
  destruct Hinv as [Hheap Hidx Hst Hreach].
  assert (Hs1 : fld state st.2 m = Some 1).
  { apply Hst. destruct Hheap as [_ _ Hmin]. unfold min_ok in Hmin.
    rewrite Em in Hmin. by left. }
  split; try done.
  - intros i k _. apply Hreach.
  - split; [ congruence | ]. by apply (Hreach m 1).
Qed.

Lemma extract_spec E s fuel heap nodes F m :
  start_inv E s (heap, nodes) F m → min_node heap = Some m → length nodes ≤ fuel →
  ok_or_big (remove_min fuel (heap, nodes)) (length nodes)
    (λ '(v, (heap', nodes1)), v = m
       ∧ ∃ nodes2, store nodes1 v (set_state 2) = Some nodes2
           ∧ scan_inv E s nodes2 (heap', nodes2)
           ∧ length nodes2 = length nodes
           ∧ (m < length nodes ∧ fld state nodes m ≠ Some 2)
           ∧ fld state nodes2 m = Some 2
           ∧ rtc E s m
           ∧ (∀ j, j ≠ m → fld state nodes2 j = fld state nodes j)).
Proof.
  intros [Hheap Hidx Hst Hreach [Hn2 Hrm0]] Hm Hfuel. simpl in *.
  pose proof (remove_min_spec fuel heap nodes F m Hheap Hm Hfuel) as Hrm.
  destruct (remove_min fuel (heap, nodes)) as [[v [heap' nodes']]|]; [ | done ].
  simpl in Hrm. destruct Hrm as (F' & [Hout Hinv' Hforest' Hlen' Hpay']). simpl in *.
  subst v. split; [ done | ].
  assert (Hmv0 : m < length nodes).
  { destruct Hheap as [HS _ Hmin]. simpl in *. unfold min_ok in Hmin.
    rewrite Hm in Hmin. by apply (hs_valid _ _ None _ HS). }
  assert (Hmv : m < length nodes') by lia.
  destruct (store_defined nodes' m (set_state 2)) as [nodes2 Hst2]; [ done | ].
  exists nodes2. split; [ done | ].
  pose proof (store_length _ _ _ _ Hst2) as Hlen2.
  assert (Hstate2 : ∀ j, fld state nodes2 j
                         = if decide (j = m) then Some 2 else fld state nodes j).
  { intros j. rewrite (fld_state_set_state _ _ _ _ _ Hst2).
    case_decide; [ done | ]. by apply fld_payload_state. }
  split_and!; try done.
  - exists F'. split_and!; try done.
    split; simpl.
    + destruct Hinv' as [HS Hc Hmin]. split; simpl in *; try done.
      apply (heap_shape_ext nodes'); [ | done ].
      by eapply store_same_links; [ .. | exact Hst2 ].
    + intros i Hi. rewrite (store_fld_other _ _ _ _ _ _ Hst2).
      rewrite (fld_payload_index nodes nodes') by done. apply Hidx. lia.
    + intros i. rewrite Hforest', Hstate2. case_decide as Him.
      * subst. split; [ by intros [_ ?] | done ].
      * rewrite (Hst i Him). split; [ by intros [? _] | done ].
    + intros i k. rewrite Hstate2. case_decide.
      * subst. intros _ _. done.
      * by apply Hreach.
  - lia.
  - rewrite Hstate2. by rewrite decide_True.
  - intros j Hj. rewrite Hstate2. by rewrite decide_False.
Qed.

(** The result cell of the scanned node is written. *)
Lemma write_cell_spec E i_node graph v x N :
  graph_inv E graph → rtc E i_node v → v < N →
  match write_cell graph i_node v x with
  | Some graph' =>
      graph_inv E graph' ∧ length graph' = length graph
      ∧ (∀ i, length <$> graph' !! i = length <$> graph !! i)
  | None => ¬ row_ready graph i_node N
  end.
Proof.
  intros HG Hr Hv. unfold write_cell.
  destruct (graph !! i_node) as [r|] eqn:Er; cbn [mbind option_bind].
  2: { intros (row & ? & _). congruence. }
  destruct (r !! v) as [c|] eqn:Ec; cbn [mbind option_bind].
  2: { intros (row & Hrow & Hlen). apply lookup_ge_None in Ec.
       assert (row = r) as -> by congruence. lia. }
  split_and!.
  - intros i j. destruct (decide (i_node = i ∧ v = j)) as [[<- <-]|Hne].
    + done.
    + rewrite mget_mset_ne; [ apply HG | ].
      destruct (decide (i_node = i)); [ right | left ]; tauto.
  - unfold mset. by rewrite length_alter.
  - intros i. apply mset_row_length.
Qed.

Lemma not_scanned_shrink (U : list nat) m nodes nodes2 nodes3 :
  (∀ j, j < length nodes → fld state nodes j ≠ Some 2 → j ∈ U) →
  length nodes3 = length nodes →
  fld state nodes2 m = Some 2 →
  (∀ j, j ≠ m → fld state nodes2 j = fld state nodes j) →
  (∀ j, fld state nodes3 j = Some 2 ↔ fld state nodes2 j = Some 2) →
  ∀ j, j < length nodes3 → fld state nodes3 j ≠ Some 2 →
       j ∈ filter (λ y, y ≠ m) U.
Proof.
  intros HU Hlen Hm Hother Hsc j Hj Hns.
  assert (Hjm : j ≠ m).
  { intros ->. apply Hns. by apply Hsc. }
  apply list_elem_of_filter. split; [ done | ].
  apply HU; [ lia | ]. rewrite <- Hother by done. intros H2. apply Hns. by apply Hsc.
Qed.

Lemma directed_loop_spec E fuel i_node neighbors distances indptr steps :
  ∀ graph heap nodes F U,
  loop_inv E i_node (heap, nodes) F →
  (∀ u w, edge_of neighbors indptr u w → E u w) →
  graph_inv E graph →
  (∀ j, j < length nodes → fld state nodes j ≠ Some 2 → j ∈ U) →
  length U ≤ steps → length nodes ≤ fuel →
  match directed_loop steps fuel i_node neighbors distances indptr
                      (graph, (heap, nodes)) with
  | Some res => loop_post E i_node graph nodes res
  | None =>
      max_rank < length nodes
      ∨ ¬ (rows_ok neighbors distances indptr (length nodes)
           ∧ row_ready graph i_node (length nodes))
  end.
Proof.
  induction steps as [|steps IH]; intros graph heap nodes F U Hinv HE HG HU Hsteps Hfuel.
  - cbn [directed_loop]. unfold loop_inv in Hinv. simpl in Hinv.
    destruct (min_node heap) as [m|] eqn:Em.
    + exfalso. destruct U; [ | simpl in Hsteps; lia ].
      destruct Hinv as [[HS _ Hmin] _ _ _ [Hn2 _]]. simpl in *.
      unfold min_ok in Hmin. rewrite Em in Hmin.
      apply (elem_of_nil m). apply HU; [ | done ].
      by apply (hs_valid _ _ None _ HS).
    + split_and!; simpl; try done. by exists F.
  - cbn [directed_loop]. unfold loop_inv in Hinv. simpl in Hinv.
    destruct (min_node heap) as [m|] eqn:Em.
    2: { split_and!; simpl; try done. by exists F. }
    pose proof (extract_spec E i_node fuel heap nodes F m Hinv Em Hfuel) as Hex.
    destruct (remove_min fuel (heap, nodes)) as [[v [heap1 nodes1]]|];
      cbn [mbind option_bind]; [ | by left ].
    simpl in Hex.
    destruct Hex as (-> & nodes2 & -> & Hscan & Hlen2 & [Hmv Hs1] & Hs2 & Hrm & Hother).
    cbn [mbind option_bind].
    pose proof (relax_edges_spec E i_node fuel neighbors distances indptr m nodes2
                  (heap1, nodes2) HE Hscan Hs2 Hrm) as Hrel.
    destruct (relax_edges fuel neighbors distances indptr m (heap1, nodes2))
      as [[heap3 nodes3]|]; cbn [mbind option_bind].
    2: { right. intros [Hrows _]. apply Hrel; [ lia | ]. rewrite Hlen2. by apply Hrows. }
    destruct Hrel as (F3 & Hinv3 & Hlen3 & Hsc3); [ lia | ]. simpl in Hlen3, Hsc3.
    assert (Hmv3 : m < length nodes3) by lia.
    destruct (lookup_lt_is_Some_2 nodes3 m Hmv3) as [vn Hvn].
    simpl. rewrite Hvn. cbn [mbind option_bind].
    assert (Hiv : index vn = m).
    { apply (fld_inj _ _ _ _ _ Hvn). by apply (si_index _ _ _ _ Hinv3). }
    rewrite Hiv.
    pose proof (write_cell_spec E i_node graph m (val vn) (length nodes) HG Hrm Hmv) as Hw.
    destruct (write_cell graph i_node m (val vn)) as [graph'|]; cbn [mbind option_bind].
    2: { right. intros [_ Hready]. by apply Hw. }
    destruct Hw as (HG' & Hglen & Hrows).
    specialize (IH graph' heap3 nodes3 F3 (filter (λ y, y ≠ m) U)
                  (search_loop_inv _ _ _ _ Hinv3) HE HG').
    assert (HmU : m ∈ U).
    { by apply HU. }
    pose proof (length_filter_lt (λ y, y ≠ m) U m HmU) as Hlt.
    destruct (directed_loop steps fuel i_node neighbors distances indptr
                (graph', (heap3, nodes3))) as [res|].
    + destruct IH as (HF & Hmin & HGr & Hlr & Hlg & Hrr).
      * eapply not_scanned_shrink; eauto. lia.
      * assert (length (filter (λ y, y ≠ m) U) < length U) by (apply Hlt; tauto). lia.
      * lia.
      * split_and!; try done; try lia.
        intros i. by rewrite Hrr.
    + destruct IH as [Hbig|Hbad].
      * eapply not_scanned_shrink; eauto. lia.
      * assert (length (filter (λ y, y ≠ m) U) < length U) by (apply Hlt; tauto). lia.
      * lia.
      * left. lia.
      * right. intros [Hrows' Hready]. apply Hbad. split.
        -- by rewrite Hlen3, Hlen2.
        -- destruct Hready as (row & Hrow & Hrl). unfold row_ready.
           pose proof (Hrows i_node) as Hri. rewrite Hrow in Hri. simpl in Hri.
           destruct (graph' !! i_node) as [row'|]; [ | done ].
           exists row'. split; [ done | ]. simpl in Hri. injection Hri as Hri. lia.
Qed.

Lemma undirected_loop_spec E fuel i_node
    neighbors1 distances1 indptr1 neighbors2 distances2 indptr2 steps :
  ∀ graph heap nodes F U,
  loop_inv E i_node (heap, nodes) F →
  (∀ u w, edge_of neighbors1 indptr1 u w → E u w) →
  (∀ u w, edge_of neighbors2 indptr2 u w → E u w) →
  graph_inv E graph →
  (∀ j, j < length nodes → fld state nodes j ≠ Some 2 → j ∈ U) →
  length U ≤ steps → length nodes ≤ fuel →
  match undirected_loop steps fuel i_node neighbors1 distances1 indptr1
                        neighbors2 distances2 indptr2 (graph, (heap, nodes)) with
  | Some res => loop_post E i_node graph nodes res
  | None =>
      max_rank < length nodes
      ∨ ¬ (rows_ok neighbors1 distances1 indptr1 (length nodes)
           ∧ rows_ok neighbors2 distances2 indptr2 (length nodes)
           ∧ row_ready graph i_node (length nodes))
  end.
Proof.
  induction steps as [|steps IH];
    intros graph heap nodes F U Hinv HE1 HE2 HG HU Hsteps Hfuel.
  - cbn [undirected_loop]. unfold loop_inv in Hinv. simpl in Hinv.
    destruct (min_node heap) as [m|] eqn:Em.
    + exfalso. destruct U; [ | simpl in Hsteps; lia ].
      destruct Hinv as [[HS _ Hmin] _ _ _ [Hn2 _]]. simpl in *.
      unfold min_ok in Hmin. rewrite Em in Hmin.
      apply (elem_of_nil m). apply HU; [ | done ].
      by apply (hs_valid _ _ None _ HS).
    + split_and!; simpl; try done. by exists F.
  - cbn [undirected_loop]. unfold loop_inv in Hinv. simpl in Hinv.
    destruct (min_node heap) as [m|] eqn:Em.
    2: { split_and!; simpl; try done. by exists F. }
    pose proof (extract_spec E i_node fuel heap nodes F m Hinv Em Hfuel) as Hex.
    destruct (remove_min fuel (heap, nodes)) as [[v [heap1 nodes1]]|];
      cbn [mbind option_bind]; [ | by left ].
    simpl in Hex.
    destruct Hex as (-> & nodes2 & -> & Hscan & Hlen2 & [Hmv Hs1] & Hs2 & Hrm & Hother).
    cbn [mbind option_bind].
    pose proof (relax_edges_spec E i_node fuel neighbors1 distances1 indptr1 m nodes2
                  (heap1, nodes2) HE1 Hscan Hs2 Hrm) as Hrel.
    destruct (relax_edges fuel neighbors1 distances1 indptr1 m (heap1, nodes2))
      as [st2|]; cbn [mbind option_bind].
    2: { right. intros (Hrows & _ & _). apply Hrel; [ lia | ]. rewrite Hlen2. by apply Hrows. }
    assert (Hscan2 : scan_inv E i_node nodes2 st2) by (apply Hrel; lia).
    clear Hrel.
    pose proof (relax_edges_spec E i_node fuel neighbors2 distances2 indptr2 m nodes2
                  st2 HE2 Hscan2 Hs2 Hrm) as Hrel.
    destruct (relax_edges fuel neighbors2 distances2 indptr2 m st2)
      as [[heap3 nodes3]|]; cbn [mbind option_bind].
    2: { right. intros (_ & Hrows & _). apply Hrel; [ lia | ]. rewrite Hlen2. by apply Hrows. }
    destruct Hrel as (F3 & Hinv3 & Hlen3 & Hsc3); [ lia | ]. simpl in Hlen3, Hsc3.
    assert (Hmv3 : m < length nodes3) by lia.
    destruct (lookup_lt_is_Some_2 nodes3 m Hmv3) as [vn Hvn].
    simpl. rewrite Hvn. cbn [mbind option_bind].
    assert (Hiv : index vn = m).
    { apply (fld_inj _ _ _ _ _ Hvn). by apply (si_index _ _ _ _ Hinv3). }
    rewrite Hiv.
    pose proof (write_cell_spec E i_node graph m (val vn) (length nodes) HG Hrm Hmv) as Hw.
    destruct (write_cell graph i_node m (val vn)) as [graph'|]; cbn [mbind option_bind].
    2: { right. intros (_ & _ & Hready). by apply Hw. }
    destruct Hw as (HG' & Hglen & Hrows).
    specialize (IH graph' heap3 nodes3 F3 (filter (λ y, y ≠ m) U)
                  (search_loop_inv _ _ _ _ Hinv3) HE1 HE2 HG').
    assert (HmU : m ∈ U).
    { by apply HU. }
    pose proof (length_filter_lt (λ y, y ≠ m) U m HmU) as Hlt.
    destruct (undirected_loop steps fuel i_node neighbors1 distances1 indptr1
                neighbors2 distances2 indptr2 (graph', (heap3, nodes3))) as [res|].
    + destruct IH as (HF & Hmin & HGr & Hlr & Hlg & Hrr).
      * eapply not_scanned_shrink; eauto. lia.
      * assert (length (filter (λ y, y ≠ m) U) < length U) by (apply Hlt; tauto). lia.
      * lia.
      * split_and!; try done; try lia.
        intros i. by rewrite Hrr.
    + destruct IH as [Hbig|Hbad].
      * eapply not_scanned_shrink; eauto. lia.
      * assert (length (filter (λ y, y ≠ m) U) < length U) by (apply Hlt; tauto). lia.
      * lia.
      * left. lia.
      * right. intros (Hrows1 & Hrows2 & Hready). apply Hbad. split_and!.
        -- by rewrite Hlen3, Hlen2.
        -- by rewrite Hlen3, Hlen2.
        -- destruct Hready as (row & Hrow & Hrl). unfold row_ready.
           pose proof (Hrows i_node) as Hri. rewrite Hrow in Hri. simpl in Hri.
           destruct (graph' !! i_node) as [row'|]; [ | done ].
           exists row'. split; [ done | ]. simpl in Hri. injection Hri as Hri. lia.
Qed.

(** ** Clean node arrays *)

Lemma clean_heap_inv heap nodes :
  all_clean nodes → min_node heap = None → heap_inv (heap, nodes) empty_forest.
Proof.
  intros Hc Hm. split; simpl.
  - split.
    + intros [p|] i Hi; simpl in Hi; by apply elem_of_nil in Hi.
    + intros [p|]; simpl; apply NoDup_nil; done.
    + intros i p Hp. unfold fld in Hp.
      destruct (nodes !! i) as [n|] eqn:En; [ | done ].
      destruct (Hc i n En) as (_ & _ & Hpn & _). simpl in Hp. congruence.
    + intros i r Hr. unfold fld in Hr.
      destruct (nodes !! i) as [n|] eqn:En; [ | done ].
      destruct (Hc i n En) as (_ & Hrk & _). simpl in Hr. injection Hr as <-.
      by rewrite Hrk.
    + intros i c Hci. unfold fld in Hci.
      destruct (nodes !! i) as [n|] eqn:En; [ | done ].
      destruct (Hc i n En) as (_ & _ & _ & _ & _ & Hch). simpl in Hci.
      injection Hci as <-. by rewrite Hch.
    + intros i Hp _. unfold fld in *.
      destruct (nodes !! i) as [n|] eqn:En; [ | done ].
      destruct (Hc i n En) as (_ & _ & _ & Hl & Hr & _). simpl. by rewrite Hl, Hr.
    + intros i Hi. apply rooted_root. unfold fld.
      destruct (lookup_lt_is_Some_2 nodes i Hi) as [n Hn]. rewrite Hn. simpl.
      destruct (Hc i n Hn) as (_ & _ & Hpn & _). by rewrite Hpn.
  - intros i _. done.
  - unfold min_ok. by rewrite Hm.
Qed.

(** When the heap has emptied every node is clean again. *)
Lemma empty_heap_clean heap nodes F :
  heap_inv (heap, nodes) F → min_node heap = None →
  (∀ i, i < length nodes → fld index nodes i = Some i) →
  all_clean nodes.
Proof.
  intros [HS Hclean Hmin] Hm Hidx. simpl in *. unfold min_ok in Hmin.
  rewrite Hm in Hmin.
  assert (Hkids : ∀ i, rooted nodes i → kids F i = []).
  { intros i Hr. induction Hr as [i Hi|i p Hi Hp IH].
    - apply Hclean. intros [Hin|[q Hin]].
      + rewrite Hmin in Hin. by apply elem_of_nil in Hin.
      + destruct (hs_links _ _ HS (Some q) i Hin) as (Hp' & _). congruence.
    - pose proof (hs_complete _ _ HS i p Hi) as Hin. rewrite IH in Hin.
      by apply elem_of_nil in Hin. }
  intros i n Hn. pose proof (lookup_lt_Some _ _ _ Hn) as Hi.
  pose proof (Hkids i (hs_rooted _ _ HS i Hi)) as Hk.
  assert (Hpar : parent n = None).
  { destruct (parent n) as [p|] eqn:Ep; [ | done ].
    assert (Hin : i ∈ kids F p).
    { apply (hs_complete _ _ HS). rewrite (fld_Some _ _ _ _ Hn). by rewrite Ep. }
    assert (Hpv : p < length nodes).
    { apply (hs_parent_valid nodes F i p HS). rewrite (fld_Some _ _ _ _ Hn). by rewrite Ep. }
    rewrite (Hkids p (hs_rooted _ _ HS p Hpv)) in Hin. by apply elem_of_nil in Hin. }
  destruct (hs_detached _ _ HS i) as [Hl Hr].
  { rewrite (fld_Some _ _ _ _ Hn). by rewrite Hpar. }
  { rewrite Hmin. apply not_elem_of_nil. }
  split_and!.
  - apply (fld_inj _ _ _ _ _ Hn). by apply Hidx.
  - rewrite (hs_rank _ _ HS i (rank n) (fld_Some _ _ _ _ Hn)). by rewrite Hk.
  - done.
  - by apply (fld_inj _ _ _ _ _ Hn) in Hl.
  - by apply (fld_inj _ _ _ _ _ Hn) in Hr.
  - pose proof (hs_children _ _ HS i (children n) (fld_Some _ _ _ _ Hn)) as Hc.
    destruct (children n) as [c|]; [ | done ]. rewrite Hk in Hc. by apply elem_of_nil in Hc.
Qed.

#[local] Arguments insert_node : simpl never.

(** ** Resetting the node array *)

Lemma for_each_store_spec (body : arena → nat → option arena)
    (f : nat → FibonacciNode → FibonacciNode) :
  (∀ nodes i, body nodes i = store nodes i (f i)) →
  ∀ l nodes, NoDup l → (∀ i, i ∈ l → i < length nodes) →
  ∃ nodes', for_each body l nodes = Some nodes'
    ∧ length nodes' = length nodes
    ∧ ∀ i, nodes' !! i = (λ n, if decide (i ∈ l) then f i n else n) <$> nodes !! i.
Proof.
  intros Hbody. induction l as [|a l IH]; intros nodes Hnd Hl.
  - exists nodes. split_and!; try done. intros i.
    destruct (nodes !! i) as [n|]; [ | done ].
    cbn [fmap option_fmap option_map].
    destruct (decide (i ∈ [])) as [Hd|_]; [ by apply elem_of_nil in Hd | done ].
  - apply NoDup_cons in Hnd as [Ha Hnd].
    assert (Hav : a < length nodes) by (apply Hl; by left).
    destruct (store_defined nodes a (f a) Hav) as [nodes1 H1].
    cbn [for_each]. rewrite Hbody, H1. cbn [mbind option_bind].
    pose proof (store_length _ _ _ _ H1) as Hlen1.
    destruct (IH nodes1 Hnd) as (nodes' & Hrun & Hlen & Hget).
    { intros i Hi. rewrite Hlen1. apply Hl. by right. }
    exists nodes'. split_and!; [ done | lia | ].
    intros i. rewrite Hget.
    apply store_Some in H1 as (n & Hn & ->).
    destruct (decide (i = a)) as [->|Hia].
    + rewrite list_lookup_insert_eq by done. rewrite Hn. simpl.
      rewrite decide_False by done. rewrite decide_True; [ done | by left ].
    + rewrite list_lookup_insert_ne by done.
      destruct (nodes !! i) as [ni|]; simpl; [ | done ].
      destruct (decide (i ∈ l)) as [Hil|Hil].
      * rewrite decide_True; [ done | by right ].
      * rewrite decide_False; [ done | ].
        intros [?|?]%elem_of_cons; done.
Qed.

Lemma reset_node_store nodes i :
  reset_node nodes i = store nodes i (λ n, set_val 0 (set_state 0 n)).
Proof.
  unfold reset_node, store. destruct (nodes !! i) as [n|] eqn:En; simpl; [ | done ].
  pose proof (lookup_lt_Some _ _ _ En).
  rewrite list_lookup_insert_eq by done. simpl. by rewrite list_insert_insert_eq.
Qed.

Lemma for_range_store_spec (body : arena → nat → option arena)
    (f : nat → FibonacciNode → FibonacciNode) N nodes :
  (∀ nodes i, body nodes i = store nodes i (f i)) →
  N ≤ length nodes →
  ∃ nodes', for_range 0 N body nodes = Some nodes'
    ∧ length nodes' = length nodes
    ∧ ∀ i, nodes' !! i = (λ n, if decide (i < N) then f i n else n) <$> nodes !! i.
Proof.
  intros Hbody HN. unfold for_range.
  destruct (for_each_store_spec body f Hbody (seq 0 (N - 0)) nodes)
    as (nodes' & Hrun & Hlen & Hget).
  { apply NoDup_seq. }
  { intros i [_ Hi]%elem_of_seq. lia. }
  exists nodes'. split_and!; try done.
  intros i. rewrite Hget. destruct (nodes !! i) as [n|]; simpl; [ | done ].
  destruct (decide (i < N)) as [Hi|Hi].
  - rewrite decide_True; [ done | apply elem_of_seq; lia ].
  - rewrite decide_False; [ done | rewrite elem_of_seq; lia ].
Qed.

Lemma clean_node_reset i n :
  clean_node i n → set_val 0 (set_state 0 n) = fresh_node i 0.
Proof.
  destruct n as [ix rk st v p l r c]. unfold clean_node. simpl.
  intros (-> & -> & -> & -> & -> & ->). reflexivity.
Qed.

(** On a clean array the abbreviated reset is the full initialisation. *)
Lemma reset_is_initialize N nodes :
  all_clean nodes → N ≤ length nodes →
  for_range 0 N reset_node nodes
  = for_range 0 N (λ nodes i, initialize_node nodes i i 0) nodes
  ∧ is_Some (for_range 0 N reset_node nodes).
Proof.
  intros Hc HN.
  destruct (for_range_store_spec reset_node (λ _ n, set_val 0 (set_state 0 n)) N nodes)
    as (nodes1 & Hrun1 & Hlen1 & Hget1); [ apply reset_node_store | done | ].
  destruct (for_range_store_spec (λ nodes i, initialize_node nodes i i 0)
              (λ i _, fresh_node i 0) N nodes)
    as (nodes2 & Hrun2 & Hlen2 & Hget2); [ done | done | ].
  rewrite Hrun1, Hrun2. split; [ | eauto ]. f_equal.
  apply list_eq. intros i. rewrite Hget1, Hget2.
  destruct (nodes !! i) as [n|] eqn:En; simpl; [ | done ].
  case_decide; [ | done ]. f_equal. apply clean_node_reset. by apply Hc.
Qed.

Lemma initial_nodes_clean N : all_clean (initial_nodes N).
Proof.
  intros i n Hn. unfold initial_nodes in Hn.
  apply list_lookup_fmap_Some in Hn as (j & -> & Hj).
  apply lookup_seq in Hj as [-> _]. by repeat split.
Qed.

Lemma length_initial_nodes N : length (initial_nodes N) = N.
Proof. unfold initial_nodes. by rewrite length_map, length_seq. Qed.

Lemma reset_nodes_spec nodes :
  all_clean nodes →
  ∃ nodes', for_range 0 (length nodes) reset_node nodes = Some nodes'
    ∧ length nodes' = length nodes ∧ all_reset nodes'.
Proof.
  intros Hc.
  destruct (for_range_store_spec reset_node (λ _ n, set_val 0 (set_state 0 n))
              (length nodes) nodes)
    as (nodes1 & Hrun1 & Hlen1 & Hget1); [ apply reset_node_store | done | ].
  exists nodes1. split; [ done | ]. split; [ done | ]. split.
  - intros i n Hn. rewrite Hget1 in Hn.
    destruct (nodes !! i) as [n0|] eqn:En; simpl in Hn; [ | done ].
    injection Hn as <-. pose proof (Hc i n0 En) as Hcn.
    case_decide; [ | done ]. rewrite (clean_node_reset i n0 Hcn). by repeat split.
  - intros i Hi. unfold fld. rewrite Hget1.
    destruct (lookup_lt_is_Some_2 nodes i) as [n0 En]; [ lia | ].
    rewrite En. simpl. rewrite decide_True by lia. done.
Qed.

Lemma initialize_nodes_spec nodes :
  ∃ nodes', for_range 0 (length nodes) (λ nodes i, initialize_node nodes i i 0) nodes
            = Some nodes'
    ∧ length nodes' = length nodes ∧ all_reset nodes'.
Proof.
  destruct (for_range_store_spec (λ nodes i, initialize_node nodes i i 0)
              (λ i _, fresh_node i 0) (length nodes) nodes)
    as (nodes2 & Hrun2 & Hlen2 & Hget2); [ done | done | ].
  exists nodes2. split; [ done | ]. split; [ done | ]. split.
  - intros i n Hn. rewrite Hget2 in Hn.
    destruct (nodes !! i) as [n0|] eqn:En; simpl in Hn; [ | done ].
    injection Hn as <-. pose proof (lookup_lt_Some _ _ _ En).
    rewrite decide_True by lia. by repeat split.
  - intros i Hi. unfold fld. rewrite Hget2.
    destruct (lookup_lt_is_Some_2 nodes i) as [n0 En]; [ lia | ].
    rewrite En. simpl. rewrite decide_True by lia. done.
Qed.

(** ** One search *)

Lemma not_in_empty_forest i : ¬ in_forest empty_forest i.
Proof. intros [Hin|[p Hin]]; simpl in Hin; by apply elem_of_nil in Hin. Qed.

Lemma start_from_reset E fuel s heap nodes :
  all_reset nodes → min_node heap = None → s < length nodes → length nodes ≤ fuel →
  insert_node fuel (heap, nodes) s = Some (set_min_node (Some s) heap, nodes)
  ∧ ∃ F, loop_inv E s (set_min_node (Some s) heap, nodes) F.
Proof.
  intros [Hc Hst] Hm Hs Hfuel.
  assert (Hrun : insert_node fuel (heap, nodes) s
                 = Some (set_min_node (Some s) heap, nodes)).
  { unfold insert_node. by rewrite Hm. }
  split; [ done | ].
  pose proof (clean_heap_inv heap nodes Hc Hm) as Hinv.
  pose proof (not_in_empty_forest s) as Hnf.
  destruct (insert_node_spec fuel heap nodes empty_forest s Hinv Hs Hnf Hfuel)
    as (st' & F' & Hrun' & Hinv' & Hforest & _ & _).
  rewrite Hrun in Hrun'. injection Hrun' as <-.
  exists F'. unfold loop_inv. simpl. split; simpl.
  - done.
  - intros i Hi. destruct (lookup_lt_is_Some_2 nodes i Hi) as [n Hn].
    rewrite (fld_Some _ _ _ _ Hn). f_equal. by destruct (Hc i n Hn) as [? _].
  - intros i Hi. rewrite Hforest. split.
    + intros [Hin| ->]; [ | done ]. by apply not_in_empty_forest in Hin.
    + intros H1. exfalso.
      assert (Hiv : i < length nodes) by (apply (fld_is_Some state); rewrite H1; eauto).
      rewrite (Hst i Hiv) in H1. done.
  - intros i k Hi Hk Hk0. exfalso.
    assert (Hiv : i < length nodes) by (apply (fld_is_Some state); rewrite Hk; eauto).
    rewrite (Hst i Hiv) in Hk. congruence.
  - split; [ | done ]. rewrite (Hst s Hs). done.
Qed.

Lemma loop_post_row_post E i_node graph nodes0 nodes res :
  length nodes = length nodes0 →
  loop_post E i_node graph nodes res → row_post E graph nodes0 res.
Proof.
  intros Hlen ((F & Hinv) & Hmin & HG & Hl & Hlg & Hrows).
  destruct res as [graph' [heap' nodes']]. simpl in *.
  split_and!; simpl; try done; [ | lia ].
  destruct Hinv as [Hheap Hidx _ _]. simpl in *.
  by apply (empty_heap_clean heap' nodes' F).
Qed.

Lemma all_in_seq (nodes : arena) :
  ∀ j, j < length nodes → fld state nodes j ≠ Some 2 → j ∈ seq 0 (length nodes).
Proof. intros j Hj _. apply elem_of_seq. lia. Qed.

Lemma _dijkstra_one_row_spec E fuel i_node n1 d1 p1 n2 d2 p2 graph heap nodes :
  (∀ u w, edge_of n1 p1 u w → E u w) → (∀ u w, edge_of n2 p2 u w → E u w) →
  graph_inv E graph → all_clean nodes → min_node heap = None →
  length nodes = ncols graph → i_node < length nodes → length nodes ≤ fuel →
  match _dijkstra_one_row fuel i_node n1 d1 p1 n2 d2 p2 (graph, (heap, nodes)) with
  | Some res => row_post E graph nodes res
  | None =>
      max_rank < length nodes
      ∨ ¬ (rows_ok n1 d1 p1 (length nodes) ∧ rows_ok n2 d2 p2 (length nodes)
           ∧ row_ready graph i_node (length nodes))
  end.
Proof.
  intros HE1 HE2 HG Hc Hm Hlen Hs Hfuel. unfold _dijkstra_one_row.
  rewrite <- Hlen.
  destruct (reset_nodes_spec nodes Hc) as (nodes_r & Hrun & Hlen_r & Hreset).
  rewrite Hrun. cbn [mbind option_bind].
  destruct (start_from_reset E fuel i_node heap nodes_r Hreset Hm) as [Hins [F HF]];
    [ lia | lia | ].
  rewrite Hins. cbn [mbind option_bind].
  pose proof (undirected_loop_spec E fuel i_node n1 d1 p1 n2 d2 p2 fuel graph
                (set_min_node (Some i_node) heap) nodes_r F (seq 0 (length nodes_r))
                HF HE1 HE2 HG (all_in_seq nodes_r)) as Hloop.
  rewrite length_seq in Hloop.
  destruct (undirected_loop fuel fuel i_node n1 d1 p1 n2 d2 p2
              (graph, (set_min_node (Some i_node) heap, nodes_r))) as [res|].
  - apply (loop_post_row_post E i_node graph nodes nodes_r res Hlen_r).
    apply Hloop; lia.
  - rewrite <- Hlen_r. apply Hloop; lia.
Qed.

Lemma _dijkstra_directed_one_row_spec E fuel i_node n1 d1 p1 graph heap nodes :
  (∀ u w, edge_of n1 p1 u w → E u w) →
  graph_inv E graph →
  length nodes = ncols graph → i_node < length nodes → length nodes ≤ fuel →
  match _dijkstra_directed_one_row fuel i_node n1 d1 p1 (graph, (heap, nodes)) with
  | Some res => row_post E graph nodes res
  | None =>
      max_rank < length nodes
      ∨ ¬ (rows_ok n1 d1 p1 (length nodes) ∧ row_ready graph i_node (length nodes))
  end.
Proof.
  intros HE1 HG Hlen Hs Hfuel. unfold _dijkstra_directed_one_row.
  rewrite <- Hlen.
  destruct (initialize_nodes_spec nodes) as (nodes_r & Hrun & Hlen_r & Hreset).
  rewrite Hrun. cbn [mbind option_bind].
  destruct (start_from_reset E fuel i_node (set_min_node None heap) nodes_r Hreset)
    as [Hins [F HF]]; [ done | lia | lia | ].
  rewrite Hins. cbn [mbind option_bind].
  pose proof (directed_loop_spec E fuel i_node n1 d1 p1 fuel graph
                (set_min_node (Some i_node) (set_min_node None heap)) nodes_r F
                (seq 0 (length nodes_r)) HF HE1 HG (all_in_seq nodes_r)) as Hloop.
  rewrite length_seq in Hloop.
  destruct (directed_loop fuel fuel i_node n1 d1 p1
              (graph, (set_min_node (Some i_node) (set_min_node None heap), nodes_r)))
    as [res|].
  - apply (loop_post_row_post E i_node graph nodes nodes_r res Hlen_r).
    apply Hloop; lia.
  - rewrite <- Hlen_r. apply Hloop; lia.
Qed.

(** ** The searches of one call *)

Lemma ncols_ext (g g' : matrix Z) :
  (∀ i, length <$> g !! i = length <$> g' !! i) → ncols g = ncols g'.
Proof.
  intros H. specialize (H 0). destruct g as [|r g], g' as [|r' g']; simpl in *;
    congruence.
Qed.

Lemma row_ready_ext (g g' : matrix Z) i N :
  (∀ i, length <$> g !! i = length <$> g' !! i) →
  row_ready g' i N → row_ready g i N.
Proof.
  intros H (row & Hrow & Hlen). specialize (H i). rewrite Hrow in H. simpl in H.
  unfold row_ready. destruct (g !! i) as [r|]; [ | done ].
  exists r. split; [ done | ]. simpl in H. congruence.
Qed.

Lemma search_rows_spec E fuel dist_matrix directed N graph0 :
  (∀ u v, graph_edges dist_matrix directed u v → E u v) →
  ncols graph0 = N → N ≤ fuel →
  ∀ compute_ind s,
  rows_inv E N graph0 s →
  (∀ i, i ∈ compute_ind → i < N) →
  match search_rows fuel dist_matrix directed compute_ind s with
  | Some res => rows_inv E N graph0 res
  | None =>
      max_rank < N
      ∨ ¬ (inputs_ok dist_matrix directed N
           ∧ ∀ i, i ∈ compute_ind → row_ready graph0 i N)
  end.
Proof.
  intros HE HN Hfuel compute_ind. unfold search_rows.
  assert (HE1 : ∀ u v, edge_of (indices dist_matrix) (indptr dist_matrix) u v → E u v).
  { intros u v Huv. apply HE. by left. }
  destruct directed.
  - induction compute_ind as [|a l IH]; intros s Hinv Hl; [ done | ].
    cbn [for_each]. destruct s as [graph [heap nodes]].
    destruct Hinv as (Hmin & Hc & HG & Hlen & Hrows).
    simpl in Hmin, Hc, HG, Hlen, Hrows.
    assert (Ha : a < N) by (apply Hl; by left).
    pose proof (_dijkstra_directed_one_row_spec E fuel a (indices dist_matrix)
                  (data dist_matrix) (indptr dist_matrix) graph heap nodes HE1 HG)
      as Hrow.
    rewrite Hlen, (ncols_ext _ _ Hrows), HN in Hrow.
    specialize (Hrow eq_refl Ha Hfuel).
    destruct (_dijkstra_directed_one_row fuel a (indices dist_matrix)
                (data dist_matrix) (indptr dist_matrix) (graph, (heap, nodes)))
      as [res|]; cbn [mbind option_bind].
    + destruct Hrow as (Hmin' & Hc' & HG' & Hlen' & _ & Hrows').
      assert (Hinv' : rows_inv E N graph0 res).
      { unfold rows_inv. split_and!; [ done | done | done | congruence | ].
        intros i. by rewrite Hrows'. }
      specialize (IH res Hinv').
      destruct (for_each _ l res) as [res'|].
      * apply IH. intros i Hi. apply Hl. by right.
      * destruct IH as [Hbig|Hbad].
        -- intros i Hi. apply Hl. by right.
        -- by left.
        -- right. intros [Hin Hready]. apply Hbad. split; [ done | ].
           intros i Hi. apply Hready. by right.
    + destruct Hrow as [Hbig|Hbad]; [ by left | ].
      right. intros [[Hin _] Hready]. apply Hbad. split; [ done | ].
      apply (row_ready_ext _ graph0); [ done | ]. apply Hready. by left.
  - assert (HE2 : ∀ u v, edge_of (indices (transpose_csr dist_matrix))
                           (indptr (transpose_csr dist_matrix)) u v → E u v).
    { intros u v Huv. apply HE. by right. }
    cbn zeta.
    induction compute_ind as [|a l IH]; intros s Hinv Hl; [ done | ].
    cbn [for_each]. destruct s as [graph [heap nodes]].
    destruct Hinv as (Hmin & Hc & HG & Hlen & Hrows).
    simpl in Hmin, Hc, HG, Hlen, Hrows.
    assert (Ha : a < N) by (apply Hl; by left).
    pose proof (_dijkstra_one_row_spec E fuel a (indices dist_matrix)
                  (data dist_matrix) (indptr dist_matrix)
                  (indices (transpose_csr dist_matrix))
                  (data (transpose_csr dist_matrix))
                  (indptr (transpose_csr dist_matrix)) graph heap nodes
                  HE1 HE2 HG Hc Hmin)
      as Hrow.
    rewrite Hlen, (ncols_ext _ _ Hrows), HN in Hrow.
    specialize (Hrow eq_refl Ha Hfuel).
    destruct (_dijkstra_one_row fuel a (indices dist_matrix)
                (data dist_matrix) (indptr dist_matrix)
                (indices (transpose_csr dist_matrix))
                (data (transpose_csr dist_matrix))
                (indptr (transpose_csr dist_matrix)) (graph, (heap, nodes)))
      as [res|]; cbn [mbind option_bind].
    + destruct Hrow as (Hmin' & Hc' & HG' & Hlen' & _ & Hrows').
      assert (Hinv' : rows_inv E N graph0 res).
      { unfold rows_inv. split_and!; [ done | done | done | congruence | ].
        intros i. by rewrite Hrows'. }
      specialize (IH res Hinv').
      destruct (for_each _ l res) as [res'|].
      * apply IH. intros i Hi. apply Hl. by right.
      * destruct IH as [Hbig|Hbad].
        -- intros i Hi. apply Hl. by right.
        -- by left.
        -- right. intros [Hin Hready]. apply Hbad. split; [ done | ].
           intros i Hi. apply Hready. by right.
    + destruct Hrow as [Hbig|Hbad]; [ by left | ].
      right. intros [[Hin1 Hin2] Hready]. apply Hbad. split_and!; [ done | by apply Hin2 | ].
      apply (row_ready_ext _ graph0); [ done | ]. apply Hready. by left.
Qed.

(** ** Reachability in the dense algorithm *)

Lemma mget_mset_cases {A} (d : A) (g : matrix A) i j v i' j' :
  mget d (mset g i j v) i' j' = mget d g i' j'
  ∨ (i' = i ∧ j' = j ∧ mget d (mset g i j v) i' j' = v).
Proof.
  unfold mget, mset. destruct (decide (i' = i)) as [->|Hi].
  - rewrite list_lookup_alter_eq. destruct (g !! i) as [r|]; simpl; [ | by left ].
    destruct (decide (j' = j)) as [->|Hj].
    + destruct (decide (j < length r)) as [Hlt|Hge].
      * right. by rewrite list_lookup_insert_eq.
      * left. by rewrite list_insert_ge by lia.
    + left. by rewrite list_lookup_insert_ne.
  - left. by rewrite list_lookup_alter_ne.
Qed.

Lemma mset_reach_inv E g i j v :
  reach_inv E g → (v ≠ Inf → rtc E i j) → reach_inv E (mset g i j v).
Proof.
  intros Hinv Hv i' j' Hfin.
  destruct (mget_mset_cases Inf g i j v i' j') as [Heq|(-> & -> & Heq)].
  - apply Hinv. by rewrite <- Heq.
  - apply Hv. by rewrite <- Heq.
Qed.

Lemma foldl_preserves {A B} (P : A → Prop) (f : A → B → A) (l : list B) :
  (∀ a x, P a → P (f a x)) → ∀ a, P a → P (foldl f a l).
Proof.
  intros Hf. induction l as [|x l IH]; intros a Ha; simpl; [ done | ].
  apply IH. by apply Hf.
Qed.

Lemma rtc_symmetric_of (E : relation nat) :
  (∀ x y, E x y → E y x) → ∀ x y, rtc E x y → rtc E y x.
Proof.
  intros Hsym x y H. induction H as [x|x y z Hxy _ IH]; [ done | ].
  eapply rtc_r; [ exact IH | by apply Hsym ].
Qed.

Lemma edge_symmetric graph x y : edge graph false x y → edge graph false y x.
Proof. intros [H|[_ H]]; [ right | left ]; done. Qed.

Lemma mget_zeros_to_inf graph i j :
  mget Inf (zeros_to_inf graph) i j ≠ Inf → mget 0%Z graph i j ≠ 0%Z.
Proof.
  unfold mget, zeros_to_inf. rewrite list_lookup_fmap.
  destruct (graph !! i) as [r|]; simpl; [ | done ].
  rewrite list_lookup_fmap. destruct (r !! j) as [z|]; simpl; [ | done ].
  case_bool_decide; done.
Qed.

Lemma mget_inf_to_zeros g i j :
  mget 0%Z (inf_to_zeros g) i j ≠ 0%Z → mget Inf g i j ≠ Inf.
Proof.
  unfold mget, inf_to_zeros. rewrite list_lookup_fmap.
  destruct (g !! i) as [r|]; simpl; [ | done ].
  rewrite list_lookup_fmap. destruct (r !! j) as [[z|]|]; simpl; done.
Qed.

Lemma dadd_finite a b : dadd a b ≠ Inf → a ≠ Inf ∧ b ≠ Inf.
Proof. destruct a, b; simpl; done. Qed.

Lemma zero_diagonal_inv E N g : reach_inv E g → reach_inv E (zero_diagonal N g).
Proof.
  unfold zero_diagonal. apply (foldl_preserves (reach_inv E)).
  intros a x Ha. apply mset_reach_inv; [ done | ]. intros _. apply rtc_refl.
Qed.

Lemma symmetrize_inv E N g :
  (∀ x y, E x y → E y x) → reach_inv E g → reach_inv E (symmetrize N g).
Proof.
  intros Hsym. unfold symmetrize. apply (foldl_preserves (reach_inv E)).
  intros a i Ha. unfold symmetrize_row. revert a Ha.
  apply (foldl_preserves (reach_inv E)).
  intros a j Ha. unfold symmetrize_cell.
  destruct (dleb (mget Inf a j i) (mget Inf a i j)).
  - apply mset_reach_inv; [ done | ]. intros Hfin.
    apply (rtc_symmetric_of E Hsym). by apply Ha.
  - apply mset_reach_inv; [ done | ]. intros Hfin.
    apply (rtc_symmetric_of E Hsym). by apply Ha.
Qed.

Lemma relax_all_inv E N g : reach_inv E g → reach_inv E (relax_all N g).
Proof.
  unfold relax_all. apply (foldl_preserves (reach_inv E)).
  intros a k Ha. unfold relax_through. revert a Ha.
  apply (foldl_preserves (reach_inv E)).
  intros a i Ha. unfold relax_row.
  destruct (isinf (mget Inf a i k)); [ done | ]. revert a Ha.
  apply (foldl_preserves (reach_inv E)).
  intros a j Ha. unfold relax_cell. cbn zeta.
  destruct (dltb (dadd (mget Inf a i k) (mget Inf a k j)) (mget Inf a i j)); [ | done ].
  apply mset_reach_inv; [ done | ]. intros [Hik Hkj]%dadd_finite.
  etrans; [ by apply Ha | by apply Ha ].
Qed.

(** A nonzero cell of the dense result joins reachable vertices. *)
Lemma _floyd_warshall_reachable graph directed i j :
  mget 0%Z (_floyd_warshall graph directed) i j ≠ 0%Z → reachable graph directed i j.
Proof.
  unfold _floyd_warshall. cbn zeta. intros H%mget_inf_to_zeros. revert i j H.
  change (reach_inv (edge graph directed)
            (relax_all (nrows graph)
               (if directed then zero_diagonal (nrows graph) (zeros_to_inf graph)
                else symmetrize (nrows graph)
                       (zero_diagonal (nrows graph) (zeros_to_inf graph))))).
  apply relax_all_inv.
  assert (H0 : reach_inv (edge graph directed)
                 (zero_diagonal (nrows graph) (zeros_to_inf graph))).
  { apply zero_diagonal_inv. intros i j Hfin%mget_zeros_to_inf.
    apply rtc_once. by left. }
  destruct directed; [ done | ].
  apply symmetrize_inv; [ apply edge_symmetric | done ].
Qed.

(** ** The compressed rows of a dense matrix *)

Lemma row_pointers_head start lens : row_pointers start lens !! 0 = Some start.
Proof. by destruct lens. Qed.

Lemma row_pointers_length start lens :
  length (row_pointers start lens) = S (length lens).
Proof.
  revert start. induction lens as [|n lens IH]; intros start; simpl; [ done | ].
  by rewrite IH.
Qed.

(** Row [u] of the concatenation starts at the offset its pointer gives. *)
Lemma row_pointers_concat {A} (rows : list (list A)) : ∀ start u row,
  rows !! u = Some row →
  ∃ off, row_pointers start (map length rows) !! u = Some (start + off)
    ∧ row_pointers start (map length rows) !! S u = Some (start + off + length row)
    ∧ ∀ k, k < length row → concat rows !! (off + k) = row !! k.
Proof.
  induction rows as [|r rows IH]; intros start u row Hu; [ done | ].
  destruct u as [|u]; simpl in Hu.
  - injection Hu as ->. exists 0. simpl. split_and!.
    + f_equal. lia.
    + rewrite row_pointers_head. f_equal. lia.
    + intros k Hk. by rewrite lookup_app_l.
  - destruct (IH (start + length r) u row Hu) as (off & H1 & H2 & H3).
    exists (length r + off). simpl. split_and!.
    + rewrite H1. f_equal. lia.
    + simpl in H2. rewrite H2. f_equal. lia.
    + intros k Hk. rewrite lookup_app_r by lia.
      replace (length r + off + k - length r) with (off + k) by lia. by apply H3.
Qed.

(** What the triple of [of_rows] stores for row [u]. *)
Lemma of_rows_row sh (rows : list (list (nat * Z))) u row :
  rows !! u = Some row →
  ∃ lo, indptr (of_rows sh rows) !! u = Some lo
    ∧ indptr (of_rows sh rows) !! S u = Some (lo + length row)
    ∧ ∀ k, k < length row →
        indices (of_rows sh rows) !! (lo + k) = fst <$> row !! k
        ∧ data (of_rows sh rows) !! (lo + k) = snd <$> row !! k.
Proof.
  intros Hu. unfold of_rows. simpl.
  assert (Hf : map (map fst) rows !! u = Some (map fst row)).
  { change (map (map fst) rows) with (fmap (M := list) (map fst) rows).
    by rewrite list_lookup_fmap, Hu. }
  assert (Hs : map (map snd) rows !! u = Some (map snd row)).
  { change (map (map snd) rows) with (fmap (M := list) (map snd) rows).
    by rewrite list_lookup_fmap, Hu. }
  destruct (row_pointers_concat (map (map fst) rows) 0 u _ Hf) as (off & H1 & H2 & H3).
  destruct (row_pointers_concat (map (map snd) rows) 0 u _ Hs) as (off' & H1' & H2' & H3').
  assert (Hl1 : map length (map (map fst) rows) = map length rows).
  { rewrite map_map. apply map_ext. intros l. apply length_map. }
  assert (Hl2 : map length (map (map snd) rows) = map length rows).
  { rewrite map_map. apply map_ext. intros l. apply length_map. }
  rewrite Hl1 in H1, H2. rewrite Hl2 in H1', H2'.
  assert (off' = off) as -> by (rewrite H1 in H1'; injection H1'; lia).
  rewrite length_map in H2. simpl in H1, H2.
  exists off. split_and!; [ done | done | ].
  intros k Hk. split.
  - rewrite H3 by (by rewrite length_map).
    change (map fst row) with (fmap (M := list) fst row). apply list_lookup_fmap.
  - rewrite H3' by (by rewrite length_map).
    change (map snd row) with (fmap (M := list) snd row). apply list_lookup_fmap.
Qed.

Lemma of_rows_indptr_None sh (rows : list (list (nat * Z))) u :
  length rows ≤ u → indptr (of_rows sh rows) !! S u = None.
Proof.
  intros Hu. apply lookup_ge_None. unfold of_rows. simpl.
  rewrite row_pointers_length, length_map. lia.
Qed.

(** The edges of [of_rows] are the stored columns. *)
Lemma of_rows_edge sh rows u v :
  edge_of (indices (of_rows sh rows)) (indptr (of_rows sh rows)) u v →
  ∃ row w, rows !! u = Some row ∧ (v, w) ∈ row.
Proof.
  intros (lo & hi & k & Hlo & Hhi & Hk & Hv).
  destruct (rows !! u) as [row|] eqn:Hu.
  2: { apply lookup_ge_None in Hu. rewrite of_rows_indptr_None in Hhi by done. done. }
  destruct (of_rows_row sh rows u row Hu) as (lo' & Hlo' & Hhi' & Hcells).
  assert (lo' = lo) as -> by congruence.
  assert (hi = lo + length row) as -> by congruence.
  destruct (Hcells (k - lo)) as [Hi _]; [ lia | ].
  replace (lo + (k - lo)) with k in Hi by lia. rewrite Hv in Hi.
  destruct (row !! (k - lo)) as [[c w]|] eqn:Hrow; simpl in Hi; [ | done ].
  injection Hi as ->. exists row, w. split; [ done | ].
  by eapply list_elem_of_lookup_2.
Qed.

(** The rows of [of_rows] can be read when the stored columns are
    vertices. *)
Lemma of_rows_rows_ok sh rows N :
  N ≤ length rows →
  (∀ u row c w, rows !! u = Some row → (c, w) ∈ row → c < N) →
  rows_ok (indices (of_rows sh rows)) (data (of_rows sh rows))
          (indptr (of_rows sh rows)) N.
Proof.
  intros HN Hcols v Hv.
  destruct (lookup_lt_is_Some_2 rows v) as [row Hrow]; [ lia | ].
  destruct (of_rows_row sh rows v row Hrow) as (lo & Hlo & Hhi & Hcells).
  exists lo, (lo + length row). split_and!; [ done | done | ].
  intros k Hk. destruct (Hcells (k - lo)) as [Hi Hd]; [ lia | ].
  replace (lo + (k - lo)) with k in Hi, Hd by lia.
  destruct (lookup_lt_is_Some_2 row (k - lo)) as [[c w] Hcw]; [ lia | ].
  rewrite Hcw in Hi, Hd. simpl in Hi, Hd.
  exists c. split_and!; [ exact Hi | | exact (mk_is_Some _ _ Hd) ].
  apply (Hcols v row c w Hrow). by eapply list_elem_of_lookup_2.
Qed.

Lemma omap_seq_lookup {A} (f : nat → option A) (l : list A) : ∀ lo,
  (∀ k, k < length l → f (lo + k) = l !! k) → omap f (seq lo (length l)) = l.
Proof.
  induction l as [|x l IH]; intros lo Hf; [ done | ]. simpl.
  pose proof (Hf 0) as H0. rewrite Nat.add_0_r in H0. rewrite H0 by (simpl; lia).
  simpl. f_equal. apply IH. intros k Hk.
  replace (S lo + k) with (lo + S k) by lia. rewrite Hf by (simpl; lia). done.
Qed.

Lemma csr_row_of_rows sh rows u row :
  rows !! u = Some row → csr_row (of_rows sh rows) u = row.
Proof.
  intros Hu. destruct (of_rows_row sh rows u row Hu) as (lo & Hlo & Hhi & Hcells).
  unfold csr_row. rewrite Hlo, Hhi.
  replace (lo + length row - lo) with (length row) by lia.
  apply omap_seq_lookup. intros k Hk.
  destruct (Hcells k Hk) as [Hi Hd]. rewrite Hi, Hd.
  destruct (row !! k) as [[c w]|]; done.
Qed.

Lemma csr_row_of_rows_None sh rows u :
  rows !! u = None → csr_row (of_rows sh rows) u = [].
Proof.
  intros Hu. apply lookup_ge_None in Hu. unfold csr_row.
  rewrite (of_rows_indptr_None sh rows u Hu).
  by destruct (indptr (of_rows sh rows) !! u).
Qed.

Lemma elem_of_dense_row_entries r c w :
  (c, w) ∈ dense_row_entries r ↔ r !! c = Some w ∧ w ≠ 0%Z.
Proof.
  unfold dense_row_entries. rewrite list_elem_of_filter, elem_of_lookup_imap. simpl.
  split.
  - intros [Hw (i & y & [= -> ->] & Hi)]. done.
  - intros [Hc Hw]. split; [ done | ]. by exists c, w.
Qed.

Lemma csr_matrix_rows g u :
  map dense_row_entries g !! u = dense_row_entries <$> g !! u.
Proof.
  change (map dense_row_entries g) with (fmap (M := list) dense_row_entries g).
  apply list_lookup_fmap.
Qed.

(** The stored edges of [csr_matrix] are nonzero cells. *)
Lemma csr_matrix_edge g u v :
  edge_of (indices (csr_matrix g)) (indptr (csr_matrix g)) u v →
  mget 0%Z g u v ≠ 0%Z.
Proof.
  intros (row & w & Hrow & Hin)%of_rows_edge.
  rewrite csr_matrix_rows in Hrow.
  destruct (g !! u) as [r|] eqn:Hr; simpl in Hrow; [ | done ].
  injection Hrow as <-. apply elem_of_dense_row_entries in Hin as [Hv Hw].
  unfold mget. by rewrite Hr, Hv.
Qed.

Lemma csr_row_csr_matrix g i c w :
  (c, w) ∈ csr_row (csr_matrix g) i → mget 0%Z g i c = w ∧ w ≠ 0%Z.
Proof.
  unfold csr_matrix. intros Hin.
  destruct (map dense_row_entries g !! i) as [row|] eqn:Hrow.
  - rewrite (csr_row_of_rows _ _ _ _ Hrow) in Hin.
    rewrite csr_matrix_rows in Hrow.
    destruct (g !! i) as [r|] eqn:Hr; simpl in Hrow; [ | done ].
    injection Hrow as <-. apply elem_of_dense_row_entries in Hin as [Hv Hw].
    unfold mget. by rewrite Hr, Hv.
  - rewrite (csr_row_of_rows_None _ _ _ Hrow) in Hin. by apply elem_of_nil in Hin.
Qed.

Lemma elem_of_column_entries m j i w :
  (i, w) ∈ column_entries m j ↔ i < (shape m).1 ∧ (j, w) ∈ csr_row m i.
Proof.
  unfold column_entries. rewrite list_elem_of_In, in_concat. split.
  - intros (l & Hl & Hin). apply in_map_iff in Hl as (i' & <- & Hi').
    apply in_seq in Hi'. apply list_elem_of_In, list_elem_of_omap in Hin
      as ([c w'] & Hcw & Hsome).
    simpl in Hsome. case_bool_decide as Hc; [ | done ].
    injection Hsome as -> ->. subst c. split; [ lia | done ].
  - intros [Hi Hin].
    exists (omap (λ cw : nat * Z, if bool_decide (cw.1 = j) then Some (i, cw.2) else None)
              (csr_row m i)).
    split.
    + apply in_map_iff. exists i. split; [ done | ]. apply in_seq. lia.
    + apply list_elem_of_In, list_elem_of_omap. exists (j, w). split; [ done | ].
      simpl. by rewrite bool_decide_eq_true_2.
Qed.

Lemma transpose_rows m u :
  map (column_entries m) (seq 0 (shape m).2) !! u
  = if decide (u < (shape m).2) then Some (column_entries m u) else None.
Proof.
  change (map (column_entries m) (seq 0 (shape m).2))
    with (fmap (M := list) (column_entries m) (seq 0 (shape m).2)).
  rewrite list_lookup_fmap. case_decide as Hu.
  - by rewrite lookup_seq_lt.
  - by rewrite lookup_seq_ge by lia.
Qed.

(** The stored edges of the transposed view are the reversed ones. *)
Lemma transpose_csr_matrix_edge g u v :
  edge_of (indices (transpose_csr (csr_matrix g)))
          (indptr (transpose_csr (csr_matrix g))) u v →
  mget 0%Z g v u ≠ 0%Z.
Proof.
  unfold transpose_csr. intros (row & w & Hrow & Hin)%of_rows_edge.
  rewrite transpose_rows in Hrow. case_decide; [ | done ].
  injection Hrow as <-. apply elem_of_column_entries in Hin as [_ Hin].
  apply csr_row_csr_matrix in Hin as [<- Hw]. done.
Qed.

Lemma csr_matrix_edges g directed u v :
  graph_edges (csr_matrix g) directed u v → edge g directed u v.
Proof.
  intros [H|[Hd H]].
  - left. by apply csr_matrix_edge.
  - right. split; [ done | ]. by apply transpose_csr_matrix_edge.
Qed.

(** ** Readable inputs *)

Lemma is_square_rows {A} (g : matrix A) i r :
  is_square g = true → g !! i = Some r → length r = length g.
Proof.
  unfold is_square. intros Hsq Hr.
  assert (Hb : bool_decide (length r = length g) = true).
  { apply (proj1 (forallb_forall _ _) Hsq r).
    apply list_elem_of_In. by eapply list_elem_of_lookup_2. }
  by apply bool_decide_eq_true in Hb.
Qed.

Lemma is_square_ncols {A} (g : matrix A) : is_square g = true → ncols g = nrows g.
Proof.
  intros Hsq. destruct g as [|r g']; [ done | ].
  unfold ncols, nrows. by apply (is_square_rows (r :: g') 0 r).
Qed.

Lemma csr_matrix_inputs_ok g directed :
  is_square g = true → inputs_ok (csr_matrix g) directed (nrows g).
Proof.
  intros Hsq. split.
  - apply of_rows_rows_ok.
    + rewrite length_map. done.
    + intros u row c w Hrow Hin. rewrite csr_matrix_rows in Hrow.
      destruct (g !! u) as [r|] eqn:Hr; simpl in Hrow; [ | done ].
      injection Hrow as <-. apply elem_of_dense_row_entries in Hin as [Hc _].
      apply lookup_lt_Some in Hc. by rewrite (is_square_rows g u r Hsq Hr) in Hc.
  - intros _. unfold transpose_csr. apply of_rows_rows_ok.
    + rewrite length_map, length_seq. simpl. by rewrite is_square_ncols.
    + intros u row c w Hrow Hin. rewrite transpose_rows in Hrow.
      case_decide; [ | done ]. injection Hrow as <-.
      by apply elem_of_column_entries in Hin as [Hc _].
Qed.

Lemma ncols_zeros N : ncols (zeros N N) = N.
Proof. destruct N; [ done | ]. unfold zeros. simpl. by rewrite length_replicate. Qed.

Lemma mget_zeros n m i j : mget 0%Z (zeros n m) i j = 0%Z.
Proof.
  unfold mget, zeros. destruct (replicate n (replicate m 0%Z) !! i) as [r|] eqn:Hr;
    [ | done ].
  apply lookup_replicate in Hr as [-> _].
  destruct (replicate m 0%Z !! j) as [x|] eqn:Hx; [ | done ].
  by apply lookup_replicate in Hx as [-> _].
Qed.

Lemma row_ready_zeros N i : i < N → row_ready (zeros N N) i N.
Proof.
  intros Hi. exists (replicate N 0%Z). split.
  - unfold zeros. by apply lookup_replicate_2.
  - apply length_replicate.
Qed.

(** The sparse algorithm on the compressed rows of a dense square matrix:
    it returns when the graph has at most [max_rank] vertices, and a
    nonzero cell of its result joins reachable vertices. *)
Lemma _dijkstra_reachable fuel g directed :
  is_square g = true → nrows g ≤ fuel →
  match _dijkstra fuel (csr_matrix g) (zeros (nrows g) (nrows g))
                  (seq 0 (nrows g)) directed with
  | Some res => ∀ i j, mget 0%Z res i j ≠ 0%Z → reachable g directed i j
  | None => max_rank < nrows g
  end.
Proof.
  intros Hsq Hfuel. unfold _dijkstra. cbn zeta. rewrite ncols_zeros.
  pose proof (search_rows_spec (edge g directed) fuel (csr_matrix g) directed
                (nrows g) (zeros (nrows g) (nrows g))
                (csr_matrix_edges g directed) (ncols_zeros _) Hfuel
                (seq 0 (nrows g))
                (zeros (nrows g) (nrows g),
                 (mkHeap None (replicate max_rank None), initial_nodes (nrows g))))
    as Hspec.
  assert (Hinv : rows_inv (edge g directed) (nrows g) (zeros (nrows g) (nrows g))
                   (zeros (nrows g) (nrows g),
                    (mkHeap None (replicate max_rank None), initial_nodes (nrows g)))).
  { unfold rows_inv. simpl. split_and!; try done.
    - apply initial_nodes_clean.
    - intros i j Hij. by rewrite mget_zeros in Hij.
    - apply length_initial_nodes. }
  assert (Hind : ∀ i, i ∈ seq 0 (nrows g) → i < nrows g).
  { intros i Hi%elem_of_seq. lia. }
  specialize (Hspec Hinv Hind).
  destruct (search_rows fuel (csr_matrix g) directed (seq 0 (nrows g))
              (zeros (nrows g) (nrows g),
               (mkHeap None (replicate max_rank None), initial_nodes (nrows g))))
    as [res|]; cbn [mbind option_bind].
  - destruct Hspec as (_ & _ & HG & _). exact HG.
  - destruct Hspec as [Hbig|Hbad]; [ done | ]. exfalso. apply Hbad. split.
    + by apply csr_matrix_inputs_ok.
    + intros i Hi. apply row_ready_zeros. by apply Hind.
Qed.

Lemma csr_matrix_nonnegative g :
  Forall (Forall (λ w, 0 ≤ w)%Z) g →
  existsb (λ w, bool_decide (w < 0)%Z) (data (csr_matrix g)) = false.
Proof.
  intros Hg. apply not_true_iff_false. intros Hex.
  apply existsb_exists in Hex as (w & Hin & Hw). apply bool_decide_eq_true in Hw.
  unfold csr_matrix, of_rows in Hin. simpl in Hin.
  apply in_concat in Hin as (l & Hl & Hin).
  apply in_map_iff in Hl as (row & <- & Hrow).
  apply in_map_iff in Hrow as (r & <- & Hr).
  apply in_map_iff in Hin as ([c w'] & Hcw & Hin). simpl in Hcw. subst w'.
  apply list_elem_of_In, elem_of_dense_row_entries in Hin as [Hc _].
  apply list_elem_of_In in Hr.
  pose proof (proj1 (Forall_forall _ _) Hg r Hr) as Hrow.
  pose proof (proj1 (Forall_forall _ _) Hrow w (list_elem_of_lookup_2 _ _ _ Hc)).
  simpl in *. lia.
Qed.

(** ** Reachability along stored entries *)

Lemma csr_row_edge m i c w :
  (c, w) ∈ csr_row m i → edge_of (indices m) (indptr m) i c.
Proof.
  unfold csr_row. intros Hin.
  destruct (indptr m !! i) as [lo|] eqn:Hlo; [ | by apply elem_of_nil in Hin ].
  destruct (indptr m !! S i) as [hi|] eqn:Hhi; [ | by apply elem_of_nil in Hin ].
  apply list_elem_of_omap in Hin as (k & Hk & Hsome).
  apply elem_of_seq in Hk.
  destruct (indices m !! k) as [c'|] eqn:Hc; simpl in Hsome; [ | done ].
  destruct (data m !! k) as [w'|]; simpl in Hsome; [ | done ].
  injection Hsome as -> ->. exists lo, hi, k. split_and!; try done; lia.
Qed.

(** The stored edges of the transposed view are reversed stored edges. *)
Lemma transpose_csr_edge m u v :
  edge_of (indices (transpose_csr m)) (indptr (transpose_csr m)) u v →
  edge_of (indices m) (indptr m) v u.
Proof.
  unfold transpose_csr. intros (row & w & Hrow & Hin)%of_rows_edge.
  rewrite transpose_rows in Hrow. case_decide; [ | done ].
  injection Hrow as <-. apply elem_of_column_entries in Hin as [_ Hin].
  by apply csr_row_edge in Hin.
Qed.

Lemma graph_edges_row_edge m directed u v :
  graph_edges m directed u v → row_edge m directed u v.
Proof.
  intros [H|[Hd H]]; [ by left | ]. right. split; [ done | ].
  by apply transpose_csr_edge.
Qed.

Lemma cell_sum_nonzero es j : cell_sum es j ≠ 0%Z → ∃ w, (j, w) ∈ es.
Proof.
  unfold cell_sum. intros Hne.
  destruct (filter (λ cw : nat * Z, cw.1 = j) es) as [|[c w] l] eqn:Hf; [ done | ].
  assert (Hin : (c, w) ∈ filter (λ cw : nat * Z, cw.1 = j) es)
    by (rewrite Hf; by left).
  apply list_elem_of_filter in Hin as [Hc Hin]. simpl in Hc. subst c. by exists w.
Qed.

Lemma mget_toarray m i j :
  mget 0%Z (toarray m) i j ≠ 0%Z → edge_of (indices m) (indptr m) i j.
Proof.
  unfold mget, toarray.
  change (map (λ i, map (cell_sum (csr_row m i)) (seq 0 (shape m).2)) (seq 0 (shape m).1))
    with (fmap (M := list) (λ i, map (cell_sum (csr_row m i)) (seq 0 (shape m).2))
               (seq 0 (shape m).1)).
  rewrite list_lookup_fmap.
  destruct (seq 0 (shape m).1 !! i) as [i'|] eqn:Hi; simpl; [ | done ].
  apply lookup_seq in Hi as [-> _]. simpl.
  change (map (cell_sum (csr_row m i)) (seq 0 (shape m).2))
    with (fmap (M := list) (cell_sum (csr_row m i)) (seq 0 (shape m).2)).
  rewrite list_lookup_fmap.
  destruct (seq 0 (shape m).2 !! j) as [j'|] eqn:Hj; simpl; [ | done ].
  apply lookup_seq in Hj as [-> _]. simpl.
  intros (w & Hin)%cell_sum_nonzero. by apply csr_row_edge in Hin.
Qed.

Lemma is_square_toarray m :
  (shape m).1 = (shape m).2 → is_square (toarray m) = true.
Proof.
  intros Hsq. unfold is_square, toarray. apply forallb_forall. intros r Hr.
  apply in_map_iff in Hr as (i & <- & _). apply bool_decide_eq_true.
  by rewrite !length_map, !length_seq.
Qed.

Lemma nrows_toarray m : nrows (toarray m) = (shape m).1.
Proof. unfold nrows, toarray. by rewrite length_map, length_seq. Qed.

(** A nonzero cell of the dense result on a sparse argument joins vertices
    reachable along stored entries. *)
Lemma _floyd_warshall_toarray_reachable m directed i j :
  mget 0%Z (_floyd_warshall (toarray m) directed) i j ≠ 0%Z →
  rtc (row_edge m directed) i j.
Proof.
  intros H. apply _floyd_warshall_reachable in H. unfold reachable in H.
  eapply (rtc_subrel (edge (toarray m) directed)); [ | exact H ].
  intros u v [Huv|[Hd Hvu]].
  - left. by apply mget_toarray.
  - right. split; [ done | ]. by apply mget_toarray.
Qed.

(** A well-formed triple can be read row by row. *)
Lemma csr_wf_rows_ok m N :
  csr_wf m → (shape m).1 = N → (shape m).2 = N →
  rows_ok (indices m) (data m) (indptr m) N.
Proof.
  intros (Hptr & Hlen & Hslice & Hcols) H1 H2 v Hv.
  destruct (lookup_lt_is_Some_2 (indptr m) v) as [lo Hlo]; [ lia | ].
  destruct (lookup_lt_is_Some_2 (indptr m) (S v)) as [hi Hhi]; [ lia | ].
  exists lo, hi. split_and!; [ done | done | ].
  intros k Hk. destruct (Hslice v lo hi Hlo Hhi) as [_ Hle].
  destruct (lookup_lt_is_Some_2 (indices m) k) as [nb Hnb]; [ lia | ].
  exists nb. split_and!; [ done | | ].
  - rewrite <- H2. apply (proj1 (Forall_forall _ _) Hcols).
    by eapply list_elem_of_lookup_2.
  - apply lookup_lt_is_Some_2. lia.
Qed.

Lemma transpose_rows_ok m N :
  (shape m).1 = N → (shape m).2 = N →
  rows_ok (indices (transpose_csr m)) (data (transpose_csr m))
          (indptr (transpose_csr m)) N.
Proof.
  intros H1 H2. unfold transpose_csr. apply of_rows_rows_ok.
  - rewrite length_map, length_seq. lia.
  - intros u row c w Hrow Hin. rewrite transpose_rows in Hrow.
    case_decide; [ | done ]. injection Hrow as <-.
    apply elem_of_column_entries in Hin as [Hc _]. lia.
Qed.

Lemma csr_wf_inputs_ok m directed N :
  csr_wf m → (shape m).1 = N → (shape m).2 = N → inputs_ok m directed N.
Proof.
  intros Hwf H1 H2. split; [ by apply csr_wf_rows_ok | ].
  intros _. by apply transpose_rows_ok.
Qed.

(** The sparse algorithm on a readable square triple: it returns when the
    graph has at most [max_rank] vertices, and a nonzero cell of its result
    joins vertices reachable along stored entries. *)
Lemma _dijkstra_csr_reachable fuel m directed N :
  inputs_ok m directed N → N ≤ fuel →
  match _dijkstra fuel m (zeros N N) (seq 0 N) directed with
  | Some res => ∀ i j, mget 0%Z res i j ≠ 0%Z → rtc (row_edge m directed) i j
  | None => max_rank < N
  end.
Proof.
  intros Hin Hfuel. unfold _dijkstra. cbn zeta. rewrite ncols_zeros.
  pose proof (search_rows_spec (row_edge m directed) fuel m directed
                N (zeros N N) (graph_edges_row_edge m directed) (ncols_zeros _)
                Hfuel (seq 0 N)
                (zeros N N, (mkHeap None (replicate max_rank None), initial_nodes N)))
    as Hspec.
  assert (Hinv : rows_inv (row_edge m directed) N (zeros N N)
                   (zeros N N,
                    (mkHeap None (replicate max_rank None), initial_nodes N))).
  { unfold rows_inv. simpl. split_and!; try done.
    - apply initial_nodes_clean.
    - intros i j Hij. by rewrite mget_zeros in Hij.
    - apply length_initial_nodes. }
  assert (Hind : ∀ i, i ∈ seq 0 N → i < N).
  { intros i Hi%elem_of_seq. lia. }
  specialize (Hspec Hinv Hind).
  destruct (search_rows fuel m directed (seq 0 N)
              (zeros N N, (mkHeap None (replicate max_rank None), initial_nodes N)))
    as [res|]; cbn [mbind option_bind].
  - destruct Hspec as (_ & _ & HG & _). exact HG.
  - destruct Hspec as [Hbig|Hbad]; [ done | ]. exfalso. apply Hbad. split.
    + done.
    + intros i Hi. apply row_ready_zeros. by apply Hind.
Qed.

Lemma nonnegative_data (l : list Z) :
  Forall (λ w, 0 ≤ w)%Z l → existsb (λ w, bool_decide (w < 0)%Z) l = false.
Proof.
  intros Hl. apply not_true_iff_false. intros Hex.
  apply existsb_exists in Hex as (w & Hin & Hw). apply bool_decide_eq_true in Hw.
  apply list_elem_of_In in Hin.
  pose proof (proj1 (Forall_forall _ _) Hl w Hin). simpl in *. lia.
Qed.

Lemma nonnegative_data_inv (l : list Z) :
  existsb (λ w, bool_decide (w < 0)%Z) l = false → Forall (λ w, 0 ≤ w)%Z l.
Proof.
  induction l as [|w l IH]; simpl; [ by constructor | ].
  intros [Hw Hl]%orb_false_elim. constructor; [ | by apply IH ].
  apply bool_decide_eq_false in Hw. lia.
Qed.

(** ** The entry points on a sparse argument *)

Lemma floyd_warshall_sparse mem m directed overwrite :
  (shape m).1 = (shape m).2 →
  result_cells (floyd_warshall mem (Sparse CSR m) directed overwrite)
  = Some (_floyd_warshall (toarray m) directed).
Proof.
  intros Hsq. unfold floyd_warshall, dense_of, tocsr, alloc.
  rewrite lookup_app_r, Nat.sub_diag by done. cbn [lookup list_lookup nd_cells].
  rewrite (is_square_toarray m Hsq). cbn [negb result_cells].
  rewrite list_lookup_insert_eq by (rewrite length_app; simpl; lia). done.
Qed.

Lemma dijkstra_sparse fuel mem m directed :
  (shape m).1 = (shape m).2 → Forall (λ w, 0 ≤ w)%Z (data m) →
  result_cells (dijkstra fuel mem (Sparse CSR m) directed None)
  = _dijkstra fuel m (zeros (shape m).1 (shape m).1) (seq 0 (shape m).1) directed.
Proof.
  intros Hsq Hpos. unfold dijkstra, dijkstra_view.
  rewrite (nonnegative_data _ Hpos).
  rewrite bool_decide_eq_true_2 by done.
  cbn [negb]. cbn zeta. rewrite length_seq.
  destruct (_dijkstra fuel m (zeros (shape m).1 (shape m).1) (seq 0 (shape m).1)
              directed) as [graph|]; simpl; [ | done ].
  by rewrite lookup_app_r, Nat.sub_diag.
Qed.

(** On a readable square sparse argument with non-negative stored values
    both entry points leave 0 at the pairs not joined by stored entries;
    [dijkstra] is shown to return for at most [max_rank] vertices. *)
Lemma sparse_unreachable_zero fuel mem m directed overwrite i j :
  inputs_ok m directed (shape m).1 → (shape m).1 = (shape m).2 →
  Forall (λ w, 0 ≤ w)%Z (data m) → (shape m).1 ≤ fuel →
  ¬ rtc (row_edge m directed) i j →
  (∃ result,
     result_cells (floyd_warshall mem (Sparse CSR m) directed overwrite) = Some result
     ∧ mget 0%Z result i j = 0%Z)
  ∧ ((shape m).1 ≤ max_rank →
     ∃ result,
       result_cells (dijkstra fuel mem (Sparse CSR m) directed None) = Some result
       ∧ mget 0%Z result i j = 0%Z)
  ∧ (∀ result,
       result_cells (dijkstra fuel mem (Sparse CSR m) directed None) = Some result →
       mget 0%Z result i j = 0%Z).
Proof.
  intros Hin Hsq Hpos Hfuel Hunreach.
  pose proof (_dijkstra_csr_reachable fuel m directed (shape m).1 Hin Hfuel) as Hsparse.
  rewrite (dijkstra_sparse fuel mem m directed Hsq Hpos).
  split; [ | split ].
  - exists (_floyd_warshall (toarray m) directed).
    split; [ by apply floyd_warshall_sparse | ].
    destruct (decide (mget 0%Z (_floyd_warshall (toarray m) directed) i j = 0%Z))
      as [|Hne]; [ done | ].
    exfalso. apply Hunreach. by apply _floyd_warshall_toarray_reachable.
  - intros Hsmall.
    destruct (_dijkstra fuel m (zeros (shape m).1 (shape m).1) (seq 0 (shape m).1)
                directed) as [res|]; [ | lia ].
    exists res. split; [ done | ].
    destruct (decide (mget 0%Z res i j = 0%Z)) as [|Hne]; [ done | ].
    exfalso. apply Hunreach. by apply Hsparse.
  - intros res Hres. rewrite Hres in Hsparse.
    destruct (decide (mget 0%Z res i j = 0%Z)) as [|Hne]; [ done | ].
    exfalso. apply Hunreach. by apply Hsparse.
Qed.

(** The same through the dispatcher, on a dense array: whatever method is
    run, a result has 0 at the unreachable pairs. *)
Lemma dispatch_unreachable_zero d fuel mem a arr directed method overwrite i j result :
  mem !! a = Some arr → is_square (nd_cells arr) = true →
  Forall (Forall (λ w, 0 ≤ w)%Z) (nd_cells arr) →
  nrows (nd_cells arr) ≤ fuel →
  ¬ reachable (nd_cells arr) directed i j →
  result_cells (graph_shortest_path d fuel mem (Array a) directed method overwrite)
  = Some result →
  mget 0%Z result i j = 0%Z.
Proof.
  intros Hmem Hsq Hpos Hfuel Hunreach. unfold graph_shortest_path, as_sparse.
  rewrite Hmem. cbn [mbind option_bind]. cbn zeta.
  set (m := csr_matrix (nd_cells arr)).
  assert (Hshape : (shape m).1 = (shape m).2).
  { unfold m, csr_matrix, of_rows. simpl. by rewrite is_square_ncols. }
  assert (Hn : (shape m).1 = nrows (nd_cells arr)) by done.
  assert (Hdata : Forall (λ w, 0 ≤ w)%Z (data m)).
  { apply nonnegative_data_inv. by apply csr_matrix_nonnegative. }
  assert (Hun : ¬ rtc (row_edge m directed) i j).
  { intros Hr. apply Hunreach. unfold reachable.
    eapply (rtc_subrel (row_edge m directed)); [ | exact Hr ].
    intros u v [Huv|[Hd Hvu]].
    - left. by apply csr_matrix_edge.
    - right. split; [ done | ]. by apply csr_matrix_edge. }
  assert (Hin : inputs_ok m directed (shape m).1).
  { rewrite Hn. by apply csr_matrix_inputs_ok. }
  destruct (sparse_unreachable_zero fuel mem m directed overwrite i j Hin Hshape Hdata)
    as ((r1 & Hr1 & Hz1) & _ & Hd); [ by rewrite Hn | done | ].
  case_bool_decide.
  - rewrite Hr1. by intros [= <-].
  - case_bool_decide; [ apply Hd | done ].
Qed.

Lemma two_roots_shape v0 v1 : heap_shape (two_roots v0 v1) two_roots_forest.
Proof.
  split.
  - intros [p|] i Hi; simpl in Hi; [ by apply elem_of_nil in Hi | ].
    apply elem_of_cons in Hi as [->|Hi]; [ by repeat split | ].
    apply list_elem_of_singleton in Hi as ->. by repeat split.
  - intros [p|]; simpl; [ apply NoDup_nil; done | ].
    apply NoDup_cons. split; [ | apply NoDup_singleton ].
    intros Hin. apply list_elem_of_singleton in Hin. done.
  - intros [|[|i]] p Hp; by simpl in Hp.
  - intros [|[|i]] r Hr; simpl in Hr; [ | | done ]; by injection Hr as <-.
  - intros [|[|i]] c Hc; simpl in Hc; [ | | done ]; by injection Hc as <-.
  - intros [|[|i]] Hp Hi.
    + exfalso. apply Hi. simpl. by left.
    + exfalso. apply Hi. simpl. right. by left.
    + by simpl in Hp.
  - intros [|[|i]] Hi; [ by apply rooted_root | by apply rooted_root | ].
    simpl in Hi. lia.
Qed.

(** During the pass of [remove_min] the heap's minimum is a least root among
    those walked so far, the incoming one and those in the buckets. *)
Lemma link_pass_min_least F P heap nodes node linknode m r :
  table_ok F P (Some node) (roots_by_rank heap) →
  min_node heap = Some m → (∀ y, y ∈ P → le_val nodes m y) →
  roots_by_rank heap !! r = Some (Some linknode) →
  min_node heap = Some node → le_val nodes node linknode.
Proof.
  intros [_ Htab] Hm Hle Hr Hn.
  assert (m = node) as -> by congruence.
  apply Hle. by destruct (Htab r linknode Hr) as [? _].
Qed.

(** ** One merge of [link] inside the pass of [remove_min] *)

Lemma kids_graft_keeps F top loser p i :
  i ∈ kids F p → i ∈ kids (graft F top loser) p.
Proof.
  unfold graft. simpl. intros Hi. case_decide as Hp; [ | done ].
  subst p. apply elem_of_app. by left.
Qed.

(** When the bucket of the incoming root [node] holds [linknode], [link]
    merges the two with [link_pair] and goes on with the winner; the state
    it goes on with is again a state of the pass. *)
Lemma link_merge_step fuel heap nodes F P R node m n linknode :
  heap_shape nodes F → roots F = P ++ R → node ∈ P →
  table_ok F P (Some node) (roots_by_rank heap) →
  min_node heap = Some m → m ∈ P → (∀ y, y ∈ P → le_val nodes m y) →
  length nodes ≤ fuel →
  nodes !! node = Some n →
  roots_by_rank heap !! Z.to_nat (rank n) = Some (Some linknode) →
  ∃ top loser nodes1 heap1 P1,
    set_root_by_rank (rank n) None heap = Some heap1
    ∧ link_pair fuel heap1 nodes node linknode = Some (top, nodes1)
    ∧ (top = node ∧ loser = linknode ∨ top = linknode ∧ loser = node)
    ∧ le_val nodes top loser
    ∧ (le_val nodes loser top →
       top = if bool_decide (min_node heap = Some node) then node else linknode)
    ∧ heap_shape nodes1 (graft F top loser)
    ∧ length nodes1 = length nodes
    ∧ roots (graft F top loser) = P1 ++ R
    ∧ top ∈ P1
    ∧ table_ok (graft F top loser) P1 (Some top) (roots_by_rank heap1)
    ∧ min_node heap1 = Some m
    ∧ m ∈ P1
    ∧ (∀ y, y ∈ P1 → le_val nodes1 m y)
    ∧ length P1 < length P.
Proof.
  intros HS Hroots Hnode [Htlen Htab] Hmin HmP Hle Hfuel Hn Eslot.
  assert (HnodeR : node ∈ roots F) by (rewrite Hroots; apply elem_of_app; by left).
  pose proof (hs_rank _ _ HS node (rank n) (fld_Some _ _ _ _ Hn)) as Hrank.
  assert (Hidx : Z.to_nat (rank n) = bucket_of F node) by (by rewrite Hrank).
  destruct (Htab _ _ Eslot) as (HlP & Hln & Hlb).
  assert (Hne : node ≠ linknode) by congruence.
  assert (HlinkR : linknode ∈ roots F) by (rewrite Hroots; apply elem_of_app; by left).
  set (heap1 := mkHeap (min_node heap)
                       (<[Z.to_nat (rank n) := None]> (roots_by_rank heap))).
  destruct (link_pair_spec fuel heap1 nodes F node linknode HS HnodeR HlinkR Hne Hfuel)
    as (top & loser & nodes1 & Hrun & Hcase & HS' & Hlen & Hpay).
  assert (Htl : top ∈ P ∧ loser ∈ P ∧ top ≠ loser ∧ loser ≠ m
                ∧ (∀ y, y ≠ node → y ≠ linknode → y ≠ top ∧ y ≠ loser)
                ∧ le_val nodes top loser
                ∧ (le_val nodes loser top →
                   top = if bool_decide (min_node heap = Some node)
                         then node else linknode)
                ∧ (top = node ∧ loser = linknode ∨ top = linknode ∧ loser = node)).
  { destruct Hcase as [(-> & -> & Hc)|(-> & -> & Hc1 & Hc2)].
    - assert (linknode ≠ m).
      { intros <-. destruct Hc as [Hc|Hc].
        - apply Hc. by apply Hle.
        - simpl in Hc. congruence. }
      split_and!; try done.
      + destruct Hc as [Hc|Hc].
        * assert (Hvn : node < length nodes) by (by apply (hs_valid _ _ None _ HS)).
          assert (Hvl : linknode < length nodes) by (by apply (hs_valid _ _ None _ HS)).
          apply (fld_is_Some val) in Hvn as [vn Hvn], Hvl as [vl Hvl].
          exists vn, vl. split_and!; [ done | done | ].
          destruct (decide (vn ≤ vl)%Z) as [|Hgt]; [ done | ].
          exfalso. apply Hc. exists vl, vn. split_and!; [ done | done | lia ].
        * simpl in Hc. assert (m = node) as -> by congruence. by apply Hle.
      + intros Htie. destruct Hc as [Hc|Hc]; [ done | ].
        simpl in Hc. by rewrite bool_decide_eq_true_2.
      + by left.
    - assert (node ≠ m).
      { intros <-. simpl in Hc2. congruence. }
      split_and!; try done; try congruence.
      + intros _. simpl in Hc2. by rewrite bool_decide_eq_false_2.
      + by right. }
  destruct Htl as (HtopP & HloserP & Htne & Hlm & Hothers & Htoplose & Htie & Hwho).
  pose proof (hs_nodup _ _ HS None) as Hnd. simpl in Hnd. rewrite Hroots in Hnd.
  assert (HloserNotR : loser ∉ R).
  { apply NoDup_app in Hnd as (_ & Hd & _). by apply Hd. }
  exists top, loser, nodes1, heap1, (filter (λ y, y ≠ loser) P).
  split_and!; try done.
  - unfold set_root_by_rank. by rewrite Eslot.
  - simpl. rewrite Hroots, filter_app. by rewrite (filter_ne_id R).
  - by apply list_elem_of_filter.
  - split; [ simpl; by rewrite length_insert | ].
    intros r y Hy. simpl in Hy.
    destruct (decide (r = Z.to_nat (rank n))) as [->|Hr].
    { rewrite list_lookup_insert_eq in Hy; [ done | ].
      by apply (lookup_lt_Some _ _ _ Eslot). }
    rewrite list_lookup_insert_ne in Hy by done.
    destruct (Htab _ _ Hy) as (HyP & Hyn & Hyb).
    assert (y ≠ linknode) by (intros ->; congruence).
    destruct (Hothers y) as [Hyt Hyl]; [ congruence | done | ].
    split_and!.
    + by apply list_elem_of_filter.
    + congruence.
    + unfold bucket_of, graft in *. simpl. by rewrite decide_False.
  - by apply list_elem_of_filter.
  - intros y Hy. apply list_elem_of_filter in Hy as [_ Hy].
    apply (le_val_ext nodes); [ done | by apply Hle ].
  - apply (length_filter_lt (λ y, y ≠ loser) P loser HloserP). tauto.
Qed.

(** A node that has a parent keeps it through [link]. *)
Lemma link_keeps_parents steps fuel : ∀ heap nodes F P R node m st',
  heap_shape nodes F → roots F = P ++ R → node ∈ P →
  table_ok F P (Some node) (roots_by_rank heap) →
  min_node heap = Some m → m ∈ P → (∀ y, y ∈ P → le_val nodes m y) →
  length P ≤ steps → length nodes ≤ fuel →
  link steps fuel (heap, nodes) node = Some st' →
  ∀ i p, fld parent nodes i = Some (Some p) → fld parent st'.2 i = Some (Some p).
Proof.
  induction steps as [|steps IH];
    intros heap nodes F P R node m st' HS Hroots Hnode Htab Hmin HmP Hle Hsteps Hfuel
           Hrun; [ done | ].
  cbn [link] in Hrun.
  destruct (nodes !! node) as [n|] eqn:Hn; cbn [mbind option_bind] in Hrun; [ | done ].
  destruct (roots_by_rank heap !! Z.to_nat (rank n)) as [[linknode|]|] eqn:Eslot;
    cbn [mbind option_bind] in Hrun; [ | | done ].
  - destruct (link_merge_step fuel heap nodes F P R node m n linknode
                HS Hroots Hnode Htab Hmin HmP Hle Hfuel Hn Eslot)
      as (top & loser & nodes1 & heap1 & P1 & Hset & Hpair & _ & _ & _ & HS' & Hlen
          & Hroots1 & Htop1 & Htab1 & Hmin1 & Hm1 & Hle1 & HltP).
    rewrite Hset in Hrun. cbn [mbind option_bind] in Hrun.
    rewrite Hpair in Hrun. cbn [mbind option_bind] in Hrun.
    intros i p Hp.
    apply (IH heap1 nodes1 (graft F top loser) P1 R top m st' HS' Hroots1 Htop1 Htab1
             Hmin1 Hm1 Hle1); [ lia | lia | done | ].
    pose proof (hs_complete _ _ HS i p Hp) as Hi.
    by destruct (hs_links _ _ HS' (Some p) i (kids_graft_keeps F top loser p i Hi))
      as (? & _).
  - destruct (set_root_by_rank (rank n) (Some node) heap) as [heap'|];
      cbn [mbind option_bind] in Hrun; [ | done ].
    by injection Hrun as <-.
Qed.

Lemma two_roots_table :
  table_ok two_roots_forest [0; 1] (Some 1) (roots_by_rank two_roots_heap).
Proof.
  split; [ done | ]. intros r y Hy. unfold two_roots_heap in Hy.
  cbn [roots_by_rank] in Hy.
  destruct r as [|r].
  - rewrite list_lookup_insert_eq in Hy by (unfold max_rank; simpl; lia).
    injection Hy as <-. split_and!; [ by left | done | done ].
  - rewrite list_lookup_insert_ne in Hy by done.
    apply lookup_replicate in Hy as [Hy _]. done.
Qed.

Lemma two_roots_least v : ∀ y, y ∈ [0; 1] → le_val (two_roots v v) 0 y.
Proof.
  intros y Hy. exists v, v.
  apply elem_of_cons in Hy as [->|Hy]; [ by split_and! | ].
  apply list_elem_of_singleton in Hy as ->. by split_and!.
Qed.

(** ** The entry points on a dense array *)

Lemma lookup_alloc_new (mem : memory) (arr : ndarray) :
  (alloc mem arr).1 !! (alloc mem arr).2 = Some arr.
Proof. unfold alloc. simpl. by rewrite lookup_app_r, Nat.sub_diag. Qed.

Lemma floyd_warshall_dense mem a arr directed overwrite :
  mem !! a = Some arr → is_square (nd_cells arr) = true →
  result_cells (floyd_warshall mem (Array a) directed overwrite)
  = Some (_floyd_warshall (nd_cells arr) directed).
Proof.
  intros Hmem Hsq. unfold floyd_warshall.
  assert (Hloc : ∃ mem' graph arr',
             (if overwrite then np_asarray mem a else np_array mem a)
             = Some (mem', graph)
             ∧ mem' !! graph = Some arr' ∧ nd_cells arr' = nd_cells arr).
  { unfold np_asarray, np_array. rewrite Hmem. simpl.
    destruct overwrite;
      [ destruct (bool_decide (nd_dtype arr = float64)
                  && bool_decide (nd_order arr = C_order)) | ].
    - by exists mem, a, arr.
    - eexists _, _, _. split; [ done | ]. split; [ apply lookup_alloc_new | done ].
    - eexists _, _, _. split; [ done | ]. split; [ apply lookup_alloc_new | done ]. }
  destruct Hloc as (mem' & graph & arr' & -> & Hget & Hcells).
  rewrite Hget, Hcells, Hsq. simpl.
  rewrite list_lookup_insert_eq by (by eapply lookup_lt_Some). done.
Qed.

Lemma dijkstra_dense fuel mem a arr directed :
  mem !! a = Some arr → is_square (nd_cells arr) = true →
  Forall (Forall (λ w, 0 ≤ w)%Z) (nd_cells arr) →
  result_cells (dijkstra fuel mem (Array a) directed None)
  = _dijkstra fuel (csr_matrix (nd_cells arr))
      (zeros (nrows (nd_cells arr)) (nrows (nd_cells arr)))
      (seq 0 (nrows (nd_cells arr))) directed.
Proof.
  intros Hmem Hsq Hpos. unfold dijkstra, dijkstra_view. rewrite Hmem.
  cbn [mbind option_bind].
  rewrite (csr_matrix_nonnegative _ Hpos).
  change (shape (csr_matrix (nd_cells arr)))
    with (nrows (nd_cells arr), ncols (nd_cells arr)).
  cbn [fst snd].
  rewrite bool_decide_eq_true_2 by (by rewrite is_square_ncols).
  cbn [negb]. cbn zeta. rewrite length_seq.
  destruct (_dijkstra fuel (csr_matrix (nd_cells arr))
              (zeros (nrows (nd_cells arr)) (nrows (nd_cells arr)))
              (seq 0 (nrows (nd_cells arr))) directed) as [graph|]; simpl; [ | done ].
  by rewrite lookup_app_r, Nat.sub_diag.
Qed.

(** Vertex 2 of [detour_graph] has no edge out. *)
Lemma detour_graph_sink : ¬ reachable detour_graph true 2 0.
Proof.
  intros H. apply rtc_inv in H as [H|(y & [Hy|[Hd _]] & _)]; [ done | | done ].
  apply Hy. by destruct y as [|[|[|[|[|y]]]]].
Qed.

(** ** The rows a search writes *)

Lemma same_but_row_refl i_node graph : same_but_row i_node graph graph.
Proof. by split_and!. Qed.

Lemma same_but_row_trans i_node g1 g2 g3 :
  same_but_row i_node g1 g2 → same_but_row i_node g2 g3 → same_but_row i_node g1 g3.
Proof.
  intros (H1 & H2 & H3) (H1' & H2' & H3'). split_and!.
  - congruence.
  - intros i Hi. by rewrite H2', H2.
  - intros i. by rewrite H3', H3.
Qed.

Lemma write_cell_rows graph i j v graph' :
  write_cell graph i j v = Some graph' →
  i < length graph ∧ same_but_row i graph graph' ∧ mget 0%Z graph' i j = v
  ∧ (∀ j', j' ≠ j → mget 0%Z graph' i j' = mget 0%Z graph i j').
Proof.
  unfold write_cell. intros H.
  destruct (graph !! i) as [r|] eqn:Hr; simpl in H; [ | done ].
  destruct (r !! j) as [c|] eqn:Hc; simpl in H; [ | done ].
  injection H as <-. pose proof (lookup_lt_Some _ _ _ Hr).
  pose proof (lookup_lt_Some _ _ _ Hc). split_and!.
  - done.
  - unfold same_but_row, mset. split_and!.
    + apply length_alter.
    + intros i' Hi'. by rewrite list_lookup_alter_ne.
    + intros i'. destruct (decide (i' = i)) as [->|Hne].
      * rewrite list_lookup_alter_eq, Hr. simpl. by rewrite length_insert.
      * by rewrite list_lookup_alter_ne.
  - by apply (mget_mset_eq _ _ _ _ _ r).
  - intros j' Hj'. unfold mget, mset. rewrite list_lookup_alter_eq, Hr. simpl.
    by rewrite list_lookup_insert_ne.
Qed.

Lemma directed_loop_rows fuel i_node nb d p steps : ∀ s res,
  directed_loop steps fuel i_node nb d p s = Some res →
  same_but_row i_node s.1 res.1
  ∧ (min_node s.2.1 ≠ None → i_node < length s.1).
Proof.
  induction steps as [|steps IH]; intros [graph [heap nodes]] res Hrun;
    cbn [directed_loop] in Hrun; simpl.
  - destruct (min_node heap); [ done | ]. injection Hrun as <-. simpl.
    split; [ apply same_but_row_refl | done ].
  - destruct (min_node heap) as [m|]; [ | injection Hrun as <-; simpl;
      split; [ apply same_but_row_refl | done ] ].
    destruct (remove_min fuel (heap, nodes)) as [[v [heap1 nodes1]]|];
      cbn [mbind option_bind] in Hrun; [ | done ].
    destruct (store nodes1 v (set_state 2)) as [nodes2|];
      cbn [mbind option_bind] in Hrun; [ | done ].
    destruct (relax_edges fuel nb d p v (heap1, nodes2)) as [st|];
      cbn [mbind option_bind] in Hrun; [ | done ].
    destruct (st.2 !! v) as [vn|]; cbn [mbind option_bind] in Hrun; [ | done ].
    destruct (write_cell graph i_node (index vn) (val vn)) as [graph'|] eqn:Hw;
      cbn [mbind option_bind] in Hrun; [ | done ].
    apply write_cell_rows in Hw as (Hi & Hsame & _).
    destruct (IH _ _ Hrun) as [Hsame' _]. simpl in Hsame'.
    split; [ by eapply same_but_row_trans | done ].
Qed.

Lemma undirected_loop_rows fuel i_node nb1 d1 p1 nb2 d2 p2 steps : ∀ s res,
  undirected_loop steps fuel i_node nb1 d1 p1 nb2 d2 p2 s = Some res →
  same_but_row i_node s.1 res.1
  ∧ (min_node s.2.1 ≠ None → i_node < length s.1).
Proof.
  induction steps as [|steps IH]; intros [graph [heap nodes]] res Hrun;
    cbn [undirected_loop] in Hrun; simpl.
  - destruct (min_node heap); [ done | ]. injection Hrun as <-. simpl.
    split; [ apply same_but_row_refl | done ].
  - destruct (min_node heap) as [m|]; [ | injection Hrun as <-; simpl;
      split; [ apply same_but_row_refl | done ] ].
    destruct (remove_min fuel (heap, nodes)) as [[v [heap1 nodes1]]|];
      cbn [mbind option_bind] in Hrun; [ | done ].
    destruct (store nodes1 v (set_state 2)) as [nodes2|];
      cbn [mbind option_bind] in Hrun; [ | done ].
    destruct (relax_edges fuel nb1 d1 p1 v (heap1, nodes2)) as [st1|];
      cbn [mbind option_bind] in Hrun; [ | done ].
    destruct (relax_edges fuel nb2 d2 p2 v st1) as [st|];
      cbn [mbind option_bind] in Hrun; [ | done ].
    destruct (st.2 !! v) as [vn|]; cbn [mbind option_bind] in Hrun; [ | done ].
    destruct (write_cell graph i_node (index vn) (val vn)) as [graph'|] eqn:Hw;
      cbn [mbind option_bind] in Hrun; [ | done ].
    apply write_cell_rows in Hw as (Hi & Hsame & _).
    destruct (IH _ _ Hrun) as [Hsame' _]. simpl in Hsame'.
    split; [ by eapply same_but_row_trans | done ].
Qed.

Lemma insert_node_min fuel st node st' :
  insert_node fuel st node = Some st' → min_node st'.1 ≠ None.
Proof.
  destruct st as [heap nodes]. unfold insert_node.
  destruct (min_node heap) as [m|] eqn:Hm.
  - intros H. destruct (add_sibling fuel nodes m node) as [nodes1|];
      cbn [mbind option_bind] in H; [ | done ].
    destruct (nodes1 !! node) as [n|]; cbn [mbind option_bind] in H; [ | done ].
    destruct (nodes1 !! m) as [mn|]; cbn [mbind option_bind] in H; [ | done ].
    destruct (bool_decide (val n < val mn)%Z); injection H as <-; simpl; congruence.
  - intros [= <-]. done.
Qed.

Lemma _dijkstra_directed_one_row_rows fuel i_node nb d p s res :
  _dijkstra_directed_one_row fuel i_node nb d p s = Some res →
  same_but_row i_node s.1 res.1 ∧ i_node < length s.1.
Proof.
  destruct s as [graph [heap nodes]]. unfold _dijkstra_directed_one_row. intros H.
  destruct (for_range 0 (ncols graph) _ nodes) as [nodes1|];
    cbn [mbind option_bind] in H; [ | done ].
  destruct (insert_node fuel (set_min_node None heap, nodes1) i_node) as [st|] eqn:Hins;
    cbn [mbind option_bind] in H; [ | done ].
  apply insert_node_min in Hins.
  apply directed_loop_rows in H as [Hsame Hlt]. simpl in *. split; [ done | ].
  by apply Hlt.
Qed.

Lemma _dijkstra_one_row_rows fuel i_node nb1 d1 p1 nb2 d2 p2 s res :
  _dijkstra_one_row fuel i_node nb1 d1 p1 nb2 d2 p2 s = Some res →
  same_but_row i_node s.1 res.1 ∧ i_node < length s.1.
Proof.
  destruct s as [graph [heap nodes]]. unfold _dijkstra_one_row. intros H.
  destruct (for_range 0 (ncols graph) reset_node nodes) as [nodes1|];
    cbn [mbind option_bind] in H; [ | done ].
  destruct (insert_node fuel (heap, nodes1) i_node) as [st|] eqn:Hins;
    cbn [mbind option_bind] in H; [ | done ].
  apply insert_node_min in Hins.
  apply undirected_loop_rows in H as [Hsame Hlt]. simpl in *. split; [ done | ].
  by apply Hlt.
Qed.

(** The searches of a call write only the rows of their sources, and a
    source that is no row of the result leaves no result. *)
Lemma search_rows_rows fuel dist_matrix directed : ∀ compute_ind s res,
  search_rows fuel dist_matrix directed compute_ind s = Some res →
  length res.1 = length s.1
  ∧ (∀ i, length <$> res.1 !! i = length <$> s.1 !! i)
  ∧ (∀ i, i ∉ compute_ind → res.1 !! i = s.1 !! i)
  ∧ Forall (λ i, i < length s.1) compute_ind.
Proof.
  intros compute_ind. unfold search_rows. destruct directed.
  - induction compute_ind as [|a l IH]; intros s res H; cbn [for_each] in H.
    + injection H as <-. split_and!; try done.
    + destruct (_dijkstra_directed_one_row fuel a _ _ _ s) as [s1|] eqn:Hrow;
        cbn [mbind option_bind] in H; [ | done ].
      apply _dijkstra_directed_one_row_rows in Hrow as [(H1 & H2 & H3) Ha].
      destruct (IH _ _ H) as (H1' & H2' & H3' & H4'). split_and!.
      * congruence.
      * intros i. by rewrite H2', H3.
      * intros i Hi. rewrite H3' by (intros ?; apply Hi; by right).
        apply H2. intros ->. apply Hi. by left.
      * constructor; [ done | ]. by rewrite <- H1.
  - cbn zeta.
    induction compute_ind as [|a l IH]; intros s res H; cbn [for_each] in H.
    + injection H as <-. split_and!; try done.
    + destruct (_dijkstra_one_row fuel a _ _ _ _ _ _ s) as [s1|] eqn:Hrow;
        cbn [mbind option_bind] in H; [ | done ].
      apply _dijkstra_one_row_rows in Hrow as [(H1 & H2 & H3) Ha].
      destruct (IH _ _ H) as (H1' & H2' & H3' & H4'). split_and!.
      * congruence.
      * intros i. by rewrite H2', H3.
      * intros i Hi. rewrite H3' by (intros ?; apply Hi; by right).
        apply H2. intros ->. apply Hi. by left.
      * constructor; [ done | ]. by rewrite <- H1.
Qed.

(** ** Walks and their weights *)

Lemma dle_refl a : dle a a.
Proof. destruct a; unfold dle; simpl; [ | done ]. apply bool_decide_eq_true. lia. Qed.

Lemma dle_trans a b c : dle a b → dle b c → dle a c.
Proof.
  unfold dle. destruct a, b, c; simpl; try done.
  rewrite !bool_decide_eq_true. lia.
Qed.

Lemma dle_Inf a : dle a Inf.
Proof. by destruct a. Qed.

Lemma dle_total a b : dleb a b = false → dle b a.
Proof.
  unfold dle. destruct a, b; simpl; try done.
  rewrite bool_decide_eq_false, bool_decide_eq_true. lia.
Qed.

Lemma dltb_dle a b : dltb a b = true → dle a b.
Proof.
  unfold dle. destruct a, b; simpl; try done.
  rewrite !bool_decide_eq_true. lia.
Qed.

Lemma dltb_false_dle a b : dltb a b = false → dle b a.
Proof.
  unfold dle. destruct a, b; simpl; try done.
  rewrite bool_decide_eq_false, bool_decide_eq_true. lia.
Qed.

Lemma xadd_mono a a' b b' : dle a a' → dle b b' → dle (xadd a b) (xadd a' b').
Proof.
  unfold dle. destruct a, a', b, b'; simpl; try done.
  rewrite !bool_decide_eq_true. lia.
Qed.

Lemma xadd_assoc a b c : xadd (xadd a b) c = xadd a (xadd b c).
Proof. destruct a, b, c; simpl; try done. f_equal. lia. Qed.

Lemma xadd_comm a b : xadd a b = xadd b a.
Proof. destruct a, b; simpl; try done. f_equal. lia. Qed.

Lemma dle_xadd_l a b : dle (Fin 0) a → dle b (xadd a b).
Proof.
  unfold dle. destruct a, b; simpl; try done.
  rewrite !bool_decide_eq_true. lia.
Qed.

Lemma dle_xadd_r a b : dle (Fin 0) b → dle a (xadd a b).
Proof. rewrite xadd_comm. apply dle_xadd_l. Qed.

Lemma dle_antisym a b : dle a b → dle b a → a = b.
Proof.
  unfold dle. destruct a, b; simpl; try done.
  rewrite !bool_decide_eq_true. intros. f_equal. lia.
Qed.

Lemma dltb_irrefl_dle a b : dle a b → dltb b a = false.
Proof.
  unfold dle. destruct a, b; simpl; try done.
  rewrite bool_decide_eq_true, bool_decide_eq_false. lia.
Qed.

(** The float sum of two weights in the matrix. *)
Lemma dadd_comm a b : dadd a b = dadd b a.
Proof. destruct a, b; simpl; try done. by rewrite f64_add_comm. Qed.

Lemma dadd_0_r a : dle a (dadd a (Fin 0)).
Proof.
  destruct a as [x|]; [ | done ]. simpl. rewrite f64_add_0_r.
  case_bool_decide; [ done | apply bool_decide_eq_true; lia ].
Qed.

Lemma dadd_0_l a : dle a (dadd (Fin 0) a).
Proof. rewrite dadd_comm. apply dadd_0_r. Qed.

Lemma dadd_nonneg a b : dle (Fin 0) a → dle (Fin 0) b → dle (Fin 0) (dadd a b).
Proof.
  destruct a as [x|], b as [y|]; try done. unfold dle. simpl.
  rewrite !bool_decide_eq_true. intros Hx Hy.
  case_bool_decide; [ done | ]. simpl. apply bool_decide_eq_true.
  by apply f64_add_nonneg.
Qed.

Lemma dadd_exact x y :
  (0 ≤ x)%Z → (0 ≤ y)%Z → (x + y ≤ 2 ^ 53)%Z → dadd (Fin x) (Fin y) = Fin (x + y).
Proof.
  intros Hx Hy Hxy. simpl. rewrite f64_add_exact by done.
  rewrite bool_decide_eq_false_2; [ done | ].
  assert (2 ^ 53 < 2 ^ 1024)%Z by (apply Z.pow_lt_mono_r; lia). lia.
Qed.

Lemma dle_Fin x y : dle (Fin x) (Fin y) ↔ (x ≤ y)%Z.
Proof. unfold dle. simpl. apply bool_decide_eq_true. Qed.

Lemma dle_Fin_inv a y : dle a (Fin y) → ∃ x, a = Fin x ∧ (x ≤ y)%Z.
Proof. destruct a as [x|]; [ | done ]. intros H%dle_Fin. by exists x. Qed.

Lemma walk_app graph directed i k j z1 z2 :
  walk graph directed i k z1 → walk graph directed k j z2 →
  walk graph directed i j (z1 + z2).
Proof.
  intros H1 H2. induction H1 as [i|u v k w z Hs _ IH]; [ done | ].
  replace (w + z + z2)%Z with (w + (z + z2))%Z by lia.
  eapply walk_step; [ done | by apply IH ].
Qed.

Lemma walk_edge graph directed u v w :
  step graph directed u v w → walk graph directed u v w.
Proof.
  intros H. replace w with (w + 0)%Z by lia.
  eapply walk_step; [ done | constructor ].
Qed.

Lemma step_reverse graph u v w : step graph false u v w → step graph false v u w.
Proof. intros [H|[_ H]]; [ right | left ]; done. Qed.

Lemma walk_reverse graph i j z : walk graph false i j z → walk graph false j i z.
Proof.
  intros H. induction H as [i|u v j w z Hs _ IH]; [ constructor | ].
  replace (w + z)%Z with (z + w)%Z by lia.
  eapply walk_app; [ done | ]. by apply walk_edge, step_reverse.
Qed.

Lemma mget_nonnegative graph i j : nonnegative graph → (0 ≤ mget 0%Z graph i j)%Z.
Proof.
  intros Hg. unfold mget. destruct (graph !! i) as [r|] eqn:Hr; [ | done ].
  destruct (r !! j) as [x|] eqn:Hx; [ | done ].
  pose proof (proj1 (Forall_forall _ _) Hg r (list_elem_of_lookup_2 _ _ _ Hr)) as Hrow.
  by apply (proj1 (Forall_forall _ _) Hrow x (list_elem_of_lookup_2 _ _ _ Hx)).
Qed.

Lemma step_positive graph directed u v w :
  nonnegative graph → step graph directed u v w → (0 < w)%Z.
Proof.
  intros Hg [[<- Hw]|[_ [<- Hw]]].
  - pose proof (mget_nonnegative graph u v Hg). lia.
  - pose proof (mget_nonnegative graph v u Hg). lia.
Qed.

(** With non-negative weights a walk weighs at least 0, and more between
    two distinct vertices. *)
Lemma walk_positive graph directed i j z :
  nonnegative graph → walk graph directed i j z →
  (0 ≤ z)%Z ∧ (i ≠ j → 0 < z)%Z.
Proof.
  intros Hg H. induction H as [i|u v j w z Hs _ [IH _]]; [ by split | ].
  pose proof (step_positive _ _ _ _ _ Hg Hs). split; [ lia | intros _; lia ].
Qed.

Lemma mget_in_range {A} (d : A) (g : matrix A) N i j :
  square N g → mget d g i j ≠ d → i < N ∧ j < N.
Proof.
  intros [Hlen Hrows] H. unfold mget in H.
  destruct (g !! i) as [r|] eqn:Hr; [ | done ].
  destruct (r !! j) as [x|] eqn:Hx; [ | done ].
  apply lookup_lt_Some in Hr as Hi. apply lookup_lt_Some in Hx.
  rewrite (Hrows i r Hr) in Hx. lia.
Qed.

Lemma is_square_square {A} (g : matrix A) : is_square g = true → square (nrows g) g.
Proof. intros Hsq. split; [ done | ]. intros i r Hr. by apply (is_square_rows g i r). Qed.

Lemma step_in_range graph directed u v w :
  square (nrows graph) graph → step graph directed u v w →
  u < nrows graph ∧ v < nrows graph.
Proof.
  intros Hsq [[Hw Hne]|[_ [Hw Hne]]].
  - apply (mget_in_range 0%Z graph _ u v Hsq). congruence.
  - apply and_comm. apply (mget_in_range 0%Z graph _ v u Hsq). congruence.
Qed.

(** ** Shape and order of the work matrix *)

Lemma square_mset {A} N (g : matrix A) i j v : square N g → square N (mset g i j v).
Proof.
  intros [Hlen Hrows]. split; [ unfold mset; by rewrite length_alter | ].
  intros i' r Hr. pose proof (mset_row_length g i j v i') as Hl. rewrite Hr in Hl.
  simpl in Hl. destruct (g !! i') as [r'|] eqn:Hr'; simpl in Hl; [ | done ].
  injection Hl as ->. by apply (Hrows i' r').
Qed.

Lemma mget_mset_same {A} (d : A) N (g : matrix A) i j v :
  square N g → i < N → j < N → mget d (mset g i j v) i j = v.
Proof.
  intros [Hlen Hrows] Hi Hj.
  destruct (lookup_lt_is_Some_2 g i) as [r Hr]; [ lia | ].
  apply (mget_mset_eq d g i j v r Hr). rewrite (Hrows i r Hr). lia.
Qed.

Lemma square_fmap {A B} N (f : A → B) (g : matrix A) :
  square N g → square N (map (map f) g).
Proof.
  intros [Hlen Hrows]. split; [ by rewrite length_map | ].
  intros i r Hr.
  change (map (map f) g) with (fmap (M := list) (map f) g) in Hr.
  rewrite list_lookup_fmap in Hr.
  destruct (g !! i) as [r'|] eqn:Hr'; simpl in Hr; [ | done ].
  injection Hr as <-. rewrite length_map. by apply (Hrows i r').
Qed.

Lemma foldl_seq_inv {A} (P : nat → A → Prop) (f : A → nat → A) (n : nat) :
  ∀ lo a, P lo a → (∀ i a, lo ≤ i < lo + n → P i a → P (S i) (f a i)) →
          P (lo + n) (foldl f a (seq lo n)).
Proof.
  induction n as [|n IH]; intros lo a Ha Hf; simpl.
  - by rewrite Nat.add_0_r.
  - replace (lo + S n) with (S lo + n) by lia. apply IH.
    + apply Hf; [ lia | done ].
    + intros i a' Hi. apply Hf. lia.
Qed.

Lemma below_refl g : below g g.
Proof. intros a b. apply dle_refl. Qed.

Lemma below_trans g1 g2 g3 : below g1 g2 → below g2 g3 → below g1 g3.
Proof. intros H1 H2 a b. eapply dle_trans; [ apply H1 | apply H2 ]. Qed.

Lemma mset_below g i j v : dle v (mget Inf g i j) → below (mset g i j v) g.
Proof.
  intros Hv a b. destruct (mget_mset_cases Inf g i j v a b) as [->|(-> & -> & ->)];
    [ apply dle_refl | done ].
Qed.

Lemma pass_inv_step N g B (Done Done' : nat → nat → Prop) gt gt' :
  pass_inv N g B Done gt → square N gt' → below gt' gt →
  (∀ a b, Done' a b → Done a b ∨ dle (mget Inf gt' a b) (B a b)) →
  pass_inv N g B Done' gt'.
Proof.
  intros (_ & Hb & Hd) Hsq Hb' Hnew. split_and!; [ done | by eapply below_trans | ].
  intros a b [Hab|Hab]%Hnew; [ | done ].
  eapply dle_trans; [ apply Hb' | by apply Hd ].
Qed.

Lemma pass_inv_weaken N g B (Done Done' : nat → nat → Prop) gt :
  pass_inv N g B Done gt → (∀ a b, Done' a b → Done a b) → pass_inv N g B Done' gt.
Proof.
  intros (Hsq & Hb & Hd) Hsub. split_and!; [ done | done | ].
  intros a b Hab. by apply Hd, Hsub.
Qed.

(** ** The relaxation through one vertex *)

Lemma relax_cell_square N k i g j : square N g → square N (relax_cell k i g j).
Proof.
  intros Hsq. unfold relax_cell. cbn zeta.
  destruct (dltb _ _); [ by apply square_mset | done ].
Qed.

Lemma relax_cell_below k i g j : below (relax_cell k i g j) g.
Proof.
  unfold relax_cell. cbn zeta.
  destruct (dltb _ _) eqn:Hlt; [ | apply below_refl ].
  by apply mset_below, dltb_dle.
Qed.

Lemma relax_through_square N g k : square N g → square N (relax_through N g k).
Proof.
  intros Hsq. unfold relax_through.
  apply (foldl_seq_inv (λ _ gt, square N gt)); [ done | ].
  intros i gt _ Hgt. unfold relax_row. destruct (isinf _); [ done | ].
  apply (foldl_seq_inv (λ _ gt', square N gt')); [ done | ].
  intros j gt' _ Hgt'. by apply relax_cell_square.
Qed.

Lemma nonneg_cells_dle g i j : nonneg_cells g → dle (Fin 0) (mget Inf g i j).
Proof.
  intros Hg. destruct (mget Inf g i j) as [z|] eqn:Hz; [ | done ].
  apply dle_Fin. by apply (Hg i j).
Qed.

Lemma mget_Inf_out_of_range N (g : matrix DTYPE_t) i j :
  square N g → N ≤ i ∨ N ≤ j → mget Inf g i j = Inf.
Proof.
  intros Hsq Hout. destruct (mget Inf g i j) as [z|] eqn:Hz; [ | done ].
  assert (Hne : mget Inf g i j ≠ Inf) by congruence.
  apply (mget_in_range Inf g N) in Hne; [ lia | done ].
Qed.

Lemma relaxed_column g k i : mget Inf g k k = Fin 0 → relaxed g k i k = mget Inf g i k.
Proof.
  intros Hk. unfold relaxed. cbn zeta. rewrite Hk.
  by rewrite (dltb_irrefl_dle _ _ (dadd_0_r (mget Inf g i k))).
Qed.

Lemma relaxed_row g k j : mget Inf g k k = Fin 0 → relaxed g k k j = mget Inf g k j.
Proof.
  intros Hk. unfold relaxed. cbn zeta. rewrite Hk.
  by rewrite (dltb_irrefl_dle _ _ (dadd_0_l (mget Inf g k j))).
Qed.

Lemma relaxed_out_of_range N g k i j :
  square N g → N ≤ i ∨ N ≤ j → relaxed g k i j = mget Inf g i j.
Proof.
  intros Hsq Hout. unfold relaxed. cbn zeta.
  rewrite (mget_Inf_out_of_range N g i j Hsq Hout).
  destruct Hout as [Hi|Hj].
  - by rewrite (mget_Inf_out_of_range N g i k Hsq (or_introl Hi)).
  - rewrite (mget_Inf_out_of_range N g k j Hsq (or_intror Hj)).
    by destruct (mget Inf g i k).
Qed.

(** The pass through [k] computes [relaxed] in every cell. *)
Lemma relax_through_cells N g k :
  good N g → k < N →
  ∀ i j, mget Inf (relax_through N g k) i j = relaxed g k i j.
Proof.
  intros (Hsq & Hdiag & _) Hk. pose proof (Hdiag k Hk) as Hkk.
  unfold relax_through.
  assert (Hout : ∀ gt, (∀ a b, a < N → mget Inf gt a b = relaxed g k a b) →
                       square N gt → ∀ i j, mget Inf gt i j = relaxed g k i j).
  { intros gt Hin Hsqt i j. destruct (decide (i < N)) as [Hi|Hi]; [ by apply Hin | ].
    rewrite (relaxed_out_of_range N) by (done || lia).
    rewrite (mget_Inf_out_of_range N gt) by (done || lia).
    by rewrite (mget_Inf_out_of_range N g) by (done || lia). }
  pose proof (foldl_seq_inv
    (λ i0 gt, square N gt
              ∧ ∀ a b, mget Inf gt a b
                       = if decide (a < i0) then relaxed g k a b else mget Inf g a b)
    (relax_row N k) N 0 g) as Hfold.
  destruct Hfold as [Hsqt Hcells].
  - split; [ done | ]. intros a b. by rewrite decide_False by lia.
  - intros i gt Hi [Hsqt Hgt]. unfold relax_row.
    assert (Hik : mget Inf gt i k = mget Inf g i k).
    { rewrite Hgt. by rewrite decide_False by lia. }
    destruct (isinf (mget Inf gt i k)) eqn:Hinf.
    + split; [ done | ]. intros a b. rewrite Hgt.
      destruct (decide (a = i)) as [->|Hne].
      * rewrite decide_False by lia. rewrite decide_True by lia.
        unfold relaxed. cbn zeta. rewrite <- Hik.
        destruct (mget Inf gt i k); [ done | ]. done.
      * destruct (decide (a < i)); [ by rewrite decide_True by lia | ].
        by rewrite decide_False by lia.
    + pose proof (foldl_seq_inv
        (λ j0 gt', square N gt'
                   ∧ ∀ a b, mget Inf gt' a b
                            = if decide (a < i ∨ (a = i ∧ b < j0))
                              then relaxed g k a b else mget Inf g a b)
        (relax_cell k i) N 0 gt) as Hin.
      destruct Hin as [Hsq' Hcells'].
      * split; [ done | ]. intros a b. rewrite Hgt.
        destruct (decide (a < i)).
        -- by rewrite decide_True by (by left).
        -- by rewrite decide_False by lia.
      * intros j gt' Hj [Hsq' Hgt']. split; [ by apply relax_cell_square | ].
        assert (Hcur : mget Inf gt' i j = mget Inf g i j).
        { rewrite Hgt'. by rewrite decide_False by lia. }
        assert (Hcol : mget Inf gt' i k = mget Inf g i k).
        { rewrite Hgt'. case_decide; [ by apply relaxed_column | done ]. }
        assert (Hrow : mget Inf gt' k j = mget Inf g k j).
        { rewrite Hgt'. case_decide; [ by apply relaxed_row | done ]. }
        intros a b. unfold relax_cell. cbn zeta. rewrite Hcol, Hrow, Hcur.
        destruct (decide (a = i ∧ b = j)) as [[-> ->]|Hne].
        -- rewrite decide_True by lia. unfold relaxed. cbn zeta.
           destruct (dltb _ _) eqn:Hlt; [ | done ].
           by rewrite (mget_mset_same Inf N) by (done || lia).
        -- assert (Hsame : mget Inf (if dltb (dadd (mget Inf g i k) (mget Inf g k j))
                                             (mget Inf g i j)
                                     then mset gt' i j (dadd (mget Inf g i k)
                                                             (mget Inf g k j))
                                     else gt') a b = mget Inf gt' a b).
           { destruct (dltb _ _); [ | done ]. apply mget_mset_ne.
             destruct (decide (i = a)); [ right | left ]; [ | done ].
             intros ->. apply Hne. by subst. }
           rewrite Hsame, Hgt'.
           destruct (decide (a < i ∨ a = i ∧ b < j)) as [H1|H1].
           ++ by rewrite decide_True by lia.
           ++ by rewrite decide_False by lia.
      * split; [ done | ]. intros a b. rewrite Hcells'.
        destruct (decide (a < S i)) as [Ha|Ha].
        -- destruct (decide (b < N)) as [Hb|Hb].
           ++ by rewrite decide_True by lia.
           ++ rewrite (relaxed_out_of_range N) by (done || lia). by case_decide.
        -- by rewrite decide_False by lia.
  - apply Hout; [ | done ]. intros a b Ha. rewrite Hcells.
    by rewrite decide_True by lia.
Qed.

Lemma mget_zeros_to_inf_eq graph i j :
  mget Inf (zeros_to_inf graph) i j
  = if bool_decide (mget 0%Z graph i j = 0%Z) then Inf else Fin (mget 0%Z graph i j).
Proof.
  unfold mget, zeros_to_inf. rewrite list_lookup_fmap.
  destruct (graph !! i) as [r|]; simpl; [ | done ].
  rewrite list_lookup_fmap. destruct (r !! j) as [z|]; simpl; done.
Qed.

(** ** The work matrix before the relaxation *)

Lemma zero_diagonal_cells N g :
  square N g →
  square N (zero_diagonal N g)
  ∧ (∀ i j, i ≠ j → mget Inf (zero_diagonal N g) i j = mget Inf g i j)
  ∧ (∀ i, i < N → mget Inf (zero_diagonal N g) i i = Fin 0).
Proof.
  intros Hsq. unfold zero_diagonal.
  pose proof (foldl_seq_inv
    (λ x0 g', square N g'
              ∧ (∀ i j, i ≠ j → mget Inf g' i j = mget Inf g i j)
              ∧ (∀ i, i < x0 → mget Inf g' i i = Fin 0))
    (λ g' i, mset g' i i (Fin 0)) N 0 g) as H.
  apply H; clear H.
  - split_and!; [ done | done | ]. intros i Hi. lia.
  - intros x g' Hx (Hsq' & Hoff & Hdiag). split_and!.
    + by apply square_mset.
    + intros i j Hij. rewrite mget_mset_ne; [ by apply Hoff | ].
      destruct (decide (x = i)); [ right; congruence | by left ].
    + intros i Hi. destruct (decide (i = x)) as [->|Hne].
      * apply (mget_mset_same Inf N); [ done | lia | lia ].
      * rewrite mget_mset_ne by (left; congruence). apply Hdiag. lia.
Qed.

Lemma symmetrize_cell_square N g i j : square N g → square N (symmetrize_cell g i j).
Proof.
  intros Hsq. unfold symmetrize_cell. destruct (dleb _ _); by apply square_mset.
Qed.

Lemma symmetrize_cell_below g i j : below (symmetrize_cell g i j) g.
Proof.
  unfold symmetrize_cell. destruct (dleb _ _) eqn:Hle.
  - by apply mset_below.
  - by apply mset_below, dle_total.
Qed.

Lemma symmetrize_cell_bound N g i j :
  square N g → i < N → j < N → i ≠ j →
  dle (mget Inf (symmetrize_cell g i j) i j) (mget Inf g j i)
  ∧ dle (mget Inf (symmetrize_cell g i j) j i) (mget Inf g i j).
Proof.
  intros Hsq Hi Hj Hne. unfold symmetrize_cell. destruct (dleb _ _) eqn:Hle.
  - rewrite (mget_mset_same Inf N) by done.
    rewrite mget_mset_ne by (left; done). split; [ apply dle_refl | done ].
  - rewrite (mget_mset_same Inf N) by done.
    rewrite mget_mset_ne by (left; congruence).
    split; [ by apply dle_total | apply dle_refl ].
Qed.

(** After the symmetrizing loops every cell off the diagonal is at most the
    mirrored cell of the matrix the loops started from. *)
Lemma symmetrize_pass N g :
  square N g →
  pass_inv N g (λ a b, mget Inf g b a)
           (λ a b, a ≠ b ∧ a < N ∧ b < N) (symmetrize N g).
Proof.
  intros Hsq. unfold symmetrize.
  set (B := λ a b, mget Inf g b a).
  apply (pass_inv_weaken N g B
           (λ a b, a ≠ b ∧ a < N ∧ b < N ∧ a `min` b < 0 + N)).
  2: { intros a b (? & ? & ?). split_and!; try done. lia. }
  apply (foldl_seq_inv
           (λ i0 gt, pass_inv N g B
                       (λ a b, a ≠ b ∧ a < N ∧ b < N ∧ a `min` b < i0) gt)).
  { split_and!; [ done | apply below_refl | ]. intros a b (_ & _ & _ & H). lia. }
  intros i gt Hi Hinv. unfold symmetrize_row.
  apply (pass_inv_weaken N g B
           (λ a b, a ≠ b ∧ a < N ∧ b < N
                   ∧ (a `min` b < i ∨ (a `min` b = i ∧ a `max` b < S i + (N - S i))))).
  2: { intros a b (? & ? & ? & ?). split_and!; try done. lia. }
  apply (foldl_seq_inv
           (λ j0 gt', pass_inv N g B
                        (λ a b, a ≠ b ∧ a < N ∧ b < N
                                ∧ (a `min` b < i ∨ (a `min` b = i ∧ a `max` b < j0)))
                        gt')).
  { eapply pass_inv_weaken; [ exact Hinv | ].
    intros a b (? & ? & ? & [?|[? ?]]); split_and!; try done. lia. }
  intros j gt' Hj Hinv'.
  apply (pass_inv_step N g B _ _ gt' _ Hinv').
  - apply symmetrize_cell_square, Hinv'.
  - apply symmetrize_cell_below.
  - intros a b (Hab & Ha & Hb & Hdone).
    destruct (decide (a `min` b = i ∧ a `max` b = j)) as [[Hmin Hmax]|Hother].
    2: { left. split_and!; try done. lia. }
    right. destruct Hinv' as (Hsq' & Hbelow & _).
    destruct (symmetrize_cell_bound N gt' i j Hsq') as [H1 H2]; [ lia | lia | lia | ].
    destruct (decide (a < b)).
    + assert (a = i) as -> by lia. assert (b = j) as -> by lia.
      eapply dle_trans; [ exact H1 | apply Hbelow ].
    + assert (b = i) as -> by lia. assert (a = j) as -> by lia.
      eapply dle_trans; [ exact H2 | apply Hbelow ].
Qed.

Lemma zeros_to_inf_square N graph : square N graph → square N (zeros_to_inf graph).
Proof. apply square_fmap. Qed.

Lemma work_matrix_square graph directed :
  square (nrows graph) graph → square (nrows graph) (work_matrix graph directed).
Proof.
  intros Hsq. unfold work_matrix. cbn zeta.
  destruct (zero_diagonal_cells (nrows graph) (zeros_to_inf graph)) as (Hz & _);
    [ by apply zeros_to_inf_square | ].
  destruct directed; [ done | ]. by destruct (symmetrize_pass _ _ Hz) as (? & _).
Qed.

Lemma mget_inf_to_zeros_eq g i j :
  mget 0%Z (inf_to_zeros g) i j
  = match mget Inf g i j with Fin z => z | Inf => 0%Z end.
Proof.
  unfold mget, inf_to_zeros. rewrite list_lookup_fmap.
  destruct (g !! i) as [r|]; simpl; [ | done ].
  rewrite list_lookup_fmap. destruct (r !! j) as [[z|]|]; simpl; done.
Qed.

Lemma _floyd_warshall_work_matrix graph directed :
  _floyd_warshall graph directed
  = inf_to_zeros (relax_all (nrows graph) (work_matrix graph directed)).
Proof. unfold _floyd_warshall, work_matrix. cbn zeta. by destruct directed. Qed.

(** ** The passes keep the diagonal, the signs and the symmetry *)

Lemma relaxed_nonneg g k i j z :
  nonneg_cells g → relaxed g k i j = Fin z → (0 ≤ z)%Z.
Proof.
  intros Hg. unfold relaxed. cbn zeta. destruct (dltb _ _); [ | by apply Hg ].
  intros Hz.
  pose proof (dadd_nonneg _ _ (nonneg_cells_dle g i k Hg) (nonneg_cells_dle g k j Hg))
    as Hle.
  rewrite Hz in Hle. by apply dle_Fin in Hle.
Qed.

Lemma relax_through_good N g k : good N g → k < N → good N (relax_through N g k).
Proof.
  intros Hg Hk. pose proof (relax_through_cells N g k Hg Hk) as Hcells.
  destruct Hg as (Hsq & Hdiag & Hpos). split_and!.
  - by apply relax_through_square.
  - intros i Hi. rewrite Hcells. unfold relaxed. cbn zeta. rewrite (Hdiag i Hi).
    rewrite dltb_irrefl_dle; [ done | ].
    apply dadd_nonneg; by apply nonneg_cells_dle.
  - intros i j z. rewrite Hcells. by apply relaxed_nonneg.
Qed.

Lemma relax_through_symmetric N g k :
  good N g → k < N →
  (∀ i j, mget Inf g i j = mget Inf g j i) →
  ∀ i j, mget Inf (relax_through N g k) i j = mget Inf (relax_through N g k) j i.
Proof.
  intros Hg Hk Hsym i j. rewrite !(relax_through_cells N g k Hg Hk).
  unfold relaxed. cbn zeta.
  by rewrite (Hsym j i), (Hsym j k), (Hsym k i), dadd_comm.
Qed.

Lemma relax_all_good N W : good N W → good N (relax_all N W).
Proof.
  intros HW. unfold relax_all.
  apply (foldl_seq_inv (λ _ g, good N g) (relax_through N) N 0 W); [ done | ].
  intros k g Hk Hg. apply relax_through_good; [ done | lia ].
Qed.

Lemma relax_all_symmetric N W :
  good N W → (∀ i j, mget Inf W i j = mget Inf W j i) →
  ∀ i j, mget Inf (relax_all N W) i j = mget Inf (relax_all N W) j i.
Proof.
  intros HW Hsym. unfold relax_all.
  pose proof (foldl_seq_inv
    (λ _ g, good N g ∧ ∀ i j, mget Inf g i j = mget Inf g j i)
    (relax_through N) N 0 W) as H.
  apply H; [ done | ].
  intros k g Hk [Hg Hs]. split.
  - apply relax_through_good; [ done | lia ].
  - apply relax_through_symmetric; [ done | lia | done ].
Qed.

(** ** The work matrix *)

Lemma symmetrize_values N g a b :
  mget Inf (symmetrize N g) a b = mget Inf g a b
  ∨ mget Inf (symmetrize N g) a b = mget Inf g b a.
Proof.
  revert a b. unfold symmetrize.
  apply (foldl_preserves
           (λ gt, ∀ a b, mget Inf gt a b = mget Inf g a b
                         ∨ mget Inf gt a b = mget Inf g b a)).
  2: { intros a b. by left. }
  intros gt i Hgt. unfold symmetrize_row. revert gt Hgt.
  apply (foldl_preserves
           (λ gt, ∀ a b, mget Inf gt a b = mget Inf g a b
                         ∨ mget Inf gt a b = mget Inf g b a)).
  intros gt j Hgt a b. unfold symmetrize_cell.
  destruct (dleb _ _).
  - destruct (mget_mset_cases Inf gt i j (mget Inf gt j i) a b) as [->|(-> & -> & ->)];
      [ apply Hgt | ].
    destruct (Hgt j i) as [->| ->]; [ by right | by left ].
  - destruct (mget_mset_cases Inf gt j i (mget Inf gt i j) a b) as [->|(-> & -> & ->)];
      [ apply Hgt | ].
    destruct (Hgt i j) as [->| ->]; [ by right | by left ].
Qed.

Lemma zero_diagonal_nonneg graph :
  square (nrows graph) graph → nonnegative graph →
  nonneg_cells (zero_diagonal (nrows graph) (zeros_to_inf graph)).
Proof.
  intros Hsq Hg i j z.
  destruct (zero_diagonal_cells (nrows graph) (zeros_to_inf graph)) as (Hz & Hoff & Hdiag);
    [ by apply zeros_to_inf_square | ].
  destruct (decide (i = j)) as [->|Hij].
  - destruct (decide (j < nrows graph)) as [Hj|Hj].
    + rewrite (Hdiag j Hj). intros [= <-]. done.
    + rewrite (mget_Inf_out_of_range (nrows graph)); [ done | done | lia ].
  - rewrite (Hoff i j Hij), mget_zeros_to_inf_eq.
    destruct (bool_decide _); [ done | ]. intros [= <-]. by apply mget_nonnegative.
Qed.

Lemma work_matrix_good graph directed :
  square (nrows graph) graph → nonnegative graph →
  good (nrows graph) (work_matrix graph directed).
Proof.
  intros Hsq Hg. split_and!.
  - by apply work_matrix_square.
  - intros i Hi. unfold work_matrix. cbn zeta.
    destruct (zero_diagonal_cells (nrows graph) (zeros_to_inf graph))
      as (Hz & Hoff & Hdiag); [ by apply zeros_to_inf_square | ].
    destruct directed; [ by apply Hdiag | ].
    destruct (symmetrize_values (nrows graph)
                (zero_diagonal (nrows graph) (zeros_to_inf graph)) i i) as [->| ->];
      by apply Hdiag.
  - pose proof (zero_diagonal_nonneg graph Hsq Hg) as Hpos.
    unfold work_matrix. cbn zeta. destruct directed; [ done | ].
    intros i j z.
    destruct (symmetrize_values (nrows graph)
                (zero_diagonal (nrows graph) (zeros_to_inf graph)) i j) as [->| ->];
      apply Hpos.
Qed.

Lemma symmetrize_symmetric N g i j :
  square N g → mget Inf (symmetrize N g) i j = mget Inf (symmetrize N g) j i.
Proof.
  intros Hsq. destruct (decide (i = j)) as [->|Hij]; [ done | ].
  destruct (symmetrize_pass N g Hsq) as (Hsq' & Hbelow & Hdone).
  destruct (decide (i < N ∧ j < N)) as [[Hi Hj]|Hout].
  2: { rewrite !(mget_Inf_out_of_range N); [ done | done | lia | done | lia ]. }
  assert (Hhalf : ∀ a b, a ≠ b → a < N → b < N →
            dle (mget Inf (symmetrize N g) a b) (mget Inf (symmetrize N g) b a)).
  { intros a b Hab Ha Hb.
    destruct (symmetrize_values N g b a) as [->| ->].
    - by apply (Hdone a b).
    - apply Hbelow. }
  apply dle_antisym; apply Hhalf; done || lia.
Qed.

Lemma work_matrix_symmetric graph i j :
  square (nrows graph) graph →
  mget Inf (work_matrix graph false) i j = mget Inf (work_matrix graph false) j i.
Proof.
  intros Hsq. unfold work_matrix. cbn zeta. apply symmetrize_symmetric.
  destruct (zero_diagonal_cells (nrows graph) (zeros_to_inf graph)) as (Hz & _);
    [ by apply zeros_to_inf_square | done ].
Qed.

(** ** The result of the dense algorithm *)

Lemma relax_all_square N g : square N g → square N (relax_all N g).
Proof.
  unfold relax_all. apply (foldl_preserves (square N)).
  intros a k Ha. by apply relax_through_square.
Qed.

Lemma _floyd_warshall_square graph directed :
  square (nrows graph) graph → square (nrows graph) (_floyd_warshall graph directed).
Proof.
  intros Hsq. rewrite _floyd_warshall_work_matrix. unfold inf_to_zeros.
  apply square_fmap, relax_all_square. by apply work_matrix_square.
Qed.

Lemma _floyd_warshall_nonneg graph directed i j :
  square (nrows graph) graph → nonnegative graph →
  (0 ≤ mget 0%Z (_floyd_warshall graph directed) i j)%Z.
Proof.
  intros Hsq Hg. rewrite _floyd_warshall_work_matrix, mget_inf_to_zeros_eq.
  destruct (relax_all_good _ _ (work_matrix_good graph directed Hsq Hg))
    as (_ & _ & Hpos).
  destruct (mget Inf _ i j) as [z|] eqn:Hz; [ by apply (Hpos i j) | done ].
Qed.

Lemma _floyd_warshall_diagonal graph directed i :
  square (nrows graph) graph → nonnegative graph →
  mget 0%Z (_floyd_warshall graph directed) i i = 0%Z.
Proof.
  intros Hsq Hg. rewrite _floyd_warshall_work_matrix, mget_inf_to_zeros_eq.
  destruct (relax_all_good _ _ (work_matrix_good graph directed Hsq Hg))
    as (Hsq' & Hdiag & _).
  destruct (decide (i < nrows graph)) as [Hi|Hi].
  - by rewrite (Hdiag i Hi).
  - rewrite (mget_Inf_out_of_range (nrows graph)); [ done | done | lia ].
Qed.

Lemma _floyd_warshall_symmetric graph i j :
  square (nrows graph) graph → nonnegative graph →
  mget 0%Z (_floyd_warshall graph false) i j
  = mget 0%Z (_floyd_warshall graph false) j i.
Proof.
  intros Hsq Hg. rewrite _floyd_warshall_work_matrix, !mget_inf_to_zeros_eq.
  rewrite (relax_all_symmetric _ _ (work_matrix_good graph false Hsq Hg)); [ done | ].
  intros a b. by apply work_matrix_symmetric.
Qed.

Lemma walk_source_in_range graph directed i j z :
  square (nrows graph) graph → walk graph directed i j z → i ≠ j → i < nrows graph.
Proof.
  intros Hsq [i'|u v j' w z' Hs _] Hne; [ done | ].
  by destruct (step_in_range _ _ _ _ _ Hsq Hs).
Qed.

Lemma walk_target_in_range graph directed i j z :
  square (nrows graph) graph → walk graph directed i j z → i ≠ j → j < nrows graph.
Proof.
  intros Hsq H. induction H as [i|u v j w z Hs Hw IH]; intros Hne; [ done | ].
  destruct (decide (v = j)) as [->|Hvj]; [ | by apply IH ].
  by destruct (step_in_range _ _ _ _ _ Hsq Hs).
Qed.

(** ** The dense relaxation where the sums are exact *)

Lemma xadd_Fin_inv a b z :
  xadd a b = Fin z → ∃ x y, a = Fin x ∧ b = Fin y ∧ z = (x + y)%Z.
Proof. destruct a as [x|], b as [y|]; try done. intros [= <-]. by exists x, y. Qed.

Lemma xadd_Inf_r a : xadd a Inf = Inf.
Proof. by destruct a. Qed.

Lemma wweight_app g i l1 k l2 j :
  wweight g i (l1 ++ k :: l2) j = xadd (wweight g i l1 k) (wweight g k l2 j).
Proof.
  revert i. induction l1 as [|x l1 IH]; intros i; simpl; [ done | ].
  by rewrite IH, xadd_assoc.
Qed.

Lemma split_at_vertex k (l : list nat) :
  (∀ x, x ∈ l → x < S k) →
  (∀ x, x ∈ l → x < k)
  ∨ ∃ l1 l2, l = l1 ++ k :: l2 ∧ (∀ x, x ∈ l1 → x < k) ∧ (∀ x, x ∈ l2 → x < S k).
Proof.
  induction l as [|y l IH]; intros Hl.
  - left. intros x Hx. by apply elem_of_nil in Hx.
  - assert (Hy : y < S k) by (apply Hl; by left).
    assert (Hl' : ∀ x, x ∈ l → x < S k) by (intros x Hx; apply Hl; by right).
    destruct (decide (y = k)) as [->|Hne].
    + right. exists [], l. split_and!; [ done | | done ].
      intros x Hx. by apply elem_of_nil in Hx.
    + destruct (IH Hl') as [Hall|(l1 & l2 & -> & H1 & H2)].
      * left. intros x [->|Hx]%elem_of_cons; [ lia | by apply Hall ].
      * right. exists (y :: l1), l2. split_and!; [ done | | done ].
        intros x [->|Hx]%elem_of_cons; [ lia | by apply H1 ].
Qed.

Lemma wweight_nonneg W i l j : nonneg_cells W → dle (Fin 0) (wweight W i l j).
Proof.
  intros HW. revert i. induction l as [|x l IH]; intros i; simpl.
  - by apply nonneg_cells_dle.
  - change (Fin 0) with (xadd (Fin 0) (Fin 0)). apply xadd_mono; [ | apply IH ].
    by apply nonneg_cells_dle.
Qed.

Lemma wweight_out_of_range N W i l j :
  square N W → N ≤ i ∨ N ≤ j → wweight W i l j = Inf.
Proof.
  intros HW. revert i. induction l as [|x l IH]; intros i Hout; simpl.
  - by apply (mget_Inf_out_of_range N).
  - destruct Hout as [Hi|Hj].
    + rewrite (mget_Inf_out_of_range N W i x HW); [ done | by left ].
    + rewrite (IH x); [ apply xadd_Inf_r | by right ].
Qed.

Lemma wweight_bound W M i l j z :
  nonneg_cells W → bounded M W → wweight W i l j = Fin z →
  (0 ≤ z ≤ (Z.of_nat (length l) + 1) * M)%Z.
Proof.
  intros Hpos HM. revert i z. induction l as [|x l IH]; intros i z; simpl.
  - intros Hz. pose proof (Hpos _ _ _ Hz). pose proof (HM _ _ _ Hz). lia.
  - intros (a & b & Ha & Hb & ->)%xadd_Fin_inv.
    pose proof (Hpos _ _ _ Ha). pose proof (HM _ _ _ Ha).
    pose proof (IH _ _ Hb). lia.
Qed.

Lemma distinct_below_length (l : list nat) k :
  NoDup l → (∀ x, x ∈ l → x < k) → length l ≤ k.
Proof.
  intros Hnd Hl.
  assert (Hsub : l ⊆+ seq 0 k).
  { apply NoDup_submseteq; [ done | ]. intros x Hx. apply elem_of_seq.
    specialize (Hl x Hx). lia. }
  apply submseteq_length in Hsub. by rewrite length_seq in Hsub.
Qed.

Lemma realised_bound W M k g i j z :
  nonneg_cells W → bounded M W → realised W k g →
  mget Inf g i j = Fin z → (0 ≤ z ≤ (Z.of_nat k + 1) * M)%Z.
Proof.
  intros Hpos HM Hreal Hz. destruct (Hreal i j z Hz) as (l & Hnd & Hl & Hw).
  pose proof (wweight_bound W M i l j z Hpos HM Hw) as [H0 Hle].
  pose proof (distinct_below_length l k Hnd Hl). split; [ done | ].
  assert (0 ≤ M)%Z by nia. nia.
Qed.

Lemma opt_start W : opt W 0 W.
Proof.
  intros i j [|x l] Hl; simpl; [ apply dle_refl | ].
  specialize (Hl x). assert (x < 0) by (apply Hl; by left). lia.
Qed.

Lemma realised_start W : realised W 0 W.
Proof.
  intros i j z Hz. exists []. split_and!; [ constructor | | done ].
  intros x Hx. by apply elem_of_nil in Hx.
Qed.

(** A walk that leaves [k] and may come back to it weighs at least the
    cell from [k]: a detour back to [k] weighs at least 0. *)
Lemma opt_tail W k g j :
  nonneg_cells W → opt W k g →
  ∀ n l, length l ≤ n → (∀ x, x ∈ l → x < S k) →
         dle (mget Inf g k j) (wweight W k l j).
Proof.
  intros HW Hopt. induction n as [|n IH]; intros l Hn Hl.
  - destruct l; [ | simpl in Hn; lia ]. apply Hopt. intros x Hx.
    by apply elem_of_nil in Hx.
  - destruct (split_at_vertex k l Hl) as [Hall|(l1 & l2 & -> & H1 & H2)];
      [ by apply Hopt | ].
    rewrite wweight_app. rewrite length_app in Hn. simpl in Hn.
    eapply dle_trans; [ apply (IH l2); [ lia | done ] | ].
    apply dle_xadd_l. by apply wweight_nonneg.
Qed.

Lemma opt_step W N k g g' :
  square N W → nonneg_cells W → opt W k g →
  (∀ i j, dle (mget Inf g' i j) (mget Inf g i j)) →
  (∀ i j, dle (mget Inf g' i j) (xadd (mget Inf g i k) (mget Inf g k j))) →
  opt W (S k) g'.
Proof.
  intros HsqW HW Hopt Hbelow Hbound i j l Hl.
  destruct (split_at_vertex k l Hl) as [Hall|(l1 & l2 & -> & H1 & H2)].
  - eapply dle_trans; [ apply Hbelow | by apply Hopt ].
  - rewrite wweight_app.
    eapply dle_trans; [ by apply Hbound | ].
    apply xadd_mono; [ by apply Hopt | ].
    by apply (opt_tail W k g j HW Hopt (length l2) l2).
Qed.

(** Two walks that meet in a vertex [v] contain a walk that passes [v]
    once, at most as heavy as the two together. *)
Lemma wweight_shortcut W i l1 k l2 j v a b :
  nonneg_cells W → v ∈ l1 → v ∈ l2 →
  wweight W i l1 k = Fin a → wweight W k l2 j = Fin b →
  ∃ l, (∀ x, x ∈ l → x ∈ l1 ∨ x ∈ l2) ∧ dle (wweight W i l j) (Fin (a + b)).
Proof.
  intros HW (p1 & q1 & ->)%list_elem_of_split (p2 & q2 & ->)%list_elem_of_split.
  rewrite !wweight_app.
  intros (a1 & a2 & Ha1 & Ha2 & ->)%xadd_Fin_inv (b1 & b2 & Hb1 & Hb2 & ->)%xadd_Fin_inv.
  exists (p1 ++ v :: q2). split.
  - intros x. rewrite !elem_of_app, !elem_of_cons. tauto.
  - rewrite wweight_app, Ha1, Hb2. simpl. apply dle_Fin.
    pose proof (wweight_nonneg W v q1 k HW) as H1. rewrite Ha2 in H1.
    pose proof (wweight_nonneg W k p2 v HW) as H2. rewrite Hb1 in H2.
    apply dle_Fin in H1, H2. lia.
Qed.

Lemma realised_step W k g g' :
  nonneg_cells W → opt W k g → realised W k g →
  (∀ i j, mget Inf g' i j = mget Inf g i j
          ∨ (mget Inf g' i j = xadd (mget Inf g i k) (mget Inf g k j)
             ∧ dltb (xadd (mget Inf g i k) (mget Inf g k j)) (mget Inf g i j) = true)) →
  realised W (S k) g'.
Proof.
  intros HW Hopt Hreal Hcells i j z Hz.
  destruct (Hcells i j) as [Heq|[Heq Hlt]].
  - rewrite Heq in Hz. destruct (Hreal i j z Hz) as (l & Hnd & Hl & Hw).
    exists l. split_and!; [ done | | done ].
    intros x Hx. specialize (Hl x Hx). lia.
  - rewrite Heq in Hz. rewrite Hz in Hlt.
    apply xadd_Fin_inv in Hz as (a & b & Ha & Hb & ->).
    destruct (Hreal i k a Ha) as (l1 & Hnd1 & Hl1 & Hw1).
    destruct (Hreal k j b Hb) as (l2 & Hnd2 & Hl2 & Hw2).
    exists (l1 ++ k :: l2). split_and!.
    + apply NoDup_app. split_and!; [ done | | ].
      * intros x Hx1 [->|Hx2]%elem_of_cons.
        { specialize (Hl1 k Hx1). lia. }
        destruct (wweight_shortcut W i l1 k l2 j x a b HW Hx1 Hx2 Hw1 Hw2)
          as (l & Hl & Hle).
        assert (Hbelow : ∀ y, y ∈ l → y < k).
        { intros y Hy. destruct (Hl y Hy); [ by apply Hl1 | by apply Hl2 ]. }
        pose proof (dle_trans _ _ _ (Hopt i j l Hbelow) Hle) as Hcell.
        apply dltb_irrefl_dle in Hcell. congruence.
      * apply NoDup_cons. split; [ | done ].
        intros Hk. specialize (Hl2 k Hk). lia.
    + intros x [Hx|[->|Hx]%elem_of_cons]%elem_of_app; [ | lia | ].
      * specialize (Hl1 x Hx). lia.
      * specialize (Hl2 x Hx). lia.
    + by rewrite wweight_app, Hw1, Hw2.
Qed.

Lemma relaxed_exact W M k g i j :
  nonneg_cells W → bounded M W → realised W k g →
  (2 * ((Z.of_nat k + 1) * M) ≤ 2 ^ 53)%Z →
  relaxed g k i j
  = if dltb (xadd (mget Inf g i k) (mget Inf g k j)) (mget Inf g i j)
    then xadd (mget Inf g i k) (mget Inf g k j) else mget Inf g i j.
Proof.
  intros HW HM Hreal Hfit. unfold relaxed. cbn zeta.
  assert (Hsum : dadd (mget Inf g i k) (mget Inf g k j)
                 = xadd (mget Inf g i k) (mget Inf g k j)).
  { destruct (mget Inf g i k) as [a|] eqn:Ha; [ | done ].
    destruct (mget Inf g k j) as [b|] eqn:Hb; [ | done ].
    pose proof (realised_bound W M k g i k a HW HM Hreal Ha).
    pose proof (realised_bound W M k g k j b HW HM Hreal Hb).
    apply dadd_exact; lia. }
  by rewrite Hsum.
Qed.

Lemma relax_through_exact N M W k g :
  good N W → bounded M W → (2 * (Z.of_nat N * M) ≤ 2 ^ 53)%Z → k < N →
  exact_inv N W k g → exact_inv N W (S k) (relax_through N g k).
Proof.
  intros HW HM Hfit Hk (Hg & Hopt & Hreal).
  pose proof HW as (HsqW & HdiagW & HposW).
  assert (0 ≤ M)%Z by (apply (HM k k); by apply HdiagW).
  assert (Hfit' : (2 * ((Z.of_nat k + 1) * M) ≤ 2 ^ 53)%Z) by nia.
  pose proof (relax_through_cells N g k Hg Hk) as Hcells.
  split_and!.
  - by apply relax_through_good.
  - apply (opt_step W N k g); [ done | done | done | | ].
    + intros i j. rewrite Hcells, (relaxed_exact W M k g i j HposW HM Hreal Hfit').
      destruct (dltb _ _) eqn:Hlt; [ by apply dltb_dle | apply dle_refl ].
    + intros i j. rewrite Hcells, (relaxed_exact W M k g i j HposW HM Hreal Hfit').
      destruct (dltb _ _) eqn:Hlt; [ apply dle_refl | by apply dltb_false_dle ].
  - apply (realised_step W k g); [ done | done | done | ].
    intros i j. rewrite Hcells, (relaxed_exact W M k g i j HposW HM Hreal Hfit').
    destruct (dltb _ _) eqn:Hlt; [ by right | by left ].
Qed.

Lemma relax_all_exact N M W :
  good N W → bounded M W → (2 * (Z.of_nat N * M) ≤ 2 ^ 53)%Z →
  exact_inv N W N (relax_all N W).
Proof.
  intros HW HM Hfit. unfold relax_all.
  apply (foldl_seq_inv (λ k g, exact_inv N W k g) (relax_through N) N 0 W).
  - split_and!; [ done | apply opt_start | apply realised_start ].
  - intros k g Hk Hinv. apply (relax_through_exact N M); [ done | done | done | lia | done ].
Qed.

(** ** Finite cells are weights of walks *)

Lemma mset_sound graph directed g i j v :
  sound graph directed g → (∀ z, v = Fin z → walk graph directed i j z) →
  sound graph directed (mset g i j v).
Proof.
  intros Hg Hv a b z Hz.
  destruct (mget_mset_cases Inf g i j v a b) as [Heq|(-> & -> & Heq)].
  - apply Hg. by rewrite <- Heq.
  - apply Hv. by rewrite <- Heq.
Qed.

Lemma zeros_to_inf_sound graph directed : sound graph directed (zeros_to_inf graph).
Proof.
  intros i j z. rewrite mget_zeros_to_inf_eq. case_bool_decide as Hz; [ done | ].
  intros [= <-]. apply walk_edge. by left.
Qed.

Lemma zero_diagonal_sound graph directed N g :
  sound graph directed g → sound graph directed (zero_diagonal N g).
Proof.
  unfold zero_diagonal. apply (foldl_preserves (sound graph directed)).
  intros a x Ha. apply mset_sound; [ done | ]. intros z [= <-]. constructor.
Qed.

Lemma symmetrize_sound graph N g :
  sound graph false g → sound graph false (symmetrize N g).
Proof.
  unfold symmetrize. apply (foldl_preserves (sound graph false)).
  intros a i Ha. unfold symmetrize_row. revert a Ha.
  apply (foldl_preserves (sound graph false)).
  intros a j Ha. unfold symmetrize_cell.
  destruct (dleb (mget Inf a j i) (mget Inf a i j)).
  - apply mset_sound; [ done | ]. intros z Hz. by apply walk_reverse, Ha.
  - apply mset_sound; [ done | ]. intros z Hz. by apply walk_reverse, Ha.
Qed.

Lemma work_matrix_sound graph directed : sound graph directed (work_matrix graph directed).
Proof.
  unfold work_matrix. cbn zeta.
  pose proof (zero_diagonal_sound graph directed (nrows graph) _
                (zeros_to_inf_sound graph directed)) as H.
  destruct directed; [ done | ]. by apply symmetrize_sound.
Qed.

(** A walk in the work matrix is a walk of the graph, of the same weight. *)
Lemma wweight_walk graph directed W i l j z :
  sound graph directed W → wweight W i l j = Fin z → walk graph directed i j z.
Proof.
  intros HW. revert i z. induction l as [|x l IH]; intros i z; simpl.
  - apply HW.
  - intros (a & b & Ha & Hb & ->)%xadd_Fin_inv.
    eapply walk_app; [ by apply HW | by apply IH ].
Qed.

Lemma at_most_cell M graph i j :
  at_most M graph → (0 ≤ M)%Z → (mget 0%Z graph i j ≤ M)%Z.
Proof.
  intros Hg HM. unfold mget. destruct (graph !! i) as [r|] eqn:Hr; simpl; [ | done ].
  destruct (r !! j) as [z|] eqn:Hz; simpl; [ | done ].
  unfold at_most in Hg. rewrite Forall_lookup in Hg.
  pose proof (Hg i r Hr) as Hrow. rewrite Forall_lookup in Hrow. by apply (Hrow j z).
Qed.

Lemma at_most_nonneg M graph :
  square (nrows graph) graph → nonnegative graph → at_most M graph →
  0 < nrows graph → (0 ≤ M)%Z.
Proof.
  intros [Hlen Hrows] Hg HM HN.
  destruct (lookup_lt_is_Some_2 graph 0) as [r Hr]; [ unfold nrows in HN; lia | ].
  destruct (lookup_lt_is_Some_2 r 0) as [w Hw]; [ rewrite (Hrows 0 r Hr); lia | ].
  unfold nonnegative in Hg. unfold at_most in HM. rewrite Forall_lookup in Hg, HM.
  pose proof (Hg 0 r Hr) as H1. pose proof (HM 0 r Hr) as H2.
  rewrite Forall_lookup in H1, H2. specialize (H1 0 w Hw). specialize (H2 0 w Hw).
  simpl in H1, H2. lia.
Qed.

Lemma work_matrix_bounded M graph directed :
  square (nrows graph) graph → nonnegative graph → at_most M graph →
  bounded M (work_matrix graph directed).
Proof.
  intros Hsq Hg HM.
  destruct (zero_diagonal_cells (nrows graph) (zeros_to_inf graph)) as (Hz & Hoff & Hdiag);
    [ by apply zeros_to_inf_square | ].
  assert (Hbase : bounded M (zero_diagonal (nrows graph) (zeros_to_inf graph))).
  { intros i j z Hcell.
    assert (HN : 0 < nrows graph).
    { assert (Hne : mget Inf (zero_diagonal (nrows graph) (zeros_to_inf graph)) i j ≠ Inf)
        by congruence.
      apply (mget_in_range Inf _ (nrows graph)) in Hne; [ lia | done ]. }
    pose proof (at_most_nonneg M graph Hsq Hg HM HN) as HM0.
    destruct (decide (i = j)) as [->|Hij].
    - destruct (decide (j < nrows graph)) as [Hj|Hj].
      + rewrite (Hdiag j Hj) in Hcell. by injection Hcell as <-.
      + rewrite (mget_Inf_out_of_range (nrows graph)) in Hcell; [ done | done | lia ].
    - rewrite (Hoff i j Hij), mget_zeros_to_inf_eq in Hcell.
      destruct (bool_decide _); [ done | ]. injection Hcell as <-.
      by apply at_most_cell. }
  unfold work_matrix. cbn zeta. destruct directed; [ done | ].
  intros i j z.
  destruct (symmetrize_values (nrows graph)
              (zero_diagonal (nrows graph) (zeros_to_inf graph)) i j) as [->| ->];
    apply Hbase.
Qed.

Lemma work_matrix_exact M graph directed :
  square (nrows graph) graph → nonnegative graph → in_exact_range M graph →
  exact_inv (nrows graph) (work_matrix graph directed) (nrows graph)
            (relax_all (nrows graph) (work_matrix graph directed)).
Proof.
  intros Hsq Hg [HM Hfit].
  destruct (decide (0 < nrows graph)) as [HN|HN].
  - pose proof (at_most_nonneg M graph Hsq Hg HM HN).
    apply (relax_all_exact _ M);
      [ by apply work_matrix_good | by apply work_matrix_bounded | nia ].
  - replace (nrows graph) with 0 by lia. unfold relax_all. simpl.
    split_and!; [ | apply opt_start | apply realised_start ].
    replace 0 with (nrows graph) by lia. by apply work_matrix_good.
Qed.

(** Every step of a walk is an entry of the work matrix, at most as heavy. *)
Lemma work_matrix_step graph directed u v w :
  square (nrows graph) graph → nonnegative graph →
  step graph directed u v w →
  dle (mget Inf (work_matrix graph directed) u v) (Fin w).
Proof.
  intros Hsq Hg Hstep.
  pose proof (step_positive _ _ _ _ _ Hg Hstep) as Hw.
  destruct (step_in_range _ _ _ _ _ Hsq Hstep) as [Hu Hv].
  destruct (decide (u = v)) as [->|Hne].
  { destruct (work_matrix_good graph directed Hsq Hg) as (_ & Hdiag & _).
    rewrite (Hdiag v Hv). apply dle_Fin. lia. }
  unfold work_matrix. cbn zeta.
  destruct (zero_diagonal_cells (nrows graph) (zeros_to_inf graph))
    as (Hz & Hoff & _); [ by apply zeros_to_inf_square | ].
  assert (Hcell : ∀ a b, a ≠ b → mget 0%Z graph a b = w →
            mget Inf (zero_diagonal (nrows graph) (zeros_to_inf graph)) a b = Fin w).
  { intros a b Hab Hc. rewrite Hoff by done. rewrite mget_zeros_to_inf_eq, Hc.
    rewrite bool_decide_eq_false_2 by lia. done. }
  destruct directed.
  - destruct Hstep as [[Hc _]|[? _]]; [ | done ].
    rewrite (Hcell u v Hne Hc). apply dle_refl.
  - destruct (symmetrize_pass _ _ Hz) as (_ & Hbelow & Hbound).
    destruct Hstep as [[Hc _]|[_ [Hc _]]].
    + eapply dle_trans; [ apply Hbelow | ]. rewrite (Hcell u v Hne Hc). apply dle_refl.
    + eapply dle_trans; [ apply (Hbound u v); by split_and! | ].
      rewrite (Hcell v u) by done. apply dle_refl.
Qed.

(** A walk of the graph is a walk in the work matrix, at most as heavy. *)
Lemma walk_wweight graph directed i j z :
  square (nrows graph) graph → nonnegative graph →
  walk graph directed i j z → i < nrows graph →
  ∃ l, (∀ x, x ∈ l → x < nrows graph)
       ∧ dle (wweight (work_matrix graph directed) i l j) (Fin z).
Proof.
  intros Hsq Hg H. induction H as [i|u v j w z Hs _ IH]; intros Hi.
  - exists []. split; [ intros x Hx; by apply elem_of_nil in Hx | ].
    simpl. destruct (work_matrix_good graph directed Hsq Hg) as (_ & Hdiag & _).
    rewrite (Hdiag i Hi). apply dle_refl.
  - destruct (step_in_range _ _ _ _ _ Hsq Hs) as [_ Hv].
    destruct (IH Hv) as (l & Hl & Hle). exists (v :: l). split.
    + intros x [->|Hx]%elem_of_cons; [ done | by apply Hl ].
    + simpl. change (Fin (w + z)) with (xadd (Fin w) (Fin z)).
      apply xadd_mono; [ by apply work_matrix_step | done ].
Qed.

(** The cell of the relaxed matrix for a pair joined by a walk: finite, the
    weight of a walk, and at most the weight of the given walk. *)
Lemma relaxed_cell_shortest M graph directed i j z :
  square (nrows graph) graph → nonnegative graph → in_exact_range M graph →
  walk graph directed i j z → i < nrows graph →
  ∃ z', mget Inf (relax_all (nrows graph) (work_matrix graph directed)) i j = Fin z'
        ∧ (z' ≤ z)%Z ∧ walk graph directed i j z'.
Proof.
  intros Hsq Hg HM Hwalk Hi.
  destruct (work_matrix_exact M graph directed Hsq Hg HM) as (_ & Hopt & Hreal).
  destruct (walk_wweight graph directed i j z Hsq Hg Hwalk Hi) as (l & Hl & Hle).
  pose proof (dle_trans _ _ _ (Hopt i j l Hl) Hle) as Hcell.
  apply dle_Fin_inv in Hcell as (z' & Hz' & Hle').
  exists z'. split_and!; [ done | done | ].
  destruct (Hreal i j z' Hz') as (l' & _ & _ & Hw).
  by apply (wweight_walk graph directed _ i l' j z' (work_matrix_sound graph directed)).
Qed.

(** A nonzero entry of the result is the weight of a walk. *)
Lemma _floyd_warshall_sound M graph directed i j :
  square (nrows graph) graph → nonnegative graph → in_exact_range M graph →
  mget 0%Z (_floyd_warshall graph directed) i j ≠ 0%Z →
  walk graph directed i j (mget 0%Z (_floyd_warshall graph directed) i j).
Proof.
  intros Hsq Hg HM. rewrite _floyd_warshall_work_matrix, mget_inf_to_zeros_eq.
  destruct (mget Inf (relax_all _ _) i j) as [z|] eqn:Hz; [ | done ].
  intros _. destruct (work_matrix_exact M graph directed Hsq Hg HM) as (_ & _ & Hreal).
  destruct (Hreal i j z Hz) as (l & _ & _ & Hw).
  by apply (wweight_walk graph directed _ i l j z (work_matrix_sound graph directed)).
Qed.

(** The entry for a pair joined by a walk is the weight of a walk, at most
    the weight of the given one. *)
Lemma _floyd_warshall_least M graph directed i j z :
  square (nrows graph) graph → nonnegative graph → in_exact_range M graph →
  walk graph directed i j z → i < nrows graph →
  walk graph directed i j (mget 0%Z (_floyd_warshall graph directed) i j)
  ∧ (mget 0%Z (_floyd_warshall graph directed) i j ≤ z)%Z.
Proof.
  intros Hsq Hg HM Hwalk Hi.
  destruct (relaxed_cell_shortest M graph directed i j z Hsq Hg HM Hwalk Hi)
    as (z' & Hcell & Hle & Hw).
  by rewrite _floyd_warshall_work_matrix, mget_inf_to_zeros_eq, Hcell.
Qed.

(** ** The values a search assigns *)

Lemma scan_effect_refl R nodes : scan_effect R nodes nodes.
Proof. split_and!; try done. intros j k Hk. by right. Qed.

Lemma scan_effect_trans R n1 n2 n3 :
  scan_effect R n1 n2 → scan_effect R n2 n3 → scan_effect R n1 n3.
Proof.
  intros (A1 & B1 & C1 & D1) (A2 & B2 & C2 & D2). split_and!.
  - intros j Hj. destruct (A1 j Hj) as [Hs Hv]. destruct (A2 j Hs) as [Hs' Hv'].
    split; [ done | congruence ].
  - intros j Hj. by apply B2, B1.
  - intros H. by apply C2, C1.
  - intros j k Hk. destruct (D2 j k Hk) as [?|Hk']; [ by left | by apply D1 ].
Qed.

(** The effect of [relax_edge] on states and values. *)
Lemma relax_edge_fields E s fuel neighbors distances v heap nodes F k st' :
  search_inv E s (heap, nodes) F → fld state nodes v = Some 2 → length nodes ≤ fuel →
  relax_edge fuel neighbors distances v (heap, nodes) k = Some st' →
  ∃ nb, neighbors !! k = Some nb
    ∧ (∀ j, j ≠ nb → fld state st'.2 j = fld state nodes j
                     ∧ fld val st'.2 j = fld val nodes j)
    ∧ ((fld state st'.2 nb = fld state nodes nb ∧ fld val st'.2 nb = fld val nodes nb
        ∧ seen nodes nb)
       ∨ (∃ d x, distances !! k = Some d ∧ fld val nodes v = Some x
                 ∧ fld state nodes nb ≠ Some 2 ∧ seen st'.2 nb
                 ∧ (fld state st'.2 nb = Some 1
                    ∨ fld state st'.2 nb = fld state nodes nb)
                 ∧ fld val st'.2 nb = Some (f64_add x d))).
Proof.
  intros [Hheap Hidx Hst Hreach] Hv Hfuel. simpl in *. unfold relax_edge.
  destruct (neighbors !! k) as [nb|] eqn:Enb; cbn [mbind option_bind]; [ | done ].
  destruct (nodes !! nb) as [cn|] eqn:Ecn; cbn [mbind option_bind]; [ | done ].
  pose proof (lookup_lt_Some _ _ _ Ecn) as Hnbv.
  intros Hrun. exists nb. split; [ done | ].
  case_bool_decide as Hs2.
  2: { injection Hrun as <-. simpl. split; [ done | ]. left. split_and!; try done.
       exists 2. rewrite (fld_Some _ _ _ _ Ecn). split; [ f_equal | lia ].
       destruct (decide (state cn = 2)); [ done | by destruct Hs2 ]. }
  destruct (distances !! k) as [dist|] eqn:Ed; cbn [mbind option_bind] in Hrun;
    [ | done ].
  assert (Hvv : v < length nodes) by (apply (fld_is_Some state); rewrite Hv; eauto).
  destruct (lookup_lt_is_Some_2 nodes v Hvv) as [vn Hvn].
  rewrite Hvn in Hrun. cbn [mbind option_bind] in Hrun.
  assert (Hnbne : nb ≠ v).
  { intros ->. rewrite (fld_Some _ _ _ _ Ecn) in Hv. congruence. }
  case_bool_decide as Hs0.
  - (* NOT_IN_HEAP: the neighbour enters the heap *)
    destruct (store_defined nodes nb (set_state 1)) as [nodes1 Hst1]; [ done | ].
    rewrite Hst1 in Hrun. cbn [mbind option_bind] in Hrun.
    pose proof (store_length _ _ _ _ Hst1) as Hlen1.
    destruct (lookup_lt_is_Some_2 nodes1 v) as [vn1 Hvn1]; [ lia | ].
    rewrite Hvn1 in Hrun. cbn [mbind option_bind] in Hrun.
    destruct (store_defined nodes1 nb (set_val (f64_add (val vn1) dist))) as [nodes2 Hst2];
      [ lia | ].
    rewrite Hst2 in Hrun. cbn [mbind option_bind] in Hrun.
    pose proof (store_length _ _ _ _ Hst2) as Hlen2.
    assert (Hinv2 : heap_inv (heap, nodes2) F).
    { destruct Hheap as [HS Hc Hm]. split; simpl; try done.
      apply (heap_shape_ext nodes1).
      { by eapply store_same_links; [ .. | exact Hst2 ]. }
      apply (heap_shape_ext nodes); [ | done ].
      by eapply store_same_links; [ .. | exact Hst1 ]. }
    assert (Hnf : ¬ in_forest F nb).
    { rewrite Hst. rewrite (fld_Some _ _ _ _ Ecn). congruence. }
    destruct (insert_node_spec fuel heap nodes2 F nb Hinv2) as
      (st'' & F' & Hrun' & Hinv' & Hforest' & Hlen' & Hpay'); [ lia | done | lia | ].
    rewrite Hrun' in Hrun. injection Hrun as <-.
    assert (Hstate' : ∀ j, fld state st''.2 j
                           = if decide (j = nb) then Some 1 else fld state nodes j).
    { intros j. rewrite (fld_payload_state nodes2 st''.2) by done.
      rewrite (store_fld_other _ _ _ _ _ _ Hst2).
      by rewrite (fld_state_set_state _ _ _ _ _ Hst1). }
    assert (Hval1 : fld val nodes1 v = fld val nodes v)
      by (by rewrite (store_fld_other _ _ _ _ _ _ Hst1)).
    assert (Hvals : val vn1 = val vn).
    { rewrite (fld_Some _ _ _ _ Hvn1), (fld_Some _ _ _ _ Hvn) in Hval1. congruence. }
    assert (Hval' : ∀ j, fld val st''.2 j
                         = if decide (j = nb) then Some (f64_add (val vn) dist)
                           else fld val nodes j).
    { intros j. rewrite (fld_payload_val nodes2 st''.2) by done.
      rewrite (store_fld_same val _ (f64_add (val vn1) dist) _ _ _ _ Hst2).
      case_decide; [ by rewrite Hvals | ].
      by rewrite (store_fld_other _ _ _ _ _ _ Hst1). }
    split.
    + intros j Hj. by rewrite Hstate', Hval', !decide_False by done.
    + right. exists dist, (val vn). split_and!; try done.
      * by apply fld_Some.
      * rewrite (fld_Some _ _ _ _ Ecn). congruence.
      * exists 1. rewrite Hstate', decide_True by done. done.
      * left. by rewrite Hstate', decide_True.
      * by rewrite Hval', decide_True.
  - case_bool_decide as Hgt.
    2: { injection Hrun as <-. simpl. split; [ done | ]. left. split_and!; try done.
         exists (state cn). by rewrite (fld_Some _ _ _ _ Ecn). }
    destruct (decrease_val_spec fuel heap nodes F nb (f64_add (val vn) dist) Hheap Hnbv Hfuel)
      as (st'' & F' & Hrun' & Hinv' & Hforest' & Hlen' & Hidx' & Hstate' & Hval').
    rewrite Hrun' in Hrun. injection Hrun as <-. split.
    + intros j Hj. by rewrite Hstate', Hval', decide_False.
    + right. exists dist, (val vn). split_and!; try done.
      * by apply fld_Some.
      * rewrite (fld_Some _ _ _ _ Ecn). congruence.
      * exists (state cn). rewrite Hstate', (fld_Some _ _ _ _ Ecn). done.
      * right. by rewrite Hstate'.
      * by rewrite Hval', decide_True.
Qed.

Lemma relax_edge_effect R E s fuel neighbors distances v heap nodes F k st' x0 :
  search_inv E s (heap, nodes) F → fld state nodes v = Some 2 → length nodes ≤ fuel →
  fld val nodes v = Some x0 →
  (∀ nb d, neighbors !! k = Some nb → distances !! k = Some d → R nb (f64_add x0 d)) →
  relax_edge fuel neighbors distances v (heap, nodes) k = Some st' →
  scan_effect R nodes st'.2
  ∧ (∀ nb, neighbors !! k = Some nb → seen st'.2 nb).
Proof.
  intros Hinv Hv Hfuel Hx0 HR Hrun.
  destruct (relax_edge_fields E s fuel neighbors distances v heap nodes F k st'
              Hinv Hv Hfuel Hrun) as (nb & Hnb & Hother & Hcase).
  assert (Hseen : seen st'.2 nb).
  { destruct Hcase as [(Hs & _ & (k0 & Hk0 & Hne))|(d & x & _ & _ & _ & Hs & _)];
      [ | done ].
    exists k0. by rewrite Hs. }
  assert (Hbound : ∀ j k0, fld state st'.2 j = Some k0 →
                           k0 = 1 ∨ fld state nodes j = Some k0).
  { intros j k0 Hk0. destruct (decide (j = nb)) as [->|Hne].
    - destruct Hcase as [(Hs & _)|(d & x & _ & _ & _ & _ & [Hs|Hs] & _)].
      + right. by rewrite <- Hs.
      + left. congruence.
      + right. by rewrite <- Hs.
    - destruct (Hother j Hne) as [Hs _]. right. by rewrite <- Hs. }
  split; [ | intros nb' Hnb'; by assert (nb' = nb) as -> by congruence ].
  split_and!.
  - intros j Hj. destruct (decide (j = nb)) as [->|Hne].
    + destruct Hcase as [(Hs & Hvl & _)|(d & x & _ & _ & Hn2 & _)]; [ | done ].
      by rewrite Hs, Hvl.
    + destruct (Hother j Hne) as [-> ->]. done.
  - intros j (k0 & Hk0 & Hne0). destruct (decide (j = nb)) as [->|Hne]; [ done | ].
    exists k0. destruct (Hother j Hne) as [-> _]. done.
  - intros Hval j x Hj Hx. destruct (decide (j = nb)) as [->|Hne].
    + destruct Hcase as [(Hs & Hvl & Hsn)|(d & x' & Hd & Hx' & _ & _ & _ & Hvl)].
      * apply Hval; [ done | by rewrite <- Hvl ].
      * assert (x' = x0) as -> by congruence.
        assert (x = f64_add x0 d) as -> by congruence. by apply HR.
    + destruct (Hother j Hne) as [Hs Hvl]. apply Hval.
      * destruct Hj as (k0 & Hk0 & Hne0). exists k0. by rewrite <- Hs.
      * by rewrite <- Hvl.
  - done.
Qed.

Lemma rtc_anywhere s v : rtc anywhere s v.
Proof. by apply rtc_once. Qed.

Lemma for_each_relax_effect R s fuel neighbors distances v nodes0 x0 l : ∀ st st',
  scan_inv anywhere s nodes0 st →
  fld state nodes0 v = Some 2 → length nodes0 ≤ fuel →
  fld val st.2 v = Some x0 →
  (∀ k nb d, k ∈ l → neighbors !! k = Some nb → distances !! k = Some d →
             R nb (f64_add x0 d)) →
  for_each (relax_edge fuel neighbors distances v) l st = Some st' →
  scan_inv anywhere s nodes0 st'
  ∧ scan_effect R st.2 st'.2
  ∧ (∀ k nb, k ∈ l → neighbors !! k = Some nb → seen st'.2 nb).
Proof.
  induction l as [|k l IH]; intros [heap nodes] st' Hscan Hv Hfuel Hx0 HR Hrun.
  { injection Hrun as <-. split_and!; [ done | apply scan_effect_refl | ].
    intros k nb Hk. by apply elem_of_nil in Hk. }
  cbn [for_each] in Hrun.
  destruct (relax_edge fuel neighbors distances v (heap, nodes) k) as [st1|] eqn:Hstep;
    cbn [mbind option_bind] in Hrun; [ | done ].
  destruct Hscan as (F & Hinv & Hlen & Hsc). simpl in Hlen, Hsc, Hx0.
  assert (Hv' : fld state nodes v = Some 2) by (by apply Hsc).
  pose proof (relax_edge_spec anywhere s fuel neighbors distances v heap nodes F k
                Hinv Hv' (rtc_anywhere s v) (λ _ _, I)) as Hspec.
  rewrite Hstep in Hspec.
  destruct (relax_edge_effect R anywhere s fuel neighbors distances v heap nodes F k
              st1 x0 Hinv Hv') as [Heff Hseen]; [ lia | done | | done | ].
  { intros nb d. apply HR. by left. }
  destruct Hspec as (F1 & Hinv1 & Hlen1 & Hsc1); [ lia | ].
  assert (Hscan1 : scan_inv anywhere s nodes0 st1).
  { exists F1. split_and!; [ done | lia | ]. intros j. by rewrite Hsc1. }
  assert (Hx1 : fld val st1.2 v = Some x0).
  { destruct Heff as (Hkeep & _). destruct (Hkeep v Hv') as [_ ->]. done. }
  destruct (IH st1 st' Hscan1 Hv Hfuel Hx1) as (Hscan' & Heff' & Hseen'); [ | done | ].
  { intros k' nb d Hk'. apply HR. by right. }
  split_and!; [ done | by eapply scan_effect_trans | ].
  intros k' nb [->|Hk']%elem_of_cons Hnb; [ | by eapply Hseen' ].
  destruct Heff' as (_ & Hmono & _). by apply Hmono, Hseen.
Qed.

Lemma relax_edges_effect R s fuel neighbors distances indptr v nodes0 x0 st st' :
  scan_inv anywhere s nodes0 st →
  fld state nodes0 v = Some 2 → length nodes0 ≤ fuel →
  fld val st.2 v = Some x0 →
  (∀ u w, wedge neighbors distances indptr v u w → R u (f64_add x0 w)) →
  relax_edges fuel neighbors distances indptr v st = Some st' →
  scan_inv anywhere s nodes0 st'
  ∧ scan_effect R st.2 st'.2
  ∧ (∀ u, edge_of neighbors indptr v u → seen st'.2 u).
Proof.
  intros Hscan Hv Hfuel Hx0 HR. unfold relax_edges.
  destruct Hscan as (F & Hinv & Hlen & Hsc).
  assert (Hvv : v < length st.2).
  { apply (fld_is_Some state). destruct (Hsc v) as [_ ->]; eauto. }
  destruct (lookup_lt_is_Some_2 _ _ Hvv) as [vn Hvn].
  rewrite Hvn. cbn [mbind option_bind].
  assert (Hiv : index vn = v).
  { apply (fld_inj _ _ _ _ _ Hvn). by apply (si_index _ _ _ _ Hinv). }
  rewrite Hiv.
  destruct (indptr !! v) as [lo|] eqn:Elo; cbn [mbind option_bind]; [ | done ].
  destruct (indptr !! S v) as [hi|] eqn:Ehi; cbn [mbind option_bind]; [ | done ].
  unfold for_range. intros Hrun.
  destruct (for_each_relax_effect R s fuel neighbors distances v nodes0 x0
              (seq lo (hi - lo)) st st') as (Hscan' & Heff & Hseen); try done.
  { by exists F. }
  { intros k nb d Hk%elem_of_seq Hnb Hd. apply HR. exists lo, hi, k.
    split_and!; try done; lia. }
  split_and!; [ done | done | ].
  intros u (lo' & hi' & k & Hlo' & Hhi' & Hk & Hnb).
  assert (lo' = lo) as -> by congruence. assert (hi' = hi) as -> by congruence.
  apply (Hseen k u); [ apply elem_of_seq; lia | done ].
Qed.

(** [remove_min] and [v.state = 2], on the values. *)
Lemma extract_vals R Rrow We s fuel graph heap nodes F m v heap1 nodes1 nodes2 :
  start_inv anywhere s (heap, nodes) F m → min_node heap = Some m →
  length nodes ≤ fuel →
  head_vals R Rrow We s graph heap nodes →
  remove_min fuel (heap, nodes) = Some (v, (heap1, nodes1)) →
  store nodes1 v (set_state 2) = Some nodes2 →
  v = m
  ∧ scan_inv anywhere s nodes2 (heap1, nodes2)
  ∧ length nodes2 = length nodes
  ∧ m < length nodes ∧ fld state nodes m ≠ Some 2
  ∧ (∀ j, fld state nodes2 j = if decide (j = m) then Some 2 else fld state nodes j)
  ∧ (∀ j, fld val nodes2 j = fld val nodes j)
  ∧ val_inv R nodes2.
Proof.
  intros Hstart Hm Hfuel Hhead Hrm Hst2.
  pose proof (extract_spec anywhere s fuel heap nodes F m Hstart Hm Hfuel) as Hex.
  rewrite Hrm in Hex. simpl in Hex.
  destruct Hex as (-> & nodes2' & Hst2' & Hscan & Hlen2 & [Hmv Hs1] & Hs2 & _ & Hother).
  assert (nodes2' = nodes2) as -> by congruence.
  pose proof (remove_min_spec fuel heap nodes F m (st_heap _ _ _ _ _ Hstart) Hm Hfuel)
    as Hspec.
  rewrite Hrm in Hspec. simpl in Hspec. destruct Hspec as (F' & [_ _ _ _ Hpay]).
  simpl in Hpay.
  assert (Hval2 : ∀ j, fld val nodes2 j = fld val nodes j).
  { intros j. rewrite (store_fld_other _ _ _ _ _ _ Hst2). by apply fld_payload_val. }
  assert (Hstate2 : ∀ j, fld state nodes2 j
                         = if decide (j = m) then Some 2 else fld state nodes j).
  { intros j. case_decide as Hj; [ by subst | by apply Hother ]. }
  split_and!; try done.
  intros j x (k & Hk & Hk0) Hx. rewrite Hval2 in Hx. rewrite Hstate2 in Hk.
  case_decide as Hj.
  - subst j. by apply (hv_min _ _ _ _ _ _ _ Hhead m x).
  - apply (hv_vals _ _ _ _ _ _ _ Hhead); [ by exists k | done ].
Qed.

Lemma search_inv_min_seen E s heap nodes F m :
  search_inv E s (heap, nodes) F → min_node heap = Some m → fld state nodes m = Some 1.
Proof.
  intros [[_ _ Hmin] _ Hst _] Hm. simpl in *. unfold min_ok in Hmin.
  rewrite Hm in Hmin. apply Hst. by left.
Qed.

(** The head of the loop after a scan and the write of the result cell. *)
Lemma finish_vals R Rrow We s graph heap nodes m nodes2 heap3 nodes3 vn graph' :
  (∀ j x, R j x → Rrow j x) →
  head_vals R Rrow We s graph heap nodes → min_node heap = Some m →
  m < length nodes → fld state nodes m ≠ Some 2 →
  (∀ j, fld state nodes2 j = if decide (j = m) then Some 2 else fld state nodes j) →
  (∀ j, fld val nodes2 j = fld val nodes j) →
  val_inv R nodes2 →
  scan_inv anywhere s nodes2 (heap3, nodes3) →
  scan_effect R nodes2 nodes3 →
  (∀ v, We m v → seen nodes3 v) →
  nodes3 !! m = Some vn →
  write_cell graph s (index vn) (val vn) = Some graph' →
  head_vals R Rrow We s graph' heap3 nodes3.
Proof.
  intros Hrow Hhead Hmin Hmv Hns Hstate2 Hval2 Hvi2 (F3 & Hinv3 & Hlen3 & Hsc3)
    (Hkeep & Hmono & Hvi & Hbound) Hedges Hvn Hw.
  simpl in Hlen3, Hsc3.
  assert (Hiv : index vn = m).
  { apply (fld_inj _ _ _ _ _ Hvn). apply (si_index _ _ _ _ Hinv3). simpl.
    by eapply lookup_lt_Some. }
  rewrite Hiv in Hw.
  apply write_cell_rows in Hw as (_ & _ & Hcell & Hothers).
  assert (Hm2 : fld state nodes2 m = Some 2) by (by rewrite Hstate2, decide_True).
  destruct (Hkeep m Hm2) as [Hm3 Hvm3].
  assert (Hseen2 : ∀ j, seen nodes j → seen nodes2 j).
  { intros j (k & Hk & Hk0). destruct (decide (j = m)) as [->|Hne].
    - exists 2. split; [ done | lia ].
    - exists k. by rewrite Hstate2, decide_False. }
  split.
  - by apply Hvi.
  - intros m' x Hm' Hx. apply (Hvi Hvi2); [ | done ].
    exists 1. split; [ | lia ]. by apply (search_inv_min_seen anywhere s heap3 nodes3 F3).
  - intros j Hj. destruct (decide (j = m)) as [->|Hne].
    + rewrite Hcell. apply Hrow.
      apply (Hvi Hvi2 m); [ exists 2; split; [ done | lia ] | ].
      by apply fld_Some.
    + rewrite (Hothers j Hne) in Hj |- *. by apply (hv_row _ _ _ _ _ _ _ Hhead).
  - intros j x Hj Hx. apply Hsc3 in Hj as Hj2. destruct (Hkeep j Hj2) as [_ Hvj].
    destruct (decide (j = m)) as [->|Hne].
    + rewrite Hcell. rewrite (fld_Some _ _ _ _ Hvn) in Hx. congruence.
    + rewrite (Hothers j Hne). apply (hv_cell _ _ _ _ _ _ _ Hhead).
      * by rewrite Hstate2, decide_False in Hj2.
      * by rewrite <- Hval2, <- Hvj.
  - intros u v Hu Huv. apply Hsc3 in Hu as Hu2.
    destruct (decide (u = m)) as [->|Hne]; [ by apply Hedges | ].
    rewrite Hstate2, decide_False in Hu2 by done.
    by apply Hmono, Hseen2, (hv_closed _ _ _ _ _ _ _ Hhead u v).
  - left. apply Hsc3. rewrite Hstate2. case_decide as Hsm; [ done | ].
    destruct (hv_source _ _ _ _ _ _ _ Hhead) as [Hs|Hs]; [ done | congruence ].
  - assert (Hs2 : fld state nodes2 s = Some 2).
    { rewrite Hstate2. case_decide as Hsm; [ done | ].
      destruct (hv_source _ _ _ _ _ _ _ Hhead) as [Hs|Hs]; [ done | congruence ]. }
    destruct (Hkeep s Hs2) as [_ ->]. rewrite Hval2.
    apply (hv_zero _ _ _ _ _ _ _ Hhead).
  - intros j k Hk. destruct (Hbound j k Hk) as [->|Hk2]; [ lia | ].
    rewrite Hstate2 in Hk2. case_decide; [ injection Hk2 as <-; lia | ].
    by apply (hv_states _ _ _ _ _ _ _ Hhead j).
Qed.

(** ** The loops of the searches, on the values *)

Lemma head_vals_weaken (R R' Rrow : nat → Z → Prop) We s graph heap nodes :
  (∀ j x, R j x → R' j x) →
  head_vals R Rrow We s graph heap nodes → head_vals R' Rrow We s graph heap nodes.
Proof.
  intros HRR [H1 H2 H3 H4 H5 H6 H7 H8]. split; try done.
  - intros j x Hj Hx. by apply HRR, H1.
  - intros m x Hm Hx. by apply HRR, H2.
Qed.

Lemma val_inv_weaken (R R' : nat → Z → Prop) nodes :
  (∀ j x, R j x → R' j x) → val_inv R nodes → val_inv R' nodes.
Proof. intros HRR H j x Hj Hx. by apply HRR, H. Qed.

Lemma directed_loop_vals R Rrow fuel s nb d p steps : ∀ graph heap nodes F res,
  grows R →
  (∀ S j x, R S j x → Rrow j x) →
  (∀ (S : nat → Prop) u x v w, R S u x → ¬ S u → wedge nb d p u v w →
                R (λ a, S a ∨ a = u) v (f64_add x w)) →
  loop_inv anywhere s (heap, nodes) F → length nodes ≤ fuel →
  head_vals (R (scanned nodes)) Rrow (edge_of nb p) s graph heap nodes →
  directed_loop steps fuel s nb d p (graph, (heap, nodes)) = Some res →
  head_vals (R (scanned res.2.2)) Rrow (edge_of nb p) s res.1 res.2.1 res.2.2
  ∧ min_node res.2.1 = None
  ∧ ∃ F', search_inv anywhere s res.2 F'.
Proof.
  induction steps as [|steps IH];
    intros graph heap nodes F res Hgrows Hrow HR Hinv Hfuel Hhead Hrun;
    cbn [directed_loop] in Hrun; unfold loop_inv in Hinv; simpl in Hinv.
  - destruct (min_node heap) as [m|] eqn:Em; [ done | ]. injection Hrun as <-.
    simpl. split_and!; [ done | done | by exists F ].
  - destruct (min_node heap) as [m|] eqn:Em.
    2: { injection Hrun as <-. simpl. split_and!; [ done | done | by exists F ]. }
    destruct (remove_min fuel (heap, nodes)) as [[v [heap1 nodes1]]|] eqn:Hrm;
      cbn [mbind option_bind] in Hrun; [ | done ].
    destruct (store nodes1 v (set_state 2)) as [nodes2|] eqn:Hst2;
      cbn [mbind option_bind] in Hrun; [ | done ].
    destruct (extract_vals _ Rrow _ s fuel graph heap nodes F m v heap1 nodes1 nodes2
                Hinv Em Hfuel Hhead Hrm Hst2)
      as (-> & Hscan & Hlen2 & Hmv & Hns & Hstate2 & Hval2 & Hvi2).
    destruct (relax_edges fuel nb d p m (heap1, nodes2)) as [[heap3 nodes3]|] eqn:Hrel;
      cbn [mbind option_bind] in Hrun; [ | done ].
    assert (Hm2 : fld state nodes2 m = Some 2) by (by rewrite Hstate2, decide_True).
    destruct (proj2 (fld_is_Some val nodes2 m)) as [x0 Hx0]; [ lia | ].
    assert (HRm : R (scanned nodes) m x0).
    { apply Hvi2; [ exists 2; split; [ done | lia ] | done ]. }
    set (S' := λ a, scanned nodes a ∨ a = m).
    assert (Hup : ∀ j x, R (scanned nodes) j x → R S' j x).
    { intros j x. apply Hgrows. intros a Ha. by left. }
    destruct (relax_edges_effect (R S') s fuel nb d p m nodes2 x0 (heap1, nodes2)
                (heap3, nodes3) Hscan Hm2) as (Hscan3 & Heff & Hseen);
      [ lia | done | | done | ].
    { intros u w Hw. by apply (HR (scanned nodes) m x0 u w). }
    simpl in Hrun. destruct (nodes3 !! m) as [vn|] eqn:Hvn;
      cbn [mbind option_bind] in Hrun; [ | done ].
    destruct (write_cell graph s (index vn) (val vn)) as [graph'|] eqn:Hw;
      cbn [mbind option_bind] in Hrun; [ | done ].
    pose proof (finish_vals (R S') Rrow _ s graph heap nodes m nodes2 heap3 nodes3 vn
                  graph' (Hrow S') (head_vals_weaken _ _ _ _ _ _ _ _ Hup Hhead)
                  Em Hmv Hns Hstate2 Hval2 (val_inv_weaken _ _ _ Hup Hvi2)
                  Hscan3 Heff Hseen Hvn Hw)
      as Hhead'.
    assert (Hdown : ∀ j x, R S' j x → R (scanned nodes3) j x).
    { intros j x. apply Hgrows. intros a Ha. unfold scanned.
      destruct Heff as (Hkeep & _). apply Hkeep. rewrite Hstate2.
      destruct Ha as [Ha| ->]; [ | by rewrite decide_True ].
      case_decide; [ done | apply Ha ]. }
    destruct Hscan3 as (F3 & Hinv3 & Hlen3 & _). simpl in Hlen3.
    apply (IH graph' heap3 nodes3 F3 res Hgrows Hrow HR (search_loop_inv _ _ _ _ Hinv3));
      [ lia | | done ].
    by apply (head_vals_weaken _ _ _ _ _ _ _ _ Hdown).
Qed.

Lemma undirected_loop_vals R Rrow fuel s nb1 d1 p1 nb2 d2 p2 steps :
  ∀ graph heap nodes F res,
  grows R →
  (∀ S j x, R S j x → Rrow j x) →
  (∀ (S : nat → Prop) u x v w, R S u x → ¬ S u →
              wedge nb1 d1 p1 u v w ∨ wedge nb2 d2 p2 u v w →
              R (λ a, S a ∨ a = u) v (f64_add x w)) →
  loop_inv anywhere s (heap, nodes) F → length nodes ≤ fuel →
  head_vals (R (scanned nodes)) Rrow
            (λ u v, edge_of nb1 p1 u v ∨ edge_of nb2 p2 u v) s graph heap nodes →
  undirected_loop steps fuel s nb1 d1 p1 nb2 d2 p2 (graph, (heap, nodes)) = Some res →
  head_vals (R (scanned res.2.2)) Rrow
            (λ u v, edge_of nb1 p1 u v ∨ edge_of nb2 p2 u v) s
            res.1 res.2.1 res.2.2
  ∧ min_node res.2.1 = None
  ∧ ∃ F', search_inv anywhere s res.2 F'.
Proof.
  induction steps as [|steps IH];
    intros graph heap nodes F res Hgrows Hrow HR Hinv Hfuel Hhead Hrun;
    cbn [undirected_loop] in Hrun; unfold loop_inv in Hinv; simpl in Hinv.
  - destruct (min_node heap) as [m|] eqn:Em; [ done | ]. injection Hrun as <-.
    simpl. split_and!; [ done | done | by exists F ].
  - destruct (min_node heap) as [m|] eqn:Em.
    2: { injection Hrun as <-. simpl. split_and!; [ done | done | by exists F ]. }
    destruct (remove_min fuel (heap, nodes)) as [[v [heap1 nodes1]]|] eqn:Hrm;
      cbn [mbind option_bind] in Hrun; [ | done ].
    destruct (store nodes1 v (set_state 2)) as [nodes2|] eqn:Hst2;
      cbn [mbind option_bind] in Hrun; [ | done ].
    destruct (extract_vals _ Rrow _ s fuel graph heap nodes F m v heap1 nodes1 nodes2
                Hinv Em Hfuel Hhead Hrm Hst2)
      as (-> & Hscan & Hlen2 & Hmv & Hns & Hstate2 & Hval2 & Hvi2).
    destruct (relax_edges fuel nb1 d1 p1 m (heap1, nodes2)) as [[heapa nodesa]|] eqn:Hrel1;
      cbn [mbind option_bind] in Hrun; [ | done ].
    destruct (relax_edges fuel nb2 d2 p2 m (heapa, nodesa)) as [[heap3 nodes3]|] eqn:Hrel2;
      cbn [mbind option_bind] in Hrun; [ | done ].
    assert (Hm2 : fld state nodes2 m = Some 2) by (by rewrite Hstate2, decide_True).
    destruct (proj2 (fld_is_Some val nodes2 m)) as [x0 Hx0]; [ lia | ].
    assert (HRm : R (scanned nodes) m x0).
    { apply Hvi2; [ exists 2; split; [ done | lia ] | done ]. }
    set (S' := λ a, scanned nodes a ∨ a = m).
    assert (Hup : ∀ j x, R (scanned nodes) j x → R S' j x).
    { intros j x. apply Hgrows. intros a Ha. by left. }
    destruct (relax_edges_effect (R S') s fuel nb1 d1 p1 m nodes2 x0 (heap1, nodes2)
                (heapa, nodesa) Hscan Hm2) as (Hscana & Heffa & Hseena);
      [ lia | done | | done | ].
    { intros u w Hw. apply (HR (scanned nodes) m x0 u w); [ done | done | by left ]. }
    assert (Hxa : fld val nodesa m = Some x0).
    { destruct Heffa as (Hkeep & _). destruct (Hkeep m Hm2) as [_ Hv].
      simpl in Hv. congruence. }
    destruct (relax_edges_effect (R S') s fuel nb2 d2 p2 m nodes2 x0 (heapa, nodesa)
                (heap3, nodes3) Hscana Hm2) as (Hscan3 & Heff3 & Hseen3);
      [ lia | done | | done | ].
    { intros u w Hw. apply (HR (scanned nodes) m x0 u w); [ done | done | by right ]. }
    simpl in Hrun. destruct (nodes3 !! m) as [vn|] eqn:Hvn;
      cbn [mbind option_bind] in Hrun; [ | done ].
    destruct (write_cell graph s (index vn) (val vn)) as [graph'|] eqn:Hw;
      cbn [mbind option_bind] in Hrun; [ | done ].
    assert (Hseen : ∀ v, edge_of nb1 p1 m v ∨ edge_of nb2 p2 m v → seen nodes3 v).
    { intros v [Hv|Hv]; [ | by apply Hseen3 ].
      destruct Heff3 as (_ & Hmono & _). by apply Hmono, Hseena. }
    pose proof (scan_effect_trans _ _ _ _ Heffa Heff3) as Heff.
    pose proof (finish_vals (R S') Rrow _ s graph heap nodes m nodes2 heap3 nodes3 vn
                  graph' (Hrow S') (head_vals_weaken _ _ _ _ _ _ _ _ Hup Hhead)
                  Em Hmv Hns Hstate2 Hval2 (val_inv_weaken _ _ _ Hup Hvi2)
                  Hscan3 Heff Hseen Hvn Hw)
      as Hhead'.
    assert (Hdown : ∀ j x, R S' j x → R (scanned nodes3) j x).
    { intros j x. apply Hgrows. intros a Ha. unfold scanned.
      destruct Heff as (Hkeep & _). apply Hkeep. rewrite Hstate2.
      destruct Ha as [Ha| ->]; [ | by rewrite decide_True ].
      case_decide; [ done | apply Ha ]. }
    destruct Hscan3 as (F3 & Hinv3 & Hlen3 & _). simpl in Hlen3.
    apply (IH graph' heap3 nodes3 F3 res Hgrows Hrow HR (search_loop_inv _ _ _ _ Hinv3));
      [ lia | | done ].
    by apply (head_vals_weaken _ _ _ _ _ _ _ _ Hdown).
Qed.

(** ** One search, on the values *)

Lemma empty_heap_no_member E s heap nodes F i :
  search_inv E s (heap, nodes) F → min_node heap = None →
  fld state nodes i ≠ Some 1.
Proof.
  intros [Hheap Hidx Hst _] Hm Hi. simpl in *.
  pose proof (empty_heap_clean heap nodes F Hheap Hm Hidx) as Hclean.
  apply Hst in Hi. destruct Hheap as [HS _ Hmin]. simpl in *.
  unfold min_ok in Hmin. rewrite Hm in Hmin.
  destruct Hi as [Hi|[p Hi]].
  - rewrite Hmin in Hi. by apply elem_of_nil in Hi.
  - destruct (hs_links _ _ HS (Some p) i Hi) as (Hp & _).
    unfold fld in Hp. destruct (nodes !! i) as [n|] eqn:Hn; [ | done ].
    destruct (Hclean i n Hn) as (_ & _ & Hpn & _). simpl in Hp. congruence.
Qed.

Lemma head_vals_done R Rrow We s graph heap nodes F :
  (∀ j x, R j x → Rrow j x) →
  head_vals R Rrow We s graph heap nodes → min_node heap = None →
  search_inv anywhere s (heap, nodes) F →
  row_done Rrow We s graph.
Proof.
  intros Hrow Hhead Hm Hinv.
  assert (Hs2 : fld state nodes s = Some 2).
  { destruct (hv_source _ _ _ _ _ _ _ Hhead) as [?|?]; [ done | congruence ]. }
  assert (Hscanned : ∀ j, seen nodes j → fld state nodes j = Some 2).
  { intros j (k & Hk & Hk0).
    pose proof (hv_states _ _ _ _ _ _ _ Hhead j k Hk).
    pose proof (empty_heap_no_member anywhere s heap nodes F j Hinv Hm) as Hn1.
    assert (k = 2) as -> by (destruct (decide (k = 1)) as [->|]; [ done | lia ]).
    done. }
  assert (Hreach : ∀ j, rtc We s j → fld state nodes j = Some 2).
  { intros j Hj. revert j Hj. apply (rtc_ind_r (λ j, fld state nodes j = Some 2));
      [ done | ].
    intros u j _ Huj IH. apply Hscanned.
    by apply (hv_closed _ _ _ _ _ _ _ Hhead u j). }
  assert (Hcell : ∀ j, fld state nodes j = Some 2 → Rrow j (mget 0%Z graph s j)).
  { intros j Hj. destruct (proj2 (fld_is_Some val nodes j)) as [x Hx].
    { apply (fld_is_Some state). rewrite Hj. eauto. }
    rewrite (hv_cell _ _ _ _ _ _ _ Hhead j x Hj Hx). apply Hrow.
    apply (hv_vals _ _ _ _ _ _ _ Hhead); [ | done ]. exists 2. split; [ done | lia ]. }
  split_and!.
  - apply (hv_row _ _ _ _ _ _ _ Hhead).
  - intros j Hj. by apply Hcell, Hreach.
  - apply (hv_cell _ _ _ _ _ _ _ Hhead s 0%Z Hs2). apply (hv_zero _ _ _ _ _ _ _ Hhead).
Qed.

(** The head of the loop right after the source is inserted. *)
Lemma head_vals_start R Rrow We s graph heap nodes :
  R s 0%Z →
  (∀ j, mget 0%Z graph s j ≠ 0%Z → Rrow j (mget 0%Z graph s j)) →
  (∀ i, i < length nodes → fld state nodes i = Some 0) →
  fld val nodes s = Some 0%Z →
  head_vals R Rrow We s graph (set_min_node (Some s) heap) nodes.
Proof.
  intros HRs Hrow Hstates Hval.
  assert (Hnone : ∀ j k, fld state nodes j = Some k → k = 0).
  { intros j k Hk.
    assert (Hj : j < length nodes) by (apply (fld_is_Some state); rewrite Hk; eauto).
    rewrite (Hstates j Hj) in Hk. congruence. }
  split.
  - intros j x (k & Hk & Hk0) _. by apply Hnone in Hk.
  - intros m x Hm Hx. simpl in Hm. injection Hm as <-.
    assert (x = 0%Z) as -> by congruence. done.
  - done.
  - intros j x Hj _. by apply Hnone in Hj.
  - intros u v Hu _. by apply Hnone in Hu.
  - by right.
  - done.
  - intros j k Hk. apply Hnone in Hk. lia.
Qed.

Lemma reset_vals nodes nodes' :
  for_range 0 (length nodes) reset_node nodes = Some nodes' →
  ∀ i, i < length nodes → fld val nodes' i = Some 0%Z.
Proof.
  intros Hrun i Hi.
  destruct (for_range_store_spec reset_node (λ _ n, set_val 0 (set_state 0 n))
              (length nodes) nodes)
    as (nodes1 & Hrun1 & _ & Hget1); [ apply reset_node_store | done | ].
  assert (nodes1 = nodes') as -> by congruence.
  unfold fld. rewrite Hget1.
  destruct (lookup_lt_is_Some_2 nodes i Hi) as [n Hn]. rewrite Hn. simpl.
  by rewrite decide_True.
Qed.

Lemma initialize_vals nodes nodes' :
  for_range 0 (length nodes) (λ nodes i, initialize_node nodes i i 0) nodes
  = Some nodes' →
  ∀ i, i < length nodes → fld val nodes' i = Some 0%Z.
Proof.
  intros Hrun i Hi.
  destruct (for_range_store_spec (λ nodes i, initialize_node nodes i i 0)
              (λ i _, fresh_node i 0) (length nodes) nodes)
    as (nodes1 & Hrun1 & _ & Hget1); [ done | done | ].
  assert (nodes1 = nodes') as -> by congruence.
  unfold fld. rewrite Hget1.
  destruct (lookup_lt_is_Some_2 nodes i Hi) as [n Hn]. rewrite Hn. simpl.
  by rewrite decide_True.
Qed.

Lemma _dijkstra_one_row_vals R Rrow fuel s nb1 d1 p1 nb2 d2 p2 graph heap nodes res :
  R (λ _, False) s 0%Z →
  grows R →
  (∀ S j x, R S j x → Rrow j x) →
  (∀ (S : nat → Prop) u x v w, R S u x → ¬ S u →
              wedge nb1 d1 p1 u v w ∨ wedge nb2 d2 p2 u v w →
              R (λ a, S a ∨ a = u) v (f64_add x w)) →
  all_clean nodes → min_node heap = None →
  length nodes = ncols graph → s < length nodes → length nodes ≤ fuel →
  (∀ j, mget 0%Z graph s j ≠ 0%Z → Rrow j (mget 0%Z graph s j)) →
  _dijkstra_one_row fuel s nb1 d1 p1 nb2 d2 p2 (graph, (heap, nodes)) = Some res →
  row_done Rrow (λ u v, edge_of nb1 p1 u v ∨ edge_of nb2 p2 u v) s res.1.
Proof.
  intros HRs Hgrows HRrow HR Hc Hm Hlen Hs Hfuel Hrow. unfold _dijkstra_one_row.
  rewrite <- Hlen.
  destruct (reset_nodes_spec nodes Hc) as (nodes_r & Hrun & Hlen_r & Hreset).
  rewrite Hrun. cbn [mbind option_bind].
  destruct (start_from_reset anywhere fuel s heap nodes_r Hreset Hm) as [Hins [F HF]];
    [ lia | lia | ].
  rewrite Hins. cbn [mbind option_bind]. intros Hloop.
  assert (Hhead : head_vals (R (scanned nodes_r)) Rrow
                    (λ u v, edge_of nb1 p1 u v ∨ edge_of nb2 p2 u v) s
                    graph (set_min_node (Some s) heap) nodes_r).
  { apply head_vals_start; [ | done | apply Hreset | ].
    - by apply (Hgrows (λ _, False)).
    - apply (reset_vals nodes nodes_r Hrun). lia. }
  destruct (undirected_loop_vals R Rrow fuel s nb1 d1 p1 nb2 d2 p2 fuel graph _ nodes_r
              F res Hgrows HRrow HR HF) as (Hend & Hmin & F' & Hinv');
    [ lia | done | done | ].
  destruct res as [graph' [heap' nodes']]. simpl in *.
  by apply (head_vals_done (R (scanned nodes')) Rrow _ s graph' heap' nodes' F'
              (HRrow _)).
Qed.

Lemma _dijkstra_directed_one_row_vals R Rrow fuel s nb d p graph heap nodes res :
  R (λ _, False) s 0%Z →
  grows R →
  (∀ S j x, R S j x → Rrow j x) →
  (∀ (S : nat → Prop) u x v w, R S u x → ¬ S u → wedge nb d p u v w →
              R (λ a, S a ∨ a = u) v (f64_add x w)) →
  length nodes = ncols graph → s < length nodes → length nodes ≤ fuel →
  (∀ j, mget 0%Z graph s j ≠ 0%Z → Rrow j (mget 0%Z graph s j)) →
  _dijkstra_directed_one_row fuel s nb d p (graph, (heap, nodes)) = Some res →
  row_done Rrow (edge_of nb p) s res.1.
Proof.
  intros HRs Hgrows HRrow HR Hlen Hs Hfuel Hrow. unfold _dijkstra_directed_one_row.
  rewrite <- Hlen.
  destruct (initialize_nodes_spec nodes) as (nodes_r & Hrun & Hlen_r & Hreset).
  rewrite Hrun. cbn [mbind option_bind].
  destruct (start_from_reset anywhere fuel s (set_min_node None heap) nodes_r Hreset)
    as [Hins [F HF]]; [ done | lia | lia | ].
  rewrite Hins. cbn [mbind option_bind]. intros Hloop.
  assert (Hhead : head_vals (R (scanned nodes_r)) Rrow (edge_of nb p) s graph
                    (set_min_node (Some s) (set_min_node None heap)) nodes_r).
  { apply head_vals_start; [ | done | apply Hreset | ].
    - by apply (Hgrows (λ _, False)).
    - apply (initialize_vals nodes nodes_r Hrun). lia. }
  destruct (directed_loop_vals R Rrow fuel s nb d p fuel graph _ nodes_r F res
              Hgrows HRrow HR HF)
    as (Hend & Hmin & F' & Hinv'); [ lia | done | done | ].
  destruct res as [graph' [heap' nodes']]. simpl in *.
  by apply (head_vals_done (R (scanned nodes')) Rrow _ s graph' heap' nodes' F'
              (HRrow _)).
Qed.

(** ** The searches of one call, on the values *)

Lemma mget_same_row {A} (d : A) (g g' : matrix A) i j :
  g' !! i = g !! i → mget d g' i j = mget d g i j.
Proof. unfold mget. by intros ->. Qed.

Lemma rows_done_step Rw We finished a graph graph' :
  rows_done Rw We finished graph →
  same_but_row a graph graph' →
  row_done (Rw a) We a graph' →
  rows_done Rw We (a :: finished) graph'.
Proof.
  intros [Hsound Hfin] (_ & Hother & _) (Hrow & Hreach & Hzero). split.
  - intros i j. destruct (decide (i = a)) as [->|Hne]; [ apply Hrow | ].
    rewrite (mget_same_row _ graph graph' i j (Hother i Hne)). apply Hsound.
  - intros s [->|Hs]%elem_of_cons; [ done | ].
    destruct (decide (s = a)) as [->|Hne]; [ done | ].
    destruct (Hfin s Hs) as [H1 H2]. split.
    + intros j Hj. rewrite (mget_same_row _ graph graph' s j (Hother s Hne)).
      by apply H1.
    + by rewrite (mget_same_row _ graph graph' s s (Hother s Hne)).
Qed.

Lemma graph_inv_anywhere graph : graph_inv anywhere graph.
Proof. intros i j _. apply rtc_anywhere. Qed.

Lemma search_rows_vals R Rw fuel dist_matrix directed N graph0 :
  (∀ s, R s (λ _, False) s 0%Z) →
  (∀ s, grows (R s)) →
  (∀ s S j x, R s S j x → Rw s j x) →
  (∀ s (S : nat → Prop) u x v w, R s S u x → ¬ S u →
                graph_wedges dist_matrix directed u v w →
                R s (λ a, S a ∨ a = u) v (f64_add x w)) →
  ncols graph0 = N → N ≤ fuel →
  ∀ compute_ind s0 res finished,
  rows_inv anywhere N graph0 s0 →
  (∀ i, i ∈ compute_ind → i < N) →
  rows_done Rw (graph_edges dist_matrix directed) finished s0.1 →
  search_rows fuel dist_matrix directed compute_ind s0 = Some res →
  rows_done Rw (graph_edges dist_matrix directed)
            (reverse compute_ind ++ finished) res.1.
Proof.
  intros HRs Hgrows HRw HR HN Hfuel compute_ind. unfold search_rows.
  destruct directed.
  - induction compute_ind as [|a l IH]; intros s0 res finished Hinv Hl Hdone Hrun;
      cbn [for_each] in Hrun.
    { injection Hrun as <-. done. }
    destruct s0 as [graph [heap nodes]].
    destruct Hinv as (Hmin & Hc & HG & Hlen & Hrows).
    simpl in Hmin, Hc, HG, Hlen, Hrows, Hdone.
    assert (Ha : a < N) by (apply Hl; by left).
    pose proof (_dijkstra_directed_one_row_spec anywhere fuel a (indices dist_matrix)
                  (data dist_matrix) (indptr dist_matrix) graph heap nodes
                  (λ _ _ _, I) HG) as Hspec.
    rewrite Hlen, (ncols_ext _ _ Hrows), HN in Hspec.
    specialize (Hspec eq_refl Ha Hfuel).
    destruct (_dijkstra_directed_one_row fuel a (indices dist_matrix)
                (data dist_matrix) (indptr dist_matrix) (graph, (heap, nodes)))
      as [s1|] eqn:Hrow; cbn [mbind option_bind] in Hrun; [ | done ].
    destruct Hspec as (Hmin' & Hc' & HG' & Hlen' & _ & Hrows').
    assert (Hinv' : rows_inv anywhere N graph0 s1).
    { unfold rows_inv. split_and!; [ done | done | done | congruence | ].
      intros i. by rewrite Hrows'. }
    pose proof (_dijkstra_directed_one_row_rows _ _ _ _ _ _ _ Hrow) as [Hsame _].
    simpl in Hsame.
    assert (Hdone1 : row_done (Rw a) (edge_of (indices dist_matrix) (indptr dist_matrix))
                       a s1.1).
    { apply (_dijkstra_directed_one_row_vals (R a) (Rw a) fuel a (indices dist_matrix)
               (data dist_matrix) (indptr dist_matrix) graph heap nodes s1);
        try done.
      - apply HRw.
      - intros S u x v w Hu Hn Hw. apply (HR a S u x v w Hu Hn). by left.
      - by rewrite Hlen, (ncols_ext _ _ Hrows), HN.
      - lia.
      - lia.
      - intros j. apply Hdone. }
    assert (Hdone1' : row_done (Rw a) (graph_edges dist_matrix true) a s1.1).
    { destruct Hdone1 as (H1 & H2 & H3). split_and!; [ done | | done ].
      intros j Hj. apply H2.
      eapply (rtc_subrel (graph_edges dist_matrix true)); [ | exact Hj ].
      intros u v [Huv|[? _]]; done. }
    pose proof (rows_done_step Rw _ finished a graph s1.1 Hdone Hsame Hdone1') as Hnext.
    rewrite reverse_cons, <- app_assoc. simpl.
    apply (IH s1 res (a :: finished) Hinv'); [ | done | done ].
    intros i Hi. apply Hl. by right.
  - cbn zeta.
    induction compute_ind as [|a l IH]; intros s0 res finished Hinv Hl Hdone Hrun;
      cbn [for_each] in Hrun.
    { injection Hrun as <-. done. }
    destruct s0 as [graph [heap nodes]].
    destruct Hinv as (Hmin & Hc & HG & Hlen & Hrows).
    simpl in Hmin, Hc, HG, Hlen, Hrows, Hdone.
    assert (Ha : a < N) by (apply Hl; by left).
    pose proof (_dijkstra_one_row_spec anywhere fuel a (indices dist_matrix)
                  (data dist_matrix) (indptr dist_matrix)
                  (indices (transpose_csr dist_matrix))
                  (data (transpose_csr dist_matrix))
                  (indptr (transpose_csr dist_matrix)) graph heap nodes
                  (λ _ _ _, I) (λ _ _ _, I) HG Hc Hmin) as Hspec.
    rewrite Hlen, (ncols_ext _ _ Hrows), HN in Hspec.
    specialize (Hspec eq_refl Ha Hfuel).
    destruct (_dijkstra_one_row fuel a (indices dist_matrix)
                (data dist_matrix) (indptr dist_matrix)
                (indices (transpose_csr dist_matrix))
                (data (transpose_csr dist_matrix))
                (indptr (transpose_csr dist_matrix)) (graph, (heap, nodes)))
      as [s1|] eqn:Hrow; cbn [mbind option_bind] in Hrun; [ | done ].
    destruct Hspec as (Hmin' & Hc' & HG' & Hlen' & _ & Hrows').
    assert (Hinv' : rows_inv anywhere N graph0 s1).
    { unfold rows_inv. split_and!; [ done | done | done | congruence | ].
      intros i. by rewrite Hrows'. }
    pose proof (_dijkstra_one_row_rows _ _ _ _ _ _ _ _ _ _ Hrow) as [Hsame _].
    simpl in Hsame.
    assert (Hdone1 : row_done (Rw a)
              (λ u v, edge_of (indices dist_matrix) (indptr dist_matrix) u v
                      ∨ edge_of (indices (transpose_csr dist_matrix))
                                (indptr (transpose_csr dist_matrix)) u v) a s1.1).
    { apply (_dijkstra_one_row_vals (R a) (Rw a) fuel a (indices dist_matrix)
               (data dist_matrix) (indptr dist_matrix)
               (indices (transpose_csr dist_matrix))
               (data (transpose_csr dist_matrix))
               (indptr (transpose_csr dist_matrix)) graph heap nodes s1);
        try done.
      - apply HRw.
      - intros S u x v w Hu Hn [Hw|Hw]; apply (HR a S u x v w Hu Hn);
          [ by left | by right ].
      - by rewrite Hlen, (ncols_ext _ _ Hrows), HN.
      - lia.
      - lia.
      - intros j. apply Hdone. }
    assert (Hdone1' : row_done (Rw a) (graph_edges dist_matrix false) a s1.1).
    { destruct Hdone1 as (H1 & H2 & H3). split_and!; [ done | | done ].
      intros j Hj. apply H2.
      eapply (rtc_subrel (graph_edges dist_matrix false)); [ | exact Hj ].
      intros u v [Huv|[_ Huv]]; [ by left | by right ]. }
    pose proof (rows_done_step Rw _ finished a graph s1.1 Hdone Hsame Hdone1') as Hnext.
    rewrite reverse_cons, <- app_assoc. simpl.
    apply (IH s1 res (a :: finished) Hinv'); [ | done | done ].
    intros i Hi. apply Hl. by right.
Qed.

(** ** The weighted entries of a compressed view *)

Lemma wedge_edge_of nb d p u v w : wedge nb d p u v w → edge_of nb p u v.
Proof. intros (lo & hi & k & ? & ? & ? & ? & ?). by exists lo, hi, k. Qed.

Lemma of_rows_wedge sh rows u v w :
  wedge (indices (of_rows sh rows)) (data (of_rows sh rows))
        (indptr (of_rows sh rows)) u v w →
  ∃ row, rows !! u = Some row ∧ (v, w) ∈ row.
Proof.
  intros (lo & hi & k & Hlo & Hhi & Hk & Hv & Hw).
  destruct (rows !! u) as [row|] eqn:Hu.
  2: { apply lookup_ge_None in Hu. rewrite of_rows_indptr_None in Hhi by done. done. }
  destruct (of_rows_row sh rows u row Hu) as (lo' & Hlo' & Hhi' & Hcells).
  assert (lo' = lo) as -> by congruence.
  assert (hi = lo + length row) as -> by congruence.
  destruct (Hcells (k - lo)) as [Hi Hd]; [ lia | ].
  replace (lo + (k - lo)) with k in Hi, Hd by lia. rewrite Hv in Hi. rewrite Hw in Hd.
  destruct (row !! (k - lo)) as [[c w']|] eqn:Hrow; simpl in Hi, Hd; [ | done ].
  injection Hi as ->. injection Hd as ->. exists row. split; [ done | ].
  by eapply list_elem_of_lookup_2.
Qed.

Lemma wedge_of_rows sh rows u row v w :
  rows !! u = Some row → (v, w) ∈ row →
  wedge (indices (of_rows sh rows)) (data (of_rows sh rows))
        (indptr (of_rows sh rows)) u v w.
Proof.
  intros Hu Hin. apply list_elem_of_lookup_1 in Hin as [k Hk].
  destruct (of_rows_row sh rows u row Hu) as (lo & Hlo & Hhi & Hcells).
  pose proof (lookup_lt_Some _ _ _ Hk) as Hlt.
  destruct (Hcells k Hlt) as [Hi Hd]. rewrite Hk in Hi, Hd. simpl in Hi, Hd.
  exists lo, (lo + length row), (lo + k). split_and!; try done; lia.
Qed.

Lemma csr_row_wedge m i c w :
  (c, w) ∈ csr_row m i → wedge (indices m) (data m) (indptr m) i c w.
Proof.
  unfold csr_row. intros Hin.
  destruct (indptr m !! i) as [lo|] eqn:Hlo; [ | by apply elem_of_nil in Hin ].
  destruct (indptr m !! S i) as [hi|] eqn:Hhi; [ | by apply elem_of_nil in Hin ].
  apply list_elem_of_omap in Hin as (k & Hk & Hsome).
  apply elem_of_seq in Hk.
  destruct (indices m !! k) as [c'|] eqn:Hc; simpl in Hsome; [ | done ].
  destruct (data m !! k) as [w'|] eqn:Hd; simpl in Hsome; [ | done ].
  injection Hsome as -> ->. exists lo, hi, k. split_and!; try done; lia.
Qed.

Lemma wedge_csr_row m i c w :
  wedge (indices m) (data m) (indptr m) i c w → (c, w) ∈ csr_row m i.
Proof.
  intros (lo & hi & k & Hlo & Hhi & Hk & Hv & Hw). unfold csr_row.
  rewrite Hlo, Hhi. apply list_elem_of_omap. exists k. split.
  - apply elem_of_seq. lia.
  - by rewrite Hv, Hw.
Qed.

(** The weighted entries of the transposed view are the reversed ones. *)
Lemma transpose_csr_wedge m u v w :
  wedge (indices (transpose_csr m)) (data (transpose_csr m))
        (indptr (transpose_csr m)) u v w →
  wedge (indices m) (data m) (indptr m) v u w.
Proof.
  unfold transpose_csr. intros (row & Hrow & Hin)%of_rows_wedge.
  rewrite transpose_rows in Hrow. case_decide; [ | done ].
  injection Hrow as <-. apply elem_of_column_entries in Hin as [_ Hin].
  by apply csr_row_wedge in Hin.
Qed.

Lemma wedge_transpose_csr m u v w :
  u < (shape m).2 → v < (shape m).1 →
  wedge (indices m) (data m) (indptr m) v u w →
  wedge (indices (transpose_csr m)) (data (transpose_csr m))
        (indptr (transpose_csr m)) u v w.
Proof.
  intros Hu Hv Hw. unfold transpose_csr.
  apply (wedge_of_rows _ _ u (column_entries m u)).
  - rewrite transpose_rows. by rewrite decide_True.
  - apply elem_of_column_entries. split; [ done | ]. by apply wedge_csr_row.
Qed.

Lemma csr_matrix_wedge g u v w :
  wedge (indices (csr_matrix g)) (data (csr_matrix g)) (indptr (csr_matrix g)) u v w
  ↔ mget 0%Z g u v = w ∧ w ≠ 0%Z.
Proof.
  split.
  - intros (row & Hrow & Hin)%of_rows_wedge.
    rewrite csr_matrix_rows in Hrow.
    destruct (g !! u) as [r|] eqn:Hr; simpl in Hrow; [ | done ].
    injection Hrow as <-. apply elem_of_dense_row_entries in Hin as [Hv Hw].
    unfold mget. by rewrite Hr, Hv.
  - intros [Hw Hne]. unfold mget in Hw.
    destruct (g !! u) as [r|] eqn:Hr; [ | congruence ].
    destruct (r !! v) as [w'|] eqn:Hv; [ | congruence ]. subst w'.
    apply (wedge_of_rows _ _ u (dense_row_entries r)).
    + by rewrite csr_matrix_rows, Hr.
    + by apply elem_of_dense_row_entries.
Qed.

(** The entries a search follows on the compressed rows of a dense
    matrix are the steps of the dense graph. *)
Lemma csr_matrix_wedges g directed u v w :
  graph_wedges (csr_matrix g) directed u v w → step g directed u v w.
Proof.
  intros [H|[Hd H]].
  - left. by apply csr_matrix_wedge.
  - right. split; [ done | ]. by apply csr_matrix_wedge, transpose_csr_wedge.
Qed.

Lemma edges_csr_matrix g directed u v :
  is_square g = true → edge g directed u v → graph_edges (csr_matrix g) directed u v.
Proof.
  intros Hsq [H|[Hd H]].
  - left. eapply wedge_edge_of. apply csr_matrix_wedge. split; [ reflexivity | done ].
  - right. split; [ done | ]. eapply wedge_edge_of.
    pose proof (mget_in_range 0%Z g _ v u (is_square_square g Hsq) H) as [Hv Hu].
    apply wedge_transpose_csr.
    + change (shape (csr_matrix g)) with (nrows g, ncols g). simpl.
      by rewrite is_square_ncols.
    + done.
    + apply csr_matrix_wedge. split; [ reflexivity | done ].
Qed.

Lemma walk_snoc graph directed i u v x w :
  walk graph directed i u x → step graph directed u v w →
  walk graph directed i v (x + w).
Proof. intros H1 H2. eapply walk_app; [ done | by apply walk_edge ]. Qed.

Lemma walk_reachable graph directed i j z :
  walk graph directed i j z → reachable graph directed i j.
Proof.
  intros H. induction H as [i|u v j w z Hs _ IH]; [ done | ].
  eapply rtc_l; [ | exact IH ].
  destruct Hs as [[<- Hne]|[Hd [<- Hne]]]; [ by left | by right ].
Qed.

(** ** The sparse entry point and its loops *)

Lemma dijkstra_returns fuel mem dist_matrix directed indices mem' r :
  dijkstra fuel mem dist_matrix directed indices = Return (mem', r) →
  ∃ m graph,
    dijkstra_view mem dist_matrix directed = Some m
    ∧ (shape m).1 = (shape m).2
    ∧ _dijkstra fuel m
        (zeros (length (default (seq 0 (shape m).1) indices)) (shape m).1)
        (default (seq 0 (shape m).1) indices) directed = Some graph
    ∧ mem' !! r = Some (mkArray float64 C_order graph).
Proof.
  unfold dijkstra. intros H.
  destruct (dijkstra_view mem dist_matrix directed) as [m|]; [ | done ].
  destruct (existsb _ (data m)); [ done | ].
  case_bool_decide as Hsq; [ | done ]. cbn [negb] in H. cbn zeta in H.
  exists m.
  assert (Hind : match indices with Some l => l | None => seq 0 (shape m).1 end
                 = default (seq 0 (shape m).1) indices) by (by destruct indices).
  rewrite Hind in H.
  destruct (_dijkstra fuel m _ _ directed) as [graph|]; simpl in H; [ | done ].
  injection H as <- <-. exists graph. split_and!; try done.
  by rewrite lookup_app_r, Nat.sub_diag.
Qed.

Lemma _dijkstra_rows fuel m graph compute_ind directed res :
  _dijkstra fuel m graph compute_ind directed = Some res →
  length res = length graph
  ∧ (∀ i, length <$> res !! i = length <$> graph !! i)
  ∧ (∀ i, i ∉ compute_ind → res !! i = graph !! i)
  ∧ Forall (λ i, i < length graph) compute_ind.
Proof.
  unfold _dijkstra. cbn zeta. intros H.
  destruct (search_rows fuel m directed compute_ind _) as [s|] eqn:Hs;
    cbn [mbind option_bind] in H; [ | done ].
  injection H as <-. by apply search_rows_rows in Hs.
Qed.

Lemma result_cells_Some o result :
  result_cells o = Some result →
  ∃ mem' r, o = Return (mem', r) ∧ nd_cells <$> mem' !! r = Some result.
Proof. destruct o as [[mem' r]| |]; simpl; [ | done | done ]. by exists mem', r. Qed.

(** The call of [_dijkstra] behind a result of [dijkstra] on a dense
    array. *)
Lemma dijkstra_dense_result fuel mem a arr directed indices result :
  mem !! a = Some arr →
  result_cells (dijkstra fuel mem (Array a) directed indices) = Some result →
  _dijkstra fuel (csr_matrix (nd_cells arr))
    (zeros (length (default (seq 0 (nrows (nd_cells arr))) indices))
           (nrows (nd_cells arr)))
    (default (seq 0 (nrows (nd_cells arr))) indices) directed = Some result.
Proof.
  intros Hmem (mem' & r & Hret & Hcells)%result_cells_Some.
  apply dijkstra_returns in Hret as (m & graph & Hview & _ & Hrun & Hr).
  unfold dijkstra_view in Hview. rewrite Hmem in Hview. simpl in Hview.
  injection Hview as <-. rewrite Hr in Hcells. simpl in Hcells.
  injection Hcells as <-. exact Hrun.
Qed.

(** ** The sparse algorithm on a dense graph *)

(** On the compressed rows of a dense square matrix, one search from
    every vertex of [compute_ind], for a relation [R] that the source
    satisfies with the value 0 and that every relaxation keeps: a nonzero
    cell of the result holds a value within [Rw]; in the row of a source, a
    vertex that can be reached has a value within [Rw], and the cell of
    the source itself is 0. *)
Lemma _dijkstra_vals (R : nat → (nat → Prop) → nat → Z → Prop)
    (Rw : nat → nat → Z → Prop) fuel g directed k compute_ind res :
  (∀ s, R s (λ _, False) s 0%Z) →
  (∀ s, grows (R s)) →
  (∀ s S j x, R s S j x → Rw s j x) →
  (∀ s (S : nat → Prop) u x v w, R s S u x → ¬ S u → step g directed u v w →
                R s (λ a, S a ∨ a = u) v (f64_add x w)) →
  is_square g = true → nrows g ≤ fuel →
  (∀ i, i ∈ compute_ind → i < nrows g) →
  _dijkstra fuel (csr_matrix g) (zeros k (nrows g)) compute_ind directed = Some res →
  (∀ i j, mget 0%Z res i j ≠ 0%Z → Rw i j (mget 0%Z res i j))
  ∧ (∀ i j, i ∈ compute_ind → reachable g directed i j →
            Rw i j (mget 0%Z res i j))
  ∧ (∀ i, i ∈ compute_ind → mget 0%Z res i i = 0%Z).
Proof.
  intros HRs Hgrows HRw HR Hsq Hfuel Hind Hres.
  destruct (decide (compute_ind = [])) as [->|Hne].
  { unfold _dijkstra, search_rows in Hres. destruct directed; simpl in Hres;
      injection Hres as <-.
    all: split_and!; [ | by intros ? ? ?%elem_of_nil | by intros ? ?%elem_of_nil ].
    all: intros i j Hij; by rewrite mget_zeros in Hij. }
  assert (Hk : ncols (zeros k (nrows g)) = nrows g).
  { apply _dijkstra_rows in Hres as (_ & _ & _ & Hall).
    destruct k as [|k].
    - destruct compute_ind as [|a l]; [ done | ].
      apply Forall_cons in Hall as [Ha _]. simpl in Ha. lia.
    - unfold zeros. simpl. by rewrite length_replicate. }
  revert Hres. unfold _dijkstra. cbn zeta. rewrite Hk.
  assert (Hinv : rows_inv anywhere (nrows g) (zeros k (nrows g))
                   (zeros k (nrows g),
                    (mkHeap None (replicate max_rank None), initial_nodes (nrows g)))).
  { unfold rows_inv. simpl. split_and!; try done.
    - apply initial_nodes_clean.
    - apply graph_inv_anywhere.
    - apply length_initial_nodes. }
  destruct (search_rows fuel (csr_matrix g) directed compute_ind
              (zeros k (nrows g),
               (mkHeap None (replicate max_rank None), initial_nodes (nrows g))))
    as [s|] eqn:Hrun; cbn [mbind option_bind]; [ | done ].
  intros [= <-].
  pose proof (search_rows_vals R Rw fuel (csr_matrix g) directed
                (nrows g) (zeros k (nrows g)) HRs Hgrows HRw) as Hvals.
  specialize (Hvals (λ s S u x v w Hu Hn Hw,
                       HR s S u x v w Hu Hn (csr_matrix_wedges g directed u v w Hw))).
  specialize (Hvals Hk Hfuel compute_ind _ s [] Hinv Hind).
  destruct Hvals as [Hsound Hfin]; [ | exact Hrun | ].
  { split; [ | by intros ? ?%elem_of_nil ].
    intros i j Hij. simpl in Hij. by rewrite mget_zeros in Hij. }
  split_and!; [ exact Hsound | | ].
  - intros i j Hi Hreach. apply Hfin.
    + by rewrite app_nil_r, elem_of_reverse.
    + eapply rtc_subrel; [ | exact Hreach ].
      intros u v. by apply edges_csr_matrix.
  - intros i Hi. apply Hfin. by rewrite app_nil_r, elem_of_reverse.
Qed.

(** No search assigns a negative distance. *)
Lemma _dijkstra_nonneg fuel g directed k compute_ind res :
  is_square g = true → nonnegative g → nrows g ≤ fuel →
  (∀ i, i ∈ compute_ind → i < nrows g) →
  _dijkstra fuel (csr_matrix g) (zeros k (nrows g)) compute_ind directed = Some res →
  (∀ i j, (0 ≤ mget 0%Z res i j)%Z)
  ∧ (∀ i, i ∈ compute_ind → mget 0%Z res i i = 0%Z).
Proof.
  intros Hsq Hg Hfuel Hind Hres.
  destruct (_dijkstra_vals (λ _ _ _ x, (0 ≤ x)%Z) (λ _ _ x, (0 ≤ x)%Z)
              fuel g directed k compute_ind res) as (Hsound & _ & Hdiag);
    [ done | by intros s S S' j x _ | done | | done | done | done | done | ].
  - intros s S u x v w Hx _ Hstep.
    pose proof (step_positive _ _ _ _ _ Hg Hstep). apply f64_add_nonneg; lia.
  - split; [ | done ]. intros i j.
    destruct (decide (mget 0%Z res i j = 0%Z)) as [->|Hne]; [ done | by apply Hsound ].
Qed.

(** ** The sparse algorithm where the sums are exact *)

Lemma chain_walk graph directed i l j z :
  chain graph directed i l j z → walk graph directed i j z.
Proof.
  revert i z. induction l as [|v l IH]; intros i z; simpl.
  - apply walk_edge.
  - intros (w & z' & Hs & Hc & ->). eapply walk_step; [ done | by apply IH ].
Qed.

Lemma chain_snoc graph directed i l u v x w :
  chain graph directed i l u x → step graph directed u v w →
  chain graph directed i (l ++ [u]) v (x + w).
Proof.
  revert i x. induction l as [|y l IH]; intros i x; simpl.
  - intros Hs Hs'. by exists x, w.
  - intros (w' & z' & Hs & Hc & ->) Hs'. exists w', (z' + w)%Z.
    split_and!; [ done | by apply IH | lia ].
Qed.

Lemma step_at_most M graph directed u v w :
  at_most M graph → step graph directed u v w → (w ≤ M)%Z.
Proof.
  intros HM.
  assert (Hcell : ∀ a b, mget 0%Z graph a b ≠ 0%Z → (mget 0%Z graph a b ≤ M)%Z).
  { intros a b. unfold mget. destruct (graph !! a) as [r|] eqn:Hr; simpl; [ | done ].
    destruct (r !! b) as [z|] eqn:Hz; simpl; [ | done ]. intros _.
    unfold at_most in HM. rewrite Forall_lookup in HM.
    pose proof (HM a r Hr) as Hrow. rewrite Forall_lookup in Hrow.
    by apply (Hrow b z). }
  intros [[<- Hne]|[_ [<- Hne]]]; by apply Hcell.
Qed.

Lemma chain_bound M graph directed i l j z :
  nonnegative graph → at_most M graph → chain graph directed i l j z →
  (0 ≤ z ≤ (Z.of_nat (length l) + 1) * M)%Z.
Proof.
  intros Hg HM. revert i z. induction l as [|v l IH]; intros i z; simpl.
  - intros Hs. pose proof (step_positive _ _ _ _ _ Hg Hs).
    pose proof (step_at_most M _ _ _ _ _ HM Hs). lia.
  - intros (w & z' & Hs & Hc & ->).
    pose proof (step_positive _ _ _ _ _ Hg Hs).
    pose proof (step_at_most M _ _ _ _ _ HM Hs).
    pose proof (IH _ _ Hc). lia.
Qed.

Lemma along_grows graph directed s : grows (along graph directed s).
Proof.
  intros S S' j x HS [H|(l & Hnd & Hl & Hc)]; [ by left | right ].
  exists l. split_and!; [ done | | done ].
  intros v Hv. destruct (Hl v Hv). split; [ by apply HS | done ].
Qed.

Lemma along_walk graph directed s S j x :
  along graph directed s S j x → walk graph directed s j x.
Proof.
  intros [[-> ->]|(l & _ & _ & Hc)]; [ constructor | by apply (chain_walk _ _ _ l) ].
Qed.

(** A relaxation keeps the values weights of walks: the sum is exact. *)
Lemma along_step M graph directed s (S : nat → Prop) u x v w :
  square (nrows graph) graph → nonnegative graph → in_exact_range M graph →
  along graph directed s S u x → ¬ S u → step graph directed u v w →
  along graph directed s (λ a, S a ∨ a = u) v (f64_add x w).
Proof.
  intros Hsq Hg [HM Hfit] Hu Hn Hs.
  pose proof (step_positive _ _ _ _ _ Hg Hs) as Hw.
  pose proof (step_at_most M _ _ _ _ _ HM Hs) as HwM.
  destruct (step_in_range _ _ _ _ _ Hsq Hs) as [HuN _].
  destruct Hu as [[-> ->]|(l & Hnd & Hl & Hc)].
  - rewrite f64_add_0_l. right. exists []. split_and!; [ constructor | | done ].
    intros a Ha. by apply elem_of_nil in Ha.
  - assert (Hul : u ∉ l) by (intros Hin; by destruct (Hl u Hin)).
    pose proof (chain_bound M _ _ _ _ _ _ Hg HM Hc) as [Hx0 HxM].
    assert (Hlen : length (u :: l) ≤ nrows graph).
    { apply distinct_below_length; [ by apply NoDup_cons | ].
      intros a [->|Ha]%elem_of_cons; [ done | by destruct (Hl a Ha) ]. }
    simpl in Hlen.
    rewrite f64_add_exact by nia.
    right. exists (l ++ [u]). split_and!.
    + apply NoDup_app. split_and!; [ done | | apply NoDup_singleton ].
      intros a Ha ->%list_elem_of_singleton. done.
    + intros a [Ha| ->%list_elem_of_singleton]%elem_of_app.
      * destruct (Hl a Ha). split; [ by left | done ].
      * split; [ by right | done ].
    + by apply chain_snoc.
Qed.

(** On the compressed rows of a dense square matrix whose sums are exact,
    one search from every vertex of [compute_ind]: a nonzero cell of the
    result holds the weight of a walk; in the row of a source, a vertex
    that can be reached has the weight of a walk, and the cell of the
    source itself is 0. *)
Lemma _dijkstra_walks M fuel g directed k compute_ind res :
  is_square g = true → nonnegative g → in_exact_range M g → nrows g ≤ fuel →
  (∀ i, i ∈ compute_ind → i < nrows g) →
  _dijkstra fuel (csr_matrix g) (zeros k (nrows g)) compute_ind directed = Some res →
  (∀ i j, mget 0%Z res i j ≠ 0%Z → walk g directed i j (mget 0%Z res i j))
  ∧ (∀ i j, i ∈ compute_ind → reachable g directed i j →
            walk g directed i j (mget 0%Z res i j))
  ∧ (∀ i, i ∈ compute_ind → mget 0%Z res i i = 0%Z).
Proof.
  intros Hsq Hg HM Hfuel Hind Hres.
  apply (_dijkstra_vals (along g directed) (walk g directed)
           fuel g directed k compute_ind res);
    [ | | | | done | done | done | done ].
  - intros s. by left.
  - intros s. apply along_grows.
  - intros s S j x. apply along_walk.
  - intros s S u x v w. apply (along_step M); [ by apply is_square_square | done | done ].
Qed.

(** ** The order of the values in the heap *)

Lemma le_val_trans nodes a b c : le_val nodes a b → le_val nodes b c → le_val nodes a c.
Proof.
  intros (va & vb & Ha & Hb & Hab) (vb' & vc & Hb' & Hc & Hbc).
  exists va, vc. split_and!; [ done | done | ]. simplify_eq. lia.
Qed.

Lemma le_val_total nodes a b :
  a < length nodes → b < length nodes → le_val nodes a b ∨ le_val nodes b a.
Proof.
  intros Ha Hb. apply (fld_is_Some val) in Ha as [va Ha], Hb as [vb Hb].
  destruct (decide (va ≤ vb)%Z); [ left; exists va, vb | right; exists vb, va ];
    split_and!; try done; lia.
Qed.

Lemma le_val_ext_iff nodes nodes' a b :
  (∀ j, fld payload nodes' j = fld payload nodes j) →
  le_val nodes' a b ↔ le_val nodes a b.
Proof.
  intros Hpay. split; apply le_val_ext; [ | done ]. intros j. by rewrite Hpay.
Qed.

(** The order survives a change of the links that adds only children
    that are not below their new parent. *)
Lemma ordered_sub nodes F nodes' F' :
  heap_shape nodes F → heap_shape nodes' F' →
  (∀ j, fld payload nodes' j = fld payload nodes j) →
  (∀ p i, i ∈ kids F' p → i ∈ kids F p ∨ le_val nodes p i) →
  ordered nodes → ordered nodes'.
Proof.
  intros HS HS' Hpay Hkids Hord i p Hp.
  apply (le_val_ext nodes); [ done | ].
  pose proof (hs_complete _ _ HS' i p Hp) as Hi.
  destruct (Hkids p i Hi) as [Hk|Hle]; [ | done ].
  apply Hord. by destruct (hs_links _ _ HS (Some p) i Hk) as (? & _).
Qed.

Lemma ordered_same_links nodes nodes' :
  same_links nodes nodes' →
  (∀ i p, fld parent nodes i = Some (Some p) → le_val nodes p i → le_val nodes' p i) →
  ordered nodes → ordered nodes'.
Proof.
  intros Hsl Hval Hord i p Hp. rewrite (sl_parent _ _ Hsl) in Hp.
  apply Hval; [ done | ]. by apply Hord.
Qed.

Lemma kids_graft F top loser p i :
  i ∈ kids (graft F top loser) p → i ∈ kids F p ∨ (p = top ∧ i = loser).
Proof.
  unfold graft. simpl. case_decide as Hp.
  - subst p. intros [Hi|Hi]%elem_of_app; [ by left | ].
    apply list_elem_of_singleton in Hi. by right.
  - by left.
Qed.

(** ** Consolidation keeps the order *)

Lemma link_ordered steps fuel : ∀ heap nodes F P R node m,
  heap_shape nodes F → roots F = P ++ R → node ∈ P →
  table_ok F P (Some node) (roots_by_rank heap) →
  min_node heap = Some m → m ∈ P → (∀ y, y ∈ P → le_val nodes m y) →
  length P ≤ steps → length nodes ≤ fuel → ordered nodes →
  match link steps fuel (heap, nodes) node with
  | Some st' => ordered st'.2
  | None => True
  end.
Proof.
  induction steps as [|steps IH];
    intros heap nodes F P R node m HS Hroots Hnode [Htlen Htab] Hmin HmP Hle Hsteps Hfuel
           Hord.
  { done. }
  assert (HnodeR : node ∈ roots F) by (rewrite Hroots; apply elem_of_app; by left).
  assert (Hn : is_Some (nodes !! node)).
  { apply lookup_lt_is_Some. by apply (hs_valid _ _ None _ HS). }
  destruct Hn as [n Hn]. cbn [link]. rewrite Hn. cbn [mbind option_bind].
  pose proof (hs_rank _ _ HS node (rank n) (fld_Some _ _ _ _ Hn)) as Hrank.
  assert (Hidx : Z.to_nat (rank n) = bucket_of F node) by (by rewrite Hrank).
  rewrite Hidx.
  destruct (roots_by_rank heap !! bucket_of F node) as [slot|] eqn:Eslot;
    cbn [mbind option_bind]; [ | done ].
  unfold set_root_by_rank. rewrite Hidx, Eslot. cbn [mbind option_bind].
  pose proof (lookup_lt_Some _ _ _ Eslot) as Hlt.
  destruct slot as [linknode|]; [ | done ].
  destruct (Htab _ _ Eslot) as (HlP & Hln & Hlb).
  assert (Hne : node ≠ linknode) by congruence.
  assert (HlinkR : linknode ∈ roots F) by (rewrite Hroots; apply elem_of_app; by left).
  set (heap1 := mkHeap (min_node heap) (<[bucket_of F node := None]> (roots_by_rank heap))).
  destruct (link_pair_spec fuel heap1 nodes F node linknode HS HnodeR HlinkR Hne Hfuel)
    as (top & loser & nodes' & -> & Hcase & HS' & Hlen & Hpay).
  cbn [mbind option_bind].
  assert (Htl : top ∈ P ∧ loser ∈ P ∧ top ≠ loser ∧ loser ≠ m
                ∧ (∀ y, y ≠ node → y ≠ linknode → y ≠ top ∧ y ≠ loser)
                ∧ le_val nodes top loser).
  { destruct Hcase as [(-> & -> & Hc)|(-> & -> & Hc1 & Hc2)].
    - assert (linknode ≠ m).
      { intros <-. destruct Hc as [Hc|Hc].
        - apply Hc. by apply Hle.
        - simpl in Hc. congruence. }
      split_and!; try done.
      destruct Hc as [Hc|Hc].
      + destruct (le_val_total nodes node linknode) as [|Hbad]; [ | | done | done ];
          by apply (hs_valid _ _ None _ HS).
      + simpl in Hc. assert (m = node) as -> by congruence. by apply Hle.
    - assert (node ≠ m).
      { intros <-. simpl in Hc2. congruence. }
      split_and!; try done; congruence. }
  destruct Htl as (HtopP & HloserP & Htne & Hlm & Hothers & Htoplose).
  assert (HtopR : top ∈ roots F) by (rewrite Hroots; apply elem_of_app; by left).
  assert (HloserR : loser ∈ roots F) by (rewrite Hroots; apply elem_of_app; by left).
  pose proof (hs_nodup _ _ HS None) as Hnd. simpl in Hnd. rewrite Hroots in Hnd.
  assert (HloserNotR : loser ∉ R).
  { apply NoDup_app in Hnd as (_ & Hd & _). by apply Hd. }
  set (P1 := filter (λ y, y ≠ loser) P).
  assert (Hroots1 : roots (graft F top loser) = P1 ++ R).
  { simpl. rewrite Hroots, filter_app. by rewrite (filter_ne_id R). }
  apply (IH heap1 nodes' (graft F top loser) P1 R top m HS' Hroots1).
  - by apply list_elem_of_filter.
  - split; [ simpl; by rewrite length_insert | ].
    intros r y Hy. simpl in Hy.
    destruct (decide (r = bucket_of F node)) as [->|Hr].
    { rewrite list_lookup_insert_eq in Hy by done. done. }
    rewrite list_lookup_insert_ne in Hy by done.
    destruct (Htab _ _ Hy) as (HyP & Hyn & Hyb).
    assert (y ≠ linknode) by (intros ->; congruence).
    destruct (Hothers y) as [Hyt Hyl]; [ congruence | done | ].
    split_and!.
    + by apply list_elem_of_filter.
    + congruence.
    + unfold bucket_of, graft in *. simpl. by rewrite decide_False.
  - done.
  - by apply list_elem_of_filter.
  - intros y Hy. apply list_elem_of_filter in Hy as [_ Hy].
    apply (le_val_ext nodes); [ done | by apply Hle ].
  - pose proof (length_filter_lt (λ y, y ≠ loser) P loser HloserP) as Hlt'.
    fold P1 in Hlt'. assert (length P1 < length P) by (apply Hlt'; tauto). lia.
  - lia.
  - apply (ordered_sub nodes F nodes' (graft F top loser)); try done.
    intros p i [Hi|[-> ->]]%kids_graft; [ by left | by right ].
Qed.

(** The walk over the roots: the order is kept, and [min_node] ends on a
    root whose value is the least of the roots walked. *)
Lemma relink_ordered steps fuel : ∀ heap nodes F P R m,
  heap_shape nodes F → roots F = P ++ R →
  table_ok F P None (roots_by_rank heap) →
  min_node heap = Some m → (m ∈ P ∨ hd_or None R = Some m) →
  (∀ y, y ∈ P → le_val nodes m y) →
  length R ≤ steps → length nodes ≤ fuel → ordered nodes →
  match relink steps fuel (heap, nodes) (hd_or None R) with
  | Some st' =>
      ordered st'.2
      ∧ ∃ m', min_node st'.1 = Some m' ∧ ∀ y, y ∈ P ++ R → le_val st'.2 m' y
  | None => True
  end.
Proof.
  induction steps as [|steps IH];
    intros heap nodes F P R m HS Hroots [Htlen Htab] Hmin Hm Hle Hsteps Hfuel Hord.
  { destruct R; [ | done ]. simpl.
    split; [ done | ]. exists m. split; [ done | ]. by rewrite app_nil_r. }
  destruct R as [|t R'].
  { simpl. split; [ done | ]. exists m. split; [ done | ]. by rewrite app_nil_r. }
  cbn [hd_or relink].
  pose proof (hs_nodup _ _ HS None) as Hnd. simpl in Hnd. rewrite Hroots in Hnd.
  destruct (NoDup_mid_notin _ _ _ Hnd) as [HtP HtR].
  assert (HtR' : t ∈ roots F).
  { rewrite Hroots. apply elem_of_app. right. constructor. }
  assert (HmR : m ∈ roots F).
  { destruct Hm as [Hm|[= ->]]; [ | done ]. rewrite Hroots. apply elem_of_app. by left. }
  assert (Ht : is_Some (nodes !! t)).
  { apply lookup_lt_is_Some. by apply (hs_valid _ _ None _ HS). }
  assert (Hmv : is_Some (nodes !! m)).
  { apply lookup_lt_is_Some. by apply (hs_valid _ _ None _ HS). }
  destruct Ht as [tn Ht], Hmv as [mn Hmn].
  rewrite Ht. cbn [mbind option_bind]. rewrite Hmin. cbn [mbind option_bind].
  rewrite Hmn. cbn [mbind option_bind].
  set (heap1 := if bool_decide (val tn < val mn)%Z
                then set_min_node (Some t) heap else heap).
  set (m1 := if bool_decide (val tn < val mn)%Z then t else m).
  assert (Hmin1 : min_node heap1 = Some m1).
  { unfold heap1, m1. by case_bool_decide. }
  assert (Htab1 : roots_by_rank heap1 = roots_by_rank heap).
  { unfold heap1. by case_bool_decide. }
  assert (Hroots1 : roots F = (P ++ [t]) ++ R').
  { by rewrite <- app_assoc. }
  assert (Hm1P : m1 ∈ P ++ [t]).
  { unfold m1. case_bool_decide.
    - apply elem_of_app. right. constructor.
    - destruct Hm as [Hm|[= ->]]; apply elem_of_app; [ by left | right; constructor ]. }
  assert (Hle1 : ∀ y, y ∈ P ++ [t] → le_val nodes m1 y).
  { intros y Hy. unfold m1. case_bool_decide as Hlt.
    - apply elem_of_app in Hy as [Hy|Hy].
      + destruct (Hle y Hy) as (va & vb & Ha & Hb & Hab).
        rewrite (fld_Some _ _ _ _ Hmn) in Ha. injection Ha as <-.
        exists (val tn), vb. split_and!; [ by apply fld_Some | done | lia ].
      + apply list_elem_of_singleton in Hy as ->. apply le_val_refl.
        by apply (hs_valid _ _ None _ HS).
    - apply elem_of_app in Hy as [Hy|Hy]; [ by apply Hle | ].
      apply list_elem_of_singleton in Hy as ->.
      exists (val mn), (val tn). split_and!; [ by apply fld_Some | by apply fld_Some | lia ]. }
  assert (Hright : right_sibling tn = hd_or None R').
  { destruct (hs_links _ _ HS None t HtR') as (_ & _ & Hr). simpl in Hr.
    rewrite Hroots, next_to_mid in Hr by done.
    by apply (fld_inj _ _ _ _ _ Ht) in Hr. }
  rewrite Hright.
  assert (HtabP : table_ok F (P ++ [t]) (Some t) (roots_by_rank heap1)).
  { rewrite Htab1. split; [ done | ]. intros r y Hy.
    destruct (Htab _ _ Hy) as (HyP & _ & Hyb). split_and!; [ | | done ].
    + apply elem_of_app. by left.
    + intros [= ->]. done. }
  assert (HtP' : t ∈ P ++ [t]) by (apply elem_of_app; right; constructor).
  assert (Hsteps1 : length (P ++ [t]) ≤ fuel).
  { transitivity (length (roots F)).
    + rewrite Hroots1, !length_app. lia.
    + pose proof (shape_length_le nodes F None HS). simpl in *. lia. }
  pose proof (link_spec fuel fuel heap1 nodes F (P ++ [t]) R' t m1 HS Hroots1
                HtP' HtabP Hmin1 Hm1P Hle1 Hsteps1 Hfuel) as Hpost.
  pose proof (link_ordered fuel fuel heap1 nodes F (P ++ [t]) R' t m1 HS Hroots1
                HtP' HtabP Hmin1 Hm1P Hle1 Hsteps1 Hfuel Hord) as Hord2.
  destruct (link fuel fuel (heap1, nodes) t) as [[heap2 nodes2]|];
    cbn [mbind option_bind]; [ | done ].
  simpl in Hpost, Hord2. destruct Hpost as (F2 & P2 & [lp_shape0 lp_roots0 lp_sub0 lp_min_in0 lp_min0 lp_table0 lp_length0 lp_payload0 lp_forest0 lp_clean0]).
  simpl in *.
  assert (Hle2 : ∀ y, y ∈ P2 → le_val nodes2 m1 y).
  { intros y Hy. apply (le_val_ext nodes); [ done | ]. apply Hle1. by apply lp_sub0. }
  pose proof (IH heap2 nodes2 F2 P2 R' m1 lp_shape0 lp_roots0 lp_table0 lp_min0
                (or_introl lp_min_in0) Hle2) as Hrec.
  destruct (relink steps fuel (heap2, nodes2) (hd_or None R')) as [st'|] eqn:Hrun;
    [ | done ].
  destruct Hrec as (Hord' & m' & Hmin' & Hleast); [ lia | lia | done | ].
  split; [ done | ]. exists m'. split; [ done | ].
  assert (Hpay' : ∀ j, fld payload st'.2 j = fld payload nodes j).
  { pose proof (relink_spec steps fuel heap2 nodes2 F2 P2 R' m1 lp_shape0 lp_roots0
                  lp_table0 lp_min0 (or_introl lp_min_in0) Hle2) as Hspec.
    rewrite Hrun in Hspec. simpl in Hspec.
    destruct Hspec as (F' & [_ _ _ _ rl_payload0 _ _]); [ lia | lia | ].
    intros j. by rewrite rl_payload0. }
  assert (Hm'1 : le_val st'.2 m' m1).
  { apply Hleast. apply elem_of_app. by left. }
  intros y Hy.
  replace (P ++ t :: R') with ((P ++ [t]) ++ R') in Hy by (by rewrite <- app_assoc).
  apply elem_of_app in Hy as [Hy|Hy].
  - eapply le_val_trans; [ exact Hm'1 | ].
    apply (le_val_ext nodes); [ done | ]. by apply Hle1.
  - apply Hleast. apply elem_of_app. by right.
Qed.

(** ** Extraction keeps the order *)

Lemma kid_parent_in_forest nodes F y p :
  heap_shape nodes F → clean_free F → y ∈ kids F p → in_forest F p.
Proof.
  intros HS Hclean Hy.
  destruct (hs_links _ _ HS (Some p) y Hy) as (Hpy & _).
  pose proof (hs_parent_valid _ _ _ _ HS Hpy) as Hp.
  apply (fld_is_Some parent) in Hp as [[q|] Hq].
  - right. exists q. by apply (hs_complete _ _ HS).
  - destruct (decide (p ∈ roots F)) as [Hr|Hr]; [ by left | ].
    assert (Hnf : ¬ in_forest F p).
    { intros [Hin|[q Hin]]; [ done | ].
      destruct (hs_links _ _ HS (Some q) p Hin) as (Hpq & _). congruence. }
    rewrite (Hclean p Hnf) in Hy. by apply elem_of_nil in Hy.
Qed.

Lemma in_forest_valid nodes F y : heap_shape nodes F → in_forest F y → y < length nodes.
Proof.
  intros HS [par Hy]%in_forest_sibs. by apply (hs_valid _ _ par _ HS).
Qed.

(** Every node of the heap other than the root [m] is at or below a root
    other than [m] or a child of [m]. *)
Lemma forest_above nodes F m y :
  heap_shape nodes F → clean_free F → ordered nodes →
  in_forest F y → y ≠ m →
  ∃ z, z ∈ filter (λ y, y ≠ m) (roots F ++ kids F m) ∧ le_val nodes z y.
Proof.
  intros HS Hclean Hord Hy.
  pose proof (hs_rooted _ _ HS y (in_forest_valid _ _ _ HS Hy)) as Hr.
  induction Hr as [y Hpy|y p Hpy Hp IH]; intros Hne.
  - exists y. split.
    + apply list_elem_of_filter. split; [ done | ]. apply elem_of_app. left.
      destruct Hy as [Hy|[q Hy]]; [ done | ].
      destruct (hs_links _ _ HS (Some q) y Hy) as (Hq & _). congruence.
    + apply le_val_refl. by apply (in_forest_valid _ F).
  - pose proof (hs_complete _ _ HS y p Hpy) as Hk.
    destruct (decide (p = m)) as [->|Hpm].
    + exists y. split.
      * apply list_elem_of_filter. split; [ done | ]. apply elem_of_app. by right.
      * apply le_val_refl. by apply (in_forest_valid _ F).
    + destruct (IH (kid_parent_in_forest _ _ _ _ HS Hclean Hk) Hpm) as (z & Hz & Hle).
      exists z. split; [ done | ]. eapply le_val_trans; [ exact Hle | ]. by apply Hord.
Qed.

Lemma remove_min_least fuel heap nodes F m :
  heap_inv (heap, nodes) F → min_node heap = Some m → length nodes ≤ fuel →
  ordered nodes →
  match remove_min fuel (heap, nodes) with
  | Some res =>
      ordered res.2.2
      ∧ ∀ m' y, min_node res.2.1 = Some m' → in_forest F y → y ≠ m →
                le_val res.2.2 m' y
  | None => True
  end.
Proof.
  intros Hinv Hm Hfuel Hord.
  pose proof (remove_min_spec fuel heap nodes F m Hinv Hm Hfuel) as Hspec.
  destruct Hinv as [HS Hclean Hmin]. simpl in HS, Hmin.
  unfold min_ok in Hmin. rewrite Hm in Hmin.
  revert Hspec. unfold remove_min. rewrite Hm. cbn [mbind option_bind].
  assert (Hmv : m < length nodes) by (by apply (hs_valid _ _ None _ HS)).
  destruct (lookup_lt_is_Some_2 nodes m Hmv) as [mn Hmn].
  rewrite Hmn. cbn [mbind option_bind].
  assert (Hphase1 : ∃ nodes2 F1,
    match children mn with
    | Some c =>
        leftmost_sibling fuel nodes c
        ≫= λ temp, promote_children fuel fuel nodes m (Some temp)
        ≫= λ nodes, store nodes m (set_children None)
    | None => Some nodes
    end = Some nodes2
    ∧ heap_shape nodes2 F1
    ∧ roots F1 = roots F ++ kids F m
    ∧ kids F1 m = []
    ∧ (∀ q, q ≠ m → kids F1 q = kids F q)
    ∧ length nodes2 = length nodes
    ∧ (∀ j, fld payload nodes2 j = fld payload nodes j)).
  { pose proof (hs_children _ _ HS m (children mn) (fld_Some _ _ _ _ Hmn)) as Hch.
    destruct (children mn) as [c|].
    - rewrite (leftmost_sibling_shape nodes F (Some m) fuel c HS Hch).
      2: { pose proof (shape_length_le nodes F (Some m) HS). lia. }
      simpl. destruct (kids F m) as [|t K'] eqn:EK; [ by apply elem_of_nil in Hch | ].
      simpl.
      destruct (promote_children_spec fuel fuel nodes F m (t :: K') HS Hmin EK)
        as (nodes1 & F1 & Hrun & HS1 & Hr1 & Hk1 & Hq1 & Hlen1 & Hpay1).
      { pose proof (shape_length_le nodes F (Some m) HS) as Hl. simpl in Hl.
        rewrite EK in Hl. lia. }
      { done. }
      simpl in Hrun. rewrite Hrun. cbn [mbind option_bind].
      destruct (store_defined nodes1 m (set_children None)) as [nodes2 Hst]; [ lia | ].
      exists nodes2, F1. split_and!; try done.
      + by apply (shape_clear_children nodes1 nodes2 F1 m).
      + rewrite (store_length _ _ _ _ Hst). done.
      + intros j. by rewrite (store_fld_other _ _ _ _ _ _ Hst).
    - exists nodes, F. rewrite Hch. split_and!; try done. by rewrite app_nil_r. }
  destruct Hphase1 as (nodes2 & F1 & -> & HS1 & Hr1 & Hk1 & Hq1 & Hlen1 & Hpay1).
  cbn [mbind option_bind].
  assert (Hord2 : ordered nodes2).
  { apply (ordered_sub nodes F nodes2 F1); try done.
    intros p i Hi. left. destruct (decide (p = m)) as [->|Hp].
    - rewrite Hk1 in Hi. by apply elem_of_nil in Hi.
    - by rewrite Hq1 in Hi. }
  assert (Hm1 : m ∈ roots F1) by (rewrite Hr1; apply elem_of_app; by left).
  rewrite (leftmost_sibling_shape nodes2 F1 None fuel m HS1 Hm1).
  2: { pose proof (shape_length_le nodes2 F1 None HS1). lia. }
  simpl. destruct (roots F1) as [|h L] eqn:ER; [ by apply elem_of_nil in Hm1 | ].
  simpl.
  assert (Hm1s : m ∈ sibs F1 None) by (simpl; by rewrite ER).
  destruct (lookup_lt_is_Some_2 nodes2 m) as [mn2 Hmn2]; [ lia | ].
  rewrite Hmn2. cbn [mbind option_bind].
  pose proof (hs_nodup _ _ HS1 None) as Hnd. simpl in Hnd. rewrite ER in Hnd.
  assert (Hrest : ∃ rest,
    (if bool_decide (h = m) then right_sibling mn2 else Some h) = rest
    ∧ rest = hd_or None (filter (λ y, y ≠ m) (h :: L))).
  { eexists. split; [ done | ].
    destruct (hs_links _ _ HS1 None m Hm1s) as (_ & _ & Hr). simpl in Hr.
    rewrite ER in Hr. apply (fld_inj _ _ _ _ _ Hmn2) in Hr.
    case_bool_decide as Hhm.
    - subst h. rewrite Hr. simpl. rewrite decide_True by done.
      rewrite filter_cons_False by (intros ?; done).
      apply NoDup_cons in Hnd as [HmL _]. by rewrite (filter_ne_id L m HmL).
    - rewrite filter_cons_True by done. done. }
  destruct Hrest as (rest & -> & Hrest).
  destruct rest as [temp|]; [ | intros _; simpl; split; [ done | done ] ].
  assert (Hmn2p : parent mn2 = None).
  { destruct (hs_links _ _ HS1 None m Hm1s) as (Hp & _).
    by apply (fld_inj _ _ _ _ _ Hmn2) in Hp. }
  destruct (remove_shape nodes2 F1 m mn2 HS1 Hmn2) as (nodes3 & -> & HS3 & Hlen3 & Hp3 & Hpay3).
  { by rewrite Hmn2p. }
  cbn [mbind option_bind]. rewrite Hmn2p in HS3. simpl in HS3. rewrite ER in HS3.
  set (F3 := set_sibs F1 None (filter (λ y, y ≠ m) (h :: L))) in *.
  assert (Hord3 : ordered nodes3).
  { apply (ordered_sub nodes2 F1 nodes3 F3); try done. intros p i Hi. by left. }
  pose proof (relink_ordered fuel fuel (mkHeap (Some temp) (replicate max_rank None))
                nodes3 F3 [] (filter (λ y, y ≠ m) (h :: L)) temp HS3) as Hrl.
  rewrite <- Hrest in Hrl.
  assert (Hpost : match relink fuel fuel
                          (mkHeap (Some temp) (replicate max_rank None), nodes3)
                          (Some temp) with
                  | Some st' =>
                      ordered st'.2
                      ∧ ∃ m', min_node st'.1 = Some m'
                          ∧ ∀ y, y ∈ [] ++ filter (λ y, y ≠ m) (h :: L) →
                                 le_val st'.2 m' y
                  | None => True
                  end).
  { apply Hrl; try done.
    - apply table_ok_empty.
    - by right.
    - intros y Hy. by apply elem_of_nil in Hy.
    - transitivity (length (h :: L)); [ apply length_filter | ].
      pose proof (shape_length_le nodes2 F1 None HS1) as Hl. simpl in Hl.
      rewrite ER in Hl. lia.
    - lia. }
  destruct (relink fuel fuel _ (Some temp)) as [st'|]; cbn [mbind option_bind];
    [ | done ].
  simpl. intros (F' & [_ _ _ _ Hpay']). simpl in Hpay'.
  destruct Hpost as (Hord' & m' & Hmin' & Hleast). split; [ done | ].
  intros m'' y Hm'' Hy Hne. assert (m'' = m') as -> by congruence.
  destruct (forest_above nodes F m y HS Hclean Hord Hy Hne) as (z & Hz & Hzy).
  rewrite <- Hr1 in Hz.
  eapply le_val_trans; [ apply Hleast; exact Hz | ].
  by apply (le_val_ext nodes).
Qed.

(** ** The heap as a priority queue *)

(** A node outside the heap has empty links. *)
Lemma outside_links nodes F x :
  heap_shape nodes F → clean_free F → x < length nodes → ¬ in_forest F x →
  fld parent nodes x = Some None ∧ fld left_sibling nodes x = Some None
  ∧ fld right_sibling nodes x = Some None ∧ fld rank nodes x = Some 0%Z
  ∧ fld children nodes x = Some None.
Proof.
  intros HS Hclean Hx Hnf.
  pose proof (shape_member_parent nodes F x HS Hx Hnf) as Hp.
  assert (Hxr : x ∉ roots F) by (intros ?; apply Hnf; by left).
  destruct (hs_detached _ _ HS x Hp Hxr) as [Hl Hr].
  pose proof (Hclean x Hnf) as Hk.
  split_and!; try done.
  - pose proof (proj2 (fld_is_Some rank nodes x) Hx) as [r Hr'].
    rewrite Hr'. f_equal. rewrite (hs_rank _ _ HS x r Hr'), Hk. done.
  - pose proof (proj2 (fld_is_Some children nodes x) Hx) as [c Hc].
    rewrite Hc. f_equal. pose proof (hs_children _ _ HS x c Hc) as Hch.
    destruct c as [c|]; [ | done ]. rewrite Hk in Hch. by apply elem_of_nil in Hch.
Qed.

(** [initialize_node] on a node outside the heap changes its index, state
    and value only. *)
Lemma initialize_node_outside nodes F x v :
  heap_shape nodes F → clean_free F → x < length nodes → ¬ in_forest F x →
  ∃ nodes', initialize_node nodes x x v = Some nodes'
    ∧ same_links nodes nodes'
    ∧ fld val nodes' x = Some v
    ∧ (∀ j, j ≠ x → fld payload nodes' j = fld payload nodes j).
Proof.
  intros HS Hclean Hx Hnf. unfold initialize_node.
  destruct (store_defined nodes x (λ _, fresh_node x v) Hx) as [nodes' Hst].
  exists nodes'. split; [ done | ].
  destruct (outside_links nodes F x HS Hclean Hx Hnf) as (Hp & Hl & Hr & Hrk & Hc).
  pose proof (proj2 (lookup_lt_is_Some nodes x) Hx) as [n Hn].
  assert (Hfld : ∀ {A} (f : FibonacciNode → A) j,
             fld f nodes' j = if decide (j = x) then Some (f (fresh_node x v))
                              else fld f nodes j).
  { intros A f j. rewrite (store_fld f _ _ _ _ j Hst). case_decide; [ | done ].
    by rewrite Hn. }
  split_and!.
  - split.
    + by apply store_length in Hst.
    + intros j. rewrite Hfld. case_decide; [ subst; by rewrite Hp | done ].
    + intros j. rewrite Hfld. case_decide; [ subst; by rewrite Hl | done ].
    + intros j. rewrite Hfld. case_decide; [ subst; by rewrite Hr | done ].
    + intros j. rewrite Hfld. case_decide; [ subst; by rewrite Hrk | done ].
    + intros j. rewrite Hfld. case_decide; [ subst; by rewrite Hc | done ].
  - rewrite Hfld. by rewrite decide_True.
  - intros j Hj. rewrite Hfld. by rewrite decide_False.
Qed.

Lemma fld_payload_val_eq nodes nodes' j :
  fld payload nodes' j = fld payload nodes j → fld val nodes' j = fld val nodes j.
Proof. apply fld_payload_val. Qed.

Lemma le_val_same nodes nodes' a b :
  fld val nodes' a = fld val nodes a → fld val nodes' b = fld val nodes b →
  le_val nodes a b → le_val nodes' a b.
Proof. intros Ha Hb (va & vb & ? & ? & ?). exists va, vb. by rewrite Ha, Hb. Qed.

(** Every node of the heap is at or below a root. *)
Lemma forest_root nodes F y :
  heap_shape nodes F → clean_free F → in_forest F y → ∃ r, r ∈ roots F.
Proof.
  intros HS Hclean Hy.
  pose proof (hs_rooted _ _ HS y (in_forest_valid _ _ _ HS Hy)) as Hr.
  induction Hr as [y Hpy|y p Hpy Hp IH].
  - exists y. destruct Hy as [Hy|[q Hy]]; [ done | ].
    destruct (hs_links _ _ HS (Some q) y Hy) as (Hq & _). congruence.
  - apply IH. eapply kid_parent_in_forest; [ done | done | ].
    by apply (hs_complete _ _ HS).
Qed.

Lemma queue_nonempty st F y :
  queue_inv st F → in_forest F y → ∃ m, min_node st.1 = Some m.
Proof.
  intros [[HS Hclean Hmin] _ _] Hy.
  destruct (forest_root _ _ _ HS Hclean Hy) as [r Hr].
  unfold min_ok in Hmin. destruct (min_node st.1) as [m|]; [ by exists m | ].
  rewrite Hmin in Hr. by apply elem_of_nil in Hr.
Qed.

(** The minimum after an insertion is at most the old minimum and at most
    the node inserted. *)
Lemma insert_node_least fuel heap nodes x heap' nodes' :
  insert_node fuel (heap, nodes) x = Some (heap', nodes') →
  x < length nodes' →
  ∃ m', min_node heap' = Some m' ∧ le_val nodes' m' x
        ∧ ∀ m, min_node heap = Some m → le_val nodes' m' m.
Proof.
  unfold insert_node. intros H Hx.
  destruct (min_node heap) as [m|] eqn:Hm.
  - destruct (add_sibling fuel nodes m x) as [nodes1|];
      cbn [mbind option_bind] in H; [ | done ].
    destruct (nodes1 !! x) as [n|] eqn:Hn; cbn [mbind option_bind] in H; [ | done ].
    destruct (nodes1 !! m) as [mn|] eqn:Hmn; cbn [mbind option_bind] in H; [ | done ].
    case_bool_decide as Hlt; injection H as <- <-.
    + exists x. split_and!; [ done | by apply le_val_refl | ].
      intros m0 [= <-]. exists (val n), (val mn).
      split_and!; [ by apply fld_Some | by apply fld_Some | lia ].
    + exists m. split_and!; [ done | | ].
      * exists (val mn), (val n).
        split_and!; [ by apply fld_Some | by apply fld_Some | lia ].
      * intros m0 [= <-]. apply le_val_refl. by eapply lookup_lt_Some.
  - injection H as <- <-. exists x. split_and!; [ done | by apply le_val_refl | done ].
Qed.

(** The operation [insert] of a client: the node, outside the heap, gets
    its value and joins the heap. *)
Lemma queue_insert fuel heap nodes F x v :
  queue_inv (heap, nodes) F → x < length nodes → ¬ in_forest F x →
  length nodes ≤ fuel →
  ∃ nodes1 st' F',
    initialize_node nodes x x v = Some nodes1
    ∧ insert_node fuel (heap, nodes1) x = Some st'
    ∧ queue_inv st' F'
    ∧ (∀ i, in_forest F' i ↔ in_forest F i ∨ i = x)
    ∧ length st'.2 = length nodes
    ∧ fld val st'.2 x = Some v
    ∧ (∀ j, j ≠ x → fld val st'.2 j = fld val nodes j).
Proof.
  intros [[HS Hclean Hmin] Hord Hleast] Hx Hnf Hfuel. simpl in *.
  destruct (initialize_node_outside nodes F x v HS Hclean Hx Hnf)
    as (nodes1 & Hinit & Hsl & Hvx & Hpay1).
  pose proof (heap_shape_ext _ _ _ Hsl HS) as HS1.
  pose proof (sl_length _ _ Hsl) as Hlen1.
  assert (Hxr : x ∉ roots F) by (intros ?; apply Hnf; by left).
  assert (Hpx : fld parent nodes1 x = Some None).
  { apply (shape_member_parent nodes1 F x HS1); [ lia | done ]. }
  destruct (insert_node_shape fuel heap nodes1 F x HS1 Hmin Hpx Hxr)
    as (heap' & nodes' & Hrun & HS' & Hmin' & _ & Hlen & Hpay); [ lia | ].
  exists nodes1, (heap', nodes'), (set_sibs F None (roots F ++ [x])).
  assert (Hforest : ∀ i, in_forest (set_sibs F None (roots F ++ [x])) i
                         ↔ in_forest F i ∨ i = x).
  { intros i. unfold in_forest. simpl. rewrite elem_of_app, list_elem_of_singleton. tauto. }
  assert (Hval1 : ∀ j, j ≠ x → fld val nodes1 j = fld val nodes j).
  { intros j Hj. apply fld_payload_val. by apply Hpay1. }
  assert (Hval' : ∀ j, fld val nodes' j = fld val nodes1 j).
  { intros j. by apply fld_payload_val. }
  assert (Hin_ne : ∀ y, in_forest F y → y ≠ x) by (intros y Hy ->; done).
  assert (Hord1 : ordered nodes1).
  { apply (ordered_same_links nodes); [ done | | done ].
    intros i p Hp Hle.
    pose proof (hs_complete _ _ HS i p Hp) as Hk.
    apply (le_val_same nodes); [ | | done ]; apply Hval1, Hin_ne.
    - by apply (kid_parent_in_forest nodes F i p).
    - right. by exists p. }
  split_and!; try done.
  - split; simpl.
    + split; simpl; try done.
      intros i Hi. rewrite Hforest in Hi. simpl. apply Hclean. tauto.
    + apply (ordered_sub nodes1 F nodes' (set_sibs F None (roots F ++ [x])));
        try done.
      intros p i Hi. by left.
    + intros m' y Hm' Hy.
      destruct (insert_node_least fuel heap nodes1 x heap' nodes' Hrun)
        as (m'' & Hm'' & Hmx & Hmm); [ lia | ].
      assert (m'' = m') as -> by congruence.
      apply Hforest in Hy as [Hy| ->]; [ | done ].
      destruct (queue_nonempty (heap, nodes) F y) as [m Hm]; [ by split | done | ].
      simpl in Hm. eapply le_val_trans; [ by apply Hmm | ].
      assert (Hmf : in_forest F m).
      { left. unfold min_ok in Hmin. by rewrite Hm in Hmin. }
      apply (le_val_same nodes).
      * rewrite Hval'. by apply Hval1, Hin_ne.
      * rewrite Hval'. by apply Hval1, Hin_ne.
      * by apply Hleast.
  - simpl. lia.
  - simpl. by rewrite Hval'.
  - simpl. intros j Hj. rewrite Hval'. by apply Hval1.
Qed.

(** The operation [extract_min] of a client on a heap that is not empty:
    the node returned has the least value of the heap and leaves it. *)
Lemma queue_extract fuel heap nodes F y0 :
  queue_inv (heap, nodes) F → in_forest F y0 →
  length nodes ≤ fuel → length nodes ≤ max_rank →
  ∃ m st' F',
    remove_min fuel (heap, nodes) = Some (m, st')
    ∧ in_forest F m
    ∧ (∀ y, in_forest F y → le_val nodes m y)
    ∧ queue_inv st' F'
    ∧ (∀ i, in_forest F' i ↔ in_forest F i ∧ i ≠ m)
    ∧ length st'.2 = length nodes
    ∧ (∀ j, fld payload st'.2 j = fld payload nodes j).
Proof.
  intros Hq Hy0 Hfuel Hsmall.
  destruct (queue_nonempty _ _ _ Hq Hy0) as [m Hm]. simpl in Hm.
  destruct Hq as [Hinv Hord Hleast]. simpl in Hord, Hleast.
  pose proof (remove_min_spec fuel heap nodes F m Hinv Hm Hfuel) as Hspec.
  pose proof (remove_min_least fuel heap nodes F m Hinv Hm Hfuel Hord) as Hlst.
  destruct (remove_min fuel (heap, nodes)) as [[m0 st']|] eqn:Hrun;
    [ | unfold ok_or_big in Hspec; lia ].
  destruct Hspec as (F' & [Hout Hinv' Hforest Hlen Hpay]).
  simpl in Hout, Hinv', Hforest, Hlen, Hpay, Hlst. subst m0.
  destruct Hlst as [Hord' Hleast'].
  exists m, st', F'. split_and!; [ done | | | | done | done | done ].
  - left. destruct Hinv as [_ _ Hmin]. unfold min_ok in Hmin. simpl in Hmin.
    by rewrite Hm in Hmin.
  - intros y Hy. by apply Hleast.
  - split; [ done | done | ].
    intros m' y Hm' Hy. apply Hforest in Hy as [Hy Hne]. by apply Hleast'.
Qed.

Lemma empty_heap_queue N : queue_inv (empty_heap N) empty_forest.
Proof.
  split.
  - apply clean_heap_inv; [ apply initial_nodes_clean | done ].
  - intros i p Hp. simpl in Hp. unfold fld in Hp.
    destruct (initial_nodes N !! i) as [n|] eqn:Hn; [ | done ].
    destruct (initial_nodes_clean N i n Hn) as (_ & _ & Hpn & _).
    simpl in Hp. congruence.
  - intros m y Hm. done.
Qed.

#[local] Arguments insert_node : simpl never.
#[local] Arguments remove_min : simpl never.

(** ** Runs of the heap harness *)

Lemma ascending_cons a l :
  (∀ b, b ∈ l → (a ≤ b)%Z) → ascending l → ascending (a :: l).
Proof.
  intros Ha Hl [|i] [|j] x y Hij Hx Hy; simpl in Hx, Hy.
  - simplify_eq. lia.
  - injection Hx as <-. apply Ha. by eapply list_elem_of_lookup_2.
  - lia.
  - apply (Hl i j); [ lia | done | done ].
Qed.

Lemma harness_inserts fuel v rest : ∀ xs st F l out,
  holds v st F l → NoDup (l ++ xs) → Forall (λ x, x < length st.2) xs →
  length st.2 ≤ fuel →
  ∃ st' F',
    harness_run fuel (st, out) (map (λ x, op_insert x (v x)) xs ++ rest)
    = harness_run fuel (st', out) rest
    ∧ holds v st' F' (l ++ xs) ∧ length st'.2 = length st.2.
Proof.
  induction xs as [|x xs IH]; intros [heap nodes] F l out Hh Hnd Hall Hfuel.
  { exists (heap, nodes), F. rewrite app_nil_r. done. }
  destruct Hh as (Hq & Hndl & Hforest & Hvals). simpl in Hfuel, Hall, Hvals.
  apply Forall_cons in Hall as [Hx Hall].
  assert (Hxl : x ∉ l).
  { apply NoDup_app in Hnd as (_ & Hd & _). intros Hin. apply (Hd x Hin). by left. }
  assert (Hnf : ¬ in_forest F x) by (by rewrite Hforest).
  destruct (queue_insert fuel heap nodes F x (v x) Hq Hx Hnf Hfuel)
    as (nodes1 & st1 & F1 & Hinit & Hins & Hq1 & Hforest1 & Hlen1 & Hvx & Hvo).
  assert (Hh1 : holds v st1 F1 (l ++ [x])).
  { split_and!; [ done | | | ].
    - apply NoDup_app. split_and!; [ done | | apply NoDup_singleton ].
      intros y Hy ->%list_elem_of_singleton. done.
    - intros i. rewrite Hforest1, Hforest, elem_of_app, list_elem_of_singleton. done.
    - intros y [Hy| ->%list_elem_of_singleton]%elem_of_app; [ | done ].
      rewrite Hvo; [ by apply Hvals | ]. intros ->. done. }
  destruct (IH st1 F1 (l ++ [x]) out Hh1) as (st' & F' & Hrun & Hh' & Hlen').
  { by rewrite <- app_assoc. }
  { by rewrite Hlen1. }
  { by rewrite Hlen1. }
  exists st', F'. split_and!.
  - rewrite <- Hrun. cbn [map app harness_run harness_step].
    rewrite Hinit. cbn [mbind option_bind]. rewrite Hins. done.
  - by rewrite <- app_assoc in Hh'.
  - by rewrite Hlen', Hlen1.
Qed.

Lemma harness_extracts fuel v : ∀ n st F l out,
  holds v st F l → length l = n → length st.2 ≤ fuel → length st.2 ≤ max_rank →
  ∃ st' ext,
    harness_run fuel (st, out) (replicate n op_extract_min)
    = Some (st', out ++ map v ext)
    ∧ ext ≡ₚ l ∧ ascending (map v ext) ∧ min_node st'.1 = None.
Proof.
  induction n as [|n IH]; intros [heap nodes] F l out Hh Hlen Hfuel Hsmall.
  { destruct l; [ | done ]. exists (heap, nodes), []. simpl. rewrite app_nil_r.
    split_and!; [ done | done | by intros [|?] ? ? ? ? ? | ].
    destruct Hh as ([[_ _ Hmin] _ _] & _ & Hforest & _). simpl in Hmin.
    unfold min_ok in Hmin. destruct (min_node heap) as [m|]; [ | done ].
    assert (Hm : m ∈ []) by (apply Hforest; by left). by apply elem_of_nil in Hm. }
  destruct Hh as (Hq & Hnd & Hforest & Hvals). simpl in Hfuel, Hsmall, Hvals.
  destruct l as [|y0 l0]; [ done | ].
  assert (Hy0 : in_forest F y0) by (apply Hforest; by left).
  destruct (queue_extract fuel heap nodes F y0 Hq Hy0 Hfuel Hsmall)
    as (m & st1 & F1 & Hrun & Hm & Hleast & Hq1 & Hforest1 & Hlen1 & Hpay1).
  apply Hforest in Hm. pose proof Hm as Hmk.
  apply elem_of_Permutation in Hmk as [k Hk].
  assert (Hndk : NoDup (m :: k)) by (by rewrite <- Hk).
  apply NoDup_cons in Hndk as [Hmk Hndk].
  assert (Hval1 : ∀ j, fld val st1.2 j = fld val nodes j).
  { intros j. by apply fld_payload_val. }
  assert (Hh1 : holds v st1 F1 k).
  { split_and!; [ done | done | | ].
    - intros i. rewrite Hforest1, Hforest, Hk, elem_of_cons. split.
      + intros [[->|Hi] Hne]; done.
      + intros Hi. split; [ by right | ]. intros ->. done.
    - intros y Hy. rewrite Hval1. apply Hvals. rewrite Hk. by right. }
  destruct (IH st1 F1 k (out ++ [v m]) Hh1) as (st' & ext & Hrun' & Hext & Hasc & Hmin').
  { pose proof (Permutation_length Hk) as Hpl. rewrite Hlen in Hpl.
    simpl in Hpl. lia. }
  { by rewrite Hlen1. }
  { by rewrite Hlen1. }
  exists st', (m :: ext). split_and!.
  - cbn [replicate harness_run harness_step]. rewrite Hrun. cbn [mbind option_bind].
    assert (Hmn : fld val st1.2 m = Some (v m)) by (rewrite Hval1; by apply Hvals).
    unfold fld in Hmn. destruct (st1.2 !! m) as [mn|]; [ | done ].
    simpl in Hmn. injection Hmn as Hmn. cbn [mbind option_bind]. rewrite Hmn, Hrun'.
    by rewrite <- app_assoc.
  - rewrite Hk. by constructor.
  - simpl. apply ascending_cons; [ | done ].
    intros b Hb. apply list_elem_of_fmap in Hb as (y & -> & Hy).
    rewrite Hext in Hy.
    assert (Hyl : y ∈ y0 :: l0) by (rewrite Hk; by right).
    destruct (Hleast y) as (va & vb & Ha & Hb & Hab); [ by apply Hforest | ].
    rewrite (Hvals m Hm) in Ha. rewrite (Hvals y Hyl) in Hb. by simplify_eq.
  - done.
Qed.

Lemma empty_heap_holds v N : holds v (empty_heap N) empty_forest [].
Proof.
  split_and!.
  - apply empty_heap_queue.
  - apply NoDup_nil. done.
  - intros i. split; [ intros Hi; by apply not_in_empty_forest in Hi | ].
    intros Hi. by apply elem_of_nil in Hi.
  - intros y Hy. by apply elem_of_nil in Hy.
Qed.

(** ** Runs with decreases *)

Lemma holds_contains v st F l : holds v st F l → contains v st F l.
Proof. intros ([Hinv _ _] & ? & ? & ?). by split_and!. Qed.

Lemma harness_decreases fuel rest : ∀ ds v st F l out,
  contains v st F l → Forall (λ d, d.1 ∈ l) ds → length st.2 ≤ fuel →
  ∃ st' F',
    harness_run fuel (st, out) (map (λ d, op_decrease_value d.1 d.2) ds ++ rest)
    = harness_run fuel (st', out) rest
    ∧ contains (foldl set_value v ds) st' F' l ∧ length st'.2 = length st.2.
Proof.
  induction ds as [|[x w] ds IH]; intros v [heap nodes] F l out Hc Hall Hfuel.
  { exists (heap, nodes), F. done. }
  destruct Hc as (Hinv & Hnd & Hforest & Hvals). simpl in Hfuel, Hvals.
  apply Forall_cons in Hall as [Hx Hall]. simpl in Hx.
  assert (Hxv : x < length nodes).
  { apply (in_forest_valid nodes F); [ apply Hinv | by apply Hforest ]. }
  destruct (decrease_val_spec fuel heap nodes F x w Hinv Hxv Hfuel)
    as (st1 & F1 & Hrun & Hinv1 & Hforest1 & Hlen1 & _ & _ & Hval1).
  assert (Hc1 : contains (set_value v (x, w)) st1 F1 l).
  { split_and!; [ done | done | | ].
    - intros i. by rewrite Hforest1.
    - intros y Hy. rewrite Hval1. unfold set_value. simpl.
      case_decide; [ done | by apply Hvals ]. }
  destruct (IH (set_value v (x, w)) st1 F1 l out Hc1 Hall) as (st' & F' & Hrun' & Hc' & Hlen').
  { by rewrite Hlen1. }
  exists st', F'. split_and!.
  - rewrite <- Hrun'. cbn [map app harness_run harness_step fst snd].
    rewrite Hrun. done.
  - done.
  - by rewrite Hlen', Hlen1.
Qed.

Lemma heap_nonempty st F y :
  heap_inv st F → in_forest F y → ∃ m, min_node st.1 = Some m.
Proof.
  intros [HS Hclean Hmin] Hy.
  destruct (forest_root _ _ _ HS Hclean Hy) as [r Hr].
  unfold min_ok in Hmin. destruct (min_node st.1) as [m|]; [ by exists m | ].
  rewrite Hmin in Hr. by apply elem_of_nil in Hr.
Qed.

Lemma harness_extracts_all fuel v : ∀ n st F l out,
  contains v st F l → length l = n → length st.2 ≤ fuel → length st.2 ≤ max_rank →
  ∃ st' ext,
    harness_run fuel (st, out) (replicate n op_extract_min)
    = Some (st', out ++ map v ext)
    ∧ ext ≡ₚ l.
Proof.
  induction n as [|n IH]; intros [heap nodes] F l out Hh Hlen Hfuel Hsmall.
  { destruct l; [ | done ]. exists (heap, nodes), []. simpl. by rewrite app_nil_r. }
  destruct Hh as (Hinv & Hnd & Hforest & Hvals). simpl in Hfuel, Hsmall, Hvals.
  destruct l as [|y0 l0]; [ done | ].
  assert (Hy0 : in_forest F y0) by (apply Hforest; by left).
  destruct (heap_nonempty _ _ _ Hinv Hy0) as [m Hmin]. simpl in Hmin.
  pose proof (remove_min_spec fuel heap nodes F m Hinv Hmin Hfuel) as Hspec.
  destruct (remove_min fuel (heap, nodes)) as [[m0 st1]|] eqn:Hrun;
    [ | unfold ok_or_big in Hspec; lia ].
  destruct Hspec as (F1 & [Hout Hinv1 Hforest1 Hlen1 Hpay1]).
  simpl in Hout, Hinv1, Hforest1, Hlen1, Hpay1. subst m0.
  assert (Hm : m ∈ y0 :: l0).
  { apply Hforest. left. destruct Hinv as [_ _ Hmo]. unfold min_ok in Hmo.
    simpl in Hmo. by rewrite Hmin in Hmo. }
  pose proof Hm as Hmk.
  apply elem_of_Permutation in Hmk as [k Hk].
  assert (Hndk : NoDup (m :: k)) by (by rewrite <- Hk).
  apply NoDup_cons in Hndk as [Hmk Hndk].
  assert (Hval1 : ∀ j, fld val st1.2 j = fld val nodes j).
  { intros j. by apply fld_payload_val. }
  assert (Hh1 : contains v st1 F1 k).
  { split_and!; [ done | done | | ].
    - intros i. rewrite Hforest1, Hforest, Hk, elem_of_cons. split.
      + intros [[->|Hi] Hne]; done.
      + intros Hi. split; [ by right | ]. intros ->. done.
    - intros y Hy. rewrite Hval1. apply Hvals. rewrite Hk. by right. }
  destruct (IH st1 F1 k (out ++ [v m]) Hh1) as (st' & ext & Hrun' & Hext).
  { pose proof (Permutation_length Hk) as Hpl. rewrite Hlen in Hpl.
    simpl in Hpl. lia. }
  { by rewrite Hlen1. }
  { by rewrite Hlen1. }
  exists st', (m :: ext). split.
  - cbn [replicate harness_run harness_step]. rewrite Hrun. cbn [mbind option_bind].
    assert (Hmn : fld val st1.2 m = Some (v m)) by (rewrite Hval1; by apply Hvals).
    unfold fld in Hmn. destruct (st1.2 !! m) as [mn|]; [ | done ].
    simpl in Hmn. injection Hmn as Hmn. cbn [mbind option_bind]. rewrite Hmn, Hrun'.
    by rewrite <- app_assoc.
  - rewrite Hk. by constructor.
Qed.

(** The first [n] extractions of a run that goes on: the nodes extracted
    and those left share out the nodes of the heap. *)
Lemma harness_extracts_some fuel v rest : ∀ n st F l out,
  contains v st F l → n ≤ length l → length st.2 ≤ fuel → length st.2 ≤ max_rank →
  ∃ st' F' ext left,
    harness_run fuel (st, out) (replicate n op_extract_min ++ rest)
    = harness_run fuel (st', out ++ map v ext) rest
    ∧ length ext = n ∧ ext ++ left ≡ₚ l
    ∧ contains v st' F' left ∧ length st'.2 = length st.2.
Proof.
  induction n as [|n IH]; intros [heap nodes] F l out Hh Hlen Hfuel Hsmall.
  { exists (heap, nodes), F, [], l. simpl. by rewrite app_nil_r. }
  destruct Hh as (Hinv & Hnd & Hforest & Hvals). simpl in Hfuel, Hsmall, Hvals.
  destruct l as [|y0 l0]; [ simpl in Hlen; lia | ].
  assert (Hy0 : in_forest F y0) by (apply Hforest; by left).
  destruct (heap_nonempty _ _ _ Hinv Hy0) as [m Hmin]. simpl in Hmin.
  pose proof (remove_min_spec fuel heap nodes F m Hinv Hmin Hfuel) as Hspec.
  destruct (remove_min fuel (heap, nodes)) as [[m0 st1]|] eqn:Hrun;
    [ | unfold ok_or_big in Hspec; lia ].
  destruct Hspec as (F1 & [Hout Hinv1 Hforest1 Hlen1 Hpay1]).
  simpl in Hout, Hinv1, Hforest1, Hlen1, Hpay1. subst m0.
  assert (Hm : m ∈ y0 :: l0).
  { apply Hforest. left. destruct Hinv as [_ _ Hmo]. unfold min_ok in Hmo.
    simpl in Hmo. by rewrite Hmin in Hmo. }
  pose proof Hm as Hmk.
  apply elem_of_Permutation in Hmk as [k Hk].
  assert (Hndk : NoDup (m :: k)) by (by rewrite <- Hk).
  apply NoDup_cons in Hndk as [Hmk Hndk].
  assert (Hval1 : ∀ j, fld val st1.2 j = fld val nodes j).
  { intros j. by apply fld_payload_val. }
  assert (Hh1 : contains v st1 F1 k).
  { split_and!; [ done | done | | ].
    - intros i. rewrite Hforest1, Hforest, Hk, elem_of_cons. split.
      + intros [[->|Hi] Hne]; done.
      + intros Hi. split; [ by right | ]. intros ->. done.
    - intros y Hy. rewrite Hval1. apply Hvals. rewrite Hk. by right. }
  destruct (IH st1 F1 k (out ++ [v m]) Hh1)
    as (st' & F' & ext & left & Hrun' & Hext & Hperm & Hc' & Hlen').
  { pose proof (Permutation_length Hk) as Hpl. simpl in Hpl, Hlen. lia. }
  { by rewrite Hlen1. }
  { by rewrite Hlen1. }
  exists st', F', (m :: ext), left. split_and!.
  - cbn [replicate app harness_run harness_step]. rewrite Hrun.
    cbn [mbind option_bind].
    assert (Hmn : fld val st1.2 m = Some (v m)) by (rewrite Hval1; by apply Hvals).
    unfold fld in Hmn. destruct (st1.2 !! m) as [mn|]; [ | done ].
    simpl in Hmn. injection Hmn as Hmn. cbn [mbind option_bind]. rewrite Hmn, Hrun'.
    by rewrite <- app_assoc.
  - simpl. by rewrite Hext.
  - rewrite Hk. simpl. by constructor.
  - done.
  - by rewrite Hlen', Hlen1.
Qed.

Lemma harness_run_app fuel : ∀ ops1 ops2 h,
  harness_run fuel h (ops1 ++ ops2)
  = h' ← harness_run fuel h ops1; harness_run fuel h' ops2.
Proof.
  induction ops1 as [|op ops1 IH]; intros ops2 h; simpl; [ done | ].
  destruct (harness_step fuel h op) as [h1|]; simpl; [ apply IH | done ].
Qed.

(** ** From a dense matrix to compressed rows and back *)

Lemma cell_sum_entries (r : list Z) : ∀ off j,
  cell_sum (filter (λ cw : nat * Z, cw.2 ≠ 0%Z) (imap (λ k w, (off + k, w)) r)) j
  = if decide (off ≤ j) then default 0%Z (r !! (j - off)) else 0%Z.
Proof.
  induction r as [|x r IH]; intros off j.
  { unfold cell_sum. simpl. by case_decide. }
  rewrite imap_cons.
  assert (Hext : imap ((λ k w, (off + k, w)) ∘ S) r
                 = imap (λ k w, (S off + k, w)) r).
  { apply imap_ext. intros k w _. simpl. f_equal. lia. }
  rewrite Hext.
  assert (Htail : cell_sum (filter (λ cw : nat * Z, cw.2 ≠ 0%Z)
                              (imap (λ k w, (S off + k, w)) r)) j
                  = if decide (S off ≤ j) then default 0%Z (r !! (j - S off)) else 0%Z)
    by apply IH.
  unfold cell_sum in *.
  destruct (decide (x = 0%Z)) as [->|Hx].
  - rewrite filter_cons_False by (simpl; intros ?; done). rewrite Htail.
    destruct (decide (off ≤ j)) as [Hj|Hj].
    + destruct (decide (j = off)) as [->|Hne].
      * rewrite Nat.sub_diag. simpl. by rewrite decide_False by lia.
      * rewrite decide_True by lia.
        replace (j - off) with (S (j - S off)) by lia. done.
    + by rewrite decide_False by lia.
  - rewrite filter_cons_True by done.
    destruct (decide (j = off)) as [->|Hne].
    + rewrite filter_cons_True by (simpl; lia). cbn [map foldr snd]. rewrite Htail.
      rewrite decide_False by lia. rewrite decide_True by lia.
      rewrite Nat.sub_diag. simpl. lia.
    + rewrite filter_cons_False by (simpl; lia). rewrite Htail.
      destruct (decide (off ≤ j)) as [Hj|Hj].
      * rewrite decide_True by lia.
        replace (j - off) with (S (j - S off)) by lia. done.
      * by rewrite decide_False by lia.
Qed.

Lemma cell_sum_dense_row r j : cell_sum (dense_row_entries r) j = default 0%Z (r !! j).
Proof.
  unfold dense_row_entries.
  assert (Hext : imap (λ (j : nat) (w : Z), (j, w)) r = imap (λ k w, (0 + k, w)) r)
    by (by apply imap_ext).
  rewrite Hext, cell_sum_entries. rewrite decide_True by lia. by rewrite Nat.sub_0_r.
Qed.

(** [csr_matrix(g).toarray()] is [g] again. *)
Lemma toarray_csr_matrix g :
  (∀ i r, g !! i = Some r → length r = ncols g) → toarray (csr_matrix g) = g.
Proof.
  intros Hrect. unfold toarray.
  change (shape (csr_matrix g)) with (nrows g, ncols g). cbn [fst snd].
  apply list_eq. intros i.
  change (map ?f ?l) with (fmap (M := list) f l). rewrite list_lookup_fmap.
  destruct (g !! i) as [r|] eqn:Hr.
  - rewrite lookup_seq_lt by (by eapply lookup_lt_Some). simpl. f_equal.
    apply list_eq. intros j.
    change (map ?f ?l) with (fmap (M := list) f l). rewrite list_lookup_fmap.
    assert (Hrow : csr_row (csr_matrix g) i = dense_row_entries r).
    { unfold csr_matrix. apply csr_row_of_rows. by rewrite csr_matrix_rows, Hr. }
    rewrite Hrow.
    destruct (r !! j) as [w|] eqn:Hw.
    + rewrite lookup_seq_lt.
      2: { rewrite <- (Hrect i r Hr). by eapply lookup_lt_Some. }
      simpl. by rewrite cell_sum_dense_row, Hw.
    + rewrite lookup_seq_ge; [ done | ].
      rewrite <- (Hrect i r Hr). by apply lookup_ge_None.
  - rewrite lookup_seq_ge; [ done | ]. by apply lookup_ge_None.
Qed.

Lemma toarray_csr_matrix_square g : is_square g = true → toarray (csr_matrix g) = g.
Proof.
  intros Hsq. apply toarray_csr_matrix. intros i r Hr.
  by rewrite (is_square_rows g i r Hsq Hr), is_square_ncols.
Qed.

(** ** The dense algorithm on its own result *)

Lemma _floyd_warshall_nonnegative graph directed :
  square (nrows graph) graph → nonnegative graph →
  nonnegative (_floyd_warshall graph directed).
Proof.
  intros Hsq Hg. apply Forall_forall. intros r Hr. apply Forall_forall. intros w Hw.
  apply list_elem_of_lookup in Hr as [i Hi]. apply list_elem_of_lookup in Hw as [j Hj].
  pose proof (_floyd_warshall_nonneg graph directed i j Hsq Hg) as Hpos.
  unfold mget in Hpos. by rewrite Hi, Hj in Hpos.
Qed.

Lemma nrows__floyd_warshall graph directed :
  square (nrows graph) graph → nrows (_floyd_warshall graph directed) = nrows graph.
Proof. intros Hsq. by destruct (_floyd_warshall_square graph directed Hsq). Qed.

(** Two square matrices with the same cells are equal. *)
Lemma matrix_ext {A} (d : A) N (g g' : matrix A) :
  square N g → square N g' → (∀ i j, mget d g i j = mget d g' i j) → g = g'.
Proof.
  intros [Hlen Hrows] [Hlen' Hrows'] Hcell. apply list_eq. intros i.
  destruct (g !! i) as [r|] eqn:Hr.
  - destruct (lookup_lt_is_Some_2 g' i) as [r' Hr'].
    { rewrite Hlen', <- Hlen. by eapply lookup_lt_Some. }
    rewrite Hr'. f_equal. apply list_eq. intros j.
    pose proof (Hrows i r Hr) as Hlr. pose proof (Hrows' i r' Hr') as Hlr'.
    specialize (Hcell i j). unfold mget in Hcell. rewrite Hr, Hr' in Hcell.
    destruct (r !! j) as [x|] eqn:Hx.
    + destruct (lookup_lt_is_Some_2 r' j) as [x' Hx'].
      { rewrite Hlr', <- Hlr. by eapply lookup_lt_Some. }
      rewrite Hx' in Hcell |- *. simpl in Hcell. by rewrite Hcell.
    + symmetry. apply lookup_ge_None. apply lookup_ge_None in Hx. lia.
  - symmetry. apply lookup_ge_None. apply lookup_ge_None in Hr. lia.
Qed.

(** Where the sums are exact, a pass leaves the relaxed matrix as it is. *)
Lemma relax_through_fixed N M W g k :
  good N W → bounded M W → (2 * ((Z.of_nat N + 1) * M) ≤ 2 ^ 53)%Z →
  exact_inv N W N g → k < N → relax_through N g k = g.
Proof.
  intros HW HM Hfit (Hg & Hopt & Hreal) Hk.
  pose proof HW as (_ & _ & HposW).
  apply (matrix_ext Inf N); [ apply relax_through_square, Hg | apply Hg | ].
  intros i j. rewrite (relax_through_cells N g k Hg Hk). unfold relaxed. cbn zeta.
  destruct (mget Inf g i k) as [a|] eqn:Ha; [ | done ].
  destruct (mget Inf g k j) as [b|] eqn:Hb; [ | done ].
  pose proof (realised_bound W M N g i k a HposW HM Hreal Ha).
  pose proof (realised_bound W M N g k j b HposW HM Hreal Hb).
  rewrite dadd_exact by lia.
  destruct (Hreal i k a Ha) as (l1 & _ & Hl1 & Hw1).
  destruct (Hreal k j b Hb) as (l2 & _ & Hl2 & Hw2).
  assert (Hle : dle (mget Inf g i j) (Fin (a + b))).
  { replace (Fin (a + b)) with (wweight W i (l1 ++ k :: l2) j)
      by (by rewrite wweight_app, Hw1, Hw2).
    apply Hopt. intros x [Hx|[->|Hx]%elem_of_cons]%elem_of_app;
      [ by apply Hl1 | done | by apply Hl2 ]. }
  by rewrite (dltb_irrefl_dle _ _ Hle).
Qed.

Lemma relax_all_fixed N M W g :
  good N W → bounded M W → (2 * ((Z.of_nat N + 1) * M) ≤ 2 ^ 53)%Z →
  exact_inv N W N g → relax_all N g = g.
Proof.
  intros HW HM Hfit Hinv. unfold relax_all.
  pose proof (foldl_seq_inv (λ _ g', g' = g) (relax_through N) N 0 g eq_refl) as H.
  apply H. intros k g' Hk ->. apply (relax_through_fixed N M W); [ done.. | lia ].
Qed.

(** The work matrix of the result is the relaxed matrix itself. *)
Lemma work_matrix_of_result M graph directed :
  square (nrows graph) graph → nonnegative graph → in_exact_range M graph →
  work_matrix (_floyd_warshall graph directed) directed
  = relax_all (nrows graph) (work_matrix graph directed).
Proof.
  intros Hsq Hg HM.
  set (N := nrows graph). set (R := relax_all N (work_matrix graph directed)).
  destruct (work_matrix_exact M graph directed Hsq Hg HM) as (HR & Hopt & Hreal).
  fold N R in HR, Hopt, Hreal.
  pose proof HR as (HsqR & HdiagR & HposR).
  pose proof (_floyd_warshall_square graph directed Hsq) as HsqD.
  pose proof (nrows__floyd_warshall graph directed Hsq) as HnD.
  fold N in HsqD, HnD.
  assert (HsqD' : square (nrows (_floyd_warshall graph directed))
                         (_floyd_warshall graph directed)) by (by rewrite HnD).
  assert (Hbase : ∀ i j,
            mget Inf (zero_diagonal N (zeros_to_inf (_floyd_warshall graph directed))) i j
            = mget Inf R i j).
  { intros i j.
    destruct (zero_diagonal_cells N (zeros_to_inf (_floyd_warshall graph directed)))
      as (Hz & Hoff & Hdiag); [ by apply zeros_to_inf_square | ].
    destruct (decide (i = j)) as [->|Hij].
    - destruct (decide (j < N)) as [Hj|Hj].
      + by rewrite (Hdiag j Hj), (HdiagR j Hj).
      + rewrite !(mget_Inf_out_of_range N); [ done | done | lia | done | lia ].
    - rewrite (Hoff i j Hij), mget_zeros_to_inf_eq.
      rewrite _floyd_warshall_work_matrix, mget_inf_to_zeros_eq. fold N R.
      destruct (mget Inf R i j) as [z|] eqn:Hz'; [ | done ].
      destruct (Hreal i j z Hz') as (l & _ & _ & Hw).
      pose proof (wweight_walk graph directed _ i l j z
                    (work_matrix_sound graph directed) Hw) as Hwalk.
      destruct (walk_positive _ _ _ _ _ Hg Hwalk) as [_ Hpos]. specialize (Hpos Hij).
      rewrite bool_decide_eq_false_2 by lia. done. }
  apply (matrix_ext Inf N); [ | done | ].
  { rewrite <- HnD. by apply work_matrix_square. }
  intros i j. unfold work_matrix. cbn zeta. rewrite HnD.
  destruct directed; [ apply Hbase | ].
  destruct (symmetrize_values N
              (zero_diagonal N (zeros_to_inf (_floyd_warshall graph false))) i j)
    as [->| ->]; rewrite Hbase; [ done | ].
  apply (relax_all_symmetric N _ (work_matrix_good graph false Hsq Hg)).
  intros a b. by apply work_matrix_symmetric.
Qed.

Lemma _floyd_warshall_idempotent M graph directed :
  square (nrows graph) graph → nonnegative graph → in_exact_range M graph →
  _floyd_warshall (_floyd_warshall graph directed) directed
  = _floyd_warshall graph directed.
Proof.
  intros Hsq Hg HM.
  rewrite (_floyd_warshall_work_matrix (_floyd_warshall graph directed)).
  rewrite (work_matrix_of_result M graph directed Hsq Hg HM).
  rewrite (nrows__floyd_warshall graph directed Hsq).
  rewrite (_floyd_warshall_work_matrix graph directed). f_equal.
  destruct (decide (0 < nrows graph)) as [HN|HN].
  - destruct HM as [HM Hfit].
    pose proof (at_most_nonneg M graph Hsq Hg HM HN).
    apply (relax_all_fixed (nrows graph) M (work_matrix graph directed));
      [ by apply work_matrix_good | by apply work_matrix_bounded | lia | ].
    by apply (work_matrix_exact M).
  - replace (nrows graph) with 0 by lia. done.
Qed.

Close Scope nat_scope.

(** * Properties of the entry points *)











(** ** The scenarios of the specification, run on the model *)

Example scenario_A_dense :
  _floyd_warshall [[0; 1; 5]; [0; 0; 2]; [0; 0; 0]] true
  = [[0; 1; 3]; [0; 0; 2]; [0; 0; 0]].
Proof. reflexivity. Qed.

Example scenario_B_dense :
  _floyd_warshall [[0; 1; 5]; [0; 0; 2]; [0; 0; 0]] false
  = [[0; 1; 3]; [1; 0; 2]; [3; 2; 0]].
Proof. reflexivity. Qed.

Example csr_matrix_scenario_A :
  csr_matrix [[0; 1; 5]; [0; 0; 2]; [0; 0; 0]]
  = {| data := [1; 5; 2]; indices := [1; 2; 2]%nat;
       indptr := [0; 2; 3; 3]%nat; shape := (3, 3)%nat |}.
Proof. reflexivity. Qed.

Example transpose_scenario_A :
  transpose_csr (csr_matrix [[0; 1; 5]; [0; 0; 2]; [0; 0; 0]])
  = {| data := [1; 5; 2]; indices := [0; 0; 1]%nat;
       indptr := [0; 0; 1; 3]%nat; shape := (3, 3)%nat |}.
Proof. reflexivity. Qed.

Example toarray_scenario_A :
  toarray (csr_matrix [[0; 1; 5]; [0; 0; 2]; [0; 0; 0]])
  = [[0; 1; 5]; [0; 0; 2]; [0; 0; 0]].
Proof. reflexivity. Qed.

Example scenario_A_sparse :
  result_cells (dijkstra 10 (in_memory [[0; 1; 5]; [0; 0; 2]; [0; 0; 0]])
                         (Array 0) true None)
  = Some [[0; 1; 3]; [0; 0; 2]; [0; 0; 0]].
Proof. vm_compute. reflexivity. Qed.

Example scenario_B_sparse :
  result_cells (dijkstra 10 (in_memory [[0; 1; 5]; [0; 0; 2]; [0; 0; 0]])
                         (Array 0) false None)
  = Some [[0; 1; 3]; [1; 0; 2]; [3; 2; 0]].
Proof. vm_compute. reflexivity. Qed.

Example scenario_C :
  result_cells (graph_shortest_path true_division 10 (in_memory (zeros 4 4))
                                    (Array 0) true "auto" true)
  = Some (zeros 4 4).
Proof. vm_compute. reflexivity. Qed.

(** ** Input validation of the sparse entry point *)

Lemma existsb_negative (l : list Z) :
  (∃ w, w ∈ l ∧ w < 0) → existsb (fun w => bool_decide (w < 0)) l = true.
Proof.
  intros (w & Hin & Hneg). apply existsb_exists. exists w. split.
  - by apply list_elem_of_In.
  - by apply bool_decide_eq_true.
Qed.

(** C3: when the value array of the compressed-row view of the argument
    holds a negative entry, [dijkstra] raises the negative-weight error.
    The equation holds for every [fuel], in particular for [fuel = 0], with
    which no loop of the search and no heap operation can run: the error
    comes before any relaxation, and the outcome carries no result
    matrix. *)
Theorem dijkstra_rejects_negative_weights
    (fuel : nat) (mem : memory) (dist_matrix : dist_matrix_t)
    (directed : bool) (sources : option (list nat)) (m : csr) :
  dijkstra_view mem dist_matrix directed = Some m →
  (∃ w, w ∈ data m ∧ w < 0) →
  dijkstra fuel mem dist_matrix directed sources
    = ValueError "Negative distances are not supported"
  ∧ result_cells (dijkstra fuel mem dist_matrix directed sources) = None.
Proof.
  intros Hview Hneg. unfold dijkstra. rewrite Hview.
  rewrite (existsb_negative _ Hneg). done.
Qed.

Lemma dijkstra_rejects_negative_weights_witness :
  dijkstra 0 [] (Sparse CSR (mkCsr [1; -2] [1; 0]%nat [0; 1; 2]%nat (2, 2)%nat))
           true None
    = ValueError "Negative distances are not supported"
  ∧ result_cells
      (dijkstra 0 [] (Sparse CSR (mkCsr [1; -2] [1; 0]%nat [0; 1; 2]%nat (2, 2)%nat))
                true None) = None.
Proof.
  apply (dijkstra_rejects_negative_weights 0 [] _ true None
           (mkCsr [1; -2] [1; 0]%nat [0; 1; 2]%nat (2, 2)%nat)).
  - reflexivity.
  - exists (-2). split; [ | lia ]. apply list_elem_of_In. simpl. tauto.
Defined.

(** ** The dispatcher *)

Lemma below_quarter_true_division (Nk N : nat) :
  below_quarter true_division Nk N = true
  ↔ 4 * Z.of_nat Nk < Z.of_nat N * Z.of_nat N.
Proof.
  unfold below_quarter. rewrite negb_true_iff.
  set (a := Z.of_nat N * Z.of_nat N). set (b := Z.of_nat Nk).
  assert (Hle : Qle_bool (inject_Z a / inject_Z 4) (inject_Z b) = true ↔ a <= 4 * b).
  { rewrite Qle_bool_iff. unfold Qle, Qdiv, Qmult, Qinv, inject_Z. simpl. lia. }
  split.
  - intros Hf. destruct (decide (a <= 4 * b)) as [Hab|Hab]; [ | lia ].
    apply Hle in Hab. congruence.
  - intros Hlt. apply not_true_iff_false. intros E. apply Hle in E. lia.
Qed.

Lemma below_quarter_floor_division (Nk N : nat) :
  below_quarter floor_division Nk N = true
  ↔ Z.of_nat Nk < (Z.of_nat N * Z.of_nat N) `div` 4.
Proof. unfold below_quarter. apply bool_decide_eq_true. Qed.

Lemma below_quarter_spec (d : division) (Nk N : nat) :
  below_quarter d Nk N = true ↔ sparse_enough d Nk N.
Proof.
  destruct d; [ apply below_quarter_floor_division | apply below_quarter_true_division ].
Qed.

(** C5: with [method = "auto"] the dispatcher runs the sparse
    single-source search ([dijkstra], method ['D']) exactly when the number
    [Nk] of stored edges is below [N * N / 4], and the dense all-pairs
    relaxation ([floyd_warshall], method ['FW']) otherwise.  Under true
    division the test is [4 * Nk < N * N]. *)
Theorem auto_selects_by_density
    (d : division) (fuel : nat) (mem : memory) (dist_matrix : dist_matrix_t)
    (directed overwrite : bool) (fmt : sparse_format) (m : csr) :
  as_sparse mem dist_matrix = Some (fmt, m) →
  let N := (shape m).1 in
  let Nk := length (data m) in
  (choose_method d Nk N "auto" = "D" ↔ sparse_enough d Nk N)
  ∧ (choose_method d Nk N "auto" = "FW" ↔ ¬ sparse_enough d Nk N)
  ∧ (sparse_enough d Nk N →
     graph_shortest_path d fuel mem dist_matrix directed "auto" overwrite
     = dijkstra fuel mem (Sparse fmt m) directed None)
  ∧ (¬ sparse_enough d Nk N →
     graph_shortest_path d fuel mem dist_matrix directed "auto" overwrite
     = floyd_warshall mem (Sparse fmt m) directed overwrite)
  ∧ (sparse_enough true_division Nk N
     ↔ 4 * Z.of_nat Nk < Z.of_nat N * Z.of_nat N).
Proof.
  intros Hsp N Nk. unfold graph_shortest_path. rewrite Hsp.
  fold N Nk. unfold choose_method. simpl.
  pose proof (below_quarter_spec d Nk N) as Hq.
  destruct (below_quarter d Nk N) eqn:E.
  - assert (Hs : sparse_enough d Nk N) by (by apply Hq).
    repeat split; try done; intros; try done; try (exfalso; tauto).
  - assert (Hs : ¬ sparse_enough d Nk N).
    { intros H. apply Hq in H. congruence. }
    repeat split; try done; intros; try done; try (exfalso; tauto).
Qed.

Lemma auto_selects_by_density_witness :
  let m := csr_matrix [[0; 1; 5]; [0; 0; 2]; [0; 0; 0]] in
  graph_shortest_path true_division 10
    (in_memory [[0; 1; 5]; [0; 0; 2]; [0; 0; 0]]) (Array 0) true "auto" true
  = floyd_warshall (in_memory [[0; 1; 5]; [0; 0; 2]; [0; 0; 0]])
                   (Sparse CSR m) true true.
Proof.
  intros m.
  apply (auto_selects_by_density true_division 10
           (in_memory [[0; 1; 5]; [0; 0; 2]; [0; 0; 0]]) (Array 0) true true CSR m).
  - reflexivity.
  - simpl. lia.
Defined.

(** C6, as stated, at a concrete input: the selectors ["dense"] and
    ["sparse"] are not accepted, each raises the configuration error. *)
Lemma method_names_counterexample :
  graph_shortest_path true_division 10 (in_memory [[0; 1]; [0; 0]])
                      (Array 0) true "dense" true
    = ValueError "unrecognized method 'dense'"
  ∧ graph_shortest_path true_division 10 (in_memory [[0; 1]; [0; 0]])
                        (Array 0) true "sparse" true
    = ValueError "unrecognized method 'sparse'".
Proof. split; reflexivity. Qed.

(** C6, amended: the entry point accepts exactly the selectors ["auto"],
    ["FW"] and ["D"]; ["FW"] runs the all-pairs algorithm, ["D"] the
    single-source algorithm, ["auto"] one of the two, and every other
    selector raises the configuration error. *)
Theorem method_selectors
    (d : division) (fuel : nat) (mem : memory) (dist_matrix : dist_matrix_t)
    (directed overwrite : bool) (method : string)
    (fmt : sparse_format) (m : csr) :
  as_sparse mem dist_matrix = Some (fmt, m) →
  let run := graph_shortest_path d fuel mem dist_matrix directed in
  run "FW" overwrite = floyd_warshall mem (Sparse fmt m) directed overwrite
  ∧ run "D" overwrite = dijkstra fuel mem (Sparse fmt m) directed None
  ∧ (run "auto" overwrite = floyd_warshall mem (Sparse fmt m) directed overwrite
     ∨ run "auto" overwrite = dijkstra fuel mem (Sparse fmt m) directed None)
  ∧ (method ≠ "auto" → method ≠ "FW" → method ≠ "D" →
     run method overwrite
     = ValueError ("unrecognized method '" +:+ method +:+ "'")).
Proof.
  intros Hsp run. unfold run, graph_shortest_path. rewrite Hsp.
  repeat split.
  - unfold choose_method. simpl. destruct (below_quarter _ _ _); simpl; auto.
  - intros Ha Hf Hd. unfold choose_method.
    rewrite (bool_decide_eq_false_2 _ Ha).
    rewrite (bool_decide_eq_false_2 _ Hf).
    by rewrite (bool_decide_eq_false_2 _ Hd).
Qed.

Lemma method_selectors_witness :
  graph_shortest_path floor_division 10 (in_memory [[0; 1]; [0; 0]])
                      (Array 0) true "Dijkstra" true
  = ValueError "unrecognized method 'Dijkstra'".
Proof.
  apply (method_selectors floor_division 10 (in_memory [[0; 1]; [0; 0]])
           (Array 0) true true "Dijkstra" CSR (csr_matrix [[0; 1]; [0; 0]]));
    [ reflexivity | discriminate .. ].
Defined.

(** ** The overwrite flag of the dense entry point *)

Lemma lookup_alloc_old (mem : memory) (arr : ndarray) (a : nat) (x : ndarray) :
  mem !! a = Some x → (alloc mem arr).1 !! a = Some x ∧ (alloc mem arr).2 ≠ a.
Proof.
  intros H. unfold alloc. simpl. split.
  - by apply lookup_app_l_Some.
  - apply lookup_lt_Some in H. lia.
Qed.

(** C9: [floyd_warshall] on a dense array [a] of the caller.  With
    [overwrite = false] the caller's array is unchanged and the result is
    another array; the caller's array is changed only if [overwrite] is
    set and the array is already float64 and C-ordered, and then the
    result is written into it; in every other case the result is a private
    copy.  In all cases the result holds the relaxation of the caller's
    cells. *)
Theorem floyd_warshall_overwrite
    (mem mem' : memory) (a graph : nat) (arr : ndarray) (directed overwrite : bool) :
  mem !! a = Some arr →
  floyd_warshall mem (Array a) directed overwrite = Return (mem', graph) →
  let in_place := overwrite && bool_decide (nd_dtype arr = float64)
                            && bool_decide (nd_order arr = C_order) in
  (nd_cells <$> mem' !! graph) = Some (_floyd_warshall (nd_cells arr) directed)
  ∧ (overwrite = false → mem' !! a = Some arr ∧ graph ≠ a)
  ∧ (in_place = false → mem' !! a = Some arr ∧ graph ≠ a)
  ∧ (in_place = true → graph = a)
  ∧ (mem' !! a ≠ Some arr →
     overwrite = true ∧ nd_dtype arr = float64 ∧ nd_order arr = C_order).
Proof.
  intros Ha Hrun in_place.
  unfold floyd_warshall, np_asarray, np_array in Hrun. rewrite Ha in Hrun.
  simpl in Hrun.
  assert (Hcopy : ∀ c,
    match (alloc mem c).1 !! (alloc mem c).2 with
    | Some arr0 =>
        if negb (is_square (nd_cells arr0))
        then ValueError "dist_matrix must have shape (N, N)"
        else Return (<[(alloc mem c).2 := mkArray float64 C_order
                          (_floyd_warshall (nd_cells arr0) directed)]> (alloc mem c).1,
                     (alloc mem c).2)
    | None => Undefined
    end = Return (mem', graph) →
    nd_cells c = nd_cells arr →
    (nd_cells <$> mem' !! graph) = Some (_floyd_warshall (nd_cells arr) directed)
    ∧ mem' !! a = Some arr ∧ graph ≠ a).
  { intros c Hc Hcells. unfold alloc in Hc. cbn [fst snd] in Hc.
    rewrite lookup_app_r in Hc by lia. rewrite Nat.sub_diag in Hc. simpl in Hc.
    destruct (negb _); [ done | ]. injection Hc as <- <-.
    pose proof (lookup_lt_Some _ _ _ Ha) as Hlt.
    split; [ | split ].
    - rewrite list_lookup_insert_eq by (rewrite length_app; simpl; lia).
      simpl. by rewrite Hcells.
    - rewrite list_lookup_insert_ne by lia. by apply lookup_app_l_Some.
    - lia. }
  destruct overwrite; simpl in *.
  - destruct (bool_decide (nd_dtype arr = float64)) eqn:Ed;
      destruct (bool_decide (nd_order arr = C_order)) eqn:Eo; simpl in *.
    + (* in place *)
      rewrite Ha in Hrun. destruct (negb _); [ done | ]. injection Hrun as <- <-.
      pose proof (lookup_lt_Some _ _ _ Ha) as Hlt.
      apply bool_decide_eq_true in Ed. apply bool_decide_eq_true in Eo.
      unfold in_place. repeat split; try done.
      by rewrite list_lookup_insert_eq.
    + destruct (Hcopy _ Hrun eq_refl) as (? & ? & ?).
      unfold in_place. repeat split; try done; intros; try done; tauto.
    + destruct (Hcopy _ Hrun eq_refl) as (? & ? & ?).
      unfold in_place. repeat split; try done; intros; try done; tauto.
    + destruct (Hcopy _ Hrun eq_refl) as (? & ? & ?).
      unfold in_place. repeat split; try done; intros; try done; tauto.
  - destruct (Hcopy _ Hrun eq_refl) as (? & ? & ?).
    unfold in_place. repeat split; try done; intros; try done; tauto.
Qed.

Lemma floyd_warshall_overwrite_witness :
  let arr := mkArray float64 C_order [[0; 1; 5]; [0; 0; 2]; [0; 0; 0]] in
  let res := mkArray float64 C_order [[0; 1; 3]; [0; 0; 2]; [0; 0; 0]] in
  [arr; res] !! 0%nat = Some arr ∧ 1%nat ≠ 0%nat.
Proof.
  intros arr res.
  apply (floyd_warshall_overwrite [arr] [arr; res] 0 1 arr true false);
    reflexivity.
Defined.

(** ** A decrease of a root below the minimum is not tracked *)

(** [decrease_val] moves [min_node] only when it cuts the node from a
    parent.  A root whose value drops below that of [min_node] stays
    behind it, and the next [remove_min] returns a node that is not the
    minimum. *)

(** C2 at a failing input: insert node 0 with value 1 and node 1 with
    value 5, lower node 1 to 0 (allowed, 0 <= 5), then extract twice.  The
    extracted values are 1 and then 0. *)
Theorem extract_min_order_fails :
  extracted_values 10 2
    [op_insert 0 1; op_insert 1 5; op_decrease_value 1 0;
     op_extract_min; op_extract_min]
  = Some [1; 0].
Proof. vm_compute. reflexivity. Qed.

(** C1 at a failing input: on [detour_graph], directed, the dense
    algorithm finds the distance 3 from 0 to 2 and the sparse algorithm
    reports 10. *)
Theorem dense_sparse_disagree :
  result_cells (floyd_warshall (in_memory detour_graph) (Array 0) true false)
  = Some [[0; 1;  3; 20; 2];
          [0; 0;  2;  0; 1];
          [0; 0;  0;  0; 0];
          [0; 0;  0;  0; 0];
          [0; 0;  1;  0; 0]]
  ∧ result_cells (dijkstra 10 (in_memory detour_graph) (Array 0) true None)
  = Some [[0; 1; 10; 20; 2];
          [0; 0;  2;  0; 1];
          [0; 0;  0;  0; 0];
          [0; 0;  0;  0; 0];
          [0; 0;  1;  0; 0]].
Proof. split; vm_compute; reflexivity. Qed.

(** C7 at a failing input: on [symmetric_detour_graph], undirected, the
    sparse algorithm reports 10 from 0 to 2 and 3 from 2 to 0. *)
Theorem undirected_sparse_asymmetric :
  ∃ result,
    result_cells (dijkstra 10 (in_memory symmetric_detour_graph) (Array 0) false None)
    = Some result
    ∧ mget 0 result 0 2 = 10
    ∧ mget 0 result 2 0 = 3.
Proof. eexists. split; [ vm_compute; reflexivity | split; reflexivity ]. Qed.

(** ** Ties in the consolidation *)

(** C4, as stated, at a concrete input: roots 3 and 4 have equal rank and
    equal value and neither is the heap's minimum (node 1), and the
    incoming root 4 is made a child of root 3 rather than its parent. *)
Lemma tie_rule_counterexample :
  ∃ heap nodes,
    harness_run 10 (empty_heap 5, []) tie_ops = Some ((heap, nodes), [0])
    ∧ min_node heap = Some 1%nat
    ∧ (val <$> nodes !! 3%nat) = Some 5
    ∧ (val <$> nodes !! 4%nat) = Some 5
    ∧ (children <$> nodes !! 3%nat) = Some (Some 4%nat)
    ∧ (parent <$> nodes !! 4%nat) = Some (Some 3%nat).
Proof. do 2 eexists. split; [ vm_compute; reflexivity | repeat split ]. Qed.

(** * Properties resting on the heap invariant *)

(** ** The parent chosen by a merge *)

(** C4, as amended: in the pass of [remove_min] over the roots ([P] the
    roots walked so far, [m] the heap's minimum, a least root of [P], and
    [roots_by_rank] holding roots of [P] at the index of their rank), when
    [link] finds the root [linknode] in the bucket [roots_by_rank[node.rank]]
    of the incoming root [node], it empties the bucket, merges the two and
    goes on with the winner [top]: the root with the larger value becomes a
    child of the one with the smaller value; on equal values the root
    already in the bucket is made the parent, unless the incoming root is
    the heap's current minimum, in which case the incoming root is.  The
    loser is a child of the winner in the state [link] goes on with, and in
    the state [link] returns; [link] returns unless the heap has more than
    [max_rank] nodes. *)
Theorem link_parent_choice (steps fuel : nat) (heap : FibonacciHeap) (nodes : arena)
    (F : forest) (P R : list nat) (node linknode m : nat) (n : FibonacciNode) :
  heap_shape nodes F → roots F = P ++ R → node ∈ P →
  table_ok F P (Some node) (roots_by_rank heap) →
  min_node heap = Some m → m ∈ P → (∀ y, y ∈ P → le_val nodes m y) →
  (length P ≤ S steps)%nat → (length nodes ≤ fuel)%nat →
  nodes !! node = Some n →
  roots_by_rank heap !! Z.to_nat (rank n) = Some (Some linknode) →
  ∃ top loser heap1 nodes1,
    (top = node ∧ loser = linknode ∨ top = linknode ∧ loser = node)
    ∧ le_val nodes top loser
    ∧ (le_val nodes loser top →
       top = if bool_decide (min_node heap = Some node) then node else linknode)
    ∧ set_root_by_rank (rank n) None heap = Some heap1
    ∧ link (S steps) fuel (heap, nodes) node = link steps fuel (heap1, nodes1) top
    ∧ fld parent nodes1 loser = Some (Some top)
    ∧ ok_or_big (link (S steps) fuel (heap, nodes) node) (length nodes)
        (λ st', fld parent st'.2 loser = Some (Some top)).
Proof.
  intros HS Hroots Hnode Htab Hmin HmP Hle Hsteps Hfuel Hn Eslot.
  destruct (link_merge_step fuel heap nodes F P R node m n linknode
              HS Hroots Hnode Htab Hmin HmP Hle Hfuel Hn Eslot)
    as (top & loser & nodes1 & heap1 & P1 & Hset & Hpair & Hwho & Hord & Htie & HS'
        & Hlen & Hroots1 & Htop1 & Htab1 & Hmin1 & Hm1 & Hle1 & HltP).
  exists top, loser, heap1, nodes1.
  assert (Hpar : fld parent nodes1 loser = Some (Some top)).
  { destruct (hs_links _ _ HS' (Some top) loser) as [Hp _]; [ | done ].
    unfold graft. simpl. rewrite decide_True by done.
    apply elem_of_app. right. by apply list_elem_of_singleton. }
  assert (Hstep : link (S steps) fuel (heap, nodes) node
                  = link steps fuel (heap1, nodes1) top).
  { cbn [link]. rewrite Hn. cbn [mbind option_bind]. rewrite Eslot.
    cbn [mbind option_bind]. rewrite Hset. cbn [mbind option_bind].
    by rewrite Hpair. }
  split_and!; try done.
  pose proof (link_spec (S steps) fuel heap nodes F P R node m HS Hroots Hnode Htab
                Hmin HmP Hle Hsteps Hfuel) as Hret.
  destruct (link (S steps) fuel (heap, nodes) node) as [st'|] eqn:Hrun;
    simpl in Hret |- *; [ | done ].
  apply (link_keeps_parents steps fuel heap1 nodes1 (graft F top loser) P1 R top m st'
           HS' Hroots1 Htop1 Htab1 Hmin1 Hm1 Hle1); [ lia | lia | | done ].
  by rewrite <- Hstep.
Qed.

Lemma link_parent_choice_witness :
  ∃ top loser heap1 nodes1,
    (top = 1%nat ∧ loser = 0%nat ∨ top = 0%nat ∧ loser = 1%nat)
    ∧ le_val (two_roots 5 5) top loser
    ∧ (le_val (two_roots 5 5) loser top →
       top = if bool_decide (min_node two_roots_heap = Some 1%nat)
             then 1%nat else 0%nat)
    ∧ set_root_by_rank 0 None two_roots_heap = Some heap1
    ∧ link 2 2 (two_roots_heap, two_roots 5 5) 1
      = link 1 2 (heap1, nodes1) top
    ∧ fld parent nodes1 loser = Some (Some top)
    ∧ ok_or_big (link 2 2 (two_roots_heap, two_roots 5 5) 1) (length (two_roots 5 5))
        (λ st', fld parent st'.2 loser = Some (Some top)).
Proof.
  apply (link_parent_choice 1 2 two_roots_heap (two_roots 5 5) two_roots_forest
           [0; 1]%nat [] 1%nat 0%nat 0%nat
           (mkNode 1 0 0 5 None (Some 0%nat) None None)).
  - apply two_roots_shape.
  - reflexivity.
  - right. by left.
  - apply two_roots_table.
  - reflexivity.
  - by left.
  - apply two_roots_least.
  - simpl. lia.
  - simpl. lia.
  - reflexivity.
  - reflexivity.
Defined.

(** ** The node array between searches *)

(** C10: the searches of one call, whatever the sources, return unless the
    graph has more than [max_rank] vertices or the compressed rows or the
    result rows cannot be read; and when they return the heap is empty and
    every node of the shared array has null parent, children, left and
    right sibling and rank 0, so that the abbreviated reset of
    [_dijkstra_one_row], which assigns only [state] and [val], is defined
    on that array and yields what the full initialisation yields. *)
Theorem abbreviated_reset_suffices (fuel : nat) (dist_matrix : csr) (directed : bool)
    (graph : matrix Z) (heap : FibonacciHeap) (compute_ind : list nat) :
  min_node heap = None →
  Forall (λ i, i < ncols graph)%nat compute_ind →
  (ncols graph ≤ fuel)%nat →
  match search_rows fuel dist_matrix directed compute_ind
          (graph, (heap, initial_nodes (ncols graph))) with
  | Some res =>
      min_node res.2.1 = None
      ∧ (∀ i n, res.2.2 !! i = Some n →
           parent n = None ∧ children n = None ∧ left_sibling n = None
           ∧ right_sibling n = None ∧ rank n = 0)
      ∧ ∃ nodes',
          for_range 0 (ncols res.1) reset_node res.2.2 = Some nodes'
          ∧ for_range 0 (ncols res.1)
              (λ nodes i, initialize_node nodes i i 0) res.2.2 = Some nodes'
  | None =>
      (max_rank < ncols graph)%nat
      ∨ ¬ (inputs_ok dist_matrix directed (ncols graph)
           ∧ ∀ i, i ∈ compute_ind → row_ready graph i (ncols graph))
  end.
Proof.
  intros Hmin Hind Hfuel.
  pose proof (search_rows_spec (λ _ _, True) fuel dist_matrix directed
                (ncols graph) graph (λ _ _ _, I) eq_refl Hfuel compute_ind
                (graph, (heap, initial_nodes (ncols graph)))) as Hspec.
  destruct (search_rows fuel dist_matrix directed compute_ind
              (graph, (heap, initial_nodes (ncols graph)))) as [res|].
  - destruct Hspec as (Hmin' & Hc & _ & Hlen & Hrows).
    + unfold rows_inv. simpl. split_and!; try done.
      * apply initial_nodes_clean.
      * intros i j _. by apply rtc_once.
      * apply length_initial_nodes.
    + intros i Hi. by apply (proj1 (Forall_forall _ _) Hind).
    + split; [ done | ]. split.
      * intros i n Hn. destruct (Hc i n Hn) as (_ & ? & ? & ? & ? & ?). done.
      * destruct (reset_is_initialize (ncols res.1) res.2.2 Hc) as [Heq [nodes' Hrun]].
        { rewrite (ncols_ext _ _ Hrows). lia. }
        exists nodes'. split; [ done | ]. by rewrite <- Heq.
  - apply Hspec.
    + unfold rows_inv. simpl. split_and!; try done.
      * apply initial_nodes_clean.
      * intros i j _. by apply rtc_once.
      * apply length_initial_nodes.
    + intros i Hi. by apply (proj1 (Forall_forall _ _) Hind).
Qed.

Lemma abbreviated_reset_suffices_witness :
  ∃ res, search_rows 5 (csr_matrix symmetric_detour_graph) false [0; 1; 2; 3; 4]%nat
           (zeros 5 5, (mkHeap None (replicate max_rank None), initial_nodes 5))
         = Some res
    ∧ min_node res.2.1 = None
    ∧ (∀ i n, res.2.2 !! i = Some n →
         parent n = None ∧ children n = None ∧ left_sibling n = None
         ∧ right_sibling n = None ∧ rank n = 0)
    ∧ ∃ nodes',
        for_range 0 (ncols res.1) reset_node res.2.2 = Some nodes'
        ∧ for_range 0 (ncols res.1)
            (λ nodes i, initialize_node nodes i i 0) res.2.2 = Some nodes'.
Proof.
  pose proof (abbreviated_reset_suffices 5 (csr_matrix symmetric_detour_graph) false
                (zeros 5 5) (mkHeap None (replicate max_rank None))
                [0; 1; 2; 3; 4]%nat eq_refl) as H.
  assert (Hrun : is_Some (search_rows 5 (csr_matrix symmetric_detour_graph) false
                            [0; 1; 2; 3; 4]%nat
                            (zeros 5 5, (mkHeap None (replicate max_rank None),
                                         initial_nodes 5)))).
  { vm_compute. eauto. }
  destruct Hrun as [res Hrun]. exists res. split; [ exact Hrun | ].
  change (ncols (zeros 5 5)) with 5%nat in H. rewrite Hrun in H. apply H.
  - repeat constructor.
  - lia.
Defined.

(** ** Unreachable pairs *)

(** X20: on a square dense array of non-negative weights, for every pair
    [(i, j)] with [j] not reachable from [i] along nonzero cells (in either
    direction when the graph is undirected): [floyd_warshall] returns a
    result whose entry [(i, j)] is 0; [dijkstra] returns a result when the
    graph has at most [max_rank] vertices; and whenever [dijkstra] returns
    a result, on a graph of any size, its entry [(i, j)] is 0.  (Whether
    [dijkstra] returns on every larger graph is not settled here: the heap
    has [max_rank] buckets and nothing in the code bounds the rank of a
    root.) *)
Theorem unreachable_entries_are_zero (fuel : nat) (mem : memory) (a : nat)
    (arr : ndarray) (directed overwrite : bool) (i j : nat) :
  mem !! a = Some arr →
  is_square (nd_cells arr) = true →
  Forall (Forall (λ w, 0 ≤ w)) (nd_cells arr) →
  (nrows (nd_cells arr) ≤ fuel)%nat →
  ¬ reachable (nd_cells arr) directed i j →
  (∃ result,
     result_cells (floyd_warshall mem (Array a) directed overwrite) = Some result
     ∧ mget 0 result i j = 0)
  ∧ ((nrows (nd_cells arr) ≤ max_rank)%nat →
     ∃ result,
       result_cells (dijkstra fuel mem (Array a) directed None) = Some result
       ∧ mget 0 result i j = 0)
  ∧ (∀ result,
       result_cells (dijkstra fuel mem (Array a) directed None) = Some result →
       mget 0 result i j = 0).
Proof.
  intros Hmem Hsq Hpos Hfuel Hunreach.
  pose proof (_dijkstra_reachable fuel (nd_cells arr) directed Hsq Hfuel) as Hsparse.
  rewrite (dijkstra_dense fuel mem a arr directed Hmem Hsq Hpos).
  split; [ | split ].
  - exists (_floyd_warshall (nd_cells arr) directed).
    split; [ by apply floyd_warshall_dense | ].
    destruct (decide (mget 0 (_floyd_warshall (nd_cells arr) directed) i j = 0))
      as [|Hne]; [ done | ].
    exfalso. apply Hunreach. by apply _floyd_warshall_reachable.
  - intros Hsmall.
    destruct (_dijkstra fuel (csr_matrix (nd_cells arr))
                (zeros (nrows (nd_cells arr)) (nrows (nd_cells arr)))
                (seq 0 (nrows (nd_cells arr))) directed) as [res|]; [ | lia ].
    exists res. split; [ done | ].
    destruct (decide (mget 0 res i j = 0)) as [|Hne]; [ done | ].
    exfalso. apply Hunreach. by apply Hsparse.
  - intros res Hres. rewrite Hres in Hsparse.
    destruct (decide (mget 0 res i j = 0)) as [|Hne]; [ done | ].
    exfalso. apply Hunreach. by apply Hsparse.
Qed.

Lemma unreachable_entries_are_zero_witness :
  (∃ result,
     result_cells (floyd_warshall (in_memory detour_graph) (Array 0) true false)
     = Some result
     ∧ mget 0 result 2 0 = 0)
  ∧ ((nrows detour_graph ≤ max_rank)%nat →
     ∃ result,
       result_cells (dijkstra 5 (in_memory detour_graph) (Array 0) true None)
       = Some result
       ∧ mget 0 result 2 0 = 0)
  ∧ (∀ result,
       result_cells (dijkstra 5 (in_memory detour_graph) (Array 0) true None)
       = Some result →
       mget 0 result 2 0 = 0).
Proof.
  apply (unreachable_entries_are_zero 5 (in_memory detour_graph) 0
           (mkArray float64 C_order detour_graph) true false 2 0).
  - reflexivity.
  - reflexivity.
  - repeat constructor; lia.
  - simpl. lia.
  - apply detour_graph_sink.
Defined.

(** * Further properties of the code *)

(** ** The sources of the sparse entry point *)

(** X1: a search writes the row of the result whose number is the source
    vertex itself ([graph[i_node, v.index] = v.val]), while the result has
    one row per requested source.  So [dijkstra] with an explicit list of
    sources has a defined result only if every source index is smaller
    than the number of sources; any other source is written outside the
    array, which is not checked ([boundscheck(False)]). *)
Theorem dijkstra_sources_are_rows (fuel : nat) (mem : memory)
    (dist_matrix : dist_matrix_t) (directed : bool) (sources : list nat)
    (mem' : memory) (r : nat) :
  dijkstra fuel mem dist_matrix directed (Some sources) = Return (mem', r) →
  Forall (λ i, i < length sources)%nat sources.
Proof.
  intros (m & graph & _ & _ & Hrun & _)%dijkstra_returns. simpl in Hrun.
  apply _dijkstra_rows in Hrun as (_ & _ & _ & Hall).
  unfold zeros in Hall. by rewrite length_replicate in Hall.
Qed.

Lemma dijkstra_sources_are_rows_witness :
  Forall (λ i, i < length [1; 0]%nat)%nat [1; 0]%nat.
Proof.
  eapply (dijkstra_sources_are_rows 5 (in_memory detour_graph) (Array 0) true
            [1; 0]%nat).
  vm_compute. reflexivity.
Defined.

(** A source beyond the rows of the result: no result. *)
Example dijkstra_source_out_of_rows :
  dijkstra 5 (in_memory detour_graph) (Array 0) true (Some [3%nat]) = Undefined.
Proof. vm_compute. reflexivity. Qed.

(** X2: the result of [dijkstra] has one row per requested source (one per
    vertex when no sources are given) and as many columns as the graph has
    vertices. *)
Theorem dijkstra_result_shape (fuel : nat) (mem : memory)
    (dist_matrix : dist_matrix_t) (directed : bool) (indices : option (list nat))
    (m : csr) (result : matrix Z) :
  dijkstra_view mem dist_matrix directed = Some m →
  result_cells (dijkstra fuel mem dist_matrix directed indices) = Some result →
  length result = match indices with
                  | None => (shape m).1
                  | Some l => length l
                  end
  ∧ Forall (λ row, length row = (shape m).1) result.
Proof.
  intros Hview Hres.
  destruct (dijkstra fuel mem dist_matrix directed indices) as [[mem' r]| |] eqn:Hrun;
    simpl in Hres; [ | done | done ].
  apply dijkstra_returns in Hrun as (m' & graph & Hview' & _ & Hrun & Hget).
  assert (m' = m) as -> by congruence.
  rewrite Hget in Hres. simpl in Hres. injection Hres as <-.
  apply _dijkstra_rows in Hrun as (Hlen & Hrows & _ & _).
  unfold zeros in Hlen, Hrows. rewrite length_replicate in Hlen. split.
  - rewrite Hlen. destruct indices; simpl; [ done | apply length_seq ].
  - apply Forall_forall. intros row Hrow.
    apply list_elem_of_lookup in Hrow as [i Hi].
    specialize (Hrows i). rewrite Hi in Hrows. simpl in Hrows.
    destruct (replicate _ (replicate (shape m).1 0) !! i) as [row0|] eqn:H0;
      simpl in Hrows; [ | done ].
    apply lookup_replicate in H0 as [-> _]. rewrite length_replicate in Hrows.
    congruence.
Qed.

Lemma dijkstra_result_shape_witness :
  length [[0; 1; 10; 20; 2]; [0; 0; 2; 0; 1]] = 2%nat
  ∧ Forall (λ row, length row = 5%nat) [[0; 1; 10; 20; 2]; [0; 0; 2; 0; 1]].
Proof.
  apply (dijkstra_result_shape 5 (in_memory detour_graph) (Array 0) true
           (Some [1; 0]%nat) (csr_matrix detour_graph)).
  - reflexivity.
  - vm_compute. reflexivity.
Defined.

(** X3: the rows of the result that are the number of no requested source
    are never written: they stay zero.  With the sources [[1; 1]], row 0 of
    the result is zero and row 1 holds the distances from vertex 1. *)
Theorem dijkstra_other_rows_zero (fuel : nat) (mem : memory)
    (dist_matrix : dist_matrix_t) (directed : bool) (sources : list nat)
    (m : csr) (result : matrix Z) (i : nat) :
  dijkstra_view mem dist_matrix directed = Some m →
  result_cells (dijkstra fuel mem dist_matrix directed (Some sources)) = Some result →
  (i < length sources)%nat → i ∉ sources →
  result !! i = Some (replicate (shape m).1 0).
Proof.
  intros Hview Hres Hi Hni.
  destruct (dijkstra fuel mem dist_matrix directed (Some sources))
    as [[mem' r]| |] eqn:Hrun; simpl in Hres; [ | done | done ].
  apply dijkstra_returns in Hrun as (m' & graph & Hview' & _ & Hrun & Hget).
  assert (m' = m) as -> by congruence.
  rewrite Hget in Hres. simpl in Hres. injection Hres as <-.
  apply _dijkstra_rows in Hrun as (_ & _ & Hother & _).
  simpl in Hother. rewrite (Hother i Hni). unfold zeros.
  by apply lookup_replicate_2.
Qed.

Lemma dijkstra_other_rows_zero_witness :
  [[0; 0; 0; 0; 0]; [0; 0; 2; 0; 1]] !! 0%nat = Some (replicate 5 0).
Proof.
  apply (dijkstra_other_rows_zero 5 (in_memory detour_graph) (Array 0) true
           [1; 1]%nat (csr_matrix detour_graph)
           [[0; 0; 0; 0; 0]; [0; 0; 2; 0; 1]] 0).
  - reflexivity.
  - vm_compute. reflexivity.
  - simpl. lia.
  - intros H. apply elem_of_cons in H as [H|H]; [ done | ].
    apply elem_of_cons in H as [H|H]; [ done | ]. by apply elem_of_nil in H.
Defined.

(** ** The dense algorithm computes shortest walks *)

Lemma detour_graph_nonnegative : nonnegative detour_graph.
Proof. repeat constructor; lia. Qed.

Lemma symmetric_detour_graph_nonnegative : nonnegative symmetric_detour_graph.
Proof. repeat constructor; lia. Qed.

Lemma detour_graph_in_exact_range : in_exact_range 30 detour_graph.
Proof. split; [ repeat constructor; lia | vm_compute; discriminate ]. Qed.

Lemma detour_walk : walk detour_graph true 0 2 3.
Proof.
  apply (walk_step _ _ 0 1 2 1 2); [ by left | ].
  apply (walk_step _ _ 1 4 2 1 1); [ by left | ].
  apply (walk_edge _ _ 4 2 1). by left.
Qed.

(** X4: on a square array of [N] rows of non-negative integer weights, none
    above [M] with [(N + 1) * M <= 2^52] (every float64 sum of two
    distances is then exact), [floyd_warshall] returns the lengths of
    shortest walks: for two distinct vertices joined by a walk, the entry is
    positive, is the weight of some walk between them, and is at most the
    weight of every walk between them. *)
Theorem floyd_warshall_shortest (mem : memory) (a : nat) (arr : ndarray)
    (directed overwrite : bool) (M : Z) (i j : nat) (z : Z) :
  mem !! a = Some arr →
  is_square (nd_cells arr) = true →
  nonnegative (nd_cells arr) →
  in_exact_range M (nd_cells arr) →
  walk (nd_cells arr) directed i j z → i ≠ j →
  ∃ result,
    result_cells (floyd_warshall mem (Array a) directed overwrite) = Some result
    ∧ walk (nd_cells arr) directed i j (mget 0 result i j)
    ∧ 0 < mget 0 result i j ≤ z.
Proof.
  intros Hmem Hsq Hg HM Hwalk Hne.
  exists (_floyd_warshall (nd_cells arr) directed).
  split; [ by apply floyd_warshall_dense | ].
  pose proof (is_square_square _ Hsq) as Hsq'.
  pose proof (walk_source_in_range _ _ _ _ _ Hsq' Hwalk Hne) as Hi.
  destruct (_floyd_warshall_least M _ directed i j z Hsq' Hg HM Hwalk Hi) as [Hw Hle].
  split; [ done | ].
  destruct (walk_positive _ _ _ _ _ Hg Hw) as [_ Hpos]. split; [ by apply Hpos | done ].
Qed.

Lemma floyd_warshall_shortest_witness :
  ∃ result,
    result_cells (floyd_warshall (in_memory detour_graph) (Array 0) true false)
    = Some result
    ∧ walk detour_graph true 0 2 (mget 0 result 0 2)
    ∧ 0 < mget 0 result 0 2 ≤ 3.
Proof.
  apply (floyd_warshall_shortest (in_memory detour_graph) 0
           (mkArray float64 C_order detour_graph) true false 30 0 2 3).
  - reflexivity.
  - reflexivity.
  - apply detour_graph_nonnegative.
  - apply detour_graph_in_exact_range.
  - apply detour_walk.
  - lia.
Defined.

(** X5: on a square array of [N] rows of non-negative integer weights, none
    above [M] with [(N + 1) * M <= 2^52], every nonzero entry of the result
    of [floyd_warshall] is the weight of a walk between the two vertices of
    the graph given (no distance is reported that no walk has). *)
Theorem floyd_warshall_entries_are_walks (mem : memory) (a : nat) (arr : ndarray)
    (directed overwrite : bool) (M : Z) (result : matrix Z) (i j : nat) :
  mem !! a = Some arr →
  is_square (nd_cells arr) = true →
  nonnegative (nd_cells arr) →
  in_exact_range M (nd_cells arr) →
  result_cells (floyd_warshall mem (Array a) directed overwrite) = Some result →
  mget 0 result i j ≠ 0 →
  walk (nd_cells arr) directed i j (mget 0 result i j).
Proof.
  intros Hmem Hsq Hg HM Hres Hne.
  rewrite (floyd_warshall_dense mem a arr directed overwrite Hmem Hsq) in Hres.
  injection Hres as <-.
  apply (_floyd_warshall_sound M); [ by apply is_square_square | done | done | done ].
Qed.

Lemma floyd_warshall_entries_are_walks_witness :
  walk detour_graph true 0 2
       (mget 0 (_floyd_warshall detour_graph true) 0 2).
Proof.
  apply (floyd_warshall_entries_are_walks (in_memory detour_graph) 0
           (mkArray float64 C_order detour_graph) true false 30
           (_floyd_warshall detour_graph true) 0 2).
  - reflexivity.
  - reflexivity.
  - apply detour_graph_nonnegative.
  - apply detour_graph_in_exact_range.
  - reflexivity.
  - vm_compute. discriminate.
Defined.

(** X6: on a square array of non-negative weights the result of
    [floyd_warshall] is a square array of the same size, with no negative
    entry and a zero diagonal. *)
Theorem floyd_warshall_shape_and_diagonal (mem : memory) (a : nat) (arr : ndarray)
    (directed overwrite : bool) :
  mem !! a = Some arr →
  is_square (nd_cells arr) = true →
  nonnegative (nd_cells arr) →
  ∃ result,
    result_cells (floyd_warshall mem (Array a) directed overwrite) = Some result
    ∧ length result = nrows (nd_cells arr)
    ∧ (∀ k row, result !! k = Some row → length row = nrows (nd_cells arr))
    ∧ (∀ i, mget 0 result i i = 0)
    ∧ (∀ i j, 0 ≤ mget 0 result i j).
Proof.
  intros Hmem Hsq Hg.
  exists (_floyd_warshall (nd_cells arr) directed).
  split; [ by apply floyd_warshall_dense | ].
  pose proof (is_square_square _ Hsq) as Hsq'.
  destruct (_floyd_warshall_square _ directed Hsq') as [Hlen Hrows].
  split_and!; [ done | done | | ].
  - intros i. by apply _floyd_warshall_diagonal.
  - intros i j. by apply _floyd_warshall_nonneg.
Qed.

Lemma floyd_warshall_shape_and_diagonal_witness :
  ∃ result,
    result_cells (floyd_warshall (in_memory detour_graph) (Array 0) true false)
    = Some result
    ∧ length result = 5%nat
    ∧ (∀ k row, result !! k = Some row → length row = 5%nat)
    ∧ (∀ i, mget 0 result i i = 0)
    ∧ (∀ i j, 0 ≤ mget 0 result i j).
Proof.
  apply (floyd_warshall_shape_and_diagonal (in_memory detour_graph) 0
           (mkArray float64 C_order detour_graph) true false).
  - reflexivity.
  - reflexivity.
  - apply detour_graph_nonnegative.
Defined.

(** X7: with [directed = false], on a square array of non-negative weights,
    the result of [floyd_warshall] is symmetric, also when the array given
    is not. *)
Theorem floyd_warshall_undirected_symmetric (mem : memory) (a : nat) (arr : ndarray)
    (overwrite : bool) :
  mem !! a = Some arr →
  is_square (nd_cells arr) = true →
  nonnegative (nd_cells arr) →
  ∃ result,
    result_cells (floyd_warshall mem (Array a) false overwrite) = Some result
    ∧ ∀ i j, mget 0 result i j = mget 0 result j i.
Proof.
  intros Hmem Hsq Hg.
  exists (_floyd_warshall (nd_cells arr) false).
  split; [ by apply floyd_warshall_dense | ].
  intros i j. apply _floyd_warshall_symmetric; [ by apply is_square_square | done ].
Qed.

Lemma floyd_warshall_undirected_symmetric_witness :
  ∃ result,
    result_cells (floyd_warshall (in_memory detour_graph) (Array 0) false false)
    = Some result
    ∧ ∀ i j, mget 0 result i j = mget 0 result j i.
Proof.
  apply (floyd_warshall_undirected_symmetric (in_memory detour_graph) 0
           (mkArray float64 C_order detour_graph) false).
  - reflexivity.
  - reflexivity.
  - apply detour_graph_nonnegative.
Defined.

(** X8: the result of [floyd_warshall] on a square array of [N] rows of
    non-negative integer weights, none above [M] with
    [(N + 1) * M <= 2^52], obeys the triangle inequality wherever the two
    legs are reported: if [result[i][k]] and [result[k][j]] are nonzero then
    [result[i][j] <= result[i][k] + result[k][j]]. *)
Theorem floyd_warshall_triangle (mem : memory) (a : nat) (arr : ndarray)
    (directed overwrite : bool) (M : Z) (result : matrix Z) (i k j : nat) :
  mem !! a = Some arr →
  is_square (nd_cells arr) = true →
  nonnegative (nd_cells arr) →
  in_exact_range M (nd_cells arr) →
  result_cells (floyd_warshall mem (Array a) directed overwrite) = Some result →
  mget 0 result i k ≠ 0 → mget 0 result k j ≠ 0 →
  mget 0 result i j ≤ mget 0 result i k + mget 0 result k j.
Proof.
  intros Hmem Hsq Hg HM Hres Hik Hkj.
  rewrite (floyd_warshall_dense mem a arr directed overwrite Hmem Hsq) in Hres.
  injection Hres as <-.
  pose proof (is_square_square _ Hsq) as Hsq'.
  pose proof (_floyd_warshall_sound M _ directed i k Hsq' Hg HM Hik) as H1.
  pose proof (_floyd_warshall_sound M _ directed k j Hsq' Hg HM Hkj) as H2.
  pose proof (walk_app _ _ _ _ _ _ _ H1 H2) as Hw.
  assert (Hi : (i < nrows (nd_cells arr))%nat).
  { apply (mget_in_range 0 _ (nrows (nd_cells arr))) in Hik; [ lia | ].
    by apply _floyd_warshall_square. }
  by destruct (_floyd_warshall_least M _ directed i j _ Hsq' Hg HM Hw Hi) as [_ Hle].
Qed.

Lemma floyd_warshall_triangle_witness :
  mget 0 (_floyd_warshall detour_graph true) 0 2
  ≤ mget 0 (_floyd_warshall detour_graph true) 0 4
    + mget 0 (_floyd_warshall detour_graph true) 4 2.
Proof.
  apply (floyd_warshall_triangle (in_memory detour_graph) 0
           (mkArray float64 C_order detour_graph) true false 30
           (_floyd_warshall detour_graph true) 0 4 2).
  - reflexivity.
  - reflexivity.
  - apply detour_graph_nonnegative.
  - apply detour_graph_in_exact_range.
  - reflexivity.
  - vm_compute. discriminate.
  - vm_compute. discriminate.
Defined.

(** ** The distances of the sparse entry point *)

Lemma dijkstra_all_sources M fuel mem a arr directed result :
  mem !! a = Some arr → is_square (nd_cells arr) = true →
  nonnegative (nd_cells arr) → in_exact_range M (nd_cells arr) →
  (nrows (nd_cells arr) ≤ fuel)%nat →
  result_cells (dijkstra fuel mem (Array a) directed None) = Some result →
  length result = nrows (nd_cells arr)
  ∧ (∀ i j, mget 0 result i j ≠ 0 →
            walk (nd_cells arr) directed i j (mget 0 result i j))
  ∧ (∀ i j, reachable (nd_cells arr) directed i j → i ≠ j →
            walk (nd_cells arr) directed i j (mget 0 result i j))
  ∧ (∀ i, mget 0 result i i = 0).
Proof.
  intros Hmem Hsq Hg HM Hfuel Hres.
  apply (dijkstra_dense_result fuel mem a arr directed None result Hmem) in Hres.
  simpl in Hres. rewrite length_seq in Hres.
  pose proof (_dijkstra_rows _ _ _ _ _ _ Hres) as (Hlen & _).
  unfold zeros in Hlen. rewrite length_replicate in Hlen.
  apply (_dijkstra_walks M) in Hres as (Hsound & Hreach & Hdiag);
    [ | done | done | done | done | ].
  2: { intros i Hi%elem_of_seq. lia. }
  split_and!; [ done | done | | ].
  - intros i j Hij Hne. apply Hreach; [ | done ].
    apply elem_of_seq. split; [ lia | ]. simpl.
    apply rtc_inv in Hij as [->|(y & Hy & _)]; [ done | ].
    pose proof (is_square_square _ Hsq) as Hsq'.
    destruct Hy as [Hy|[_ Hy]].
    + by apply (mget_in_range 0 _ _ i y Hsq') in Hy as [? _].
    + by apply (mget_in_range 0 _ _ y i Hsq') in Hy as [_ ?].
  - intros i. destruct (decide (i < nrows (nd_cells arr))%nat) as [Hi|Hi].
    + apply Hdiag. apply elem_of_seq. lia.
    + unfold mget. by rewrite lookup_ge_None_2 by lia.
Qed.

Lemma dijkstra_dense_returns fuel mem a arr directed :
  mem !! a = Some arr → is_square (nd_cells arr) = true →
  nonnegative (nd_cells arr) →
  (nrows (nd_cells arr) ≤ fuel)%nat → (nrows (nd_cells arr) ≤ max_rank)%nat →
  ∃ result, result_cells (dijkstra fuel mem (Array a) directed None) = Some result.
Proof.
  intros Hmem Hsq Hg Hfuel Hsmall.
  rewrite (dijkstra_dense fuel mem a arr directed Hmem Hsq Hg).
  pose proof (_dijkstra_reachable fuel (nd_cells arr) directed Hsq Hfuel) as H.
  destruct (_dijkstra fuel _ _ _ directed) as [res|]; [ by exists res | lia ].
Qed.

Lemma dijkstra_all_sources_sign fuel mem a arr directed result :
  mem !! a = Some arr → is_square (nd_cells arr) = true →
  nonnegative (nd_cells arr) →
  (nrows (nd_cells arr) ≤ fuel)%nat →
  result_cells (dijkstra fuel mem (Array a) directed None) = Some result →
  length result = nrows (nd_cells arr)
  ∧ (∀ i, mget 0 result i i = 0)
  ∧ (∀ i j, 0 ≤ mget 0 result i j).
Proof.
  intros Hmem Hsq Hg Hfuel Hres.
  apply (dijkstra_dense_result fuel mem a arr directed None result Hmem) in Hres.
  simpl in Hres. rewrite length_seq in Hres.
  pose proof (_dijkstra_rows _ _ _ _ _ _ Hres) as (Hlen & _).
  unfold zeros in Hlen. rewrite length_replicate in Hlen.
  apply _dijkstra_nonneg in Hres as (Hsign & Hdiag); [ | done | done | done | ].
  2: { intros i Hi%elem_of_seq. lia. }
  split_and!; [ done | | done ].
  intros i. destruct (decide (i < nrows (nd_cells arr))%nat) as [Hi|Hi].
  - apply Hdiag. apply elem_of_seq. lia.
  - unfold mget. by rewrite lookup_ge_None_2 by lia.
Qed.

(** X9: on a square array of [N] rows of non-negative integer weights, none
    above [M] with [(N + 1) * M <= 2^52] (every float64 sum of two
    distances is then exact), every nonzero entry of a result of [dijkstra]
    is the weight of a walk between the two vertices in the graph given (no
    distance is reported that no walk has). *)
Theorem dijkstra_entries_are_walks (fuel : nat) (mem : memory) (a : nat)
    (arr : ndarray) (directed : bool) (M : Z) (result : matrix Z) (i j : nat) :
  mem !! a = Some arr →
  is_square (nd_cells arr) = true →
  nonnegative (nd_cells arr) →
  in_exact_range M (nd_cells arr) →
  (nrows (nd_cells arr) ≤ fuel)%nat →
  result_cells (dijkstra fuel mem (Array a) directed None) = Some result →
  mget 0 result i j ≠ 0 →
  walk (nd_cells arr) directed i j (mget 0 result i j).
Proof.
  intros Hmem Hsq Hg HM Hfuel Hres Hne.
  destruct (dijkstra_all_sources M fuel mem a arr directed result Hmem Hsq Hg HM
              Hfuel Hres) as (_ & Hsound & _).
  by apply Hsound.
Qed.

Lemma dijkstra_entries_are_walks_witness :
  walk detour_graph true 0 2 10.
Proof.
  apply (dijkstra_entries_are_walks 5 (in_memory detour_graph) 0
           (mkArray float64 C_order detour_graph) true 30
           [[0; 1; 10; 20; 2]; [0; 0; 2; 0; 1]; [0; 0; 0; 0; 0];
            [0; 0; 0; 0; 0]; [0; 0; 1; 0; 0]] 0 2).
  - reflexivity.
  - reflexivity.
  - apply detour_graph_nonnegative.
  - apply detour_graph_in_exact_range.
  - simpl. lia.
  - vm_compute. reflexivity.
  - vm_compute. discriminate.
Defined.

(** X10: on a square array of [N] rows of non-negative integer weights,
    none above [M] with [(N + 1) * M <= 2^52], every vertex [j] that can be
    reached from another vertex [i] along nonzero cells has a positive
    entry [(i, j)] in the result of [dijkstra], the weight of a walk from
    [i] to [j]; a result exists when the graph has at most [max_rank]
    vertices. *)
Theorem dijkstra_reachable_entries_positive (fuel : nat) (mem : memory) (a : nat)
    (arr : ndarray) (directed : bool) (M : Z) (i j : nat) :
  mem !! a = Some arr →
  is_square (nd_cells arr) = true →
  nonnegative (nd_cells arr) →
  in_exact_range M (nd_cells arr) →
  (nrows (nd_cells arr) ≤ fuel)%nat →
  reachable (nd_cells arr) directed i j → i ≠ j →
  ((nrows (nd_cells arr) ≤ max_rank)%nat →
   ∃ result,
     result_cells (dijkstra fuel mem (Array a) directed None) = Some result)
  ∧ (∀ result,
       result_cells (dijkstra fuel mem (Array a) directed None) = Some result →
       0 < mget 0 result i j
       ∧ walk (nd_cells arr) directed i j (mget 0 result i j)).
Proof.
  intros Hmem Hsq Hg HM Hfuel Hreach Hne. split.
  - intros Hsmall. by apply (dijkstra_dense_returns fuel mem a arr).
  - intros result Hres.
    destruct (dijkstra_all_sources M fuel mem a arr directed result Hmem Hsq Hg HM
                Hfuel Hres) as (_ & _ & Hcomplete & _).
    pose proof (Hcomplete i j Hreach Hne) as Hw. split; [ | done ].
    destruct (walk_positive _ _ _ _ _ Hg Hw) as [_ Hpos]. by apply Hpos.
Qed.

Lemma detour_graph_reach : reachable detour_graph true 0%nat 2%nat.
Proof. apply (walk_reachable _ _ _ _ 3%Z), detour_walk. Qed.

Lemma dijkstra_reachable_entries_positive_witness :
  ((nrows detour_graph ≤ max_rank)%nat →
   ∃ result,
     result_cells (dijkstra 5 (in_memory detour_graph) (Array 0) true None)
     = Some result)
  ∧ (∀ result,
       result_cells (dijkstra 5 (in_memory detour_graph) (Array 0) true None)
       = Some result →
       0 < mget 0 result 0 2
       ∧ walk detour_graph true 0 2 (mget 0 result 0 2)).
Proof.
  apply (dijkstra_reachable_entries_positive 5 (in_memory detour_graph) 0
           (mkArray float64 C_order detour_graph) true 30 0 2).
  - reflexivity.
  - reflexivity.
  - apply detour_graph_nonnegative.
  - apply detour_graph_in_exact_range.
  - simpl. lia.
  - apply detour_graph_reach.
  - lia.
Defined.

(** X11: on a square array of [N] rows of non-negative integer weights,
    none above [M] with [(N + 1) * M <= 2^52], no entry of the result of
    [dijkstra] is below the entry of the result of [floyd_warshall], and
    the two results have the same zero entries. *)
Theorem dijkstra_not_below_floyd_warshall (fuel : nat) (mem : memory) (a : nat)
    (arr : ndarray) (directed overwrite : bool) (M : Z) (sparse dense : matrix Z)
    (i j : nat) :
  mem !! a = Some arr →
  is_square (nd_cells arr) = true →
  nonnegative (nd_cells arr) →
  in_exact_range M (nd_cells arr) →
  (nrows (nd_cells arr) ≤ fuel)%nat →
  result_cells (dijkstra fuel mem (Array a) directed None) = Some sparse →
  result_cells (floyd_warshall mem (Array a) directed overwrite) = Some dense →
  mget 0 dense i j ≤ mget 0 sparse i j
  ∧ (mget 0 sparse i j = 0 ↔ mget 0 dense i j = 0).
Proof.
  intros Hmem Hsq Hg HM Hfuel Hs Hd.
  rewrite (floyd_warshall_dense mem a arr directed overwrite Hmem Hsq) in Hd.
  injection Hd as <-.
  pose proof (is_square_square _ Hsq) as Hsq'.
  destruct (dijkstra_all_sources M fuel mem a arr directed sparse Hmem Hsq Hg HM
              Hfuel Hs) as (_ & Hsound & Hcomplete & Hdiag).
  destruct (decide (i = j)) as [->|Hne].
  { rewrite Hdiag, (_floyd_warshall_diagonal _ directed j Hsq' Hg). done. }
  destruct (decide (mget 0 sparse i j = 0)) as [Hz|Hnz].
  - assert (Hfz : mget 0 (_floyd_warshall (nd_cells arr) directed) i j = 0).
    { destruct (decide (mget 0 (_floyd_warshall (nd_cells arr) directed) i j = 0))
        as [|Hf]; [ done | exfalso ].
      apply (_floyd_warshall_sound M _ _ _ _ Hsq' Hg HM), walk_reachable in Hf.
      pose proof (Hcomplete i j Hf Hne) as Hw.
      destruct (walk_positive _ _ _ _ _ Hg Hw) as [_ Hpos].
      specialize (Hpos Hne). lia. }
    rewrite Hz, Hfz. done.
  - pose proof (Hsound i j Hnz) as Hw.
    pose proof (walk_source_in_range _ _ _ _ _ Hsq' Hw Hne) as Hi.
    destruct (_floyd_warshall_least M _ directed i j _ Hsq' Hg HM Hw Hi) as [Hwf Hle].
    destruct (walk_positive _ _ _ _ _ Hg Hwf) as [_ Hpos].
    specialize (Hpos Hne). split; [ done | ]. split; intros; lia.
Qed.

Lemma dijkstra_not_below_floyd_warshall_witness :
  mget 0 (_floyd_warshall detour_graph true) 0 2
  ≤ mget 0 [[0; 1; 10; 20; 2]; [0; 0; 2; 0; 1]; [0; 0; 0; 0; 0];
            [0; 0; 0; 0; 0]; [0; 0; 1; 0; 0]] 0 2
  ∧ (mget 0 [[0; 1; 10; 20; 2]; [0; 0; 2; 0; 1]; [0; 0; 0; 0; 0];
             [0; 0; 0; 0; 0]; [0; 0; 1; 0; 0]] 0 2 = 0
     ↔ mget 0 (_floyd_warshall detour_graph true) 0 2 = 0).
Proof.
  apply (dijkstra_not_below_floyd_warshall 5 (in_memory detour_graph) 0
           (mkArray float64 C_order detour_graph) true false 30
           [[0; 1; 10; 20; 2]; [0; 0; 2; 0; 1]; [0; 0; 0; 0; 0];
            [0; 0; 0; 0; 0]; [0; 0; 1; 0; 0]]
           (_floyd_warshall detour_graph true) 0 2).
  - reflexivity.
  - reflexivity.
  - apply detour_graph_nonnegative.
  - apply detour_graph_in_exact_range.
  - simpl. lia.
  - vm_compute. reflexivity.
  - reflexivity.
Defined.

(** X12: on a square array of non-negative weights a result of [dijkstra]
    has one row per vertex, a zero diagonal and no negative entry; a result
    exists when the graph has at most [max_rank] vertices. *)
Theorem dijkstra_diagonal_and_sign (fuel : nat) (mem : memory) (a : nat)
    (arr : ndarray) (directed : bool) :
  mem !! a = Some arr →
  is_square (nd_cells arr) = true →
  nonnegative (nd_cells arr) →
  (nrows (nd_cells arr) ≤ fuel)%nat →
  ((nrows (nd_cells arr) ≤ max_rank)%nat →
   ∃ result,
     result_cells (dijkstra fuel mem (Array a) directed None) = Some result)
  ∧ (∀ result,
       result_cells (dijkstra fuel mem (Array a) directed None) = Some result →
       length result = nrows (nd_cells arr)
       ∧ (∀ i, mget 0 result i i = 0)
       ∧ (∀ i j, 0 ≤ mget 0 result i j)).
Proof.
  intros Hmem Hsq Hg Hfuel. split.
  - intros Hsmall. by apply (dijkstra_dense_returns fuel mem a arr).
  - intros result Hres.
    by apply (dijkstra_all_sources_sign fuel mem a arr directed result).
Qed.

Lemma dijkstra_diagonal_and_sign_witness :
  ((nrows symmetric_detour_graph ≤ max_rank)%nat →
   ∃ result,
     result_cells (dijkstra 5 (in_memory symmetric_detour_graph) (Array 0) false None)
     = Some result)
  ∧ (∀ result,
       result_cells (dijkstra 5 (in_memory symmetric_detour_graph) (Array 0) false None)
       = Some result →
       length result = nrows symmetric_detour_graph
       ∧ (∀ i, mget 0 result i i = 0)
       ∧ (∀ i j, 0 ≤ mget 0 result i j)).
Proof.
  apply (dijkstra_diagonal_and_sign 5 (in_memory symmetric_detour_graph) 0
           (mkArray float64 C_order symmetric_detour_graph) false).
  - reflexivity.
  - reflexivity.
  - apply symmetric_detour_graph_nonnegative.
  - simpl. lia.
Defined.

(** X13: on a square array of [N] rows of non-negative integer weights,
    none above [M] with [(N + 1) * M <= 2^52], and with an explicit list of
    sources, the distances from a source [s] are in row [s] of the result
    of [dijkstra] (the row numbered by the vertex, whatever the position of
    [s] in the list): its zero cell is [(s, s)], every nonzero cell [(s, j)]
    is the weight of a walk from [s] to [j], and every vertex reachable
    from [s] has such a cell. *)
Theorem dijkstra_source_row (fuel : nat) (mem : memory) (a : nat)
    (arr : ndarray) (directed : bool) (M : Z) (sources : list nat)
    (result : matrix Z) (s j : nat) :
  mem !! a = Some arr →
  is_square (nd_cells arr) = true →
  nonnegative (nd_cells arr) →
  in_exact_range M (nd_cells arr) →
  (nrows (nd_cells arr) ≤ fuel)%nat →
  Forall (λ i, i < nrows (nd_cells arr))%nat sources →
  result_cells (dijkstra fuel mem (Array a) directed (Some sources)) = Some result →
  s ∈ sources →
  mget 0 result s s = 0
  ∧ (mget 0 result s j ≠ 0 → walk (nd_cells arr) directed s j (mget 0 result s j))
  ∧ (reachable (nd_cells arr) directed s j →
     walk (nd_cells arr) directed s j (mget 0 result s j)).
Proof.
  intros Hmem Hsq Hg HM Hfuel Hall Hres Hs.
  apply (dijkstra_dense_result fuel mem a arr directed (Some sources) result Hmem)
    in Hres.
  simpl in Hres.
  apply (_dijkstra_walks M) in Hres as (Hsound & Hreach & Hdiag);
    [ | done | done | done | done | ].
  2: { intros i Hi. by apply (proj1 (Forall_forall _ _) Hall). }
  split_and!; [ by apply Hdiag | by apply Hsound | by apply Hreach ].
Qed.

Lemma dijkstra_source_row_witness :
  mget 0 [[0; 1; 10; 20; 2]; [0; 0; 2; 0; 1]] 1 1 = 0
  ∧ (mget 0 [[0; 1; 10; 20; 2]; [0; 0; 2; 0; 1]] 1 2 ≠ 0 →
     walk detour_graph true 1 2 (mget 0 [[0; 1; 10; 20; 2]; [0; 0; 2; 0; 1]] 1 2))
  ∧ (reachable detour_graph true 1%nat 2%nat →
     walk detour_graph true 1 2 (mget 0 [[0; 1; 10; 20; 2]; [0; 0; 2; 0; 1]] 1 2)).
Proof.
  apply (dijkstra_source_row 5 (in_memory detour_graph) 0
           (mkArray float64 C_order detour_graph) true 30 [1; 0]%nat
           [[0; 1; 10; 20; 2]; [0; 0; 2; 0; 1]] 1 2).
  - reflexivity.
  - reflexivity.
  - apply detour_graph_nonnegative.
  - apply detour_graph_in_exact_range.
  - simpl. lia.
  - repeat constructor; simpl; lia.
  - vm_compute. reflexivity.
  - by left.
Defined.

(** ** The heap without decreases *)

(** X14: a client that inserts distinct nodes with any values into an
    empty heap and then extracts as many times gets every value back
    exactly once, in non-decreasing order (no [decrease_value] is used;
    the node array has at most [max_rank] nodes). *)
Theorem extract_min_sorts (fuel N : nat) (v : nat → Z) (xs : list nat) :
  NoDup xs → Forall (λ x, x < N)%nat xs → (N ≤ fuel)%nat → (N ≤ max_rank)%nat →
  ∃ out,
    extracted_values fuel N
      (map (λ x, op_insert x (v x)) xs ++ replicate (length xs) op_extract_min)
    = Some out
    ∧ out ≡ₚ map v xs
    ∧ ∀ i j a b, (i ≤ j)%nat → out !! i = Some a → out !! j = Some b → a ≤ b.
Proof.
  intros Hnd Hall Hfuel Hsmall. unfold extracted_values.
  pose proof (length_initial_nodes N) as HN.
  destruct (harness_inserts fuel v (replicate (length xs) op_extract_min) xs
              (empty_heap N) empty_forest [] [] (empty_heap_holds v N))
    as (st1 & F1 & Hrun1 & Hh1 & Hlen1).
  { done. }
  { simpl. by rewrite HN. }
  { simpl. by rewrite HN. }
  simpl in Hlen1. rewrite HN in Hlen1. simpl in Hh1.
  destruct (harness_extracts fuel v (length xs) st1 F1 xs [] Hh1 eq_refl)
    as (st2 & ext & Hrun2 & Hext & Hasc & _).
  { by rewrite Hlen1. }
  { by rewrite Hlen1. }
  exists (map v ext). rewrite Hrun1, Hrun2. split_and!; [ done | | done ].
  by rewrite Hext.
Qed.

Lemma extract_min_sorts_witness :
  ∃ out,
    extracted_values 4 4
      (map (λ x, op_insert x ((Z.of_nat x - 2) * (Z.of_nat x - 2))) [2; 0; 3; 1]%nat
       ++ replicate 4 op_extract_min)
    = Some out
    ∧ out ≡ₚ map (λ x, (Z.of_nat x - 2) * (Z.of_nat x - 2)) [2; 0; 3; 1]%nat
    ∧ ∀ i j a b, (i ≤ j)%nat → out !! i = Some a → out !! j = Some b → a ≤ b.
Proof.
  apply (extract_min_sorts 4 4 (λ x, (Z.of_nat x - 2) * (Z.of_nat x - 2)) [2; 0; 3; 1]%nat).
  - apply (bool_decide_unpack _). vm_compute. exact I.
  - repeat constructor.
  - lia.
  - unfold max_rank. lia.
Defined.

(** ** The heap with decreases *)

(** X15: [decrease_value] never loses or duplicates a node, also when it
    cuts a node from its parent.  On a node array of at most [max_rank]
    nodes, a client that inserts distinct nodes into an empty heap,
    extracts [k] of them, changes the values of nodes still in the heap
    with [decrease_value] any number of times, and then extracts the rest
    gets the value of each of the first [k] nodes and the final value of
    every other node, each exactly once (in an order that need not be
    sorted). *)
Theorem decrease_value_keeps_nodes (fuel N : nat) (v : nat → Z) (xs : list nat)
    (k : nat) :
  NoDup xs → Forall (λ x, x < N)%nat xs → (N ≤ fuel)%nat → (N ≤ max_rank)%nat →
  (k ≤ length xs)%nat →
  ∃ first rest,
    extracted_values fuel N
      (map (λ x, op_insert x (v x)) xs ++ replicate k op_extract_min)
    = Some (map v first)
    ∧ length first = k ∧ first ++ rest ≡ₚ xs
    ∧ ∀ ds, Forall (λ d, d.1 ∈ rest) ds →
        ∃ last,
          extracted_values fuel N
            ((map (λ x, op_insert x (v x)) xs ++ replicate k op_extract_min)
             ++ map (λ d, op_decrease_value d.1 d.2) ds
             ++ replicate (length xs - k) op_extract_min)
          = Some (map v first ++ map (foldl set_value v ds) last)
          ∧ last ≡ₚ rest.
Proof.
  intros Hnd Hall Hfuel Hsmall Hk. unfold extracted_values.
  pose proof (length_initial_nodes N) as HN.
  destruct (harness_inserts fuel v (replicate k op_extract_min) xs
              (empty_heap N) empty_forest [] [] (empty_heap_holds v N))
    as (st1 & F1 & Hrun1 & Hh1 & Hlen1).
  { done. }
  { simpl. by rewrite HN. }
  { simpl. by rewrite HN. }
  simpl in Hlen1. rewrite HN in Hlen1. simpl in Hh1.
  apply holds_contains in Hh1.
  destruct (harness_extracts_some fuel v [] k st1 F1 xs [] Hh1 Hk)
    as (st2 & F2 & first & rest & Hrun2 & Hfirst & Hperm & Hc2 & Hlen2).
  { by rewrite Hlen1. }
  { by rewrite Hlen1. }
  rewrite app_nil_r in Hrun2. simpl in Hrun2.
  assert (Hphase : harness_run fuel (empty_heap N, [])
                     (map (λ x, op_insert x (v x)) xs ++ replicate k op_extract_min)
                   = Some (st2, map v first)) by (by rewrite Hrun1, Hrun2).
  exists first, rest. split_and!; [ by rewrite Hphase | done | done | ].
  intros ds Hds.
  destruct (harness_decreases fuel (replicate (length xs - k) op_extract_min) ds v
              st2 F2 rest (map v first) Hc2 Hds)
    as (st3 & F3 & Hrun3 & Hc3 & Hlen3).
  { by rewrite Hlen2, Hlen1. }
  assert (Hrest : length rest = (length xs - k)%nat).
  { pose proof (Permutation_length Hperm) as Hpl. rewrite length_app in Hpl. lia. }
  destruct (harness_extracts_all fuel (foldl set_value v ds) (length xs - k) st3 F3 rest
              (map v first) Hc3 Hrest)
    as (st4 & last & Hrun4 & Hlast).
  { by rewrite Hlen3, Hlen2, Hlen1. }
  { by rewrite Hlen3, Hlen2, Hlen1. }
  exists last. split; [ | done ].
  rewrite harness_run_app, Hphase. cbn [mbind option_bind].
  by rewrite Hrun3, Hrun4.
Qed.

Lemma decrease_value_keeps_nodes_witness :
  ∃ first rest,
    extracted_values 4 4
      (map (λ x, op_insert x (1 + 4 * Z.of_nat x)) [0; 1; 2; 3]%nat
       ++ replicate 1 op_extract_min)
    = Some (map (λ x, 1 + 4 * Z.of_nat x) first)
    ∧ length first = 1%nat ∧ first ++ rest ≡ₚ [0; 1; 2; 3]%nat
    ∧ ∀ ds, Forall (λ d, d.1 ∈ rest) ds →
        ∃ last,
          extracted_values 4 4
            ((map (λ x, op_insert x (1 + 4 * Z.of_nat x)) [0; 1; 2; 3]%nat
              ++ replicate 1 op_extract_min)
             ++ map (λ d, op_decrease_value d.1 d.2) ds
             ++ replicate (length [0; 1; 2; 3]%nat - 1) op_extract_min)
          = Some (map (λ x, 1 + 4 * Z.of_nat x) first
                  ++ map (foldl set_value (λ x, 1 + 4 * Z.of_nat x) ds) last)
          ∧ last ≡ₚ rest.
Proof.
  apply (decrease_value_keeps_nodes 4 4 (λ x, 1 + 4 * Z.of_nat x) [0; 1; 2; 3]%nat 1).
  - apply (bool_decide_unpack _). vm_compute. exact I.
  - repeat constructor.
  - lia.
  - unfold max_rank. lia.
  - simpl. lia.
Defined.

(** A run of the kind above in which [decrease_value] cuts a node: after
    the first extraction node 2 is a child of node 1; the decrease of node
    2 below the value of its parent makes it a root, the heap's minimum,
    and it is extracted next. *)
Example decrease_value_cuts :
  ∃ heap nodes heap' nodes',
    harness_run 4 (empty_heap 4, [])
      [op_insert 0 1; op_insert 1 5; op_insert 2 9; op_insert 3 13; op_extract_min]
    = Some ((heap, nodes), [1])
    ∧ (parent <$> nodes !! 2%nat) = Some (Some 1%nat)
    ∧ harness_step 4 ((heap, nodes), [1]) (op_decrease_value 2 0)
      = Some ((heap', nodes'), [1])
    ∧ (parent <$> nodes' !! 2%nat) = Some None
    ∧ min_node heap' = Some 2%nat
    ∧ extracted_values 4 4
        [op_insert 0 1; op_insert 1 5; op_insert 2 9; op_insert 3 13; op_extract_min;
         op_decrease_value 2 0; op_extract_min; op_extract_min; op_extract_min]
      = Some [1; 0; 5; 13].
Proof.
  do 4 eexists. split; [ vm_compute; reflexivity | ].
  split; [ reflexivity | ]. split; [ vm_compute; reflexivity | ].
  split_and!; reflexivity.
Qed.

(** ** The dispatcher on dense arrays *)

Lemma not_square (g : matrix Z) : nrows g ≠ ncols g → is_square g = false.
Proof.
  intros Hne. destruct g as [|r g']; [ done | ].
  unfold is_square. cbn [forallb]. rewrite bool_decide_eq_false_2; [ done | ].
  intros Hr. apply Hne. unfold nrows, ncols. by rewrite Hr.
Qed.

(** X16: [graph_shortest_path] never writes into an array of the caller,
    whatever [overwrite] is: the dense argument is turned into a sparse
    matrix before the algorithms run, so a call that returns hands back a
    new array and leaves every existing array as it was. *)
Theorem graph_shortest_path_keeps_arrays (d : division) (fuel : nat) (mem : memory)
    (dist_matrix : dist_matrix_t) (directed : bool) (method : string)
    (overwrite : bool) (mem' : memory) (r : nat) :
  graph_shortest_path d fuel mem dist_matrix directed method overwrite
  = Return (mem', r) →
  r = length mem
  ∧ length mem' = S (length mem)
  ∧ ∀ a arr, mem !! a = Some arr → mem' !! a = Some arr.
Proof.
  unfold graph_shortest_path. intros H.
  destruct (as_sparse mem dist_matrix) as [[fmt m]|]; [ | done ].
  cbn zeta in H. case_bool_decide as Hfw.
  - unfold floyd_warshall, alloc in H.
    rewrite lookup_app_r, Nat.sub_diag in H by done. cbn [lookup list_lookup] in H.
    destruct (negb _); [ done | ]. injection H as <- <-.
    split_and!; [ done | | ].
    + rewrite length_insert, length_app. simpl. lia.
    + intros a arr Ha. pose proof (lookup_lt_Some _ _ _ Ha).
      rewrite list_lookup_insert_ne by lia. by apply lookup_app_l_Some.
  - case_bool_decide as Hd; [ | done ].
    unfold dijkstra in H.
    destruct (dijkstra_view mem (Sparse fmt m) directed) as [view|]; [ | done ].
    destruct (existsb _ _); [ done | ]. destruct (negb _); [ done | ].
    cbn zeta in H.
    destruct (_dijkstra fuel view _ _ directed) as [graph|]; simpl in H; [ | done ].
    injection H as <- <-. split_and!; [ done | | ].
    + rewrite length_app. simpl. lia.
    + intros a arr Ha. by apply lookup_app_l_Some.
Qed.

Lemma graph_shortest_path_keeps_arrays_witness :
  1%nat = length (in_memory [[0; 1; 5]; [0; 0; 2]; [0; 0; 0]])
  ∧ length [mkArray float64 C_order [[0; 1; 5]; [0; 0; 2]; [0; 0; 0]];
            mkArray float64 C_order [[0; 1; 3]; [0; 0; 2]; [0; 0; 0]]]
    = S (length (in_memory [[0; 1; 5]; [0; 0; 2]; [0; 0; 0]]))
  ∧ ∀ a arr, in_memory [[0; 1; 5]; [0; 0; 2]; [0; 0; 0]] !! a = Some arr →
             [mkArray float64 C_order [[0; 1; 5]; [0; 0; 2]; [0; 0; 0]];
              mkArray float64 C_order [[0; 1; 3]; [0; 0; 2]; [0; 0; 0]]] !! a
             = Some arr.
Proof.
  apply (graph_shortest_path_keeps_arrays floor_division 10
           (in_memory [[0; 1; 5]; [0; 0; 2]; [0; 0; 0]]) (Array 0) true "FW" true).
  vm_compute. reflexivity.
Defined.

(** X17: on a square dense array, [graph_shortest_path] with method ['FW']
    returns the matrix [floyd_warshall] returns on the array (the
    conversion to a sparse matrix and back loses nothing), and with
    method ['D'] it behaves exactly as [dijkstra] on the array. *)
Theorem graph_shortest_path_on_arrays (d : division) (fuel : nat) (mem : memory)
    (a : nat) (arr : ndarray) (directed overwrite : bool) :
  mem !! a = Some arr →
  is_square (nd_cells arr) = true →
  result_cells (graph_shortest_path d fuel mem (Array a) directed "FW" overwrite)
  = result_cells (floyd_warshall mem (Array a) directed overwrite)
  ∧ graph_shortest_path d fuel mem (Array a) directed "D" overwrite
    = dijkstra fuel mem (Array a) directed None.
Proof.
  intros Hmem Hsq. unfold graph_shortest_path, as_sparse. rewrite Hmem.
  cbn [mbind option_bind]. cbn zeta. split.
  - change (choose_method d _ _ "FW") with "FW".
    rewrite bool_decide_eq_true_2 by done.
    rewrite floyd_warshall_sparse.
    + rewrite (toarray_csr_matrix_square _ Hsq).
      by rewrite (floyd_warshall_dense mem a arr directed overwrite Hmem Hsq).
    + change (shape (csr_matrix (nd_cells arr)))
        with (nrows (nd_cells arr), ncols (nd_cells arr)).
      simpl. by rewrite is_square_ncols.
  - change (choose_method d _ _ "D") with "D".
    rewrite bool_decide_eq_false_2 by done.
    rewrite bool_decide_eq_true_2 by done.
    unfold dijkstra, dijkstra_view. by rewrite Hmem.
Qed.

Lemma graph_shortest_path_on_arrays_witness :
  result_cells (graph_shortest_path floor_division 5 (in_memory detour_graph)
                  (Array 0) true "FW" true)
  = result_cells (floyd_warshall (in_memory detour_graph) (Array 0) true true)
  ∧ graph_shortest_path floor_division 5 (in_memory detour_graph) (Array 0) true "D" true
    = dijkstra 5 (in_memory detour_graph) (Array 0) true None.
Proof.
  apply (graph_shortest_path_on_arrays floor_division 5 (in_memory detour_graph) 0
           (mkArray float64 C_order detour_graph) true true); reflexivity.
Defined.

(** X18: a dense array that is not square is rejected by both entry
    points with the same error: by [floyd_warshall] always, and by
    [dijkstra] when no entry is negative (a negative entry is reported
    first). *)
Theorem non_square_arrays_rejected (fuel : nat) (mem : memory) (a : nat)
    (arr : ndarray) (directed overwrite : bool) (indices : option (list nat)) :
  mem !! a = Some arr →
  nrows (nd_cells arr) ≠ ncols (nd_cells arr) →
  floyd_warshall mem (Array a) directed overwrite
  = ValueError "dist_matrix must have shape (N, N)"
  ∧ (nonnegative (nd_cells arr) →
     dijkstra fuel mem (Array a) directed indices
     = ValueError "dist_matrix must have shape (N, N)").
Proof.
  intros Hmem Hne. split.
  - unfold floyd_warshall.
    assert (Hloc : ∃ mem' graph arr',
               (if overwrite then np_asarray mem a else np_array mem a)
               = Some (mem', graph)
               ∧ mem' !! graph = Some arr' ∧ nd_cells arr' = nd_cells arr).
    { unfold np_asarray, np_array, alloc. rewrite Hmem. cbn [mbind option_bind].
      destruct overwrite.
      - destruct (bool_decide _ && bool_decide _).
        + by exists mem, a, arr.
        + eexists _, _, _. split; [ done | ].
          by rewrite lookup_app_r, Nat.sub_diag.
      - eexists _, _, _. split; [ done | ].
        by rewrite lookup_app_r, Nat.sub_diag. }
    destruct Hloc as (mem' & graph & arr' & -> & -> & ->).
    by rewrite (not_square _ Hne).
  - intros Hpos. unfold dijkstra, dijkstra_view. rewrite Hmem.
    cbn [mbind option_bind]. rewrite (csr_matrix_nonnegative _ Hpos).
    change (shape (csr_matrix (nd_cells arr)))
      with (nrows (nd_cells arr), ncols (nd_cells arr)).
    cbn [fst snd]. by rewrite bool_decide_eq_false_2.
Qed.

Lemma non_square_arrays_rejected_witness :
  floyd_warshall (in_memory [[0; 1; 5]; [0; 0; 2]]) (Array 0) true false
  = ValueError "dist_matrix must have shape (N, N)"
  ∧ (nonnegative [[0; 1; 5]; [0; 0; 2]] →
     dijkstra 5 (in_memory [[0; 1; 5]; [0; 0; 2]]) (Array 0) true None
     = ValueError "dist_matrix must have shape (N, N)").
Proof.
  apply (non_square_arrays_rejected 5 (in_memory [[0; 1; 5]; [0; 0; 2]]) 0
           (mkArray float64 C_order [[0; 1; 5]; [0; 0; 2]]) true false None).
  - reflexivity.
  - simpl. lia.
Defined.

(** ** The dense algorithm on its own result *)

Lemma square_is_square {A} (g : matrix A) : square (nrows g) g → is_square g = true.
Proof.
  intros [_ Hrows]. unfold is_square. apply forallb_forall. intros r Hr.
  apply list_elem_of_In, list_elem_of_lookup in Hr as [i Hi].
  apply bool_decide_eq_true. by apply (Hrows i).
Qed.

(** X19: [floyd_warshall] is idempotent on square arrays of [N] rows of
    non-negative integer weights, none above [M] with
    [(N + 1) * M <= 2^52]: run on a result of itself it returns the same
    matrix. *)
Theorem floyd_warshall_idempotent (mem : memory) (a : nat) (arr : ndarray)
    (directed overwrite overwrite' : bool) (M : Z) (result : matrix Z) :
  mem !! a = Some arr →
  is_square (nd_cells arr) = true →
  nonnegative (nd_cells arr) →
  in_exact_range M (nd_cells arr) →
  result_cells (floyd_warshall mem (Array a) directed overwrite) = Some result →
  result_cells (floyd_warshall (in_memory result) (Array 0) directed overwrite')
  = Some result.
Proof.
  intros Hmem Hsq Hg HM Hres.
  rewrite (floyd_warshall_dense mem a arr directed overwrite Hmem Hsq) in Hres.
  injection Hres as <-.
  pose proof (is_square_square _ Hsq) as Hsq'.
  rewrite (floyd_warshall_dense (in_memory (_floyd_warshall (nd_cells arr) directed)) 0
             (mkArray float64 C_order (_floyd_warshall (nd_cells arr) directed))
             directed overwrite' eq_refl).
  - simpl. f_equal. by apply (_floyd_warshall_idempotent M).
  - simpl. apply square_is_square. rewrite nrows__floyd_warshall by done.
    by apply _floyd_warshall_square.
Qed.

Lemma floyd_warshall_idempotent_witness :
  result_cells (floyd_warshall (in_memory (_floyd_warshall detour_graph true))
                               (Array 0) true true)
  = Some (_floyd_warshall detour_graph true).
Proof.
  apply (floyd_warshall_idempotent (in_memory detour_graph) 0
           (mkArray float64 C_order detour_graph) true false true 30
           (_floyd_warshall detour_graph true)).
  - reflexivity.
  - reflexivity.
  - apply detour_graph_nonnegative.
  - apply detour_graph_in_exact_range.
  - reflexivity.
Defined.

(** ** Rounding outside the exact range *)

(** Float64 addition rounds to 53 significant bits, ties to even. *)
Example f64_add_rounds :
  f64_add (2 ^ 53) 3 = 2 ^ 53 + 4
  ∧ f64_add (2 ^ 53) 1 = 2 ^ 53
  ∧ f64_add (2 ^ 53 + 4) 3 = 2 ^ 53 + 8
  ∧ f64_add (2 ^ 1023) (2 ^ 1023) = 2 ^ 1024.
Proof. split_and!; vm_compute; reflexivity. Qed.

(** On [long_path_graph] the only walk from 0 to 3 weighs 2^53 + 6; the
    dense algorithm reports 2^53 + 8, and 2^53 + 6 when it is run again
    on its own result. *)
Example floyd_warshall_rounds :
  mget 0 (_floyd_warshall long_path_graph true) 0 3 = 2 ^ 53 + 8
  ∧ mget 0 (_floyd_warshall (_floyd_warshall long_path_graph true) true) 0 3
    = 2 ^ 53 + 6.
Proof. split; vm_compute; reflexivity. Qed.

(** On [late_long_edge_graph] the only walk from 0 to 3 weighs 2^53 + 3;
    the sparse algorithm reports 2^53 + 2 and the dense one 2^53 + 4. *)
Example dijkstra_rounds :
  ∃ result,
    result_cells (dijkstra 4 (in_memory late_long_edge_graph) (Array 0) true None)
    = Some result
    ∧ mget 0 result 0 3 = 2 ^ 53 + 2
    ∧ mget 0 (_floyd_warshall late_long_edge_graph true) 0 3 = 2 ^ 53 + 4.
Proof. eexists. split; [ vm_compute; reflexivity | split; vm_compute; reflexivity ]. Qed.
